(** * Symbol contrast audit: pixel classification and contrast statistics

    A shallow embedding of the two analysis paths of the repository:

    - the batch command-line tool [symbol_contrast.js] (module [Batch],
      function [analyzeOne]), and
    - the interactive page [web/app.js] (module [Web], function [analyze]).

    Integers (pixel bytes, coordinates, indices, integer options) are [Z].
    JavaScript numbers that hold fractional values (luminances, contrast
    ratios, percentiles, thresholds) are idealised as real numbers [R]:
    IEEE-754 rounding of [+ - * /] and of [Math.pow] is not modelled.
    Typed arrays ([Uint8Array], [Int32Array]) are lists read with [!!]
    and written with [<[ i := v ]>]; a write outside the array is dropped
    and a read outside yields [None] (JavaScript's [undefined]). *)

From Stdlib Require Import Ascii.
From Stdlib Require Import ZArith List Bool Lia Reals Lra Permutation String Sorted.
From Stdlib Require Import Zfloor.
From Stdlib Require SpecFloat.
From stdpp Require Import base list list_numbers strings gmap.

Open Scope Z_scope.

(** ** Data model *)

(** [imageData.width], [imageData.height], [imageData.data] in the page;
    [meta.width], [meta.height], [raw] in the batch tool.  [data] is the
    flat RGBA8 byte buffer, four entries per pixel, row-major. *)
Record ImageData : Type := mkImage {
  width : Z;
  height : Z;
  data : list Z
}.

(** A colour as the three-element array [[r, g, b]]. *)
Record rgb : Type := mkRgb { red : Z; green : Z; blue : Z }.

(** Array access [a[i]] with an integer index: [None] is [undefined]. *)
Definition zget {A : Type} (l : list A) (i : Z) : option A :=
  if i <? 0 then None else l !! Z.to_nat i.

(** Typed-array write [a[i] = v]; out-of-range writes are ignored. *)
Definition zset {A : Type} (l : list A) (i : Z) (v : A) : list A :=
  if i <? 0 then l else <[ Z.to_nat i := v ]> l.

(** Truthiness of a [Uint8Array] cell: [undefined] and [0] are falsy. *)
Definition truthy (o : option bool) : bool :=
  match o with Some true => true | _ => false end.

(** [new Uint8Array(n)]: zero-filled; a negative [n] is excluded by the
    callers (dimensions are positive). *)
Definition new_mask (n : Z) : list bool := replicate (Z.to_nat n) false.

(** [for (let i = 0; i < n; i++) body(i)] threading the loop state. *)
Definition for_upto {St : Type} (n : Z) (body : Z -> St -> St) (s : St) : St :=
  fold_left (fun s i => body i s) (seqZ 0 n) s.

(** ** The near-background predicate (identical in both files)

    [Math.sqrt(n) <= d] for an integer [n >= 0] and an integer option [d]
    (both call sites read [nearBgDist] with [parseInt]) holds exactly when
    [0 <= d] and [n <= d * d]; see [sqrt_le_spec] below. *)
Definition sqrt_le (n d : Z) : bool := (0 <=? d) && (n <=? d * d).

Section NearBg.
Variables (segBg : rgb) (alphaBg nearBgDist : Z).

(** [isNearBg(r, g, b, a)]; an [undefined] argument makes the
    comparison it takes part in false. *)
Definition isNearBg (r g b a : option Z) : bool :=
  if match a with Some a => a <=? alphaBg | None => false end then true
  else match r, g, b with
       | Some r, Some g, Some b =>
           let dr := red segBg - r in
           let dg := green segBg - g in
           let db := blue segBg - b in
           sqrt_le (dr * dr + dg * dg + db * db) nearBgDist
       | _, _, _ => false
       end.

(** [isNearBg(data[off], data[off+1], data[off+2], data[off+3])]. *)
Definition nearAtOffset (bytes : list Z) (off : Z) : bool :=
  isNearBg (zget bytes off) (zget bytes (off + 1))
           (zget bytes (off + 2)) (zget bytes (off + 3)).
End NearBg.

(** ** Contrast mathematics (identical in both files) *)

Section Contrast.
Local Open Scope R_scope.

(** Comparisons of numbers as booleans: [x <= y] and [x < y]. *)
Definition Rleb (x y : R) : bool := if Rle_dec x y then true else false.
Definition Rltb (x y : R) : bool := if Rlt_dec x y then true else false.

(** [Math.pow(x, y)] for a positive base. *)
Definition Math_pow (x y : R) : R := Rpower x y.

(** [Math.round]: nearest integer, halves towards plus infinity. *)
Definition Math_round (x : R) : Z := Zfloor (x + 0.5).

Definition srgbToLinear (c : R) : R :=
  if Rleb c 0.04045 then c / 12.92 else Math_pow ((c + 0.055) / 1.055) 2.4.

Definition relLuminance (r8 g8 b8 : Z) : R :=
  let r := srgbToLinear (IZR r8 / 255) in
  let g := srgbToLinear (IZR g8 / 255) in
  let b := srgbToLinear (IZR b8 / 255) in
  0.2126 * r + 0.7152 * g + 0.0722 * b.

(** [composite] of the batch tool; the page inlines the same three
    expressions in [contrastRatioPixelVsBg]. *)
Definition composite (r8 g8 b8 a8 : Z) (bg : rgb) : rgb :=
  let a := IZR a8 / 255 in
  mkRgb (Math_round (a * IZR r8 + (1 - a) * IZR (red bg)))
        (Math_round (a * IZR g8 + (1 - a) * IZR (green bg)))
        (Math_round (a * IZR b8 + (1 - a) * IZR (blue bg))).

Definition contrastRatioPixelVsBg (r8 g8 b8 a8 : Z) (bg : rgb) : R :=
  let c := composite r8 g8 b8 a8 bg in
  let Lp := relLuminance (red c) (green c) (blue c) in
  let Lb := relLuminance (red bg) (green bg) (blue bg) in
  let L1 := Rmax Lp Lb in
  let L2 := Rmin Lp Lb in
  (L1 + 0.05) / (L2 + 0.05).

(** A number-valued JavaScript result: a number, [null], or a value
    that behaves as [NaN] in arithmetic and comparisons ([undefined]
    or [NaN] itself). *)
Inductive jsnum : Type :=
| Num (r : R)
| Null
| NotANumber.

(** [sorted[i]] as a number-valued result. *)
Definition item (sorted : list R) (i : Z) : jsnum :=
  match zget sorted i with Some r => Num r | None => NotANumber end.

(** [v * k] and [u + v] where [k] is a number. *)
Definition jmul (v : jsnum) (k : R) : jsnum :=
  match v with Num r => Num (r * k) | Null => Num (0 * k) | NotANumber => NotANumber end.
Definition jadd (u v : jsnum) : jsnum :=
  match u, v with
  | NotANumber, _ | _, NotANumber => NotANumber
  | Num a, Num b => Num (a + b)
  | Num a, Null => Num (a + 0)
  | Null, Num b => Num (0 + b)
  | Null, Null => Num (0 + 0)
  end.

(** [v >= t]: [null] converts to [0], [NaN] compares false. *)
Definition jge (v : jsnum) (t : R) : bool :=
  match v with Num r => Rleb t r | Null => Rleb t 0 | NotANumber => false end.

Definition len {A : Type} (l : list A) : Z := Z.of_nat (length l).

Definition percentile (sorted : list R) (p : R) : jsnum :=
  if len sorted =? 0 then Null
  else
    let idx := IZR (len sorted - 1) * p in
    let lo := Zfloor idx in
    let hi := Zceil idx in
    if (lo =? hi)%Z then item sorted lo
    else
      let w := idx - IZR lo in
      jadd (jmul (item sorted lo) (1 - w)) (jmul (item sorted hi) w).

(** [sort((a, b) => a - b)]: ascending order. *)
Fixpoint insert_asc (x : R) (l : list R) : list R :=
  match l with
  | [] => [x]
  | y :: l' => if Rleb x y then x :: l else y :: insert_asc x l'
  end.
Definition sort_asc (l : list R) : list R := foldr insert_asc [] l.

(** [(100 * ratios.filter((x) => x < below).length) / ratios.length] *)
Definition pctBelowOf (ratios : list R) (below : R) : R :=
  100 * IZR (len (filter (fun x => Rltb x below = true) ratios)) / IZR (len ratios).
End Contrast.

(** ** Loops over the pixel grid (shared shapes) *)

(** [for (let y = 0; y < height; y++) for (let x = 0; x < width; x++)] *)
Definition scan {St : Type} (img : ImageData) (body : Z -> Z -> St -> St) (s : St) : St :=
  for_upto (height img) (fun y => for_upto (width img) (fun x => body x y)) s.

(** The values [lo, lo + 1, ..., hi] of [for (let d = lo; d <= hi; d++)]. *)
Definition range_incl (lo hi : Z) : list Z := seqZ lo (hi - lo + 1).

(** The neighbourhood test of the edge band (the same text in both
    files): the flag [near] after the two nested loops over [dy] and
    [dx]; [existsb] stops at the first hit like the [break] and the
    [!near] loop condition do. *)
Definition nearBackground (img : ImageData) (bg : list bool) (radius x y : Z) : bool :=
  existsb (fun dy =>
    existsb (fun dx =>
      let xx := x + dx in
      let yy := y + dy in
      if (xx <? 0) || (yy <? 0) || (xx >=? width img) || (yy >=? height img)
      then false
      else truthy (zget bg (yy * width img + xx)))
      (range_incl (- radius) radius))
    (range_incl (- radius) radius).

(** A byte of the buffer where the code needs a number.  A read outside
    the buffer is taken as [0]; a buffer of [4 * width * height] entries
    (see [well_formed]) is never read outside. *)
Definition byte (bytes : list Z) (off : Z) : Z := default 0 (zget bytes off).

(** Result of a computation containing the fill's [while] loop. *)
Inductive outcome (A : Type) : Type :=
| Returned (a : A)
| Thrown
| Unfinished.
Arguments Returned {A} a.
Arguments Thrown {A}.
Arguments Unfinished {A}.

(** ** Batch path: [analyzeOne], segmentation (LIFO worklist) *)
Module Batch.

(** [{ label, rgb }] as [parseColor] builds it. *)
Record BackgroundSpec : Type := mkBg { label : string; bg_rgb : rgb }.

Section Segmentation.
Variables (img : ImageData) (segBg : rgb) (alphaBg nearBgDist : Z).

(** [idx = (x, y) => (y * width + x) * 4] *)
Definition idx (x y : Z) : Z := (y * width img + x) * 4.

(** Loop state of the fill: the mask [bg] and the array [q] used as
    a stack; the head of the list is the last element of [q]. *)
Definition fill_state : Type := (list bool * list (Z * Z))%type.

Definition pushIf (x y : Z) (st : fill_state) : fill_state :=
  let '(bg, q) := st in
  if (x <? 0) || (y <? 0) || (x >=? width img) || (y >=? height img)
  then st
  else
    let p := y * width img + x in
    if truthy (zget bg p) then st
    else if nearAtOffset segBg alphaBg nearBgDist (data img) (idx x y)
         then (zset bg p true, (x, y) :: q)
         else st.

(** The two seeding loops over the perimeter. *)
Definition seed (st : fill_state) : fill_state :=
  let st := for_upto (width img)
              (fun x st => pushIf x (height img - 1) (pushIf x 0 st)) st in
  for_upto (height img)
    (fun y st => pushIf (width img - 1) y (pushIf 0 y st)) st.

(** One iteration of [while (q.length)]: pop, then four [pushIf]. *)
Definition visit (x y : Z) (st : fill_state) : fill_state :=
  pushIf x (y - 1) (pushIf x (y + 1) (pushIf (x - 1) y (pushIf (x + 1) y st))).

(** The [while] loop, bounded by [fuel] iterations; [None] when the
    bound is reached with work left. *)
Fixpoint drain (fuel : nat) (st : fill_state) : option (list bool) :=
  match st with
  | (bg, []) => Some bg
  | (bg, (x, y) :: q) =>
      match fuel with
      | O => None
      | S fuel => drain fuel (visit x y (bg, q))
      end
  end.

(** Lines 232-260: the background mask [bg]. *)
Definition floodFill : option (list bool) :=
  drain (Z.to_nat (width img * height img))
        (seed (new_mask (width img * height img), [])).
End Segmentation.

(** *** Foreground, edge band, ratios, statistics *)

Record Opts : Type := mkOpts {
  nearBgDist : Z;
  bandRadius : Z;
  threshold : R;
  maxPctBelow : R;
  p : R;
  requireBoth : bool;
  backgrounds : list BackgroundSpec;
  segBg : BackgroundSpec;
  alphaBg : Z
}.

Record Stats : Type := mkStats {
  count : Z;
  min_ : jsnum;
  pX : jsnum;
  median : jsnum;
  pctBelow : R
}.

Definition statsForRatios (ratios : list R) (p below : R) : Stats :=
  if len ratios =? 0 then mkStats 0 Null Null Null 0%R
  else
    let s := sort_asc ratios in
    mkStats (len ratios) (item s 0) (percentile s p) (percentile s 0.5%R)
            (pctBelowOf ratios below).

Definition passByStats (st : Stats) (threshold maxPctBelow : R) : bool :=
  if count st =? 0 then false
  else jge (pX st) threshold && Rleb (pctBelow st) maxPctBelow.

Record WorstPixel : Type := mkWorst {
  wr : Z; wg : Z; wb : Z; wa : Z; wx : Z; wy : Z
}.

(** Locals of [collectRatios]; [worst = None] is [Infinity]. *)
Record Collected : Type := mkCollected {
  ratios : list R;
  worst : option R;
  worstPixel : option WorstPixel
}.

(** What [collectRatios] returns: [{...st, pass, worst, worstPixel}]. *)
Record BgResult : Type := mkBgResult {
  stats : Stats;
  pass : bool;
  res_worst : jsnum;
  res_worstPixel : option WorstPixel
}.

Section Pipeline.
Variables (img : ImageData) (opts : Opts).

(** Lines 262-272: [fg] and [fgCount]. *)
Definition foreground (bg : list bool) : list bool * Z :=
  scan img (fun x y '(fg, fgCount) =>
    let p := y * width img + x in
    if negb (truthy (zget bg p)) then (zset fg p true, fgCount + 1)
    else (fg, fgCount))
    (new_mask (width img * height img), 0).

(** Lines 274-298: [band] and [bandCount]. *)
Definition edgeBand (bg fg : list bool) : list bool * Z :=
  scan img (fun x y '(band, bandCount) =>
    let p := y * width img + x in
    if negb (truthy (zget fg p)) then (band, bandCount)
    else if nearBackground img bg (bandRadius opts) x y
         then (zset band p true, bandCount + 1)
         else (band, bandCount))
    (new_mask (width img * height img), 0).

Definition collect_pixel (mask : list bool) (bgColor : rgb) (x y : Z)
    (acc : Collected) : Collected :=
  let p := y * width img + x in
  if negb (truthy (zget mask p)) then acc
  else
    let i := idx img x y in
    let r := byte (data img) i in
    let g := byte (data img) (i + 1) in
    let b := byte (data img) (i + 2) in
    let a := byte (data img) (i + 3) in
    let cr := contrastRatioPixelVsBg r g b a bgColor in
    let below := match worst acc with None => true | Some w => Rltb cr w end in
    if below
    then mkCollected (ratios acc ++ [cr]) (Some cr) (Some (mkWorst r g b a x y))
    else mkCollected (ratios acc ++ [cr]) (worst acc) (worstPixel acc).

Definition collected (mask : list bool) (bgColor : rgb) : Collected :=
  scan img (collect_pixel mask bgColor) (mkCollected [] None None).

Definition collectRatios (mask : list bool) (bgColor : rgb) : BgResult :=
  let c := collected mask bgColor in
  let st := statsForRatios (ratios c) (p opts) (threshold opts) in
  mkBgResult st (passByStats st (threshold opts) (maxPctBelow opts))
             (match worst c with None => Null | Some w => Num w end)
             (worstPixel c).

Record Result : Type := mkResult {
  size : Z * Z;
  fgPixels : Z;
  bandPixels : Z;
  res_backgrounds : gmap string BgResult;
  overall : bool;
  byBackground : gmap string bool;
  (* not returned by the code: the masks [bg] and [band], kept so that
     the statements can speak about them *)
  res_bg : list bool;
  res_band : list bool
}.

Definition passOf (perBg : gmap string BgResult) (b : BackgroundSpec) : bool :=
  match perBg !! label b with Some r => pass r | None => false end.

Definition analyzeOne : outcome Result :=
  if (width img =? 0) || (height img =? 0) then Thrown
  else
    match floodFill img (bg_rgb (segBg opts)) (alphaBg opts) (nearBgDist opts) with
    | None => Unfinished
    | Some bg =>
        let '(fg, fgCount) := foreground bg in
        let '(band, bandCount) := edgeBand bg fg in
        let perBg :=
          fold_left (fun perBg b => <[ label b := collectRatios band (bg_rgb b) ]> perBg)
                    (backgrounds opts) (∅ : gmap string BgResult) in
        let passes := map (passOf perBg) (backgrounds opts) in
        let overall := if requireBoth opts then forallb (fun v => v) passes
          else existsb (fun v => v) passes in
        let byBackground :=
          fold_left (fun m b => <[ label b := passOf perBg b ]> m)
                    (backgrounds opts) (∅ : gmap string bool) in
        Returned (mkResult (width img, height img) fgCount bandCount perBg
                           overall byBackground bg band)
    end.
End Pipeline.

End Batch.

(** ** Browser path: [analyze], segmentation (FIFO worklist) *)
Module Web.

Section Segmentation.
Variables (img : ImageData) (segBg : rgb) (alphaBg nearBgDist : Z).

(** Loop state: the mask [bg], the [Int32Array] [queue] and the two
    cursors [qHead], [qTail]. *)
Record fill_state : Type := mkFill {
  bg : list bool;
  queue : list Z;
  qHead : Z;
  qTail : Z
}.

Definition pushIf (idx : Z) (st : fill_state) : fill_state :=
  if truthy (zget (bg st) idx) then st
  else if nearAtOffset segBg alphaBg nearBgDist (data img) (idx * 4)
       then {| bg := zset (bg st) idx true;
               queue := zset (queue st) (qTail st) idx;
               qHead := qHead st;
               qTail := qTail st + 1 |}
       else st.

Definition seed (st : fill_state) : fill_state :=
  let st := for_upto (width img)
              (fun x st => pushIf ((height img - 1) * width img + x) (pushIf x st)) st in
  for_upto (height img)
    (fun y st => pushIf (y * width img + (width img - 1)) (pushIf (y * width img) st)) st.

Definition guarded (c : bool) (f : fill_state -> fill_state) (st : fill_state) :=
  if c then f st else st.

(** Body of [while (qHead < qTail)] once [idx = queue[qHead++]] is
    read; [%] and [| 0] truncate like [Z.rem] and [Z.quot]. *)
Definition visit (idx : Z) (st : fill_state) : fill_state :=
  let x := Z.rem idx (width img) in
  let y := Z.quot idx (width img) in
  let st := guarded (x >? 0) (pushIf (idx - 1)) st in
  let st := guarded (x <? width img - 1) (pushIf (idx + 1)) st in
  let st := guarded (y >? 0) (pushIf (idx - width img)) st in
  guarded (y <? height img - 1) (pushIf (idx + width img)) st.

Definition advance (st : fill_state) : fill_state :=
  {| bg := bg st; queue := queue st; qHead := qHead st + 1; qTail := qTail st |}.

Fixpoint drain (fuel : nat) (st : fill_state) : option (list bool) :=
  if qHead st <? qTail st then
    match fuel with
    | O => None
    | S fuel =>
        match zget (queue st) (qHead st) with
        | Some idx => drain fuel (visit idx (advance st))
        | None => drain fuel (advance st)
        end
    end
  else Some (bg st).

(** Lines 182-227: the mask [bg] after the border-seeded fill. *)
Definition floodFill : option (list bool) :=
  let total := width img * height img in
  drain (Z.to_nat total)
        (seed {| bg := new_mask total; queue := replicate (Z.to_nat total) 0;
                 qHead := 0; qTail := 0 |}).
End Segmentation.

(** *** Fallback tiers, masks, ratios, statistics *)

(** The three values of the [sampleMode] selector; [Band] stands for
    every value other than ["all"] and ["stroke"]. *)
Inductive SampleMode : Type := Band | All | Stroke.

Record Opts : Type := mkOpts {
  opt_bg : rgb;
  segBg : rgb;
  threshold : R;
  maxPctBelow : R;
  p : R;
  nearBgDist : Z;
  bandRadius : Z;
  alphaBg : Z;
  minAlpha : Z;
  sampleMode : SampleMode;
  strokeLumaMax : R
}.

Record Stats : Type := mkStats {
  count : Z;
  pX : jsnum;
  median : jsnum;
  min_ : jsnum;
  pctBelow : R;
  bandCount : Z
}.

(** [{ stats, pass, mask: failing }] *)
Record Result : Type := mkResult {
  stats : Stats;
  pass : bool;
  mask : list bool
}.

Section Pipeline.
Variables (img : ImageData) (opts : Opts).

Definition total : Z := width img * height img.

Definition near (i : Z) : bool :=
  nearAtOffset (segBg opts) (alphaBg opts) (nearBgDist opts) (data img) (i * 4).

(** Lines 229-232: [bgCount] after the fill. *)
Definition countMarked (bg : list bool) : Z :=
  for_upto total (fun i c => if truthy (zget bg i) then c + 1 else c) 0.

(** Lines 234-242: the global re-classification when [bgCount === 0]. *)
Definition globalNearBg (st : list bool * Z) : list bool * Z :=
  if snd st =? 0 then
    for_upto total (fun i '(bg, bgCount) =>
      if near i then (zset bg i true, bgCount + 1) else (bg, bgCount)) st
  else st.

(** Lines 244-280: [band] and [bandCount]. *)
Definition bandOf (bg : list bool) (bgCount : Z) : list bool * Z :=
  if bgCount =? 0 then
    let edge := Z.max 0 (bandRadius opts) in
    scan img (fun x y '(band, bandCount) =>
      let idx := y * width img + x in
      if (x <=? edge) || (y <=? edge) || (x >=? width img - 1 - edge)
         || (y >=? height img - 1 - edge)
      then (zset band idx true, bandCount + 1)
      else (band, bandCount))
      (new_mask total, 0)
  else
    let radius := bandRadius opts in
    scan img (fun x y '(band, bandCount) =>
      let idx := y * width img + x in
      if truthy (zget bg idx) then (band, bandCount)
      else if nearBackground img bg radius x y
           then (zset band idx true, bandCount + 1)
           else (band, bandCount))
      (new_mask total, 0).

(** Lines 282-305: [mask] and [maskCount]. *)
Definition maskOf (bg band : list bool) (bandCount : Z) : list bool * Z :=
  match sampleMode opts with
  | All =>
      for_upto total (fun i '(mask, maskCount) =>
        if negb (truthy (zget bg i)) then (zset mask i true, maskCount + 1)
        else (mask, maskCount))
        (new_mask total, 0)
  | Stroke =>
      for_upto total (fun i '(mask, maskCount) =>
        if negb (truthy (zget band i)) then (mask, maskCount)
        else
          let off := i * 4 in
          let L := relLuminance (byte (data img) off) (byte (data img) (off + 1))
                                (byte (data img) (off + 2)) in
          if Rleb L (strokeLumaMax opts) then (zset mask i true, maskCount + 1)
          else (mask, maskCount))
        (new_mask total, 0)
  | Band => (band, bandCount)
  end.

(** Lines 307-322: [ratios] and [failing]. *)
Definition ratiosOf (mask : list bool) : list R * list bool :=
  for_upto total (fun i '(ratios, failing) =>
    if negb (truthy (zget mask i)) then (ratios, failing)
    else
      let off := i * 4 in
      let a := byte (data img) (off + 3) in
      if a <? minAlpha opts then (ratios, failing)
      else
        let cr := contrastRatioPixelVsBg (byte (data img) off)
                    (byte (data img) (off + 1)) (byte (data img) (off + 2))
                    a (opt_bg opts) in
        (ratios ++ [cr],
         if Rltb cr (threshold opts) then zset failing i true else failing))
    ([], new_mask total).

(** Lines 324-339. *)
Definition summarize (ratios : list R) (maskCount : Z) : Stats * bool :=
  let ratios := sort_asc ratios in
  let pctBelow :=
    if len ratios =? 0 then 0%R else pctBelowOf ratios (threshold opts) in
  let stats :=
    mkStats (len ratios) (percentile ratios (p opts)) (percentile ratios 0.5%R)
            (if len ratios =? 0 then Null else item ratios 0)
            pctBelow maskCount in
  let pass :=
    (count stats >? 0) && jge (pX stats) (threshold opts)
    && Rleb (pctBelow) (maxPctBelow opts) in
  (stats, pass).

(** The mask [bg] and [bgCount] when line 244 is reached. *)
Definition segmentation : option (list bool * Z) :=
  match floodFill img (segBg opts) (alphaBg opts) (nearBgDist opts) with
  | None => None
  | Some bg => Some (globalNearBg (bg, countMarked bg))
  end.

(** [band] and [bandCount] when line 282 is reached. *)
Definition bandStage : option (list bool * Z) :=
  match segmentation with
  | None => None
  | Some (bg, bgCount) => Some (bandOf bg bgCount)
  end.

(** [mask] and [maskCount] when line 307 is reached. *)
Definition sampleMask : option (list bool * Z) :=
  match segmentation with
  | None => None
  | Some (bg, bgCount) =>
      let '(band, bandCount) := bandOf bg bgCount in
      Some (maskOf bg band bandCount)
  end.

Definition analyze : option Result :=
  match sampleMask with
  | None => None
  | Some (mask, maskCount) =>
      let '(ratios, failing) := ratiosOf mask in
      let '(stats, pass) := summarize ratios maskCount in
      Some (mkResult stats pass failing)
  end.
End Pipeline.

End Web.

(** * Definitions used by the statements

    Reachability on the pixel grid, the specification's wording of the
    predicates, and the invariants of the two fills. *)

(** ** 4-connected reachability from the border *)
Section Reachability.
Variables (w h : Z) (P : Z -> Z -> Prop).

Definition inside (x y : Z) : Prop := 0 <= x < w /\ 0 <= y < h.

Definition on_border (x y : Z) : Prop :=
  x = 0 \/ y = 0 \/ x = w - 1 \/ y = h - 1.

Definition adjacent4 (x y x' y' : Z) : Prop :=
  (x' = x + 1 /\ y' = y) \/ (x' = x - 1 /\ y' = y) \/
  (x' = x /\ y' = y + 1) \/ (x' = x /\ y' = y - 1).

Inductive reach : Z -> Z -> Prop :=
| reach_seed x y : inside x y -> on_border x y -> P x y -> reach x y
| reach_step x y x' y' :
    reach x y -> adjacent4 x y x' y' -> inside x' y' -> P x' y' -> reach x' y'.

Fixpoint path4 (l : list (Z * Z)) : Prop :=
  match l with
  | [] => True
  | a :: l' =>
      inside (fst a) (snd a) /\ P (fst a) (snd a) /\
      match l' with
      | [] => on_border (fst a) (snd a)
      | b :: _ => adjacent4 (fst b) (snd b) (fst a) (snd a)
      end /\ path4 l'
  end.

Definition border_path (x y : Z) : Prop :=
  exists l, path4 ((x, y) :: l).

End Reachability.

(** ** Invariant of a worklist fill over pixel indices *)
Section WorklistDefs.
Variables (w h : Z) (nearI : Z -> bool).

Definition nearXY (x y : Z) : Prop := nearI (y * w + x) = true.

Definition marked (bg : list bool) (i : Z) : Prop := zget bg i = Some true.

Definition reachI (i : Z) : Prop :=
  exists x y, i = y * w + x /\ reach w h nearXY x y.

Definition closed (bg : list bool) (i : Z) : Prop :=
  forall x y x' y', i = y * w + x -> inside w h x y ->
    adjacent4 x y x' y' -> inside w h x' y' -> nearXY x' y' ->
    marked bg (y' * w + x').

Definition unmarked (bg : list bool) : nat :=
  length (filter (fun b => b = false) bg).

Record Inv (ex : option Z) (bg : list bool) (pend : list Z) : Prop := {
  inv_len : Z.of_nat (length bg) = w * h;
  inv_sound : forall i, marked bg i -> reachI i;
  inv_pend : forall i, i ∈ pend -> marked bg i;
  inv_closed : forall i, marked bg i -> i ∈ pend \/ ex = Some i \/ closed bg i
}.

Definition push_rel (i : Z) (bg : list bool) (pend : list Z)
    (bg' : list bool) (pend' : list Z) : Prop :=
  (bg' = bg /\ pend' = pend /\ (marked bg i \/ nearI i = false)) \/
  (~ marked bg i /\ nearI i = true /\ bg' = zset bg i true /\ pend' ≡ₚ i :: pend).

(** All border pixels that satisfy the predicate are marked. *)
Definition seeded (bg : list bool) : Prop :=
  forall x y, inside w h x y -> on_border w h x y -> nearXY x y ->
    marked bg (y * w + x).

End WorklistDefs.

(** ** The two fills as instances *)
Section FillDefs.
Variables (img : ImageData) (segBg : rgb) (alphaBg nearBgDist : Z).

(** The predicate of the fill as a function of the pixel index. *)
Definition nearIndex (i : Z) : bool :=
  nearAtOffset segBg alphaBg nearBgDist (data img) (i * 4).

Definition pendOf (q : list (Z * Z)) : list Z :=
  map (fun c => snd c * width img + fst c) q.

Definition stack_ok (q : list (Z * Z)) : Prop :=
  Forall (fun c => inside (width img) (height img) (fst c) (snd c)) q.

Definition BInv (ex : option Z) (st : Batch.fill_state) : Prop :=
  Inv (width img) (height img) nearIndex ex (fst st) (pendOf (snd st)) /\ stack_ok (snd st).

Definition bmeasure (st : Batch.fill_state) : nat :=
  (length (snd st) + unmarked (fst st))%nat.

Definition covered (bg : list bool) (S : Z -> Z -> Prop) : Prop :=
  forall x y, S x y -> inside (width img) (height img) x y ->
    nearXY (width img) nearIndex x y -> marked bg (y * width img + x).

Definition good (st : Batch.fill_state) : Prop :=
  BInv None st /\ bmeasure st = Z.to_nat (width img * height img).

(** The entries of [queue] between the two cursors. *)
Definition pendW (st : Web.fill_state) : list Z :=
  take (Z.to_nat (Web.qTail st - Web.qHead st))
       (drop (Z.to_nat (Web.qHead st)) (Web.queue st)).

Record WInv (ex : option Z) (st : Web.fill_state) : Prop := {
  w_inv : Inv (width img) (height img) nearIndex ex (Web.bg st) (pendW st);
  w_cursors : 0 <= Web.qHead st <= Web.qTail st;
  w_queue : Z.of_nat (length (Web.queue st)) = width img * height img;
  w_tail : Web.qTail st + Z.of_nat (unmarked (Web.bg st)) = width img * height img;
  w_range : Forall (fun i => 0 <= i < width img * height img) (pendW st)
}.

Definition wgood (st : Web.fill_state) : Prop :=
  WInv None st /\ Web.qHead st = 0.

Definition fill_init : Web.fill_state :=
  {| Web.bg := new_mask (width img * height img);
     Web.queue := replicate (Z.to_nat (width img * height img)) 0;
     Web.qHead := 0; Web.qTail := 0 |}.

End FillDefs.

(** ** Masks, pixels and ratios *)

(** Number of set cells of a mask. *)
Definition popcount (m : list bool) : Z :=
  Z.of_nat (length (filter (fun b => b = true) m)).

Definition is_byte (v : Z) : Prop := (0 <= v <= 255)%Z.

(** The four bytes of pixel [i] and its contrast ratio against [bgc]. *)
Definition pixelAt (img : ImageData) (i : Z) : Z * Z * Z * Z :=
  (byte (data img) (i * 4), byte (data img) (i * 4 + 1),
   byte (data img) (i * 4 + 2), byte (data img) (i * 4 + 3)).

Definition ratioOf (bgc : rgb) (px : Z * Z * Z * Z) : R :=
  let '(r, g, b, a) := px in contrastRatioPixelVsBg r g b a bgc.

Definition ratioAt (img : ImageData) (bgc : rgb) (i : Z) : R :=
  ratioOf bgc (pixelAt img i).

Definition alphaAt (img : ImageData) (i : Z) : Z := byte (data img) (i * 4 + 3).

Section MaskDefs.
Variables (img : ImageData) (opts : Web.Opts).

Definition border_band (x y : Z) : bool :=
  let edge := Z.max 0 (Web.bandRadius opts) in
  (x <=? edge) || (y <=? edge) || (x >=? width img - 1 - edge)
  || (y >=? height img - 1 - edge).

(** Luminance of the pixel's own colour, as the stroke filter reads it. *)
Definition ownLuminance (i : Z) : R :=
  relLuminance (byte (data img) (i * 4)) (byte (data img) (i * 4 + 1))
               (byte (data img) (i * 4 + 2)).

(** Pixels that reach the ratio computation: in the mask and not
    below the minimum alpha. *)
Definition scored (mask : list bool) (i : Z) : bool :=
  truthy (zget mask i) && negb (alphaAt img i <? Web.minAlpha opts).

End MaskDefs.

Section CollectDefs.
Variables (img : ImageData) (mask : list bool) (bgColor : rgb).

Definition inMask (i : Z) : bool := truthy (zget mask i).

(** [wp] records the pixel at index [i]. *)
Definition records (wp : Batch.WorstPixel) (i : Z) : Prop :=
  exists x y, inside (width img) (height img) x y /\ i = y * width img + x /\
    wp = Batch.mkWorst (byte (data img) (i * 4)) (byte (data img) (i * 4 + 1))
                       (byte (data img) (i * 4 + 2)) (byte (data img) (i * 4 + 3)) x y.

(** State of [collectRatios] once the pixels of index below [k] are done:
    the ratios in row-major order, and the first pixel among those of
    least ratio. *)
Definition collected_upto (k : Z) (c : Batch.Collected) : Prop :=
  Batch.ratios c = map (ratioAt img bgColor)
                     (filter (fun i => inMask i = true) (seqZ 0 k)) /\
  match Batch.worst c with
  | None => Batch.worstPixel c = None /\ forall j, 0 <= j < k -> inMask j = false
  | Some m =>
      exists wp i, Batch.worstPixel c = Some wp /\ records wp i /\
        0 <= i < k /\ inMask i = true /\ ratioAt img bgColor i = m /\
        (forall j, 0 <= j < k -> inMask j = true -> (m <= ratioAt img bgColor j)%R) /\
        (forall j, 0 <= j < i -> inMask j = true -> (m < ratioAt img bgColor j)%R)
  end.

End CollectDefs.

(** A pixel buffer as the decoders deliver it: positive dimensions and
    four entries per pixel. *)
Definition well_formed (img : ImageData) : Prop :=
  0 < width img /\ 0 < height img /\
  Z.of_nat (length (data img)) = 4 * (width img * height img).

(** The near-background predicate in the words of the specification:
    alpha at most the cutoff, or Euclidean RGB distance to the
    segmentation colour at most [nearBgDist]. *)
Definition near_background (img : ImageData) (segBg : rgb) (alphaBg nearBgDist : Z)
    (x y : Z) : Prop :=
  let '(r, g, b, a) := pixelAt img (y * width img + x) in
  a <= alphaBg \/
  (sqrt (IZR ((red segBg - r) * (red segBg - r) + (green segBg - g) * (green segBg - g)
              + (blue segBg - b) * (blue segBg - b))) <= IZR nearBgDist)%R.

(** "Within [radius] pixels of any grid edge" (a negative radius counts
    as zero). *)
Definition within_edge (w h radius x y : Z) : Prop :=
  let edge := Z.max 0 radius in
  x <= edge \/ y <= edge \/ w - 1 - x <= edge \/ h - 1 - y <= edge.

(** A border band [radius] pixels thick: the [radius] outermost rows and
    columns (the thickness in the specification's wording). *)
Definition outermost_rows (w h radius x y : Z) : Prop :=
  x < radius \/ y < radius \/ w - 1 - x < radius \/ h - 1 - y < radius.

(** [v] is a number and at least [t]. *)
Definition at_least (t : R) (v : jsnum) : Prop :=
  match v with Num r => (t <= r)%R | Null | NotANumber => False end.

(** ** What is known of the masks at each stage of the analysis *)
Section StageDefs.
Variables (img : ImageData).

Local Abbreviation N := (width img * height img).

Section WebStageDefs.
Variables (opts : Web.Opts).

(** What is known of the masks at the three points of [analyze]. *)
Record web_stages (bg0 bg : list bool) (n : Z) (band : list bool) (k : Z)
    (mask : list bool) (m : Z) : Prop := {
  ws_fill : Web.floodFill img (Web.segBg opts) (Web.alphaBg opts) (Web.nearBgDist opts)
            = Some bg0;
  ws_fill_spec : forall x y, inside (width img) (height img) x y ->
    (zget bg0 (y * width img + x) = Some true <->
     reach (width img) (height img)
       (nearXY (width img)
          (nearIndex img (Web.segBg opts) (Web.alphaBg opts) (Web.nearBgDist opts))) x y);
  ws_seg : Web.segmentation img opts = Some (bg, n);
  ws_bg_len : Z.of_nat (length bg) = N;
  ws_bg_count : n = popcount bg;
  ws_tier1 : popcount bg0 <> 0 -> bg = bg0;
  ws_tier2 : popcount bg0 = 0 ->
    forall i, 0 <= i < N -> zget bg i = Some (Web.near img opts i);
  ws_band : Web.bandStage img opts = Some (band, k);
  ws_band_len : Z.of_nat (length band) = N;
  ws_band_count : k = popcount band;
  ws_band_spec : forall x y, inside (width img) (height img) x y ->
    zget band (y * width img + x) =
      Some (if n =? 0 then border_band img opts x y
            else negb (truthy (zget bg (y * width img + x))) &&
                 nearBackground img bg (Web.bandRadius opts) x y);
  ws_mask : Web.sampleMask img opts = Some (mask, m);
  ws_mask_len : Z.of_nat (length mask) = N;
  ws_mask_count : m = popcount mask;
  ws_mask_spec : forall i, 0 <= i < N ->
    zget mask i =
      Some (match Web.sampleMode opts with
            | Web.All => negb (truthy (zget bg i))
            | Web.Stroke => truthy (zget band i) &&
                            Rleb (ownLuminance img i) (Web.strokeLumaMax opts)
            | Web.Band => truthy (zget band i)
            end)
}.

End WebStageDefs.

Section BatchStageDefs.
Variables (opts : Batch.Opts).

(** The table [perBg] after the loop over [opts.backgrounds]. *)
Definition perBgOf (band : list bool) : gmap string Batch.BgResult :=
  fold_left (fun perBg b =>
               <[ Batch.label b := Batch.collectRatios img opts band (Batch.bg_rgb b) ]> perBg)
            (Batch.backgrounds opts) (∅ : gmap string Batch.BgResult).

Record batch_stages (res : Batch.Result) : Prop := {
  bs_returns : Batch.analyzeOne img opts = Returned res;
  bs_fill : Batch.floodFill img (Batch.bg_rgb (Batch.segBg opts)) (Batch.alphaBg opts)
              (Batch.nearBgDist opts) = Some (Batch.res_bg res);
  bs_fill_spec : forall x y, inside (width img) (height img) x y ->
    (zget (Batch.res_bg res) (y * width img + x) = Some true <->
     reach (width img) (height img)
       (nearXY (width img)
          (nearIndex img (Batch.bg_rgb (Batch.segBg opts)) (Batch.alphaBg opts)
             (Batch.nearBgDist opts))) x y);
  bs_band_len : Z.of_nat (length (Batch.res_band res)) = width img * height img;
  bs_band_count : Batch.bandPixels res = popcount (Batch.res_band res);
  bs_band_spec : forall x y, inside (width img) (height img) x y ->
    zget (Batch.res_band res) (y * width img + x) =
      Some (negb (truthy (zget (Batch.res_bg res) (y * width img + x))) &&
            nearBackground img (Batch.res_bg res) (Batch.bandRadius opts) x y);
  bs_perBg : Batch.res_backgrounds res = perBgOf (Batch.res_band res);
  bs_band_def : Batch.res_band res =
    fst (Batch.edgeBand img opts (Batch.res_bg res)
           (fst (Batch.foreground img (Batch.res_bg res))))
}.

End BatchStageDefs.
End StageDefs.

(** ** Inputs used to instantiate the theorems *)

(** One RGBA pixel as four bytes. *)
Definition px (r g b a : Z) : list Z := [r; g; b; a].

Definition paint (w h : Z) (f : Z -> Z -> list Z) : ImageData :=
  mkImage w h (concat (map (fun y => concat (map (fun x => f x y) (seqZ 0 w))) (seqZ 0 h))).

Definition white : rgb := mkRgb 255 255 255.

Definition black : rgb := mkRgb 0 0 0.

(** A 3 x 3 white image with one black, half-transparent centre pixel. *)
Definition dot3 : ImageData :=
  paint 3 3 (fun x y => if (x =? 1) && (y =? 1) then px 0 0 0 100 else px 255 255 255 255).

Definition batch_defaults : Batch.Opts :=
  Batch.mkOpts 160 2 3%R 2%R 0.05%R false
    [Batch.mkBg "white" white; Batch.mkBg "black" black] (Batch.mkBg "white" white) 10.

Definition web_defaults (mode : Web.SampleMode) : Web.Opts :=
  Web.mkOpts white white 3%R 2%R 0.05%R 160 2 10 200 mode 0.2%R.

(** A white 5 x 5 image with a closed black ring around a white centre. *)
Definition ring5 : ImageData :=
  paint 5 5 (fun x y =>
    if (1 <=? x) && (x <=? 3) && (1 <=? y) && (y <=? 3) && negb ((x =? 2) && (y =? 2))
    then px 0 0 0 255 else px 255 255 255 255).

(** A 7 x 7 fully opaque black image. *)
Definition black7 : ImageData := paint 7 7 (fun _ _ => px 0 0 0 255).

(** Scenario B: opaque (130,130,130) 4 x 4 square centred in a white
    10 x 10 image. *)
Definition grey10 : ImageData :=
  paint 10 10 (fun x y =>
    if (3 <=? x) && (x <=? 6) && (3 <=? y) && (y <=? 6)
    then px 130 130 130 255 else px 255 255 255 255).

(** The 16 pixels of the square. *)
Definition square_mask : list bool :=
  map (fun i => (3 <=? i mod 10) && (i mod 10 <=? 6) && (3 <=? i / 10) && (i / 10 <=? 6))
      (seqZ 0 100).

(** ** The same percentile in double precision

    The numbers of the program are IEEE 754 binary64 values.  Their
    arithmetic is taken from the Standard Library's specification of
    floating-point operations: 53 bits of precision, round to nearest,
    ties to even. *)
Module F64.

Definition prec : Z := 53.
Definition emax : Z := 1024.

Definition float : Type := SpecFloat.spec_float.

Definition mul : float -> float -> float := SpecFloat.SFmul prec emax.
Definition add : float -> float -> float := SpecFloat.SFadd prec emax.
Definition sub : float -> float -> float := SpecFloat.SFsub prec emax.
Definition div : float -> float -> float := SpecFloat.SFdiv prec emax.
Definition ltb : float -> float -> bool := SpecFloat.SFltb.

(** The double nearest to an integer (the integer itself below [2^53]). *)
Definition of_Z (z : Z) : float := SpecFloat.binary_normalize prec emax z 0 false.

Definition zero : float := SpecFloat.S754_zero false.
Definition one : float := of_Z 1.
Definition nan : float := SpecFloat.S754_nan.

(** The double that a decimal literal denotes: the double nearest to
    [num / den], for [num] and [den] below [2^53]. *)
Definition decimal (num den : Z) : float := div (of_Z num) (of_Z den).

Definition signed (s : bool) (m : positive) : Z := if s then Z.neg m else Z.pos m.

(** [Math.floor] and [Math.ceil] of a finite double, as integers. *)
Definition floorZ (x : float) : option Z :=
  match x with
  | SpecFloat.S754_zero _ => Some 0
  | SpecFloat.S754_finite s m e =>
      Some (if 0 <=? e then signed s m * 2 ^ e else signed s m / 2 ^ (- e))
  | _ => None
  end.

Definition ceilZ (x : float) : option Z :=
  match x with
  | SpecFloat.S754_zero _ => Some 0
  | SpecFloat.S754_finite s m e =>
      Some (if 0 <=? e then signed s m * 2 ^ e else - ((- signed s m) / 2 ^ (- e)))
  | _ => None
  end.

End F64.

(** A value that [percentile] returns: a number, [null], or [undefined]. *)
Inductive jsnum64 : Type :=
| Num64 (f : F64.float)
| Null64
| Undefined64.

(** [sorted[i]] *)
Definition item64 (sorted : list F64.float) (i : Z) : jsnum64 :=
  match zget sorted i with Some f => Num64 f | None => Undefined64 end.

(** The operand of a multiplication: [null] is 0, [undefined] is [NaN]. *)
Definition toNumber64 (v : jsnum64) : F64.float :=
  match v with Num64 f => f | Null64 => F64.zero | Undefined64 => F64.nan end.

(** [percentile] with every operation rounded as the program rounds it.
    [lo] and [hi] are the integers that [Math.floor] and [Math.ceil]
    return; when [idx] is infinite they are equal and no element is
    found, when it is [NaN] they differ and the sum is [NaN]. *)
Definition percentile64 (sorted : list F64.float) (p : F64.float) : jsnum64 :=
  if len sorted =? 0 then Null64
  else
    let idx := F64.mul (F64.of_Z (len sorted - 1)) p in
    match F64.floorZ idx, F64.ceilZ idx with
    | Some lo, Some hi =>
        if lo =? hi then item64 sorted lo
        else
          let w := F64.sub idx (F64.of_Z lo) in
          Num64 (F64.add (F64.mul (toNumber64 (item64 sorted lo)) (F64.sub F64.one w))
                         (F64.mul (toNumber64 (item64 sorted hi)) w))
    | _, _ =>
        match idx with
        | SpecFloat.S754_infinity _ => Undefined64
        | _ => Num64 F64.nan
        end
    end.

(** The doubles 21, 0.05 and 0.5. *)
Definition d21 : F64.float := F64.of_Z 21.
Definition p005 : F64.float := F64.decimal 5 100.
Definition p05 : F64.float := F64.decimal 5 10.

(** * The command line and the report of the batch tool, the helpers of the page

    Strings are JavaScript strings all of whose code units are below
    256, one [ascii] per code unit.  A number that may be [NaN] is an
    [option Z], [None] standing for [NaN]; integers are exact. *)

(** ** Strings and [parseInt] (used by both files) *)
Module Js.

Definition code (c : ascii) : Z := Z.of_N (N_of_ascii c).

Definition charOf (n : Z) : ascii := ascii_of_N (Z.to_N n).

(** White space and line terminators among the code units below 256:
    TAB, LF, VT, FF, CR, space and no-break space.  This is the set that
    [trim], [\s] and the prefix skipped by [parseInt] share. *)
Definition isWhiteSpace (c : ascii) : bool :=
  let n := code c in ((9 <=? n) && (n <=? 13)) || (n =? 32) || (n =? 160).

(** [\d] *)
Definition isDigit (c : ascii) : bool := (48 <=? code c) && (code c <=? 57).

(** [[0-9a-f]] under the flag [i] *)
Definition isHexDigit (c : ascii) : bool :=
  let n := code c in
  isDigit c || ((97 <=? n) && (n <=? 102)) || ((65 <=? n) && (n <=? 70)).

(** [toLowerCase] on one code unit: A-Z and the capital letters of
    Latin-1 (U+00C0 to U+00DE, the sign U+00D7 apart) move up by 32. *)
Definition lowerChar (c : ascii) : ascii :=
  let n := code c in
  if ((65 <=? n) && (n <=? 90)) || ((192 <=? n) && (n <=? 222) && negb (n =? 215))
  then charOf (n + 32) else c.

Fixpoint toLowerCase (s : string) : string :=
  match s with
  | EmptyString => EmptyString
  | String c s' => String (lowerChar c) (toLowerCase s')
  end.

Fixpoint trimStart (s : string) : string :=
  match s with
  | EmptyString => EmptyString
  | String c s' => if isWhiteSpace c then trimStart s' else s
  end.

Fixpoint trimEnd (s : string) : string :=
  match s with
  | EmptyString => EmptyString
  | String c s' =>
      match trimEnd s' with
      | EmptyString => if isWhiteSpace c then EmptyString else String c EmptyString
      | t => String c t
      end
  end.

Definition trim (s : string) : string := trimEnd (trimStart s).

(** [s.length] *)
Definition slen (s : string) : Z := Z.of_nat (String.length s).

(** [s.slice(a, b)] and [s.slice(a)] for constant bounds [0 <= a <= b]. *)
Definition slice (s : string) (a b : nat) : string := String.substring a (b - a) s.
Definition sliceFrom (s : string) (a : nat) : string :=
  String.substring a (String.length s - a) s.

(** The operand [s[i]] of a string concatenation: the character at
    [i], or the text of [undefined]. *)
Definition at_ (s : string) (i : nat) : string :=
  match String.get i s with
  | Some c => String c EmptyString
  | None => "undefined"
  end.

(** [regex.test(s)] for a class repeated over the whole string. *)
Fixpoint every (P : ascii -> bool) (s : string) : bool :=
  match s with
  | EmptyString => true
  | String c s' => P c && every P s'
  end.

(** The value of a digit in [parseInt]: 0-9, then a-z or A-Z for 10-35. *)
Definition digitValue (c : ascii) : option Z :=
  let n := code c in
  if (48 <=? n) && (n <=? 57) then Some (n - 48)
  else if (97 <=? n) && (n <=? 122) then Some (n - 87)
  else if (65 <=? n) && (n <=? 90) then Some (n - 55)
  else None.

Definition radixDigit (radix : Z) (c : ascii) : option Z :=
  match digitValue c with
  | Some d => if d <? radix then Some d else None
  | None => None
  end.

(** The longest prefix of radix digits, read as a number; [acc] is
    [None] while no digit has been read. *)
Fixpoint readDigits (radix : Z) (s : string) (acc : option Z) : option Z :=
  match s with
  | EmptyString => acc
  | String c s' =>
      match radixDigit radix c with
      | Some d => readDigits radix s' (Some (default 0 acc * radix + d))
      | None => acc
      end
  end.

(** [parseInt(string, radix)]: leading white space, a sign, the prefix
    [0x] for radix 16 (or 0), then the longest run of digits; [NaN] when
    there is none or the radix is outside 2..36.  The result is the
    exact integer: it is what the program computes for results below
    [2^53], which are not rounded. *)
Definition parseInt (s : string) (radix : Z) : option Z :=
  let s := trimStart s in
  let '(sign, s) :=
    match s with
    | String c s' =>
        if code c =? 45 then (-1, s')
        else if code c =? 43 then (1, s') else (1, s)
    | EmptyString => (1, s)
    end in
  if negb (radix =? 0) && ((radix <? 2) || (36 <? radix)) then None
  else
    let stripPrefix := (radix =? 0) || (radix =? 16) in
    let radix := if radix =? 0 then 10 else radix in
    let '(radix, s) :=
      match s with
      | String c0 (String c1 s') =>
          if stripPrefix && (code c0 =? 48) && ((code c1 =? 120) || (code c1 =? 88))
          then (16, s') else (radix, s)
      | _ => (radix, s)
      end in
    match readDigits radix s None with
    | Some n => Some (sign * n)
    | None => None
    end.

(** [String(n)] for an integer: decimal digits, a minus sign first for
    a negative number. *)
Fixpoint decimalDigits (fuel : nat) (n : Z) (acc : string) : string :=
  let acc := String (charOf (48 + n mod 10)) acc in
  match fuel with
  | O => acc
  | S fuel => if n <? 10 then acc else decimalDigits fuel (n / 10) acc
  end.

Definition integerToString (n : Z) : string :=
  if n <? 0
  then String (charOf 45) (decimalDigits (Z.to_nat (Z.log2 (- n))) (- n) EmptyString)
  else decimalDigits (Z.to_nat (Z.log2 n)) n EmptyString.

(** [String(v)] for a number that may be [NaN]. *)
Definition numberToString (v : option Z) : string :=
  match v with
  | Some n => integerToString n
  | None => "NaN"
  end.

(** [Math.min(k, v)] *)
Definition mathMin (k : Z) (v : option Z) : option Z :=
  match v with
  | Some n => Some (Z.min k n)
  | None => None
  end.

(** What a throwing function gives: its value, or the message of the
    [Error] it throws. *)
Inductive thrown (A : Type) : Type :=
| Value (a : A)
| Error (message : string).
Arguments Value {A} a.
Arguments Error {A} message.

End Js.

(** ** The batch tool: arguments, colours, report cells *)
Module Cli.
Import Js.

(** [argv.indexOf(name)] *)
Fixpoint indexOfFrom (argv : list string) (name : string) (i : Z) : Z :=
  match argv with
  | [] => -1
  | a :: argv' => if String.eqb a name then i else indexOfFrom argv' name (i + 1)
  end.

Definition indexOf (argv : list string) (name : string) : Z := indexOfFrom argv name 0.

(** [getArg(name, def)] over [process.argv]; [None] is [null]. *)
Definition getArg (argv : list string) (name : string) (def : option string)
    : option string :=
  let i := indexOf argv name in
  if negb (i =? -1) && (i + 1 <? len argv) then zget argv (i + 1) else def.

(** The loop of [getArgs]: [i] is the loop variable, [out] the array. *)
Fixpoint getArgsLoop (fuel : nat) (argv : list string) (name : string) (i : Z)
    (out : list string) : list string :=
  match fuel with
  | O => out
  | S fuel =>
      if i <? len argv then
        match zget argv i, zget argv (i + 1) with
        | Some a, Some v =>
            if String.eqb a name && (i + 1 <? len argv)
            then getArgsLoop fuel argv name (i + 1 + 1) (out ++ [v])
            else getArgsLoop fuel argv name (i + 1) out
        | _, _ => getArgsLoop fuel argv name (i + 1) out
        end
      else out
  end.

Definition getArgs (argv : list string) (name : string) : list string :=
  getArgsLoop (length argv) argv name 0 [].

(** [hasFlag(name)] *)
Definition hasFlag (argv : list string) (name : string) : bool :=
  existsb (String.eqb name) argv.

(** [{ label, rgb: [r, g, b] }] *)
Record Color : Type := mkColor {
  label : string;
  rgb : option Z * option Z * option Z
}.

(** [/^#([0-9a-f]{3}|[0-9a-f]{6})$/i.test(s)] *)
Definition isHexColor (s : string) : bool :=
  match s with
  | String c h =>
      (code c =? 35) && ((slen h =? 3) || (slen h =? 6)) && every isHexDigit h
  | EmptyString => false
  end.

(** [/^\d{1,3}$/.test(s)] *)
Definition isNum13 (s : string) : bool :=
  (1 <=? slen s) && (slen s <=? 3) && every isDigit s.

(** A literal prefix of a pattern. *)
Fixpoint expect (lit s : string) : option string :=
  match lit, s with
  | EmptyString, _ => Some s
  | String c lit', String d s' => if Ascii.eqb c d then expect lit' s' else None
  | String _ _, EmptyString => None
  end.

(** The digits at the head of [s], at most [n] of them, and the rest. *)
Fixpoint takeDigits (n : nat) (s : string) : string * string :=
  match n, s with
  | S n', String c s' =>
      if isDigit c
      then let '(d, rest) := takeDigits n' s' in (String c d, rest)
      else (EmptyString, s)
  | _, _ => (EmptyString, s)
  end.

(** The group [(\d{1,3})]. *)
Definition digits13 (s : string) : option (string * string) :=
  match takeDigits 3 s with
  | (EmptyString, _) => None
  | (d, rest) => Some (d, rest)
  end.

(** [s.match(/^rgb\(\s*(\d{1,3})\s*,\s*(\d{1,3})\s*,\s*(\d{1,3})\s*\)$/)]:
    the three groups.  Every item of the pattern is followed by one that
    starts with a different class of characters, so the match is found
    by reading each item greedily from left to right. *)
Definition matchRgb (s : string) : option (string * string * string) :=
  s ← expect "rgb(" s;
  '(d1, s) ← digits13 (trimStart s);
  s ← expect "," (trimStart s);
  '(d2, s) ← digits13 (trimStart s);
  s ← expect "," (trimStart s);
  '(d3, s) ← digits13 (trimStart s);
  s ← expect ")" (trimStart s);
  match s with
  | EmptyString => Some (d1, d2, d3)
  | String _ _ => None
  end.

(** [s.split] at the commas. *)
Fixpoint splitComma (s : string) : list string :=
  match s with
  | EmptyString => [EmptyString]
  | String c s' =>
      if code c =? 44 then EmptyString :: splitComma s'
      else match splitComma s' with
           | p :: ps => String c p :: ps
           | [] => [String c EmptyString]
           end
  end.

Definition parseColor (input : string) : thrown Color :=
  let s := toLowerCase (trim input) in
  if String.eqb s "white" then Value (mkColor "white" (Some 255, Some 255, Some 255))
  else if String.eqb s "black" then Value (mkColor "black" (Some 0, Some 0, Some 0))
  else if isHexColor s then
    let hex := sliceFrom s 1 in
    if slen hex =? 3 then
      let r := parseInt (at_ hex 0 +:+ at_ hex 0) 16 in
      let g := parseInt (at_ hex 1 +:+ at_ hex 1) 16 in
      let b := parseInt (at_ hex 2 +:+ at_ hex 2) 16 in
      Value (mkColor s (r, g, b))
    else
      let r := parseInt (slice hex 0 2) 16 in
      let g := parseInt (slice hex 2 4) 16 in
      let b := parseInt (slice hex 4 6) 16 in
      Value (mkColor s (r, g, b))
  else
    match matchRgb s with
    | Some (m1, m2, m3) =>
        let r := mathMin 255 (parseInt m1 10) in
        let g := mathMin 255 (parseInt m2 10) in
        let b := mathMin 255 (parseInt m3 10) in
        Value (mkColor ("rgb(" +:+ numberToString r +:+ "," +:+ numberToString g +:+ ","
                        +:+ numberToString b +:+ ")") (r, g, b))
    | None =>
        match map trim (splitComma s) with
        | [p0; p1; p2] =>
            if isNum13 p0 && isNum13 p1 && isNum13 p2 then
              let r := mathMin 255 (parseInt p0 10) in
              let g := mathMin 255 (parseInt p1 10) in
              let b := mathMin 255 (parseInt p2 10) in
              Value (mkColor (numberToString r +:+ "," +:+ numberToString g +:+ ","
                              +:+ numberToString b) (r, g, b))
            else Error ("Invalid color: " +:+ input)
        | _ => Error ("Invalid color: " +:+ input)
        end
    end.

(** [bgArgs.map(parseColor)]: the first invalid colour throws. *)
Fixpoint parseColors (args : list string) : thrown (list Color) :=
  match args with
  | [] => Value []
  | a :: args' =>
      match parseColor a with
      | Error m => Error m
      | Value c =>
          match parseColors args' with
          | Error m => Error m
          | Value cs => Value (c :: cs)
          end
      end
  end.

(** Lines 375-377 of [main]: the array [backgrounds]. *)
Definition mainBackgrounds (argv : list string) : thrown (list Color) :=
  let bgArgs := getArgs argv "--bg" in
  if len bgArgs >? 0 then parseColors bgArgs
  else parseColors ["white"; "black"].

(** Lines 378-379 of [main]: [segBg]; the empty string is falsy. *)
Definition mainSegBg (argv : list string) (backgrounds : list Color) : thrown Color :=
  match getArg argv "--segBg" None with
  | Some (String c s) => parseColor (String c s)
  | _ =>
      match backgrounds with
      | c :: _ => Value c
      | [] => parseColor "white"
      end
  end.

(** [parseInt(v, 10)] for an argument that may be [null]: the string
    of [null] is the text null. *)
Definition parseIntArg (v : option string) : option Z :=
  match v with
  | Some s => parseInt s 10
  | None => parseInt "null" 10
  end.

(** Lines 382, 383 and 390 of [main]: the integer options of the
    analysis. *)
Definition mainNearBgDist (argv : list string) : option Z :=
  parseIntArg (getArg argv "--nearBgDist" (getArg argv "--nearWhiteDist" (Some "160"))).

Definition mainBandRadius (argv : list string) : option Z :=
  parseIntArg (getArg argv "--bandRadius" (Some "2")).

Definition mainAlphaBg (argv : list string) : option Z :=
  parseIntArg (getArg argv "--alphaBg" (Some "10")).

(** The double quote. *)
Definition quote : ascii := charOf 34.

(** The values the report's cells hold before [csvEscape]. *)
Inductive Cell : Type :=
| CNull
| CString (s : string)
| CBool (b : bool)
| CInteger (n : Z).

(** [String(value)] *)
Definition cellText (v : Cell) : string :=
  match v with
  | CNull => "null"
  | CString s => s
  | CBool true => "true"
  | CBool false => "false"
  | CInteger n => integerToString n
  end.

(** The test of [csvEscape]: [s] holds a double quote, a comma or a
    line feed. *)
Fixpoint needsQuoting (s : string) : bool :=
  match s with
  | EmptyString => false
  | String c s' =>
      (code c =? 34) || (code c =? 44) || (code c =? 10) || needsQuoting s'
  end.

(** The [replace] of [csvEscape]: every double quote is doubled. *)
Fixpoint doubleQuotes (s : string) : string :=
  match s with
  | EmptyString => EmptyString
  | String c s' =>
      if code c =? 34 then String quote (String quote (doubleQuotes s'))
      else String c (doubleQuotes s')
  end.

Definition csvEscape (value : Cell) : string :=
  let s := match value with CNull => EmptyString | _ => cellText value end in
  if needsQuoting s then String quote (doubleQuotes s +:+ String quote EmptyString)
  else s.

(** [cells.map(csvEscape).join] with a comma. *)
Fixpoint joinComma (cells : list string) : string :=
  match cells with
  | [] => EmptyString
  | [c] => c
  | c :: cells' => c +:+ String (charOf 44) (joinComma cells')
  end.

Definition csvLine (row : list Cell) : string := joinComma (map csvEscape row).

End Cli.

(** ** The page: colour input, canvas size, overlay *)
Module Page.
Import Js.

(** [hex.replace] of the first number sign by the empty string. *)
Fixpoint removeFirstHash (s : string) : string :=
  match s with
  | EmptyString => EmptyString
  | String c s' => if code c =? 35 then s' else String c (removeFirstHash s')
  end.

(** [clean.split].map((c) => c + c).join: every character twice. *)
Fixpoint doubleChars (s : string) : string :=
  match s with
  | EmptyString => EmptyString
  | String c s' => String c (String c (doubleChars s'))
  end.

Definition parseHexColor (hex : string) : option Z * option Z * option Z :=
  let clean := removeFirstHash hex in
  let value := if slen clean =? 3 then doubleChars clean else clean in
  (parseInt (slice value 0 2) 16, parseInt (slice value 2 4) 16,
   parseInt (slice value 4 6) 16).

Section Canvas.
Local Open Scope R_scope.

(** [{ width, height, scale }] *)
Record Fitted : Type := mkFitted {
  fit_width : R;
  fit_height : R;
  fit_scale : R
}.

(** [!x] for a number that is not [NaN]. *)
Definition isZero (x : R) : bool := if Req_dec_T x 0 then true else false.

(** The rounding of the program's arithmetic: [rnd x] is the double
    that a division or a multiplication returns when its exact result
    is [x].  [Math.round] and [Math.max] return their results exactly. *)
Variable rnd : R -> R.

Definition fitToMaxSize (width height maxSize extraScale : R) : Fitted :=
  if isZero width || isZero height then mkFitted maxSize maxSize 1
  else
    let maxDim := Rmax width height in
    let baseScale := if Rltb maxSize maxDim then rnd (maxSize / maxDim) else 1 in
    let scale := rnd (baseScale * extraScale) in
    mkFitted (IZR (Z.max 1 (Math_round (rnd (width * scale)))))
             (IZR (Z.max 1 (Math_round (rnd (height * scale)))))
             scale.

End Canvas.

(** The pixel buffer that [renderOverlay] puts on the overlay canvas,
    for a canvas of positive [width] and [height] (the size of the
    analysed image): [createImageData(width, height)] is transparent
    black, and the loop paints the marked pixels; [None] when [mask] is
    [null] and the canvas is only cleared. *)
Definition renderOverlay (mask : option (list bool)) (width height : Z)
    : option (list Z) :=
  match mask with
  | None => None
  | Some mask =>
      Some (for_upto (len mask) (fun i data =>
              if negb (truthy (zget mask i)) then data
              else
                let off := i * 4 in
                zset (zset (zset (zset data off 242) (off + 1) 80) (off + 2) 60)
                     (off + 3) 180)
              (replicate (Z.to_nat (width * height * 4)) 0))
  end.

End Page.

(** The options of the page that stand for a run of the batch tool
    against the background [b]: the same thresholds and segmentation
    options, [minAlpha], the sample mode and the stroke bound being the
    page's own. *)
Definition pageOpts (bo : Batch.Opts) (b : Batch.BackgroundSpec) (minAlpha : Z)
    (mode : Web.SampleMode) (strokeLumaMax : R) : Web.Opts :=
  Web.mkOpts (Batch.bg_rgb b) (Batch.bg_rgb (Batch.segBg bo))
    (Batch.threshold bo) (Batch.maxPctBelow bo) (Batch.p bo)
    (Batch.nearBgDist bo) (Batch.bandRadius bo) (Batch.alphaBg bo)
    minAlpha mode strokeLumaMax.

(** A 3 x 3 fully opaque white image. *)
Definition white3 : ImageData := paint 3 3 (fun _ _ => px 255 255 255 255).

(** The values that follow the occurrences of [name], a value that was
    taken not being read as a flag again: [getArgs] as a recursion over
    the arguments that remain. *)
Fixpoint valuesAfter (argv : list string) (name : string) : list string :=
  match argv with
  | [] => []
  | a :: argv' =>
      match argv' with
      | [] => []
      | v :: argv'' =>
          if String.eqb a name then v :: valuesAfter argv'' name
          else valuesAfter argv' name
      end
  end.

(** The string is empty or starts with a character that is no digit. *)
Definition noDigitAhead (s : string) : Prop :=
  match s with
  | EmptyString => True
  | String c _ => Js.isDigit c = false
  end.

(** ** A reader of the report's lines

    The reader is not part of the program; it is what the lines written
    by [csvEscape] are checked against.  A field that starts with a
    double quote runs to the first double quote that is not doubled; any
    other field runs to the next comma. *)
Fixpoint readQuoted (s : string) : string * string :=
  match s with
  | EmptyString => (EmptyString, EmptyString)
  | String c s' =>
      if Js.code c =? 34 then
        match s' with
        | String d s'' =>
            if Js.code d =? 34
            then let '(x, r) := readQuoted s'' in (String c x, r)
            else (EmptyString, s')
        | EmptyString => (EmptyString, EmptyString)
        end
      else let '(x, r) := readQuoted s' in (String c x, r)
  end.

Fixpoint readPlain (s : string) : string * string :=
  match s with
  | EmptyString => (EmptyString, EmptyString)
  | String c s' =>
      if Js.code c =? 44 then (EmptyString, s)
      else let '(x, r) := readPlain s' in (String c x, r)
  end.

Definition readField (s : string) : string * string :=
  match s with
  | String c s' => if Js.code c =? 34 then readQuoted s' else readPlain s
  | EmptyString => (EmptyString, EmptyString)
  end.

Fixpoint readFields (n : nat) (s : string) : list string :=
  match n with
  | O => []
  | S n' =>
      let '(x, r) := readField s in
      x :: match r with
           | String _ r' => readFields n' r'
           | EmptyString => []
           end
  end.

(** What follows a field in a line: nothing, or a comma. *)
Definition fieldEnd (rest : string) : Prop :=
  rest = EmptyString \/ exists r, rest = String (Js.charOf 44) r.

(** The four bytes of pixel [i] of a pixel buffer. *)
Definition pixelBytes (data : list Z) (i : Z) : option Z * option Z * option Z * option Z :=
  (zget data (i * 4), zget data (i * 4 + 1), zget data (i * 4 + 2), zget data (i * 4 + 3)).

(** * Lemmas and theorems *)

(** ** Paths and reachability *)

Lemma reach_inside w h P x y : reach w h P x y -> inside w h x y.
Proof. destruct 1; auto. Qed.

Lemma reach_border_path w h P x y : reach w h P x y <-> border_path w h P x y.
Proof.
  split.
  - induction 1 as [x y Hi Hb Hp | x y x' y' Hr [l IH] Ha Hi Hp].
    + exists []. simpl. auto.
    + exists ((x, y) :: l). simpl. simpl in IH. tauto.
  - intros [l Hl]. revert x y Hl.
    induction l as [| [x0 y0] l IH]; intros x y Hl; simpl in Hl.
    + apply reach_seed; tauto.
    + destruct Hl as (Hi & Hp & Ha & Hrest). simpl in Ha.
      eapply reach_step; [apply IH; exact Hrest | exact Ha | exact Hi | exact Hp].
Qed.

Lemma reach_ext w h (P Q : Z -> Z -> Prop) :
  (forall x y, inside w h x y -> (P x y <-> Q x y)) ->
  forall x y, reach w h P x y -> reach w h Q x y.
Proof.
  intros HPQ x y Hr. induction Hr.
  - apply reach_seed; auto. apply HPQ; auto.
  - eapply reach_step; eauto. apply HPQ; auto.
Qed.

(** ** Arrays and loops *)
Lemma zget_zset_eq {A} (l : list A) i v :
  0 <= i < Z.of_nat (length l) -> zget (zset l i v) i = Some v.
Proof.
  intros Hi. unfold zget, zset.
  destruct (i <? 0) eqn:E; [lia|].
  apply list_lookup_insert_eq. lia.
Qed.

Lemma zget_zset_ne {A} (l : list A) i j v :
  i <> j -> zget (zset l i v) j = zget l j.
Proof.
  intros Hij. unfold zget, zset.
  destruct (j <? 0) eqn:Ej; [done|].
  destruct (i <? 0) eqn:Ei; [done|].
  apply list_lookup_insert_ne. lia.
Qed.

Lemma length_zset {A} (l : list A) i v : length (zset l i v) = length l.
Proof. unfold zset. destruct (i <? 0); [done|]. apply length_insert. Qed.

Lemma zget_Some_range {A} (l : list A) i v :
  zget l i = Some v -> 0 <= i < Z.of_nat (length l).
Proof.
  unfold zget. destruct (i <? 0) eqn:E; [done|].
  intros H%lookup_lt_Some. lia.
Qed.

Lemma zget_in_range {A} (l : list A) i :
  0 <= i < Z.of_nat (length l) -> exists v, zget l i = Some v.
Proof.
  intros Hi. unfold zget. destruct (i <? 0) eqn:E; [lia|].
  apply lookup_lt_is_Some. lia.
Qed.

Lemma zget_new_mask n i : 0 <= i < n -> zget (new_mask n) i = Some false.
Proof.
  intros Hi. unfold zget, new_mask. destruct (i <? 0) eqn:E; [lia|].
  apply lookup_replicate_2. lia.
Qed.

Lemma length_new_mask n : length (new_mask n) = Z.to_nat n.
Proof. apply length_replicate. Qed.

Lemma truthy_true o : truthy o = true <-> o = Some true.
Proof. destruct o as [[]|]; simpl; split; congruence. Qed.

(** Invariant rules for the two loop shapes. *)
Lemma for_upto_ind {St : Type} (I : Z -> St -> Prop) n (body : Z -> St -> St) s :
  0 <= n -> I 0 s ->
  (forall i s, 0 <= i < n -> I i s -> I (i + 1) (body i s)) ->
  I n (for_upto n body s).
Proof.
  intros Hn H0 Hstep. unfold for_upto.
  assert (G : forall k m s, 0 <= m -> m + Z.of_nat k = n -> I m s ->
            I n (fold_left (fun s i => body i s) (seqZ m (Z.of_nat k)) s)).
  { induction k as [|k IH]; intros m s' Hm Hk HI.
    - rewrite seqZ_nil by lia. simpl. replace n with m by lia. done.
    - rewrite seqZ_cons by lia. simpl.
      replace (Z.pred (Z.of_nat (S k))) with (Z.of_nat k) by lia.
      apply IH; [lia | lia |].
      replace (Z.succ m) with (m + 1) by lia. apply Hstep; [lia | done]. }
  specialize (G (Z.to_nat n) 0 s). rewrite Z2Nat.id in G by lia.
  apply G; [lia | lia | done].
Qed.

Lemma scan_ind {St : Type} (I : Z -> St -> Prop) img (body : Z -> Z -> St -> St) s :
  0 < width img -> 0 <= height img ->
  I 0 s ->
  (forall x y s, 0 <= x < width img -> 0 <= y < height img ->
     I (y * width img + x) s -> I (y * width img + x + 1) (body x y s)) ->
  I (width img * height img) (scan img body s).
Proof.
  intros Hw Hh H0 Hstep. unfold scan.
  replace (width img * height img) with (height img * width img) by lia.
  apply (for_upto_ind (fun y s => I (y * width img) s)); [lia | done |].
  intros y s' Hy HI.
  replace ((y + 1) * width img) with (y * width img + width img) by lia.
  apply (for_upto_ind (fun x s => I (y * width img + x) s)); [lia | |].
  - replace (y * width img + 0) with (y * width img) by lia. done.
  - intros x s'' Hx HI'. rewrite Z.add_assoc. apply Hstep; auto.
Qed.

Section Worklist.
Variables (w h : Z) (nearI : Z -> bool).
Hypotheses (Hw : 0 < w) (Hh : 0 < h).

Local Abbreviation nearXY := (nearXY w nearI).
Local Abbreviation reachI := (reachI w h nearI).
Local Abbreviation closed := (closed w h nearI).
Local Abbreviation Inv := (Inv w h nearI).
Local Abbreviation push_rel := (push_rel nearI).
Local Abbreviation seeded := (seeded w h nearI).

Lemma inside_index x y : inside w h x y -> 0 <= y * w + x < w * h.
Proof. unfold inside. nia. Qed.

Lemma index_inj x y x' y' :
  inside w h x y -> inside w h x' y' -> y * w + x = y' * w + x' -> x = x' /\ y = y'.
Proof. unfold inside. intros. assert (y = y') by nia. subst. lia. Qed.

Lemma unmarked_zset bg i :
  zget bg i = Some false -> (unmarked (zset bg i true) + 1 = unmarked bg)%nat.
Proof.
  unfold zget, zset, unmarked. destruct (i <? 0) eqn:E; [done|].
  intros Hl. pose proof (lookup_lt_Some _ _ _ Hl) as Hlt.
  rewrite insert_take_drop by done.
  rewrite <- (take_drop_middle bg (Z.to_nat i) false Hl) at 3.
  rewrite !filter_app, !length_app.
  rewrite (filter_cons_False _ true) by done.
  rewrite (filter_cons_True _ false) by done.
  simpl. lia.
Qed.

Lemma marked_mono bg i j : marked bg j -> marked (zset bg i true) j.
Proof.
  unfold marked. intros Hj. destruct (decide (i = j)) as [->|Hne].
  - apply zget_zset_eq. eapply zget_Some_range; eauto.
  - rewrite zget_zset_ne; done.
Qed.

Lemma closed_mono bg i c : closed bg c -> closed (zset bg i true) c.
Proof. unfold closed. intros Hc **. apply marked_mono. eauto. Qed.

Lemma push_rel_mono i bg pend bg' pend' j :
  push_rel i bg pend bg' pend' -> marked bg j -> marked bg' j.
Proof.
  intros [(-> & _ & _) | (_ & _ & -> & _)] Hj; [done|]. by apply marked_mono.
Qed.

Lemma push_rel_marks i bg pend bg' pend' :
  Z.of_nat (length bg) = w * h -> 0 <= i < w * h ->
  push_rel i bg pend bg' pend' -> nearI i = true -> marked bg' i.
Proof.
  intros Hlen Hi [(-> & _ & [Hm | Hn]) | (_ & _ & -> & _)] Hnear.
  - done.
  - congruence.
  - apply zget_zset_eq. lia.
Qed.

Lemma push_rel_measure i bg pend bg' pend' :
  Z.of_nat (length bg) = w * h -> 0 <= i < w * h ->
  push_rel i bg pend bg' pend' ->
  (length pend' + unmarked bg' = length pend + unmarked bg)%nat.
Proof.
  intros Hlen Hi [(-> & -> & _) | (Hnm & _ & -> & Hperm)]; [done|].
  rewrite Hperm. simpl.
  destruct (zget_in_range bg i) as [[] Hv]; [lia | done |].
  pose proof (unmarked_zset bg i Hv). lia.
Qed.

Lemma push_rel_inv ex i bg pend bg' pend' :
  Inv ex bg pend -> 0 <= i < w * h -> (nearI i = true -> reachI i) ->
  push_rel i bg pend bg' pend' -> Inv ex bg' pend'.
Proof.
  intros [Hlen Hsound Hpend Hclosed] Hi Hreach
    [(-> & -> & _) | (Hnm & Hnear & -> & Hperm)]; [by constructor|].
  constructor.
  - rewrite length_zset. done.
  - intros j Hj. destruct (decide (i = j)) as [<-|Hne]; [auto|].
    apply Hsound. unfold marked in *. by rewrite zget_zset_ne in Hj.
  - intros j Hj. rewrite Hperm in Hj. apply elem_of_cons in Hj as [->|Hj].
    + apply zget_zset_eq. lia.
    + apply marked_mono. auto.
  - intros j Hj. destruct (decide (i = j)) as [<-|Hne].
    + left. rewrite Hperm. apply elem_of_cons. by left.
    + unfold marked in Hj. rewrite zget_zset_ne in Hj by done.
      destruct (Hclosed j Hj) as [Hin | [Hex | Hc]].
      * left. rewrite Hperm. apply elem_of_cons. by right.
      * by right; left.
      * right; right. by apply closed_mono.
Qed.

Lemma closed_seeded_complete bg :
  seeded bg -> (forall i, marked bg i -> closed bg i) ->
  forall x y, reach w h nearXY x y -> marked bg (y * w + x).
Proof.
  intros Hseed Hcl x y Hr. induction Hr as [x y Hi Hb Hp | x y x' y' Hr IH Ha Hi Hp].
  - by apply Hseed.
  - eapply (Hcl _ IH); eauto. by eapply reach_inside.
Qed.

Lemma Inv_final bg :
  Inv None bg [] -> seeded bg ->
  forall x y, inside w h x y -> (marked bg (y * w + x) <-> reach w h nearXY x y).
Proof.
  intros [Hlen Hsound Hpend Hclosed] Hseed x y Hi. split.
  - intros Hm. destruct (Hsound _ Hm) as (x0 & y0 & Heq & Hr).
    pose proof (reach_inside _ _ _ _ _ Hr) as Hi0.
    destruct (index_inj x y x0 y0 Hi Hi0 Heq) as [-> ->]. done.
  - apply closed_seeded_complete; [done|].
    intros i Hm. destruct (Hclosed i Hm) as [Hin | [Hex | Hc]]; [|done|done].
    by apply elem_of_nil in Hin.
Qed.

Lemma Inv_init : Inv None (new_mask (w * h)) [].
Proof.
  constructor.
  - rewrite length_new_mask. nia.
  - intros i Hm. unfold marked in Hm.
    pose proof (zget_Some_range _ _ _ Hm) as Hr. rewrite length_new_mask in Hr.
    rewrite zget_new_mask in Hm by lia. done.
  - intros i Hin. by apply elem_of_nil in Hin.
  - intros i Hm. unfold marked in Hm.
    pose proof (zget_Some_range _ _ _ Hm) as Hr. rewrite length_new_mask in Hr.
    rewrite zget_new_mask in Hm by lia. done.
Qed.

Lemma unmarked_new_mask : unmarked (new_mask (w * h)) = Z.to_nat (w * h).
Proof.
  unfold unmarked, new_mask. generalize (Z.to_nat (w * h)) as n.
  induction n as [|n IH]; [done|].
  change (replicate (S n) false) with (false :: replicate n false).
  rewrite filter_cons_True by done. simpl. by rewrite IH.
Qed.

(** Taking the visited pixel out of the pending list. *)
Lemma Inv_pop c bg pend : Inv None bg (c :: pend) -> Inv (Some c) bg pend /\ marked bg c.
Proof.
  intros [Hlen Hsound Hpend Hclosed]. split; [constructor|]; auto.
  - intros i Hi. apply Hpend. apply elem_of_cons. by right.
  - intros i Hm. destruct (Hclosed i Hm) as [Hin | [Hex | Hc]]; [|done|by right; right].
    apply elem_of_cons in Hin as [->|Hin]; [by right; left | by left].
  - apply Hpend. apply elem_of_cons. by left.
Qed.

Lemma Inv_close c bg pend : Inv (Some c) bg pend -> closed bg c -> Inv None bg pend.
Proof.
  intros [Hlen Hsound Hpend Hclosed] Hc. constructor; auto.
  intros i Hm. destruct (Hclosed i Hm) as [Hin | [Hex | Hc']]; [by left | | by right; right].
  injection Hex as ->. by right; right.
Qed.

End Worklist.

Section BatchFill.
Variables (img : ImageData) (segBg : rgb) (alphaBg nearBgDist : Z).
Hypotheses (Hw : 0 < width img) (Hh : 0 < height img).

Local Abbreviation nearIndex := (nearIndex img segBg alphaBg nearBgDist).
Local Abbreviation pendOf := (pendOf img).
Local Abbreviation stack_ok := (stack_ok img).
Local Abbreviation BInv := (BInv img segBg alphaBg nearBgDist).
Local Abbreviation covered := (covered img segBg alphaBg nearBgDist).
Local Abbreviation good := (good img segBg alphaBg nearBgDist).

Local Abbreviation pushIf := (Batch.pushIf img segBg alphaBg nearBgDist).
Local Abbreviation reachable := (reach (width img) (height img) (nearXY (width img) nearIndex)).

Lemma pushIf_outside x y st : ~ inside (width img) (height img) x y -> pushIf x y st = st.
Proof.
  intros Hn. unfold Batch.pushIf. destruct st as [bg q].
  destruct ((x <? 0) || (y <? 0) || (x >=? width img) || (y >=? height img)) eqn:E; [done|].
  exfalso. apply Hn. unfold inside. lia.
Qed.

Lemma pushIf_rel x y bg q :
  inside (width img) (height img) x y ->
  push_rel nearIndex (y * width img + x) bg (pendOf q)
           (fst (pushIf x y (bg, q))) (pendOf (snd (pushIf x y (bg, q))))
  /\ (stack_ok q -> stack_ok (snd (pushIf x y (bg, q)))).
Proof.
  intros Hi. unfold Batch.pushIf.
  destruct ((x <? 0) || (y <? 0) || (x >=? width img) || (y >=? height img)) eqn:E.
  { exfalso. unfold inside in Hi. lia. }
  destruct (truthy (zget bg (y * width img + x))) eqn:Et.
  { split; [|done]. left. simpl. repeat split; auto. left. by apply truthy_true. }
  unfold Batch.idx. fold (nearIndex (y * width img + x)).
  destruct (nearIndex (y * width img + x)) eqn:En.
  - split.
    + right. simpl. repeat split; auto.
      intros Hm. apply truthy_true in Hm. congruence.
    + intros Hq. simpl. constructor; [done|done].
  - split; [|done]. left. simpl. repeat split; auto.
Qed.

Lemma pushIf_step ex x y st :
  BInv ex st ->
  (inside (width img) (height img) x y -> nearXY (width img) nearIndex x y -> reachable x y) ->
  BInv ex (pushIf x y st) /\ bmeasure (pushIf x y st) = bmeasure st
  /\ (forall j, marked (fst st) j -> marked (fst (pushIf x y st)) j)
  /\ (inside (width img) (height img) x y -> nearXY (width img) nearIndex x y ->
      marked (fst (pushIf x y st)) (y * width img + x)).
Proof.
  intros [HI Hq] Hreach.
  destruct (decide (0 <= x < width img /\ 0 <= y < height img)) as [Hi | Hn].
  2:{ rewrite pushIf_outside by done.
      split; [done|]. split; [done|]. split; [done|].
      intros Hi' _. exfalso. apply Hn. exact Hi'. }
  destruct st as [bg q]. simpl in HI, Hq.
  destruct (pushIf_rel x y bg q Hi) as [Hrel Hstack].
  pose proof (inside_index _ _ Hw Hh x y Hi) as Hrange.
  pose proof (inv_len _ _ _ _ _ _ HI) as Hlen.
  split; [split | split; [|split]].
  - eapply push_rel_inv; eauto.
    intros Hn. exists x, y. split; [done|]. by apply Hreach.
  - by apply Hstack.
  - unfold bmeasure. simpl.
    pose proof (push_rel_measure _ _ _ _ _ _ _ _ Hlen Hrange Hrel) as Hm.
    unfold pendOf in Hm. rewrite !length_map in Hm. done.
  - intros j. by eapply push_rel_mono.
  - intros _ Hn. eapply push_rel_marks; eauto.
Qed.

Lemma seed_step st x y (S : Z -> Z -> Prop) :
  good st -> on_border (width img) (height img) x y -> covered (fst st) S ->
  good (pushIf x y st) /\
  covered (fst (pushIf x y st)) (fun a b => S a b \/ (a = x /\ b = y)).
Proof.
  intros [HI Hm] Hb Hc.
  destruct (pushIf_step None x y st HI) as (HI' & Hm' & Hmono & Hmark).
  { intros Hi Hn. by apply reach_seed. }
  split; [split; [done | congruence]|].
  intros a b [HS | [-> ->]] Hi Hn; [apply Hmono; by apply Hc | by apply Hmark].
Qed.

Lemma covered_weaken bg (S S' : Z -> Z -> Prop) :
  (forall a b, S' a b -> S a b) -> covered bg S -> covered bg S'.
Proof. intros HS Hc a b Hab. apply Hc. auto. Qed.

Lemma seed_ok :
  let st := Batch.seed img segBg alphaBg nearBgDist
              (new_mask (width img * height img), []) in
  good st /\ seeded (width img) (height img) nearIndex (fst st).
Proof.
  unfold Batch.seed.
  set (st0 := (new_mask (width img * height img), []) : Batch.fill_state).
  assert (H0 : good st0).
  { split; [split|].
    - apply Inv_init; done.
    - constructor.
    - unfold bmeasure, st0. simpl. apply unmarked_new_mask. }
  set (st1 := for_upto (width img) _ st0).
  assert (H1 : good st1 /\
            covered (fst st1) (fun a b => a < width img /\ (b = 0 \/ b = height img - 1))).
  { apply (for_upto_ind (fun k st => good st /\
             covered (fst st) (fun a b => a < k /\ (b = 0 \/ b = height img - 1)))).
    - lia.
    - split; [done|]. intros a b [Ha _] [Hi _]. lia.
    - intros k st Hk [Hg Hc].
      destruct (seed_step st k 0 _ Hg ltac:(unfold on_border; lia) Hc) as [Hg1 Hc1].
      destruct (seed_step _ k (height img - 1) _ Hg1 ltac:(unfold on_border; lia) Hc1)
        as [Hg2 Hc2].
      split; [done|]. eapply covered_weaken; [|exact Hc2].
      simpl. intros a b. lia. }
  destruct H1 as [Hg1 Hc1].
  cut (good (for_upto (height img)
               (fun y st => pushIf (width img - 1) y (pushIf 0 y st)) st1) /\
       covered (fst (for_upto (height img)
               (fun y st => pushIf (width img - 1) y (pushIf 0 y st)) st1))
         (fun a b => (a < width img /\ (b = 0 \/ b = height img - 1)) \/
                     (b < height img /\ (a = 0 \/ a = width img - 1)))).
  { intros [Hg Hc]. split; [done|].
    intros x y Hi Hb Hn. apply Hc; [|done|done].
    unfold inside in Hi. unfold on_border in Hb. lia. }
  apply (for_upto_ind (fun k st => good st /\
           covered (fst st)
             (fun a b => (a < width img /\ (b = 0 \/ b = height img - 1)) \/
                         (b < k /\ (a = 0 \/ a = width img - 1))))).
  - lia.
  - split; [done|]. intros a b [Hrow | [Hb _]] Hi Hn.
    + by apply Hc1.
    + unfold inside in Hi. lia.
  - intros k st Hk [Hg Hc].
    destruct (seed_step st 0 k _ Hg ltac:(unfold on_border; lia) Hc) as [Hg2 Hc2].
    destruct (seed_step _ (width img - 1) k _ Hg2 ltac:(unfold on_border; lia) Hc2)
      as [Hg3 Hc3].
    split; [done|]. eapply covered_weaken; [|exact Hc3].
    simpl. intros a b. lia.
Qed.

Local Abbreviation visit := (Batch.visit img segBg alphaBg nearBgDist).

Lemma visit_ok x y bg q :
  BInv None (bg, (x, y) :: q) ->
  BInv None (visit x y (bg, q)) /\
  bmeasure (visit x y (bg, q)) = bmeasure (bg, q) /\
  (forall j, marked bg j -> marked (fst (visit x y (bg, q))) j).
Proof.
  intros [HI Hq]. simpl in HI, Hq.
  apply Forall_cons in Hq as [Hxy Hq]. simpl in Hxy.
  apply Inv_pop in HI as [HI Hc].
  assert (Hr : reachable x y).
  { destruct (inv_sound _ _ _ _ _ _ HI _ Hc) as (x0 & y0 & Heq & Hr).
    pose proof (reach_inside _ _ _ _ _ Hr) as Hi0.
    destruct (index_inj _ _ Hw _ _ _ _ Hxy Hi0 Heq) as [-> ->]. done. }
  assert (Hstep : forall x' y', adjacent4 x y x' y' ->
            inside (width img) (height img) x' y' ->
            nearXY (width img) nearIndex x' y' -> reachable x' y').
  { intros x' y' Ha Hi Hn. eapply reach_step; eauto. }
  unfold Batch.visit.
  destruct (pushIf_step (Some (y * width img + x)) (x + 1) y (bg, q))
    as (I1 & M1 & Mo1 & Mk1); [by split | intros; apply Hstep; unfold adjacent4; auto; lia |].
  destruct (pushIf_step (Some (y * width img + x)) (x - 1) y _ I1)
    as (I2 & M2 & Mo2 & Mk2); [intros; apply Hstep; unfold adjacent4; auto; lia |].
  destruct (pushIf_step (Some (y * width img + x)) x (y + 1) _ I2)
    as (I3 & M3 & Mo3 & Mk3); [intros; apply Hstep; unfold adjacent4; auto; lia |].
  destruct (pushIf_step (Some (y * width img + x)) x (y - 1) _ I3)
    as (I4 & M4 & Mo4 & Mk4); [intros; apply Hstep; unfold adjacent4; auto; lia |].
  split; [|split].
  - destruct I4 as [I4 Hq4]. split; [|done].
    eapply Inv_close; [exact I4|].
    intros x1 y1 x' y' Heq Hi1 Ha Hi' Hn.
    destruct (index_inj _ _ Hw _ _ _ _ Hxy Hi1 Heq) as [<- <-].
    destruct Ha as [[-> ->] | [[-> ->] | [[-> ->] | [-> ->]]]].
    + apply Mo4, Mo3, Mo2. by apply Mk1.
    + apply Mo4, Mo3. by apply Mk2.
    + apply Mo4. by apply Mk3.
    + by apply Mk4.
  - congruence.
  - intros j Hj. apply Mo4, Mo3, Mo2, Mo1. done.
Qed.

Lemma seeded_mono bg bg' :
  (forall j, marked bg j -> marked bg' j) ->
  seeded (width img) (height img) nearIndex bg ->
  seeded (width img) (height img) nearIndex bg'.
Proof. intros Hm Hs x y Hi Hb Hn. apply Hm. by apply Hs. Qed.

Lemma drain_ok fuel : forall st,
  BInv None st -> (bmeasure st <= fuel)%nat ->
  seeded (width img) (height img) nearIndex (fst st) ->
  exists bg, Batch.drain img segBg alphaBg nearBgDist fuel st = Some bg /\
    Inv (width img) (height img) nearIndex None bg [] /\
    seeded (width img) (height img) nearIndex bg.
Proof.
  induction fuel as [|fuel IH]; intros [bg q] HI Hm Hs.
  - destruct q as [|[x y] q].
    + exists bg. simpl. destruct HI as [HI _]. done.
    + unfold bmeasure in Hm. simpl in Hm. lia.
  - destruct q as [|[x y] q].
    + exists bg. simpl. destruct HI as [HI _]. done.
    + simpl. destruct (visit_ok x y bg q HI) as (HI' & Hm' & Hmono).
      apply IH; [done | | by eapply seeded_mono].
      rewrite Hm'. unfold bmeasure in *. simpl in *. lia.
Qed.

(** The batch fill returns, and its mask is the border-reachable set. *)
Lemma batch_fill_spec :
  exists bg, Batch.floodFill img segBg alphaBg nearBgDist = Some bg /\
    Z.of_nat (length bg) = width img * height img /\
    forall x y, inside (width img) (height img) x y ->
      (zget bg (y * width img + x) = Some true <-> reachable x y).
Proof.
  unfold Batch.floodFill.
  destruct seed_ok as [[HI Hm] Hs].
  destruct (drain_ok (Z.to_nat (width img * height img)) _ HI ltac:(lia) Hs)
    as (bg & Hd & HI' & Hs').
  exists bg. split; [done|]. split; [by destruct HI'|].
  intros x y Hi. by apply Inv_final.
Qed.
End BatchFill.

Section WebFill.
Variables (img : ImageData) (segBg : rgb) (alphaBg nearBgDist : Z).
Hypotheses (Hw : 0 < width img) (Hh : 0 < height img).

Local Abbreviation nearI := (nearIndex img segBg alphaBg nearBgDist).
Local Abbreviation pushIf := (Web.pushIf img segBg alphaBg nearBgDist).
Local Abbreviation reachable := (reach (width img) (height img) (nearXY (width img) nearI)).
Local Abbreviation WInv := (WInv img segBg alphaBg nearBgDist).
Local Abbreviation wgood := (wgood img segBg alphaBg nearBgDist).
Local Abbreviation fill_init := (fill_init img).

Lemma slice_push (l : list Z) (hd tl : nat) v :
  (hd <= tl < length l)%nat ->
  take (S tl - hd) (drop hd (<[tl := v]> l)) = take (tl - hd) (drop hd l) ++ [v].
Proof.
  intros H. rewrite drop_insert_ge by lia.
  replace (S tl - hd)%nat with (S (tl - hd)) by lia.
  erewrite take_S_r.
  2:{ apply list_lookup_insert_eq. rewrite length_drop. lia. }
  rewrite take_insert_ge by lia. done.
Qed.

Lemma slice_pop (l : list Z) (hd tl : nat) c :
  (hd < tl)%nat -> l !! hd = Some c ->
  take (tl - hd) (drop hd l) = c :: take (tl - S hd) (drop (S hd) l).
Proof.
  intros H Hc. rewrite (drop_S l c hd Hc).
  replace (tl - hd)%nat with (S (tl - S hd)) by lia. done.
Qed.

Lemma w_pushIf_step ex idx st :
  WInv ex st -> 0 <= idx < width img * height img ->
  (nearI idx = true -> reachI (width img) (height img) nearI idx) ->
  WInv ex (pushIf idx st) /\ Web.qHead (pushIf idx st) = Web.qHead st
  /\ (forall j, marked (Web.bg st) j -> marked (Web.bg (pushIf idx st)) j)
  /\ (nearI idx = true -> marked (Web.bg (pushIf idx st)) idx).
Proof.
  intros [HI Hcur Hq Htail Hrange] Hidx Hreach.
  pose proof (inv_len _ _ _ _ _ _ HI) as Hlen.
  unfold Web.pushIf.
  destruct (truthy (zget (Web.bg st) idx)) eqn:Et.
  { split; [by constructor|]. split; [done|]. split; [done|].
    intros _. by apply truthy_true. }
  fold (nearI idx).
  destruct (nearI idx) eqn:En.
  2:{ split; [by constructor|]. split; [done|]. split; [done|]. done. }
  assert (Hfalse : zget (Web.bg st) idx = Some false).
  { destruct (zget_in_range (Web.bg st) idx) as [[] Hv]; [lia | | done].
    rewrite Hv in Et. done. }
  pose proof (unmarked_zset _ _ Hfalse) as Hu.
  assert (Hpend : pendW {| Web.bg := zset (Web.bg st) idx true;
                           Web.queue := zset (Web.queue st) (Web.qTail st) idx;
                           Web.qHead := Web.qHead st;
                           Web.qTail := Web.qTail st + 1 |} = pendW st ++ [idx]).
  { unfold pendW, zset. simpl. destruct (Web.qTail st <? 0) eqn:E; [lia|].
    replace (Z.to_nat (Web.qTail st + 1 - Web.qHead st))
      with (S (Z.to_nat (Web.qTail st)) - Z.to_nat (Web.qHead st))%nat by lia.
    replace (Z.to_nat (Web.qTail st - Web.qHead st))
      with (Z.to_nat (Web.qTail st) - Z.to_nat (Web.qHead st))%nat by lia.
    apply slice_push. lia. }
  split; [|split; [done|split]].
  - constructor; simpl.
    + rewrite Hpend. eapply push_rel_inv; eauto.
      right. split; [congruence|]. split; [done|]. split; [done|].
      symmetry. apply Permutation_cons_append.
    + lia.
    + rewrite length_zset. done.
    + lia.
    + rewrite Hpend. apply Forall_app. split; [done|]. by constructor.
  - simpl. intros j. apply marked_mono.
  - intros _. simpl. apply zget_zset_eq. lia.
Qed.
Local Abbreviation cov := (covered img segBg alphaBg nearBgDist).

Lemma w_seed_step st idx x y (S : Z -> Z -> Prop) :
  wgood st -> idx = y * width img + x ->
  inside (width img) (height img) x y -> on_border (width img) (height img) x y ->
  cov (Web.bg st) S ->
  wgood (pushIf idx st) /\
  cov (Web.bg (pushIf idx st)) (fun a b => S a b \/ (a = x /\ b = y)).
Proof.
  intros [HI H0] -> Hi Hb Hc.
  pose proof (inside_index _ _ Hw Hh x y Hi) as Hr.
  destruct (w_pushIf_step None (y * width img + x) st HI Hr) as (HI' & Hh' & Hmono & Hmark).
  { intros Hn. exists x, y. split; [done|]. by apply reach_seed. }
  split; [split; [done | congruence]|].
  intros a b [HS | [-> ->]] Hi' Hn; [apply Hmono; by apply Hc | by apply Hmark].
Qed.

Lemma w_init_good : wgood fill_init.
Proof.
  split; [|done]. constructor; simpl.
  - unfold pendW. simpl. apply Inv_init; done.
  - lia.
  - rewrite length_replicate. nia.
  - rewrite unmarked_new_mask. nia.
  - unfold pendW. simpl. constructor.
Qed.

Lemma w_seed_ok :
  let st := Web.seed img segBg alphaBg nearBgDist fill_init in
  wgood st /\ seeded (width img) (height img) nearI (Web.bg st).
Proof.
  unfold Web.seed.
  set (st1 := for_upto (width img) _ fill_init).
  assert (H1 : wgood st1 /\
            cov (Web.bg st1) (fun a b => a < width img /\ (b = 0 \/ b = height img - 1))).
  { apply (for_upto_ind (fun k st => wgood st /\
             cov (Web.bg st) (fun a b => a < k /\ (b = 0 \/ b = height img - 1)))).
    - lia.
    - split; [apply w_init_good|]. intros a b [Ha _] [Hi _]. lia.
    - intros k st Hk [Hg Hc].
      destruct (w_seed_step st k k 0 _ Hg ltac:(lia)
                  ltac:(unfold inside; lia) ltac:(unfold on_border; lia) Hc) as [Hg1 Hc1].
      destruct (w_seed_step _ ((height img - 1) * width img + k) k (height img - 1) _ Hg1
                  ltac:(lia) ltac:(unfold inside; lia) ltac:(unfold on_border; lia) Hc1)
        as [Hg2 Hc2].
      split; [done|]. eapply covered_weaken; [|exact Hc2].
      simpl. intros a b. lia. }
  destruct H1 as [Hg1 Hc1].
  cut (wgood (for_upto (height img)
               (fun y st => pushIf (y * width img + (width img - 1))
                              (pushIf (y * width img) st)) st1) /\
       cov (Web.bg (for_upto (height img)
               (fun y st => pushIf (y * width img + (width img - 1))
                              (pushIf (y * width img) st)) st1))
         (fun a b => (a < width img /\ (b = 0 \/ b = height img - 1)) \/
                     (b < height img /\ (a = 0 \/ a = width img - 1)))).
  { intros [Hg Hc]. split; [done|].
    intros x y Hi Hb Hn. apply Hc; [|done|done].
    unfold inside in Hi. unfold on_border in Hb. lia. }
  apply (for_upto_ind (fun k st => wgood st /\
           cov (Web.bg st)
             (fun a b => (a < width img /\ (b = 0 \/ b = height img - 1)) \/
                         (b < k /\ (a = 0 \/ a = width img - 1))))).
  - lia.
  - split; [done|]. intros a b [Hrow | [Hb _]] Hi Hn.
    + by apply Hc1.
    + unfold inside in Hi. lia.
  - intros k st Hk [Hg Hc].
    destruct (w_seed_step st (k * width img) 0 k _ Hg ltac:(lia)
                ltac:(unfold inside; lia) ltac:(unfold on_border; lia) Hc) as [Hg2 Hc2].
    destruct (w_seed_step _ (k * width img + (width img - 1)) (width img - 1) k _ Hg2
                ltac:(lia) ltac:(unfold inside; lia) ltac:(unfold on_border; lia) Hc2)
      as [Hg3 Hc3].
    split; [done|]. eapply covered_weaken; [|exact Hc3].
    simpl. intros a b. lia.
Qed.

Lemma guarded_step ex st (g : bool) idx x y :
  WInv ex st -> (g = true <-> inside (width img) (height img) x y) ->
  idx = y * width img + x ->
  (inside (width img) (height img) x y -> nearXY (width img) nearI x y -> reachable x y) ->
  let st' := Web.guarded g (pushIf idx) st in
  WInv ex st' /\ Web.qHead st' = Web.qHead st
  /\ (forall j, marked (Web.bg st) j -> marked (Web.bg st') j)
  /\ (inside (width img) (height img) x y -> nearXY (width img) nearI x y ->
      marked (Web.bg st') (y * width img + x)).
Proof.
  intros HI Hg -> Hreach. unfold Web.guarded. destruct g.
  - assert (Hi : inside (width img) (height img) x y) by (by apply Hg).
    pose proof (inside_index _ _ Hw Hh x y Hi) as Hr.
    destruct (w_pushIf_step ex (y * width img + x) st HI Hr) as (HI' & Hh' & Hmono & Hmark).
    { intros Hn. exists x, y. split; [done|]. by apply Hreach. }
    simpl. split; [done|]. split; [done|]. split; [done|]. intros _ Hn. by apply Hmark.
  - simpl. split; [done|]. split; [done|]. split; [done|].
    intros Hi. apply Hg in Hi. done.
Qed.
Lemma w_visit_ok c st :
  WInv None st -> Web.qHead st < Web.qTail st ->
  zget (Web.queue st) (Web.qHead st) = Some c ->
  let st' := Web.visit img segBg alphaBg nearBgDist c (Web.advance st) in
  WInv None st' /\ Web.qHead st' = Web.qHead st + 1
  /\ (forall j, marked (Web.bg st) j -> marked (Web.bg st') j).
Proof.
  intros [HI Hcur Hq Htail Hrange] Hlt Hc.
  assert (Hpop : pendW st = c :: pendW (Web.advance st)).
  { unfold pendW, Web.advance. simpl.
    unfold zget in Hc. destruct (Web.qHead st <? 0) eqn:E; [lia|].
    replace (Z.to_nat (Web.qTail st - Web.qHead st))
      with (Z.to_nat (Web.qTail st) - Z.to_nat (Web.qHead st))%nat by lia.
    replace (Z.to_nat (Web.qTail st - (Web.qHead st + 1)))
      with (Z.to_nat (Web.qTail st) - S (Z.to_nat (Web.qHead st)))%nat by lia.
    replace (Z.to_nat (Web.qHead st + 1)) with (S (Z.to_nat (Web.qHead st))) by lia.
    apply slice_pop; [lia | done]. }
  rewrite Hpop in HI, Hrange.
  apply Forall_cons in Hrange as [Hcr Hrange].
  apply Inv_pop in HI as [HI Hm].
  set (x := Z.rem c (width img)). set (y := Z.quot c (width img)).
  assert (Hx : x = c mod width img) by (apply Z.rem_mod_nonneg; lia).
  assert (Hy : y = c / width img) by (apply Z.quot_div_nonneg; lia).
  assert (Hcxy : c = y * width img + x).
  { rewrite Hx, Hy. pose proof (Z.div_mod c (width img)). lia. }
  assert (Hxy : inside (width img) (height img) x y).
  { unfold inside. pose proof (Z.mod_pos_bound c (width img) Hw).
    assert (0 <= c / width img) by (apply Z.div_pos; lia).
    split; [lia|]. split; [lia|].
    rewrite Hy. apply Z.div_lt_upper_bound; lia. }
  assert (Hr : reachable x y).
  { destruct (inv_sound _ _ _ _ _ _ HI _ Hm) as (x0 & y0 & Heq & Hr).
    pose proof (reach_inside _ _ _ _ _ Hr) as Hi0.
    rewrite Hcxy in Heq.
    destruct (index_inj _ _ Hw _ _ _ _ Hxy Hi0 Heq) as [-> ->]. done. }
  assert (Hstep : forall x' y', adjacent4 x y x' y' ->
            inside (width img) (height img) x' y' ->
            nearXY (width img) nearI x' y' -> reachable x' y').
  { intros x' y' Ha Hi Hn. eapply reach_step; eauto. }
  assert (HA : WInv (Some c) (Web.advance st)).
  { constructor; simpl; auto; lia. }
  unfold Web.visit. fold x. fold y.
  destruct (guarded_step (Some c) (Web.advance st) (x >? 0) (c - 1) (x - 1) y HA)
    as (I1 & Q1 & Mo1 & Mk1);
    [unfold inside in *; lia | lia | intros; apply Hstep; unfold adjacent4; auto; lia |].
  destruct (guarded_step (Some c) _ (x <? width img - 1) (c + 1) (x + 1) y I1)
    as (I2 & Q2 & Mo2 & Mk2);
    [unfold inside in *; lia | lia | intros; apply Hstep; unfold adjacent4; auto; lia |].
  destruct (guarded_step (Some c) _ (y >? 0) (c - width img) x (y - 1) I2)
    as (I3 & Q3 & Mo3 & Mk3);
    [unfold inside in *; lia | lia | intros; apply Hstep; unfold adjacent4; auto; lia |].
  destruct (guarded_step (Some c) _ (y <? height img - 1) (c + width img) x (y + 1) I3)
    as (I4 & Q4 & Mo4 & Mk4);
    [unfold inside in *; lia | lia | intros; apply Hstep; unfold adjacent4; auto; lia |].
  split; [|split].
  - destruct I4 as [I4 C4 L4 T4 R4]. constructor; auto.
    eapply Inv_close; [exact I4|].
    intros x1 y1 x' y' Heq Hi1 Ha Hi' Hn.
    rewrite Hcxy in Heq.
    destruct (index_inj _ _ Hw _ _ _ _ Hxy Hi1 Heq) as [<- <-].
    destruct Ha as [[-> ->] | [[-> ->] | [[-> ->] | [-> ->]]]].
    + apply Mo4, Mo3. by apply Mk2.
    + apply Mo4, Mo3, Mo2. by apply Mk1.
    + by apply Mk4.
    + apply Mo4. by apply Mk3.
  - rewrite Q4, Q3, Q2, Q1. done.
  - intros j Hj. apply Mo4, Mo3, Mo2, Mo1. done.
Qed.

Lemma w_drain_ok fuel : forall st,
  WInv None st -> (width img * height img - Web.qHead st <= Z.of_nat fuel) ->
  seeded (width img) (height img) nearI (Web.bg st) ->
  exists bg, Web.drain img segBg alphaBg nearBgDist fuel st = Some bg /\
    Inv (width img) (height img) nearI None bg [] /\
    seeded (width img) (height img) nearI bg.
Proof.
  assert (Hdone : forall st, WInv None st -> (Web.qHead st <? Web.qTail st) = false ->
            Inv (width img) (height img) nearI None (Web.bg st) []).
  { intros st [HI Hcur _ _ _] E. unfold pendW in HI.
    replace (Z.to_nat (Web.qTail st - Web.qHead st)) with O in HI by lia. done. }
  induction fuel as [|fuel IH]; intros st HI Hf Hs.
  - simpl. destruct (Web.qHead st <? Web.qTail st) eqn:E.
    + destruct HI as [_ Hcur _ Htail _]. lia.
    + exists (Web.bg st). auto.
  - simpl. destruct (Web.qHead st <? Web.qTail st) eqn:E.
    2:{ exists (Web.bg st). auto. }
    destruct (zget_in_range (Web.queue st) (Web.qHead st)) as [c Hc].
    { destruct HI as [_ Hcur Hq Htail _]. lia. }
    rewrite Hc.
    destruct (w_visit_ok c st HI ltac:(lia) Hc) as (HI' & Hq' & Hmono).
    apply IH; [done | lia | by eapply seeded_mono].
Qed.

(** The page's fill returns, and its mask is the border-reachable set. *)
Lemma web_fill_spec :
  exists bg, Web.floodFill img segBg alphaBg nearBgDist = Some bg /\
    Z.of_nat (length bg) = width img * height img /\
    forall x y, inside (width img) (height img) x y ->
      (zget bg (y * width img + x) = Some true <-> reachable x y).
Proof.
  unfold Web.floodFill.
  destruct w_seed_ok as [[HI H0] Hs]. fold fill_init.
  destruct (w_drain_ok (Z.to_nat (width img * height img)) _ HI ltac:(lia) Hs)
    as (bg & Hd & HI' & Hs').
  exists bg. split; [done|]. split; [by destruct HI'|].
  intros x y Hi. by apply Inv_final.
Qed.
End WebFill.

(** ** Masks built by the scans *)

Lemma popcount_new_mask n : popcount (new_mask n) = 0.
Proof.
  unfold popcount, new_mask. generalize (Z.to_nat n) as k.
  induction k as [|k IH]; [done|].
  change (replicate (S k) false) with (false :: replicate k false).
  rewrite filter_cons_False by done. done.
Qed.

Lemma popcount_zset m i :
  zget m i = Some false -> popcount (zset m i true) = popcount m + 1.
Proof.
  unfold zget, zset, popcount. destruct (i <? 0) eqn:E; [done|].
  intros Hl. pose proof (lookup_lt_Some _ _ _ Hl) as Hlt.
  rewrite insert_take_drop by done.
  rewrite <- (take_drop_middle m (Z.to_nat i) false Hl) at 3.
  rewrite !filter_app, !length_app.
  rewrite (filter_cons_True _ true) by done.
  rewrite (filter_cons_False _ false) by done.
  simpl. lia.
Qed.

Lemma popcount_zero m :
  popcount m = 0 <-> forall i, zget m i <> Some true.
Proof.
  unfold popcount. split.
  - intros H i Hi. unfold zget in Hi. destruct (i <? 0); [done|].
    apply list_elem_of_lookup_2 in Hi.
    assert (Hin : true ∈ filter (fun b => b = true) m) by (by apply list_elem_of_filter).
    destruct (filter (fun b => b = true) m) as [|b l]; [by apply elem_of_nil in Hin|].
    rewrite length_cons in H. lia.
  - intros H. destruct (filter (fun b => b = true) m) as [|b l] eqn:E; [done|].
    exfalso. assert (Hin : b ∈ filter (fun b => b = true) m) by (rewrite E; left).
    apply list_elem_of_filter in Hin as [-> Hin].
    apply list_elem_of_lookup_1 in Hin as [k Hk].
    apply (H (Z.of_nat k)). unfold zget.
    destruct (Z.ltb_spec (Z.of_nat k) 0); [lia|]. by rewrite Nat2Z.id.
Qed.

(** A loop over all pixel indices that sets the cells selected by [C]. *)
Lemma mark_loop_spec (N : Z) (C : Z -> bool)
    (body : Z -> list bool * Z -> list bool * Z) (m0 : list bool) (n0 : Z) :
  0 <= N -> Z.of_nat (length m0) = N ->
  (forall i, 0 <= i < N -> zget m0 i = Some false) ->
  (forall i m n, 0 <= i < N ->
     body i (m, n) = if C i then (zset m i true, n + 1) else (m, n)) ->
  Z.of_nat (length (fst (for_upto N body (m0, n0)))) = N /\
  (forall i, 0 <= i < N -> zget (fst (for_upto N body (m0, n0))) i = Some (C i)) /\
  snd (for_upto N body (m0, n0)) = n0 + popcount (fst (for_upto N body (m0, n0))) - popcount m0.
Proof.
  intros HN Hlen H0 Hbody.
  cut (let st := for_upto N body (m0, n0) in
       Z.of_nat (length (fst st)) = N /\
       (forall i, 0 <= i < N -> zget (fst st) i = Some (C i)) /\
       (forall i, N <= i < N -> zget (fst st) i = Some false) /\
       snd st = n0 + popcount (fst st) - popcount m0).
  { simpl. tauto. }
  apply (for_upto_ind (fun k st =>
           Z.of_nat (length (fst st)) = N /\
           (forall i, 0 <= i < k -> zget (fst st) i = Some (C i)) /\
           (forall i, k <= i < N -> zget (fst st) i = Some false) /\
           snd st = n0 + popcount (fst st) - popcount m0)); [done | |].
  - simpl. split; [done|]. split; [intros; lia|]. split; [auto | lia].
  - intros k [m n] Hk (Hl & Hlo & Hhi & Hn). simpl in *.
    rewrite Hbody by done. destruct (C k) eqn:Ck; simpl.
    + split; [by rewrite length_zset|]. split; [|split].
      * intros i Hi. destruct (decide (k = i)) as [<-|Hne].
        -- rewrite zget_zset_eq by lia. by rewrite Ck.
        -- rewrite zget_zset_ne by done. apply Hlo. lia.
      * intros i Hi. rewrite zget_zset_ne by lia. apply Hhi. lia.
      * rewrite popcount_zset by (apply Hhi; lia). lia.
    + split; [done|]. split; [|split; [|done]].
      * intros i Hi. destruct (decide (k = i)) as [<-|Hne].
        -- rewrite Ck. apply Hhi. lia.
        -- apply Hlo. lia.
      * intros i Hi. apply Hhi. lia.
Qed.

Lemma mark_loop_fresh (N : Z) (C : Z -> bool)
    (body : Z -> list bool * Z -> list bool * Z) :
  0 <= N ->
  (forall i m n, 0 <= i < N ->
     body i (m, n) = if C i then (zset m i true, n + 1) else (m, n)) ->
  let st := for_upto N body (new_mask N, 0) in
  Z.of_nat (length (fst st)) = N /\
  (forall i, 0 <= i < N -> zget (fst st) i = Some (C i)) /\
  snd st = popcount (fst st).
Proof.
  intros HN Hbody.
  destruct (mark_loop_spec N C body (new_mask N) 0) as (H1 & H2 & H3);
    [done | rewrite length_new_mask; lia | apply zget_new_mask | done |].
  simpl. split; [done|]. split; [done|]. rewrite H3, popcount_new_mask. lia.
Qed.

(** The same for a row-major scan with the cell chosen by coordinates. *)
Lemma mark_scan_spec (img : ImageData) (c : Z -> Z -> bool)
    (body : Z -> Z -> list bool * Z -> list bool * Z) :
  0 < width img -> 0 < height img ->
  (forall x y m n, inside (width img) (height img) x y ->
     body x y (m, n) =
       if c x y then (zset m (y * width img + x) true, n + 1) else (m, n)) ->
  let st := scan img body (new_mask (width img * height img), 0) in
  Z.of_nat (length (fst st)) = width img * height img /\
  (forall x y, inside (width img) (height img) x y ->
     zget (fst st) (y * width img + x) = Some (c x y)) /\
  snd st = popcount (fst st).
Proof.
  intros Hw Hh Hbody.
  set (N := width img * height img).
  cut (let st := scan img body (new_mask N, 0) in
       Z.of_nat (length (fst st)) = N /\
       (forall x y, inside (width img) (height img) x y -> y * width img + x < N ->
          zget (fst st) (y * width img + x) = Some (c x y)) /\
       (forall i, N <= i < N -> zget (fst st) i = Some false) /\
       snd st = popcount (fst st)).
  { simpl. intros (H1 & H2 & _ & H4). split; [done|]. split; [|done].
    intros x y Hi. apply H2; [done|]. pose proof (inside_index _ _ Hw Hh x y Hi). lia. }
  apply (scan_ind (fun k st =>
           Z.of_nat (length (fst st)) = N /\
           (forall x y, inside (width img) (height img) x y -> y * width img + x < k ->
              zget (fst st) (y * width img + x) = Some (c x y)) /\
           (forall i, k <= i < N -> zget (fst st) i = Some false) /\
           snd st = popcount (fst st))); [done | lia | |].
  - simpl. split; [rewrite length_new_mask; unfold N; nia|].
    split; [|split].
    + intros x y Hi Hlt. pose proof (inside_index _ _ Hw Hh x y Hi). lia.
    + intros i Hi. apply zget_new_mask. lia.
    + by rewrite popcount_new_mask.
  - intros x y [m n] Hx Hy (Hl & Hlo & Hhi & Hn). simpl in *.
    assert (Hi : inside (width img) (height img) x y) by (unfold inside; lia).
    pose proof (inside_index _ _ Hw Hh x y Hi) as Hr. fold N in Hr.
    rewrite Hbody by done. destruct (c x y) eqn:Ck; simpl.
    + split; [by rewrite length_zset|]. split; [|split].
      * intros x' y' Hi' Hlt.
        destruct (decide (y * width img + x = y' * width img + x')) as [Heq|Hne].
        -- destruct (index_inj _ _ Hw _ _ _ _ Hi Hi' Heq) as [<- <-].
           rewrite zget_zset_eq by lia. by rewrite Ck.
        -- rewrite zget_zset_ne by done. apply Hlo; [done | lia].
      * intros i Hi2. rewrite zget_zset_ne by lia. apply Hhi. lia.
      * rewrite popcount_zset by (apply Hhi; lia). lia.
    + split; [done|]. split; [|split; [|done]].
      * intros x' y' Hi' Hlt.
        destruct (decide (y * width img + x = y' * width img + x')) as [Heq|Hne].
        -- destruct (index_inj _ _ Hw _ _ _ _ Hi Hi' Heq) as [<- <-].
           rewrite Ck. apply Hhi. lia.
        -- apply Hlo; [done | lia].
      * intros i Hi2. apply Hhi. lia.
Qed.

Section BatchMasks.
Variables (img : ImageData) (opts : Batch.Opts).
Hypotheses (Hw : 0 < width img) (Hh : 0 < height img).

Lemma foreground_spec bg :
  let st := Batch.foreground img bg in
  Z.of_nat (length (fst st)) = width img * height img /\
  (forall x y, inside (width img) (height img) x y ->
     zget (fst st) (y * width img + x) =
       Some (negb (truthy (zget bg (y * width img + x))))) /\
  snd st = popcount (fst st).
Proof.
  unfold Batch.foreground.
  apply (mark_scan_spec img (fun x y => negb (truthy (zget bg (y * width img + x)))));
    [done | done |].
  intros x y m n Hi. reflexivity.
Qed.

Lemma edgeBand_spec bg fg :
  let st := Batch.edgeBand img opts bg fg in
  Z.of_nat (length (fst st)) = width img * height img /\
  (forall x y, inside (width img) (height img) x y ->
     zget (fst st) (y * width img + x) =
       Some (truthy (zget fg (y * width img + x)) &&
             nearBackground img bg (Batch.bandRadius opts) x y)) /\
  snd st = popcount (fst st).
Proof.
  unfold Batch.edgeBand.
  apply (mark_scan_spec img (fun x y => truthy (zget fg (y * width img + x)) &&
             nearBackground img bg (Batch.bandRadius opts) x y)); [done | done |].
  intros x y m n Hi. cbn beta iota.
  destruct (truthy (zget fg (y * width img + x))); simpl; [|done].
  destruct (nearBackground img bg (Batch.bandRadius opts) x y); done.
Qed.
End BatchMasks.

Section WebMasks.
Variables (img : ImageData) (opts : Web.Opts).
Hypotheses (Hw : 0 < width img) (Hh : 0 < height img).

Local Abbreviation border_band := (border_band img opts).
Local Abbreviation ownLuminance := (ownLuminance img).

Lemma popcount_take_S (bg : list bool) (k : nat) (b : bool) :
  bg !! k = Some b ->
  popcount (take (S k) bg) = popcount (take k bg) + (if b then 1 else 0)%Z.
Proof.
  intros Hb. unfold popcount. rewrite (take_S_r _ _ _ Hb), filter_app, length_app.
  destruct b.
  - rewrite (filter_cons_True _ true) by done. simpl. lia.
  - rewrite (filter_cons_False _ false) by done. simpl. lia.
Qed.

Lemma countMarked_spec bg :
  Z.of_nat (length bg) = width img * height img ->
  Web.countMarked img bg = popcount bg.
Proof.
  intros Hlen. unfold Web.countMarked, Web.total.
  transitivity (popcount (take (Z.to_nat (width img * height img)) bg));
    [|by rewrite take_ge by lia].
  apply (for_upto_ind (fun k c => c = popcount (take (Z.to_nat k) bg))); [nia | done |].
  intros k c Hk ->.
  destruct (zget_in_range bg k) as [b Hb]; [lia|].
  rewrite Hb. unfold zget in Hb. destruct (Z.ltb_spec k 0); [lia|].
  replace (Z.to_nat (k + 1)) with (S (Z.to_nat k)) by lia.
  rewrite (popcount_take_S _ _ _ Hb). destruct b; simpl; lia.
Qed.

(** Tier 2 leaves a non-empty tier-1 mask alone and otherwise marks
    exactly the pixels that satisfy the predicate. *)
Lemma globalNearBg_spec bg0 :
  Z.of_nat (length bg0) = width img * height img ->
  let st := Web.globalNearBg img opts (bg0, popcount bg0) in
  (popcount bg0 <> 0 -> st = (bg0, popcount bg0)) /\
  (popcount bg0 = 0 ->
     Z.of_nat (length (fst st)) = width img * height img /\
     (forall i, 0 <= i < width img * height img ->
        zget (fst st) i = Some (Web.near img opts i))) /\
  Z.of_nat (length (fst st)) = width img * height img /\
  snd st = popcount (fst st).
Proof.
  intros Hlen. unfold Web.globalNearBg. cbn [snd].
  destruct (Z.eqb_spec (popcount bg0) 0) as [E|E].
  - assert (Hall : forall i, 0 <= i < width img * height img -> zget bg0 i = Some false).
    { intros i Hi. destruct (zget_in_range bg0 i) as [[] Hb]; [lia | | done].
      exfalso. by apply (proj1 (popcount_zero bg0) E i). }
    rewrite E.
    destruct (mark_loop_spec (Web.total img) (Web.near img opts)
                (fun i '(bg, bgCount) =>
                   if Web.near img opts i then (zset bg i true, bgCount + 1)
                   else (bg, bgCount)) bg0 0) as (H1 & H2 & H3);
      [unfold Web.total; nia | done | done | done |].
    unfold Web.total in *. simpl. split; [done|]. split; [done|]. split; [done|].
    rewrite H3, E. lia.
  - simpl. split; [done|]. split; [done|]. done.
Qed.

Lemma bandOf_spec bg bgCount :
  let st := Web.bandOf img opts bg bgCount in
  Z.of_nat (length (fst st)) = width img * height img /\
  (forall x y, inside (width img) (height img) x y ->
     zget (fst st) (y * width img + x) =
       Some (if bgCount =? 0 then border_band x y
             else negb (truthy (zget bg (y * width img + x))) &&
                  nearBackground img bg (Web.bandRadius opts) x y)) /\
  snd st = popcount (fst st).
Proof.
  unfold Web.bandOf, Web.total. destruct (bgCount =? 0).
  - apply (mark_scan_spec img border_band); [done | done |].
    intros x y m n Hi. reflexivity.
  - apply (mark_scan_spec img (fun x y =>
             negb (truthy (zget bg (y * width img + x))) &&
             nearBackground img bg (Web.bandRadius opts) x y)); [done | done |].
    intros x y m n Hi. cbn beta iota.
    destruct (truthy (zget bg (y * width img + x))); simpl; [done|].
    destruct (nearBackground img bg (Web.bandRadius opts) x y); done.
Qed.

Lemma maskOf_spec bg band bandCount :
  Z.of_nat (length band) = width img * height img ->
  bandCount = popcount band ->
  let st := Web.maskOf img opts bg band bandCount in
  Z.of_nat (length (fst st)) = width img * height img /\
  (forall i, 0 <= i < width img * height img ->
     zget (fst st) i =
       Some (match Web.sampleMode opts with
             | Web.All => negb (truthy (zget bg i))
             | Web.Stroke => truthy (zget band i) &&
                             Rleb (ownLuminance i) (Web.strokeLumaMax opts)
             | Web.Band => truthy (zget band i)
             end)) /\
  snd st = popcount (fst st).
Proof.
  intros Hlen Hcnt. unfold Web.maskOf, Web.total.
  assert (HN : 0 <= width img * height img) by nia.
  destruct (Web.sampleMode opts).
  - simpl. split; [done|]. split; [|done].
    intros i Hi. destruct (zget_in_range band i) as [[] Hb]; [lia | |]; by rewrite Hb.
  - apply (mark_loop_fresh (width img * height img)
             (fun i => negb (truthy (zget bg i)))); [done|].
    intros i m n Hi. reflexivity.
  - apply (mark_loop_fresh (width img * height img)
             (fun i => truthy (zget band i) &&
                       Rleb (ownLuminance i) (Web.strokeLumaMax opts))); [done|].
    intros i m n Hi. cbn beta iota zeta. unfold ownLuminance.
    destruct (truthy (zget band i)); simpl; [|done].
    destruct (Rleb _ _); done.
Qed.
End WebMasks.

(** ** Contrast mathematics *)

Section ContrastFacts.
Local Open Scope R_scope.

Lemma Rleb_true x y : Rleb x y = true <-> x <= y.
Proof. unfold Rleb. destruct (Rle_dec x y); split; intros; (done || lra). Qed.

Lemma Rleb_false x y : Rleb x y = false <-> y < x.
Proof. unfold Rleb. destruct (Rle_dec x y); split; intros; (done || lra). Qed.

Lemma Rltb_true x y : Rltb x y = true <-> x < y.
Proof. unfold Rltb. destruct (Rlt_dec x y); split; intros; (done || lra). Qed.

Lemma Rltb_false x y : Rltb x y = false <-> y <= x.
Proof. unfold Rltb. destruct (Rlt_dec x y); split; intros; (done || lra). Qed.

Lemma Rdiv_le_upper x y z : 0 < y -> x <= z * y -> x / y <= z.
Proof.
  intros Hy H. apply (Rmult_le_reg_r y); [done|].
  unfold Rdiv. rewrite Rmult_assoc, Rinv_l by lra. lra.
Qed.

Lemma Rdiv_le_lower x y z : 0 < y -> z * y <= x -> z <= x / y.
Proof.
  intros Hy H. apply (Rmult_le_reg_r y); [done|].
  unfold Rdiv. rewrite Rmult_assoc, Rinv_l by lra. lra.
Qed.

Lemma Rdiv_lt_upper x y z : 0 < y -> x < z * y -> x / y < z.
Proof.
  intros Hy H. apply (Rmult_lt_reg_r y); [done|].
  unfold Rdiv. rewrite Rmult_assoc, Rinv_l by lra. lra.
Qed.

Lemma Rdiv_lt_lower x y z : 0 < y -> z * y < x -> z < x / y.
Proof.
  intros Hy H. apply (Rmult_lt_reg_r y); [done|].
  unfold Rdiv. rewrite Rmult_assoc, Rinv_l by lra. lra.
Qed.

(** [Math.sqrt(n) <= d] on integers. *)
Lemma sqrt_le_spec (n d : Z) :
  (0 <= n)%Z -> sqrt_le n d = true <-> sqrt (IZR n) <= IZR d.
Proof.
  intros Hn. unfold sqrt_le. rewrite andb_true_iff, !Z.leb_le.
  assert (Hn' : 0 <= IZR n) by (by apply IZR_le).
  split.
  - intros [Hd Hle].
    assert (Hd' : 0 <= IZR d) by (by apply IZR_le).
    rewrite <- (sqrt_square (IZR d)) by done.
    apply sqrt_le_1_alt. rewrite <- mult_IZR. by apply IZR_le.
  - intros Hs. pose proof (sqrt_pos (IZR n)) as Hp.
    assert (Hd' : 0 <= IZR d) by lra.
    split; [by apply le_IZR|].
    apply le_IZR. rewrite mult_IZR. rewrite <- (sqrt_sqrt (IZR n)) by done.
    apply Rmult_le_compat; done.
Qed.

Lemma Math_pow_pos x y : 0 < Math_pow x y.
Proof. unfold Math_pow, Rpower. apply exp_pos. Qed.

Lemma Math_pow_le_1 x y : 0 < x <= 1 -> 0 <= y -> Math_pow x y <= 1.
Proof.
  intros [Hx0 Hx1] Hy. unfold Math_pow, Rpower.
  assert (Hln : ln x <= 0).
  { rewrite <- ln_1. destruct Hx1 as [Hlt | ->]; [left; by apply ln_increasing | right; done]. }
  rewrite <- exp_0.
  assert (Hm : y * ln x <= 0) by nra.
  destruct Hm as [Hlt | ->]; [left; by apply exp_increasing | right; done].
Qed.

Lemma Math_pow_1 y : Math_pow 1 y = 1.
Proof. unfold Math_pow, Rpower. rewrite ln_1, Rmult_0_r. apply exp_0. Qed.

Lemma srgbToLinear_range c : 0 <= c <= 1 -> 0 <= srgbToLinear c <= 1.
Proof.
  intros [H0 H1]. unfold srgbToLinear. destruct (Rleb c 0.04045) eqn:E.
  - apply Rleb_true in E. split; lra.
  - split; [left; apply Math_pow_pos|]. apply Math_pow_le_1; [|lra].
    split; [apply Rdiv_lt_0_compat; lra|]. apply Rdiv_le_upper; lra.
Qed.

Lemma srgbToLinear_0 : srgbToLinear 0 = 0.
Proof.
  unfold srgbToLinear. destruct (Rleb 0 0.04045) eqn:E; [lra|].
  apply Rleb_false in E. lra.
Qed.

Lemma srgbToLinear_1 : srgbToLinear 1 = 1.
Proof.
  unfold srgbToLinear. destruct (Rleb 1 0.04045) eqn:E.
  - apply Rleb_true in E. lra.
  - replace ((1 + 0.055) / 1.055) with 1 by lra. apply Math_pow_1.
Qed.

Lemma byte_unit v : is_byte v -> 0 <= IZR v / 255 <= 1.
Proof.
  intros [H0 H1]. apply IZR_le in H0, H1. split.
  - apply Rdiv_le_lower; lra.
  - apply Rdiv_le_upper; lra.
Qed.

Lemma relLuminance_range r g b :
  is_byte r -> is_byte g -> is_byte b -> 0 <= relLuminance r g b <= 1.
Proof.
  intros Hr Hg Hb. unfold relLuminance.
  pose proof (srgbToLinear_range _ (byte_unit r Hr)).
  pose proof (srgbToLinear_range _ (byte_unit g Hg)).
  pose proof (srgbToLinear_range _ (byte_unit b Hb)).
  lra.
Qed.

Lemma blend_byte a c b :
  is_byte a -> is_byte c -> is_byte b ->
  is_byte (Math_round (IZR a / 255 * IZR c + (1 - IZR a / 255) * IZR b)).
Proof.
  intros Ha [Hc0 Hc1] [Hb0 Hb1]. pose proof (byte_unit a Ha) as Hu.
  apply IZR_le in Hc0, Hc1, Hb0, Hb1.
  set (t := IZR a / 255) in *. set (v := t * IZR c + (1 - t) * IZR b).
  assert (Hv : 0 <= v <= 255) by (unfold v; nra).
  unfold Math_round, is_byte. pose proof (Zfloor_bound (v + 0.5)) as [Hlo Hhi].
  split.
  - apply Zfloor_lub. simpl. lra.
  - assert (IZR (Zfloor (v + 0.5)) < 256) by lra.
    apply lt_IZR in H. lia.
Qed.

Lemma composite_byte r g b a bg :
  is_byte r -> is_byte g -> is_byte b -> is_byte a ->
  is_byte (red bg) -> is_byte (green bg) -> is_byte (blue bg) ->
  let c := composite r g b a bg in
  is_byte (red c) /\ is_byte (green c) /\ is_byte (blue c).
Proof. intros. simpl. repeat split; by apply blend_byte. Qed.

Lemma composite_opaque r g b bg :
  composite r g b 255 bg = mkRgb r g b.
Proof.
  unfold composite. replace (IZR 255 / 255) with 1 by lra.
  assert (H : forall v w : Z, Math_round (1 * IZR v + (1 - 1) * IZR w) = v).
  { intros v w. unfold Math_round. apply Zfloor_eq. lra. }
  by rewrite !H.
Qed.

Lemma ratio_bounds L1 L2 :
  0 <= L1 <= 1 -> 0 <= L2 <= 1 ->
  1 <= (Rmax L1 L2 + 0.05) / (Rmin L1 L2 + 0.05) <= 21.
Proof.
  intros H1 H2.
  assert (Hmax : Rmin L1 L2 <= Rmax L1 L2 <= 1).
  { unfold Rmax, Rmin. destruct (Rle_dec L1 L2); lra. }
  assert (Hmin : 0 <= Rmin L1 L2).
  { unfold Rmin. destruct (Rle_dec L1 L2); lra. }
  split.
  - apply Rdiv_le_lower; lra.
  - apply Rdiv_le_upper; lra.
Qed.

Lemma contrast_range r g b a bg :
  is_byte r -> is_byte g -> is_byte b -> is_byte a ->
  is_byte (red bg) -> is_byte (green bg) -> is_byte (blue bg) ->
  1 <= contrastRatioPixelVsBg r g b a bg <= 21.
Proof.
  intros Hr Hg Hb Ha Hbr Hbg Hbb. unfold contrastRatioPixelVsBg.
  destruct (composite_byte r g b a bg Hr Hg Hb Ha Hbr Hbg Hbb) as (C1 & C2 & C3).
  cbv zeta. apply ratio_bounds; by apply relLuminance_range.
Qed.
End ContrastFacts.

Section ContrastValues.
Local Open Scope R_scope.

Lemma contrast_self r g b :
  is_byte r -> is_byte g -> is_byte b ->
  contrastRatioPixelVsBg r g b 255 (mkRgb r g b) = 1.
Proof.
  intros Hr Hg Hb. unfold contrastRatioPixelVsBg. rewrite composite_opaque. cbv zeta.
  cbn [red green blue].
  pose proof (relLuminance_range r g b Hr Hg Hb) as HL.
  rewrite Rmax_left, Rmin_left by lra. field. lra.
Qed.

Lemma relLuminance_black : relLuminance 0 0 0 = 0.
Proof.
  unfold relLuminance. replace (IZR 0 / 255) with 0 by lra.
  rewrite srgbToLinear_0. lra.
Qed.

Lemma relLuminance_white : relLuminance 255 255 255 = 1.
Proof.
  unfold relLuminance. replace (IZR 255 / 255) with 1 by lra.
  rewrite srgbToLinear_1. lra.
Qed.

Lemma contrast_black_on_white :
  contrastRatioPixelVsBg 0 0 0 255 (mkRgb 255 255 255) = 21.
Proof.
  unfold contrastRatioPixelVsBg. rewrite composite_opaque. cbv zeta.
  cbn [red green blue]. rewrite relLuminance_black, relLuminance_white.
  rewrite Rmax_right, Rmin_left by lra. lra.
Qed.

(** [Math.pow(x, 2.4)] is the fifth root of [x ^ 12]. *)
Lemma Math_pow_24 x : 0 < x -> (Math_pow x 2.4) ^ 5 = x ^ 12.
Proof.
  intros Hx. unfold Math_pow.
  rewrite <- (Rpower_pow 5) by apply Math_pow_pos.
  rewrite Rpower_mult. rewrite <- (Rpower_pow 12) by done.
  f_equal. simpl. lra.
Qed.

Lemma Math_pow_24_between x lo hi :
  0 < x -> 0 <= lo -> 0 <= hi -> lo ^ 5 < x ^ 12 < hi ^ 5 ->
  lo < Math_pow x 2.4 < hi.
Proof.
  intros Hx Hlo Hhi [H1 H2]. rewrite <- (Math_pow_24 x Hx) in H1, H2.
  pose proof (Math_pow_pos x 2.4) as Hp.
  split.
  - destruct (Rlt_le_dec lo (Math_pow x 2.4)) as [|Hle]; [done|].
    pose proof (pow_incr (Math_pow x 2.4) lo 5 ltac:(lra)). lra.
  - destruct (Rlt_le_dec (Math_pow x 2.4) hi) as [|Hle]; [done|].
    pose proof (pow_incr hi (Math_pow x 2.4) 5 ltac:(lra)). lra.
Qed.

Lemma gray130_linear :
  0.22 < srgbToLinear (IZR 130 / 255) < 0.226.
Proof.
  unfold srgbToLinear. destruct (Rleb (IZR 130 / 255) 0.04045) eqn:E.
  { apply Rleb_true in E. lra. }
  apply Math_pow_24_between; [lra | lra | lra |].
  assert (Hx : 0.5353 < (IZR 130 / 255 + 0.055) / 1.055 < 0.5354) by lra.
  set (x := (IZR 130 / 255 + 0.055) / 1.055) in *.
  assert (L2 : 0.5353 ^ 2 <= x ^ 2 <= 0.5354 ^ 2).
  { split; apply pow_incr; lra. }
  assert (L12lo : 0.5353 ^ 12 <= x ^ 12) by (apply pow_incr; lra).
  assert (L12hi : x ^ 12 <= 0.5354 ^ 12) by (apply pow_incr; lra).
  split; lra.
Qed.

Lemma gray130_on_white :
  3.8 < contrastRatioPixelVsBg 130 130 130 255 (mkRgb 255 255 255) < 3.9.
Proof.
  unfold contrastRatioPixelVsBg. rewrite composite_opaque. cbv zeta.
  cbn [red green blue]. rewrite relLuminance_white.
  pose proof gray130_linear as HL.
  unfold relLuminance.
  set (l := srgbToLinear (IZR 130 / 255)) in *.
  replace (0.2126 * l + 0.7152 * l + 0.0722 * l) with l by lra.
  rewrite Rmax_right, Rmin_left by lra.
  split; [apply Rdiv_lt_lower | apply Rdiv_lt_upper]; lra.
Qed.
End ContrastValues.

(** ** Sorting and percentiles *)

Section StatsFacts.
Local Open Scope R_scope.

Lemma insert_asc_perm x l : insert_asc x l ≡ₚ x :: l.
Proof.
  induction l as [|y l IH]; simpl; [done|].
  destruct (Rleb x y); [done|]. rewrite IH. apply Permutation_swap.
Qed.

Lemma sort_asc_perm l : sort_asc l ≡ₚ l.
Proof.
  induction l as [|x l IH]; simpl; [done|].
  unfold sort_asc in *. simpl. rewrite insert_asc_perm. by rewrite IH.
Qed.

Lemma len_sort_asc l : len (sort_asc l) = len l.
Proof. unfold len. by rewrite (Permutation_length (sort_asc_perm l)). Qed.

Lemma insert_asc_sorted x l :
  StronglySorted Rle l -> StronglySorted Rle (insert_asc x l).
Proof.
  induction 1 as [|y l Hs IH Hall]; simpl.
  - constructor; constructor.
  - destruct (Rleb x y) eqn:E.
    + apply Rleb_true in E. constructor; [by constructor|].
      constructor; [done|]. eapply Forall_impl; [exact Hall|]. simpl. intros; lra.
    + apply Rleb_false in E. constructor; [done|].
      rewrite insert_asc_perm. constructor; [lra | done].
Qed.

Lemma sort_asc_sorted l : StronglySorted Rle (sort_asc l).
Proof.
  induction l as [|x l IH]; [constructor|]. by apply insert_asc_sorted.
Qed.

(** Sorting a constant sequence leaves it alone. *)
Lemma sort_asc_replicate n x : sort_asc (replicate n x) = replicate n x.
Proof.
  induction n as [|n IH]; [done|].
  change (sort_asc (replicate (S n) x)) with (insert_asc x (sort_asc (replicate n x))).
  rewrite IH. destruct n; simpl; [done|].
  destruct (Rleb x x) eqn:E; [done|]. apply Rleb_false in E. lra.
Qed.

Lemma sorted_lookup_le (l : list R) (i j : nat) a b :
  StronglySorted Rle l -> (i <= j)%nat ->
  l !! i = Some a -> l !! j = Some b -> a <= b.
Proof.
  intros Hs. revert i j. induction Hs as [|x l Hs IH Hall]; intros i j Hij Hi Hj.
  - done.
  - destruct i as [|i], j as [|j]; simpl in *.
    + injection Hi as <-. injection Hj as <-. lra.
    + injection Hi as <-. apply list_elem_of_lookup_2 in Hj.
      rewrite Forall_forall in Hall. by apply Hall.
    + lia.
    + eapply IH; [|done|done]. lia.
Qed.

Lemma item_in_range (l : list R) (i : Z) :
  (0 <= i < len l)%Z -> exists a, item l i = Num a /\ l !! Z.to_nat i = Some a.
Proof.
  intros Hi. unfold item. destruct (zget_in_range l i) as [a Ha]; [by unfold len in Hi|].
  rewrite Ha. exists a. split; [done|]. unfold zget in Ha.
  destruct (Z.ltb_spec i 0); [lia | done].
Qed.

Lemma floor_ceil_cases t :
  (Zfloor t = Zceil t /\ IZR (Zfloor t) = t) \/
  (Zceil t = (Zfloor t + 1)%Z /\ IZR (Zfloor t) < t < IZR (Zfloor t) + 1).
Proof.
  pose proof (Zfloor_bound t) as [F1 F2]. pose proof (Zceil_bound t) as [C1 C2].
  destruct (Req_dec (IZR (Zfloor t)) t) as [E|E].
  - left. split; [|done]. symmetry. apply Zceil_eq. lra.
  - right. split; [|lra]. apply Zceil_eq. rewrite plus_IZR. lra.
Qed.

Lemma floor_index_range (n : Z) (p : R) :
  (1 <= n)%Z -> 0 <= p <= 1 ->
  let t := IZR (n - 1) * p in
  (0 <= Zfloor t)%Z /\ (Zceil t <= n - 1)%Z /\ (Zfloor t <= Zceil t)%Z /\ 0 <= t <= IZR (n - 1).
Proof.
  intros Hn Hp t.
  assert (Hn1 : 0 <= IZR (n - 1)) by (apply IZR_le; lia).
  assert (Ht : 0 <= t <= IZR (n - 1)) by (unfold t; nra).
  pose proof (Zfloor_bound t) as [F1 F2]. pose proof (Zceil_bound t) as [C1 C2].
  split; [|split; [|split]]; [..|done].
  - apply Zfloor_lub. simpl. lra.
  - assert (IZR (Zceil t) < IZR (n - 1) + 1) by lra.
    rewrite <- plus_IZR in H. apply lt_IZR in H. lia.
  - apply le_IZR. lra.
Qed.

(** The value of [percentile] for a fraction in [0, 1]. *)
Lemma percentile_value (s : list R) (p : R) :
  (1 <= len s)%Z -> 0 <= p <= 1 ->
  let t := IZR (len s - 1) * p in
  exists a b, s !! Z.to_nat (Zfloor t) = Some a /\ s !! Z.to_nat (Zceil t) = Some b /\
    percentile s p =
      Num (if (Zfloor t =? Zceil t)%Z then a
           else a * (1 - (t - IZR (Zfloor t))) + b * (t - IZR (Zfloor t))).
Proof.
  intros Hn Hp t.
  destruct (floor_index_range (len s) p Hn Hp) as (H0 & H1 & H2 & Ht). fold t in H0, H1, H2, Ht.
  destruct (item_in_range s (Zfloor t)) as (a & Ia & La); [lia|].
  destruct (item_in_range s (Zceil t)) as (b & Ib & Lb); [lia|].
  exists a, b. split; [done|]. split; [done|].
  unfold percentile. destruct (Z.eqb_spec (len s) 0) as [E|_]; [lia|].
  fold t. destruct (Zfloor t =? Zceil t)%Z; [done|].
  rewrite Ia, Ib. done.
Qed.
End StatsFacts.

Section PercentileMonotone.
Local Open Scope R_scope.

Lemma Sorted_Rle_strong (s : list R) : Sorted Rle s -> StronglySorted Rle s.
Proof. apply Sorted_StronglySorted. intros x y z Hxy Hyz. lra. Qed.

Lemma len_pos (s : list R) : s <> [] -> (1 <= len s)%Z.
Proof. destruct s; [done|]. intros _. unfold len. simpl. lia. Qed.

(** The interpolated value lies between the two order statistics. *)
Lemma lerp_between a b w : a <= b -> 0 <= w <= 1 -> a <= a * (1 - w) + b * w <= b.
Proof. intros. split; nra. Qed.

Lemma percentile_mono (s : list R) (p1 p2 : R) :
  s <> [] -> StronglySorted Rle s -> 0 <= p1 -> p1 <= p2 -> p2 <= 1 ->
  exists v1 v2, percentile s p1 = Num v1 /\ percentile s p2 = Num v2 /\ v1 <= v2.
Proof.
  intros Hne Hs H0 H12 H1. pose proof (len_pos s Hne) as Hn.
  destruct (percentile_value s p1 Hn ltac:(lra)) as (a1 & b1 & La1 & Lb1 & E1).
  destruct (percentile_value s p2 Hn ltac:(lra)) as (a2 & b2 & La2 & Lb2 & E2).
  destruct (floor_index_range (len s) p1 Hn ltac:(lra)) as (F1 & C1 & FC1 & T1).
  destruct (floor_index_range (len s) p2 Hn ltac:(lra)) as (F2 & C2 & FC2 & T2).
  set (t1 := IZR (len s - 1) * p1) in *. set (t2 := IZR (len s - 1) * p2) in *.
  assert (Ht : t1 <= t2).
  { unfold t1, t2. assert (0 <= IZR (len s - 1)) by (apply IZR_le; lia). nra. }
  pose proof (Zfloor_le t1 t2 Ht) as Hfl.
  pose proof (Zceil_le t1 t2 Ht) as Hcl.
  assert (Hab1 : a1 <= b1).
  { eapply (sorted_lookup_le s); [done| |exact La1|exact Lb1]. lia. }
  assert (Hab2 : a2 <= b2).
  { eapply (sorted_lookup_le s); [done| |exact La2|exact Lb2]. lia. }
  eexists _, _. split; [exact E1|]. split; [exact E2|].
  destruct (floor_ceil_cases t1) as [[Efc1 Eint1] | [Ec1 Hin1]];
  destruct (floor_ceil_cases t2) as [[Efc2 Eint2] | [Ec2 Hin2]].
  - (* both on an order statistic *)
    rewrite Efc1, Efc2, !Z.eqb_refl. rewrite <- Efc1 in Lb1. rewrite <- Efc2 in Lb2.
    eapply (sorted_lookup_le s); [done| |exact La1|exact La2]. lia.
  - rewrite Efc1, Z.eqb_refl.
    destruct (Z.eqb_spec (Zfloor t2) (Zceil t2)) as [E|_]; [lia|].
    assert (Ha : a1 <= a2).
    { eapply (sorted_lookup_le s); [done| |exact La1|exact La2]. lia. }
    pose proof (lerp_between a2 b2 (t2 - IZR (Zfloor t2)) Hab2 ltac:(lra)). lra.
  - destruct (Z.eqb_spec (Zfloor t1) (Zceil t1)) as [E|_]; [lia|].
    rewrite Efc2, Z.eqb_refl.
    assert (Hlt : (Zfloor t1 < Zfloor t2)%Z).
    { apply lt_IZR. lra. }
    assert (Hb : b1 <= a2).
    { eapply (sorted_lookup_le s); [done| |exact Lb1|exact La2]. lia. }
    pose proof (lerp_between a1 b1 (t1 - IZR (Zfloor t1)) Hab1 ltac:(lra)). lra.
  - destruct (Z.eqb_spec (Zfloor t1) (Zceil t1)) as [E|_]; [lia|].
    destruct (Z.eqb_spec (Zfloor t2) (Zceil t2)) as [E|_]; [lia|].
    destruct (Z.eq_dec (Zfloor t1) (Zfloor t2)) as [Eq|Hne12].
    + rewrite Ec1, Eq in Lb1. rewrite Ec2 in Lb2. rewrite Eq in La1.
      assert (a1 = a2) by congruence. assert (b1 = b2) by congruence. subst a2 b2.
      rewrite Eq. rewrite Eq in Hin1. nra.
    + assert (Hb : b1 <= a2).
      { eapply (sorted_lookup_le s); [done| |exact Lb1|exact La2]. lia. }
      pose proof (lerp_between a1 b1 (t1 - IZR (Zfloor t1)) Hab1 ltac:(lra)).
      pose proof (lerp_between a2 b2 (t2 - IZR (Zfloor t2)) Hab2 ltac:(lra)). lra.
Qed.

Lemma percentile_at_0 (s : list R) x :
  head s = Some x -> percentile s 0 = Num x.
Proof.
  destruct s as [|y s]; [done|]. intros [= ->]. unfold percentile.
  destruct (Z.eqb_spec (len (x :: s)) 0) as [E|_]; [unfold len in E; simpl in E; lia|].
  rewrite Rmult_0_r. replace (Zceil 0) with 0%Z by (symmetry; apply Zceil_eq; simpl; lra).
  replace (Zfloor 0) with 0%Z by (symmetry; apply Zfloor_eq; simpl; lra).
  done.
Qed.

Lemma percentile_at_1 (s : list R) x :
  last s = Some x -> percentile s 1 = Num x.
Proof.
  intros Hl. assert (Hne : s <> []) by (by destruct s).
  pose proof (len_pos s Hne) as Hn. unfold percentile.
  destruct (Z.eqb_spec (len s) 0) as [E|_]; [lia|].
  rewrite Rmult_1_r, ZfloorZ.
  replace (Zceil (IZR (len s - 1))) with (len s - 1)%Z
    by (symmetry; apply Zceil_eq; lra).
  rewrite Z.eqb_refl. unfold item, zget.
  destruct (Z.ltb_spec (len s - 1) 0); [lia|].
  rewrite last_lookup in Hl.
  replace (Z.to_nat (len s - 1)) with (Nat.pred (length s)) by (unfold len; lia).
  by rewrite Hl.
Qed.

Lemma sorted_head_min (s : list R) m :
  StronglySorted Rle s -> head s = Some m -> Forall (fun x => m <= x) s.
Proof.
  intros Hs Hh. apply Forall_forall. intros x Hx.
  apply list_elem_of_lookup_1 in Hx as [i Hi].
  eapply (sorted_lookup_le s 0 i); [done | lia | | done].
  by destruct s.
Qed.

Lemma sorted_last_max (s : list R) M :
  StronglySorted Rle s -> last s = Some M -> Forall (fun x => x <= M) s.
Proof.
  intros Hs Hl. apply Forall_forall. intros x Hx.
  apply list_elem_of_lookup_1 in Hx as [i Hi].
  rewrite last_lookup in Hl.
  eapply (sorted_lookup_le s i (Nat.pred (length s))); [done | | done | done].
  apply lookup_lt_Some in Hi. lia.
Qed.
End PercentileMonotone.

(** ** Ratio collection *)

Lemma seqZ_snoc k : 0 <= k -> seqZ 0 (k + 1) = seqZ 0 k ++ [k].
Proof. intros Hk. rewrite seqZ_app by lia. done. Qed.

Lemma filter_single (P : Z -> bool) k :
  filter (fun i => P i = true) [k] = if P k then [k] else [].
Proof.
  destruct (P k) eqn:E.
  - by rewrite filter_cons_True.
  - rewrite filter_cons_False; [done|]. congruence.
Qed.

Section WebRatios.
Variables (img : ImageData) (opts : Web.Opts).
Hypotheses (Hw : 0 < width img) (Hh : 0 < height img).

Local Abbreviation scored := (scored img opts).

Lemma ratiosOf_spec mask :
  let st := Web.ratiosOf img opts mask in
  fst st = map (ratioAt img (Web.opt_bg opts))
             (filter (fun i => scored mask i = true)
                     (seqZ 0 (width img * height img))) /\
  Z.of_nat (length (snd st)) = width img * height img /\
  (forall i, 0 <= i < width img * height img ->
     zget (snd st) i =
       Some (scored mask i &&
             Rltb (ratioAt img (Web.opt_bg opts) i) (Web.threshold opts))).
Proof.
  unfold Web.ratiosOf, Web.total. set (N := width img * height img).
  assert (HN : 0 <= N) by (unfold N; nia).
  set (body := fun (i : Z) '(ratios, failing) =>
            if negb (truthy (zget mask i)) then (ratios, failing)
            else
              let off := i * 4 in
              let a := byte (data img) (off + 3) in
              if a <? Web.minAlpha opts then (ratios, failing)
              else
                let cr := contrastRatioPixelVsBg (byte (data img) off)
                            (byte (data img) (off + 1)) (byte (data img) (off + 2))
                            a (Web.opt_bg opts) in
                (ratios ++ [cr],
                 if Rltb cr (Web.threshold opts) then zset failing i true else failing)).
  cut (let st := for_upto N body ([], new_mask N) in
       fst st = map (ratioAt img (Web.opt_bg opts))
                  (filter (fun i => scored mask i = true) (seqZ 0 N)) /\
       Z.of_nat (length (snd st)) = N /\
       (forall i, 0 <= i < N ->
          zget (snd st) i =
            Some (scored mask i &&
                  Rltb (ratioAt img (Web.opt_bg opts) i) (Web.threshold opts))) /\
       (forall i, N <= i < N -> zget (snd st) i = Some false)).
  { simpl. tauto. }
  apply (for_upto_ind (fun k st =>
           fst st = map (ratioAt img (Web.opt_bg opts))
                      (filter (fun i => scored mask i = true) (seqZ 0 k)) /\
           Z.of_nat (length (snd st)) = N /\
           (forall i, 0 <= i < k ->
              zget (snd st) i =
                Some (scored mask i &&
                      Rltb (ratioAt img (Web.opt_bg opts) i) (Web.threshold opts))) /\
           (forall i, k <= i < N -> zget (snd st) i = Some false))); [done | |].
  - simpl. split; [done|]. split; [rewrite length_new_mask; lia|].
    split; [intros; lia|]. intros i Hi. by apply zget_new_mask.
  - intros k [ratios failing] Hk (Hr & Hl & Hlo & Hhi). simpl in Hr, Hl, Hlo, Hhi.
    rewrite seqZ_snoc, filter_app by lia.
    assert (Hold : forall f', Z.of_nat (length f') = N ->
              (forall i, i <> k -> zget f' i = zget failing i) ->
              zget f' k = Some (scored mask k &&
                  Rltb (ratioAt img (Web.opt_bg opts) k) (Web.threshold opts)) ->
              Z.of_nat (length f') = N /\
              (forall i, 0 <= i < k + 1 ->
                 zget f' i = Some (scored mask i &&
                   Rltb (ratioAt img (Web.opt_bg opts) i) (Web.threshold opts))) /\
              (forall i, k + 1 <= i < N -> zget f' i = Some false)).
    { intros f' Hl' Hsame Hk'. split; [done|]. split.
      - intros i Hi. destruct (decide (i = k)) as [->|Hne]; [done|].
        rewrite Hsame by done. apply Hlo. lia.
      - intros i Hi. rewrite Hsame by lia. apply Hhi. lia. }
    rewrite filter_single, map_app.
    assert (Hbody : body k (ratios, failing) =
        if scored mask k
        then (ratios ++ [ratioAt img (Web.opt_bg opts) k],
              if Rltb (ratioAt img (Web.opt_bg opts) k) (Web.threshold opts)
              then zset failing k true else failing)
        else (ratios, failing)).
    { unfold body, scored, alphaAt, ratioAt, ratioOf, pixelAt. cbn beta iota zeta.
      destruct (truthy (zget mask k)); cbn [negb andb]; [|done].
      destruct (byte (data img) (k * 4 + 3) <? Web.minAlpha opts); done. }
    rewrite Hbody. clear Hbody.
    destruct (scored mask k) eqn:Es; cbn [andb fst snd map].
    + split; [by rewrite Hr|].
      destruct (Rltb (ratioAt img (Web.opt_bg opts) k) (Web.threshold opts)) eqn:Et.
      * apply Hold.
        -- by rewrite length_zset.
        -- intros i Hi. by rewrite zget_zset_ne.
        -- rewrite zget_zset_eq by lia. done.
      * apply Hold; [done | done |]. apply Hhi. lia.
    + rewrite app_nil_r. split; [done|].
      apply Hold; [done | done |]. apply Hhi. lia.
Qed.
End WebRatios.

Section BatchRatios.
Variables (img : ImageData) (mask : list bool) (bgColor : rgb).
Hypotheses (Hw : 0 < width img) (Hh : 0 < height img).

Local Abbreviation inMask := (inMask mask).
Local Abbreviation records := (records img).
Local Abbreviation collected_upto := (collected_upto img mask bgColor).

Lemma collected_spec :
  collected_upto (width img * height img) (Batch.collected img mask bgColor).
Proof.
  unfold Batch.collected.
  apply (scan_ind collected_upto); [done | lia | |].
  - split; [done|]. simpl. split; [done|]. intros; lia.
  - intros x y c Hx Hy [Hr Hwst].
    assert (Hi : inside (width img) (height img) x y) by (unfold inside; lia).
    pose proof (inside_index _ _ Hw Hh x y Hi) as Hrange.
    set (k := y * width img + x) in *.
    assert (Hbody : Batch.collect_pixel img mask bgColor x y c =
      if inMask k then
        let cr := ratioAt img bgColor k in
        if match Batch.worst c with None => true | Some w => Rltb cr w end
        then Batch.mkCollected (Batch.ratios c ++ [cr]) (Some cr)
               (Some (Batch.mkWorst (byte (data img) (k * 4)) (byte (data img) (k * 4 + 1))
                        (byte (data img) (k * 4 + 2)) (byte (data img) (k * 4 + 3)) x y))
        else Batch.mkCollected (Batch.ratios c ++ [cr]) (Batch.worst c) (Batch.worstPixel c)
      else c).
    { unfold Batch.collect_pixel, inMask. fold k. destruct (truthy (zget mask k)); done. }
    rewrite Hbody. clear Hbody. unfold collected_upto.
    rewrite seqZ_snoc, filter_app, filter_single, map_app by lia.
    destruct (inMask k) eqn:Em.
    2:{ rewrite app_nil_r. split; [done|].
        destruct (Batch.worst c) as [m|].
        - destruct Hwst as (wp & i & Hwp & Hrec & Hik & Hmi & Hri & Hmin & Hfirst).
          exists wp, i. repeat split; auto; try lia.
          intros j Hj Hmj. destruct (decide (j = k)) as [->|Hne]; [congruence|].
          apply Hmin; [lia | done].
        - destruct Hwst as [Hwp Hnone]. split; [done|].
          intros j Hj. destruct (decide (j = k)) as [->|Hne]; [done|]. apply Hnone. lia. }
    cbv zeta. destruct (Batch.worst c) as [m|] eqn:Ew.
    + destruct Hwst as (wp & i & Hwp & Hrec & Hik & Hmi & Hri & Hmin & Hfirst).
      destruct (Rltb (ratioAt img bgColor k) m) eqn:Elt; cbn [Batch.ratios Batch.worst Batch.worstPixel].
      * apply Rltb_true in Elt. split; [by rewrite Hr|].
        eexists _, k. split; [done|]. split; [by exists x, y|].
        split; [lia|]. split; [done|]. split; [done|]. split.
        -- intros j Hj Hmj. destruct (decide (j = k)) as [->|Hne]; [lra|].
           pose proof (Hmin j ltac:(lia) Hmj). lra.
        -- intros j Hj Hmj. pose proof (Hmin j ltac:(lia) Hmj). lra.
      * apply Rltb_false in Elt. split; [by rewrite Hr|].
        exists wp, i. split; [done|]. split; [done|].
        split; [lia|]. split; [done|]. split; [done|]. split; [|done].
        intros j Hj Hmj. destruct (decide (j = k)) as [->|Hne]; [done|].
        apply Hmin; [lia | done].
    + destruct Hwst as [Hwp Hnone]. cbn [Batch.ratios Batch.worst Batch.worstPixel].
      split; [by rewrite Hr|].
      eexists _, k. split; [done|]. split; [by exists x, y|].
      split; [lia|]. split; [done|]. split; [done|]. split.
      * intros j Hj Hmj. destruct (decide (j = k)) as [->|Hne]; [lra|].
        rewrite Hnone in Hmj by lia. done.
      * intros j Hj Hmj. rewrite Hnone in Hmj by lia. done.
Qed.
End BatchRatios.

(** ** The claims

    C1 pass rule; C2 background mask and border reachability; C3 fallback
    tiers; C4 range of the contrast ratio; C5 scenario B; C6 sample mask
    inside the foreground; C7 minimum-alpha gate; C8 percentile; C9
    determinism; C10 stack against queue.  The statements come after the
    lemmas that bridge the code's predicates and the specification's
    wording. *)

Lemma byte_in_range (bytes : list Z) off :
  0 <= off < Z.of_nat (length bytes) -> zget bytes off = Some (byte bytes off).
Proof.
  intros H. unfold byte. destruct (zget_in_range bytes off H) as [v ->]. done.
Qed.

Lemma near_background_iff img segBg alphaBg nearBgDist x y :
  well_formed img -> inside (width img) (height img) x y ->
  nearXY (width img) (nearIndex img segBg alphaBg nearBgDist) x y <->
  near_background img segBg alphaBg nearBgDist x y.
Proof.
  intros (Hw & Hh & Hlen) Hi. pose proof (inside_index _ _ Hw Hh x y Hi) as Hr.
  unfold nearXY, nearIndex, nearAtOffset, near_background, pixelAt.
  remember (y * width img + x) as i eqn:Ei. clear Ei Hi.
  rewrite (byte_in_range _ (i * 4)), (byte_in_range _ (i * 4 + 1)),
    (byte_in_range _ (i * 4 + 2)), (byte_in_range _ (i * 4 + 3)) by lia.
  unfold isNearBg. destruct (Z.leb_spec (byte (data img) (i * 4 + 3)) alphaBg) as [Ha|Ha].
  - split; [by left | done].
  - rewrite sqrt_le_spec.
    + split; [by right|]. intros [H|H]; [lia | done].
    + pose proof (Z.square_nonneg (red segBg - byte (data img) (i * 4))).
      pose proof (Z.square_nonneg (green segBg - byte (data img) (i * 4 + 1))).
      pose proof (Z.square_nonneg (blue segBg - byte (data img) (i * 4 + 2))).
      lia.
Qed.

Lemma reach_near_background img segBg alphaBg nearBgDist x y :
  well_formed img ->
  reach (width img) (height img) (nearXY (width img) (nearIndex img segBg alphaBg nearBgDist)) x y
  <-> border_path (width img) (height img) (near_background img segBg alphaBg nearBgDist) x y.
Proof.
  intros Hwf. rewrite <- reach_border_path. split; apply reach_ext; intros a b Hab.
  - by apply near_background_iff.
  - symmetry. by apply near_background_iff.
Qed.

(** Both fills agree cell by cell, hence as lists. *)
Lemma mask_ext (w h : Z) (m1 m2 : list bool) :
  0 < w -> 0 < h ->
  Z.of_nat (length m1) = w * h -> Z.of_nat (length m2) = w * h ->
  (forall x y, inside w h x y ->
     (zget m1 (y * w + x) = Some true <-> zget m2 (y * w + x) = Some true)) ->
  m1 = m2.
Proof.
  intros Hw Hh H1 H2 Hiff. apply list_eq. intros i.
  destruct (decide (i < length m1)%nat) as [Hlt|Hge].
  2:{ rewrite !lookup_ge_None_2 by lia. done. }
  set (z := Z.of_nat i).
  assert (Hz : 0 <= z < w * h) by lia.
  assert (Hi : inside w h (z mod w) (z / w)).
  { unfold inside. pose proof (Z.mod_pos_bound z w Hw).
    assert (0 <= z / w) by (apply Z.div_pos; lia).
    assert (z / w < h) by (apply Z.div_lt_upper_bound; lia). lia. }
  specialize (Hiff _ _ Hi).
  replace (z / w * w + z mod w) with z in Hiff by (pose proof (Z.div_mod z w); lia).
  unfold zget in Hiff. destruct (Z.ltb_spec z 0); [lia|].
  unfold z in Hiff. rewrite Nat2Z.id in Hiff.
  destruct (lookup_lt_is_Some_2 m1 i Hlt) as [b1 E1].
  destruct (lookup_lt_is_Some_2 m2 i ltac:(lia)) as [b2 E2].
  rewrite E1, E2 in *. destruct b1, b2; try done.
  - destruct Hiff as [Hiff _]. by specialize (Hiff eq_refl).
  - destruct Hiff as [_ Hiff]. by specialize (Hiff eq_refl).
Qed.

Lemma fills_agree img segBg alphaBg nearBgDist :
  0 < width img -> 0 < height img ->
  exists bg, Batch.floodFill img segBg alphaBg nearBgDist = Some bg /\
             Web.floodFill img segBg alphaBg nearBgDist = Some bg.
Proof.
  intros Hw Hh.
  destruct (batch_fill_spec img segBg alphaBg nearBgDist Hw Hh) as (b1 & E1 & L1 & S1).
  destruct (web_fill_spec img segBg alphaBg nearBgDist Hw Hh) as (b2 & E2 & L2 & S2).
  exists b1. split; [done|]. rewrite E2. f_equal. symmetry.
  apply (mask_ext (width img) (height img)); try done.
  intros x y Hi. rewrite S1, S2 by done. done.
Qed.

(** ** The stages of the page's [analyze] *)
Section WebStages.
Variables (img : ImageData) (opts : Web.Opts).
Hypotheses (Hw : 0 < width img) (Hh : 0 < height img).

Local Abbreviation N := (width img * height img).
Local Abbreviation web_stages := (web_stages img opts).

Lemma web_stages_exist :
  exists bg0 bg n band k mask m, web_stages bg0 bg n band k mask m.
Proof.
  destruct (web_fill_spec img (Web.segBg opts) (Web.alphaBg opts) (Web.nearBgDist opts)
              Hw Hh) as (bg0 & Ef & Lf & Sf).
  assert (Hc : Web.countMarked img bg0 = popcount bg0) by (by apply countMarked_spec).
  pose proof (globalNearBg_spec img opts Hw Hh bg0 Lf) as G. cbv zeta in G.
  destruct (Web.globalNearBg img opts (bg0, popcount bg0)) as [bg n] eqn:Eg.
  cbn [fst snd] in G. destruct G as (G1 & G2 & G3 & G4).
  pose proof (bandOf_spec img opts Hw Hh bg n) as B. cbv zeta in B.
  destruct (Web.bandOf img opts bg n) as [band k] eqn:Eb.
  cbn [fst snd] in B. destruct B as (B1 & B2 & B3).
  pose proof (maskOf_spec img opts Hw Hh bg band k B1 B3) as M. cbv zeta in M.
  destruct (Web.maskOf img opts bg band k) as [mask m] eqn:Em.
  cbn [fst snd] in M. destruct M as (M1 & M2 & M3).
  assert (Es : Web.segmentation img opts = Some (bg, n)).
  { unfold Web.segmentation. by rewrite Ef, Hc, Eg. }
  exists bg0, bg, n, band, k, mask, m. constructor; try done.
  - intros Hne. specialize (G1 Hne). congruence.
  - intros Hz. by apply (proj2 (G2 Hz)).
  - unfold Web.bandStage. by rewrite Es, Eb.
  - unfold Web.sampleMask. by rewrite Es, Eb, Em.
Qed.
End WebStages.

(** ** The stages of the batch tool's [analyzeOne] *)
Section BatchStages.
Variables (img : ImageData) (opts : Batch.Opts).
Hypotheses (Hw : 0 < width img) (Hh : 0 < height img).

Local Abbreviation perBgOf := (perBgOf img opts).
Local Abbreviation batch_stages := (batch_stages img opts).

Lemma batch_stages_exist : exists res, batch_stages res.
Proof.
  destruct (batch_fill_spec img (Batch.bg_rgb (Batch.segBg opts)) (Batch.alphaBg opts)
              (Batch.nearBgDist opts) Hw Hh) as (bg & Ef & Lf & Sf).
  pose proof (foreground_spec img Hw Hh bg) as F. cbv zeta in F.
  destruct (Batch.foreground img bg) as [fg fgCount] eqn:Efg.
  cbn [fst snd] in F. destruct F as (F1 & F2 & F3).
  pose proof (edgeBand_spec img opts Hw Hh bg fg) as B. cbv zeta in B.
  destruct (Batch.edgeBand img opts bg fg) as [band bandCount] eqn:Eb.
  cbn [fst snd] in B. destruct B as (B1 & B2 & B3).
  eexists. constructor.
  - unfold Batch.analyzeOne.
    destruct (Z.eqb_spec (width img) 0) as [E|_]; [lia|].
    destruct (Z.eqb_spec (height img) 0) as [E|_]; [lia|].
    cbn [orb]. rewrite Ef, Efg, Eb. reflexivity.
  - done.
  - done.
  - done.
  - done.
  - cbn [Batch.res_band Batch.res_bg]. intros x y Hi.
    rewrite (B2 x y Hi), (F2 x y Hi).
    by destruct (truthy (zget bg (y * width img + x))).
  - done.
  - cbn [Batch.res_band Batch.res_bg]. rewrite Efg. cbn [fst]. by rewrite Eb.
Qed.
End BatchStages.

Lemma index_coords (w h i : Z) :
  0 < w -> 0 <= i < w * h ->
  inside w h (i mod w) (i / w) /\ i = i / w * w + i mod w.
Proof.
  intros Hw Hi. pose proof (Z.mod_pos_bound i w Hw). pose proof (Z.div_mod i w).
  assert (0 <= i / w) by (apply Z.div_pos; lia).
  assert (i / w < h) by (apply Z.div_lt_upper_bound; lia).
  unfold inside. lia.
Qed.

Lemma zget_bool_cases (m : list bool) i :
  0 <= i < Z.of_nat (length m) -> zget m i <> Some true -> zget m i = Some false.
Proof. intros Hi Hn. destruct (zget_in_range m i Hi) as [[] E]; congruence. Qed.

Lemma Some_truthy o : Some (truthy o) = Some true <-> o = Some true.
Proof. destruct o as [[]|]; simpl; split; congruence. Qed.

Lemma dot3_well_formed : well_formed dot3.
Proof. unfold well_formed. vm_compute. repeat split. Qed.

(** C10: the border-seeded fill marks the same pixels whether the
    worklist is the batch tool's stack or the page's queue: the two
    background masks are equal (and the fill returns). *)
Theorem C10_fill_order_irrelevant (img : ImageData) (segBg : rgb) (alphaBg nearBgDist : Z) :
  0 < width img -> 0 < height img ->
  Batch.floodFill img segBg alphaBg nearBgDist = Web.floodFill img segBg alphaBg nearBgDist
  /\ exists bg, Web.floodFill img segBg alphaBg nearBgDist = Some bg.
Proof.
  intros Hw Hh. destruct (fills_agree img segBg alphaBg nearBgDist Hw Hh) as (bg & E1 & E2).
  split; [congruence | eauto].
Qed.

(** C10 at [dot3]. *)
Lemma C10_witness :
  0 < width dot3 /\ 0 < height dot3 /\
  (Batch.floodFill dot3 white 10 160 = Web.floodFill dot3 white 10 160
   /\ exists bg, Web.floodFill dot3 white 10 160 = Some bg).
Proof.
  split; [reflexivity|]. split; [reflexivity|].
  apply (C10_fill_order_irrelevant dot3 white 10 160); reflexivity.
Defined.

(** C2: under the primary tier a pixel is in the background mask exactly
    when a 4-connected path of near-background pixels joins it to a
    border pixel; a near-background pixel with no such path is not in
    the mask.  Batch: the mask of [analyzeOne]; page: the mask after the
    fill, which is the final mask whenever the fill marked a pixel. *)
Theorem C2_background_is_border_reachable
    (img : ImageData) (bo : Batch.Opts) (wo : Web.Opts) :
  well_formed img ->
  exists (res : Batch.Result) (bgW : list bool),
    Batch.analyzeOne img bo = Returned res /\
    Web.floodFill img (Web.segBg wo) (Web.alphaBg wo) (Web.nearBgDist wo) = Some bgW /\
    ((exists i, zget bgW i = Some true) ->
       exists n, Web.segmentation img wo = Some (bgW, n)) /\
    forall x y, inside (width img) (height img) x y ->
      let pB := near_background img (Batch.bg_rgb (Batch.segBg bo)) (Batch.alphaBg bo)
                  (Batch.nearBgDist bo) in
      let pW := near_background img (Web.segBg wo) (Web.alphaBg wo) (Web.nearBgDist wo) in
      (zget (Batch.res_bg res) (y * width img + x) = Some true <->
         border_path (width img) (height img) pB x y) /\
      (zget bgW (y * width img + x) = Some true <->
         border_path (width img) (height img) pW x y) /\
      (pB x y -> ~ border_path (width img) (height img) pB x y ->
         zget (Batch.res_bg res) (y * width img + x) = Some false) /\
      (pW x y -> ~ border_path (width img) (height img) pW x y ->
         zget bgW (y * width img + x) = Some false).
Proof.
  intros Hwf. pose proof Hwf as (Hw & Hh & Hlen).
  destruct (batch_stages_exist img bo Hw Hh) as (res & [Bret Bfill Bspec _ _ _ _ _]).
  destruct (web_stages_exist img wo Hw Hh)
    as (bg0 & bg & n & band & k & mask & m & W).
  exists res, bg0. split; [done|]. split; [apply W|]. split.
  - intros [i Hi]. exists n.
    assert (Hne : popcount bg0 <> 0).
    { intros Hz. by apply (proj1 (popcount_zero bg0) Hz i). }
    rewrite <- (ws_tier1 _ _ _ _ _ _ _ _ _ W Hne). apply W.
  - intros x y Hi pB pW.
    pose proof (inside_index _ _ Hw Hh x y Hi) as Hr.
    assert (HB : zget (Batch.res_bg res) (y * width img + x) = Some true <->
                 border_path (width img) (height img) pB x y).
    { rewrite Bspec by done. by apply reach_near_background. }
    assert (HW : zget bg0 (y * width img + x) = Some true <->
                 border_path (width img) (height img) pW x y).
    { rewrite (ws_fill_spec _ _ _ _ _ _ _ _ _ W) by done. by apply reach_near_background. }
    split; [done|]. split; [done|]. split.
    + intros _ Hn. apply zget_bool_cases; [|by rewrite HB].
      destruct (batch_fill_spec img (Batch.bg_rgb (Batch.segBg bo)) (Batch.alphaBg bo)
                  (Batch.nearBgDist bo) Hw Hh) as (b & Eb & Lb & _).
      rewrite Bfill in Eb. injection Eb as <-. lia.
    + intros _ Hn. apply zget_bool_cases; [|by rewrite HW].
      destruct (web_fill_spec img (Web.segBg wo) (Web.alphaBg wo) (Web.nearBgDist wo) Hw Hh)
        as (b & Eb & Lb & _).
      rewrite (ws_fill _ _ _ _ _ _ _ _ _ W) in Eb. injection Eb as <-. lia.
Qed.

Lemma ring5_well_formed : well_formed ring5.
Proof. unfold well_formed. vm_compute. repeat split. Qed.

(** C2 at [ring5], whose white centre is enclosed by the black ring. *)
Lemma C2_witness :
  well_formed ring5 /\
  exists (res : Batch.Result) (bgW : list bool),
    Batch.analyzeOne ring5 batch_defaults = Returned res /\
    Web.floodFill ring5 white 10 160 = Some bgW /\
    ((exists i, zget bgW i = Some true) ->
       exists n, Web.segmentation ring5 (web_defaults Web.Band) = Some (bgW, n)) /\
    forall x y, inside 5 5 x y ->
      let pB := near_background ring5 white 10 160 in
      let pW := near_background ring5 white 10 160 in
      (zget (Batch.res_bg res) (y * 5 + x) = Some true <-> border_path 5 5 pB x y) /\
      (zget bgW (y * 5 + x) = Some true <-> border_path 5 5 pW x y) /\
      (pB x y -> ~ border_path 5 5 pB x y ->
         zget (Batch.res_bg res) (y * 5 + x) = Some false) /\
      (pW x y -> ~ border_path 5 5 pW x y -> zget bgW (y * 5 + x) = Some false).
Proof.
  split; [exact ring5_well_formed|].
  exact (C2_background_is_border_reachable ring5 batch_defaults (web_defaults Web.Band)
           ring5_well_formed).
Defined.

(** The enclosed white centre of [ring5] stays out of both masks. *)
Example ring5_centre_not_background :
  (exists bg, Batch.floodFill ring5 white 10 160 = Some bg /\ zget bg (2 * 5 + 2) = Some false) /\
  (exists bg, Web.floodFill ring5 white 10 160 = Some bg /\ zget bg (2 * 5 + 2) = Some false) /\
  nearIndex ring5 white 10 160 (2 * 5 + 2) = true.
Proof. split; [|split]; [eexists; split; vm_compute; reflexivity ..| vm_compute; reflexivity]. Qed.

(** C6: the sample mask lies inside the complement of the background
    mask in Band and Stroke modes (batch: the edge band), and is exactly
    that complement in All mode. *)
Theorem C6_sample_mask_in_foreground (img : ImageData) (bo : Batch.Opts) (wo : Web.Opts) :
  well_formed img ->
  (exists res : Batch.Result,
     Batch.analyzeOne img bo = Returned res /\
     forall i, zget (Batch.res_band res) i = Some true ->
       0 <= i < width img * height img /\ zget (Batch.res_bg res) i <> Some true) /\
  (exists bg n mask m,
     Web.segmentation img wo = Some (bg, n) /\
     Web.sampleMask img wo = Some (mask, m) /\
     (forall i, zget mask i = Some true ->
        0 <= i < width img * height img /\ zget bg i <> Some true) /\
     (Web.sampleMode wo = Web.All ->
      forall i, 0 <= i < width img * height img ->
        zget bg i <> Some true -> zget mask i = Some true)).
Proof.
  intros (Hw & Hh & _). split.
  - destruct (batch_stages_exist img bo Hw Hh) as (res & [Bret _ _ Blen _ Bspec _ _]).
    exists res. split; [done|]. intros i Hi.
    pose proof (zget_Some_range _ _ _ Hi) as Hr. rewrite Blen in Hr. split; [done|].
    destruct (index_coords _ _ i Hw Hr) as [Hin Heq].
    rewrite Heq in Hi |- *. rewrite (Bspec _ _ Hin) in Hi.
    injection Hi as Hi. apply andb_true_iff in Hi as [Hi _].
    intros Ht. rewrite Ht in Hi. done.
  - destruct (web_stages_exist img wo Hw Hh)
      as (bg0 & bg & n & band & k & mask & m & W).
    exists bg, n, mask, m. split; [apply W|]. split; [apply W|].
    assert (Hband : forall i, zget band i = Some true -> zget bg i <> Some true).
    { intros i Hi.
      pose proof (zget_Some_range _ _ _ Hi) as Hr.
      rewrite (ws_band_len _ _ _ _ _ _ _ _ _ W) in Hr.
      destruct (index_coords _ _ i Hw Hr) as [Hin Heq].
      rewrite Heq in Hi |- *. rewrite (ws_band_spec _ _ _ _ _ _ _ _ _ W _ _ Hin) in Hi.
      injection Hi as Hi. destruct (Z.eqb_spec n 0) as [Hz|Hnz].
      - rewrite (ws_bg_count _ _ _ _ _ _ _ _ _ W) in Hz.
        apply (proj1 (popcount_zero bg) Hz).
      - apply andb_true_iff in Hi as [Hi _]. intros Ht. rewrite Ht in Hi. done. }
    split.
    + intros i Hi. pose proof (zget_Some_range _ _ _ Hi) as Hr.
      rewrite (ws_mask_len _ _ _ _ _ _ _ _ _ W) in Hr. split; [done|].
      rewrite (ws_mask_spec _ _ _ _ _ _ _ _ _ W i Hr) in Hi. injection Hi as Hi.
      destruct (Web.sampleMode wo).
      * apply Hband. by apply truthy_true.
      * intros Ht. rewrite Ht in Hi. done.
      * apply andb_true_iff in Hi as [Hi _]. apply Hband. by apply truthy_true.
    + intros Hall i Hr Hn. rewrite (ws_mask_spec _ _ _ _ _ _ _ _ _ W i Hr), Hall.
      f_equal. apply negb_true_iff.
      destruct (truthy (zget bg i)) eqn:E; [|done]. apply truthy_true in E. done.
Qed.

(** C6 at [dot3], the page in All mode. *)
Lemma C6_witness :
  well_formed dot3 /\
  (exists res : Batch.Result,
     Batch.analyzeOne dot3 batch_defaults = Returned res /\
     forall i, zget (Batch.res_band res) i = Some true ->
       0 <= i < width dot3 * height dot3 /\ zget (Batch.res_bg res) i <> Some true) /\
  (exists bg n mask m,
     Web.segmentation dot3 (web_defaults Web.All) = Some (bg, n) /\
     Web.sampleMask dot3 (web_defaults Web.All) = Some (mask, m) /\
     (forall i, zget mask i = Some true ->
        0 <= i < width dot3 * height dot3 /\ zget bg i <> Some true) /\
     (Web.sampleMode (web_defaults Web.All) = Web.All ->
      forall i, 0 <= i < width dot3 * height dot3 ->
        zget bg i <> Some true -> zget mask i = Some true)).
Proof.
  split; [exact dot3_well_formed|].
  exact (C6_sample_mask_in_foreground dot3 batch_defaults (web_defaults Web.All)
           dot3_well_formed).
Defined.

Lemma border_band_within img opts x y :
  border_band img opts x y = true <->
  within_edge (width img) (height img) (Web.bandRadius opts) x y.
Proof.
  unfold border_band, within_edge. cbv zeta.
  rewrite !orb_true_iff, !Z.leb_le, !Z.geb_le. lia.
Qed.

Lemma nearBackground_empty img (bg : list bool) radius x y :
  (forall i, zget bg i <> Some true) -> nearBackground img bg radius x y = false.
Proof.
  intros Hnone. unfold nearBackground. apply not_true_is_false. intros Ht.
  apply existsb_exists in Ht as (dy & _ & Ht).
  apply existsb_exists in Ht as (dx & _ & Ht). cbv zeta in Ht.
  destruct (_ || _); [done|]. apply truthy_true in Ht. by apply Hnone in Ht.
Qed.

(** C3 (as the code has it): on the page, when the fill marks no pixel,
    every pixel is marked exactly when it satisfies the near-background
    predicate; when that marks none either, the background mask is empty
    and the band is the set of pixels at most [max(0, bandRadius)] away
    from the first or last row or column, a border band
    [max(0, bandRadius) + 1] pixels thick.  The sample mask is that band
    in Band mode, the band's pixels of luminance at most [strokeLumaMax]
    in Stroke mode, and every pixel in All mode. *)
Theorem C3_fallback_tiers (img : ImageData) (opts : Web.Opts) :
  well_formed img ->
  exists bg0 bg n band k mask m,
    Web.floodFill img (Web.segBg opts) (Web.alphaBg opts) (Web.nearBgDist opts) = Some bg0 /\
    Web.segmentation img opts = Some (bg, n) /\
    Web.bandStage img opts = Some (band, k) /\
    Web.sampleMask img opts = Some (mask, m) /\
    ((forall i, zget bg0 i <> Some true) ->
     let near := near_background img (Web.segBg opts) (Web.alphaBg opts)
                   (Web.nearBgDist opts) in
     (forall x y, inside (width img) (height img) x y ->
        (zget bg (y * width img + x) = Some true <-> near x y)) /\
     ((forall x y, inside (width img) (height img) x y -> ~ near x y) ->
      (forall i, zget bg i <> Some true) /\
      (forall x y, inside (width img) (height img) x y ->
         (zget band (y * width img + x) = Some true <->
          within_edge (width img) (height img) (Web.bandRadius opts) x y)) /\
      (forall x y,
         within_edge (width img) (height img) (Web.bandRadius opts) x y <->
         outermost_rows (width img) (height img) (Z.max 0 (Web.bandRadius opts) + 1) x y) /\
      (forall x y, inside (width img) (height img) x y ->
         (zget mask (y * width img + x) = Some true <->
          match Web.sampleMode opts with
          | Web.Band => within_edge (width img) (height img) (Web.bandRadius opts) x y
          | Web.All => True
          | Web.Stroke =>
              within_edge (width img) (height img) (Web.bandRadius opts) x y /\
              (ownLuminance img (y * width img + x) <= Web.strokeLumaMax opts)%R
          end)))).
Proof.
  intros Hwf. pose proof Hwf as (Hw & Hh & Hlen).
  destruct (web_stages_exist img opts Hw Hh)
    as (bg0 & bg & n & band & k & mask & m & W).
  exists bg0, bg, n, band, k, mask, m.
  split; [apply W|]. split; [apply W|]. split; [apply W|]. split; [apply W|].
  intros Hnone near.
  assert (Hz : popcount bg0 = 0) by (by apply popcount_zero).
  assert (Hbg : forall x y, inside (width img) (height img) x y ->
            (zget bg (y * width img + x) = Some true <-> near x y)).
  { intros x y Hi. pose proof (inside_index _ _ Hw Hh x y Hi) as Hr.
    rewrite (ws_tier2 _ _ _ _ _ _ _ _ _ W Hz _ Hr). unfold near.
    rewrite <- (near_background_iff img _ _ _ x y Hwf Hi).
    unfold nearXY, nearIndex, Web.near. split; congruence. }
  split; [done|]. intros Hnonear.
  assert (Hempty : forall i, zget bg i <> Some true).
  { intros i Hi. pose proof (zget_Some_range _ _ _ Hi) as Hr.
    rewrite (ws_bg_len _ _ _ _ _ _ _ _ _ W) in Hr.
    destruct (index_coords _ _ i Hw Hr) as [Hin Heq].
    rewrite Heq in Hi. apply (Hnonear _ _ Hin). by apply Hbg. }
  assert (Hn : n = 0).
  { rewrite (ws_bg_count _ _ _ _ _ _ _ _ _ W). by apply popcount_zero. }
  assert (Hband : forall x y, inside (width img) (height img) x y ->
            (zget band (y * width img + x) = Some true <->
             within_edge (width img) (height img) (Web.bandRadius opts) x y)).
  { intros x y Hi. rewrite (ws_band_spec _ _ _ _ _ _ _ _ _ W _ _ Hi), Hn.
    cbn [Z.eqb]. rewrite <- border_band_within. split; congruence. }
  split; [done|]. split; [done|].
  split; [intros x y; unfold within_edge, outermost_rows; cbv zeta; lia|].
  intros x y Hi. pose proof (inside_index _ _ Hw Hh x y Hi) as Hr.
  rewrite (ws_mask_spec _ _ _ _ _ _ _ _ _ W _ Hr).
  destruct (Web.sampleMode opts).
  - rewrite <- Hband by done. apply Some_truthy.
  - split; [done|]. intros _. f_equal. apply negb_true_iff.
    destruct (truthy (zget bg (y * width img + x))) eqn:E; [|done].
    apply truthy_true in E. by apply Hempty in E.
  - rewrite <- Hband, <- Rleb_true by done.
    destruct (zget band (y * width img + x)) as [[]|]; simpl;
      destruct (Rleb _ _); split; (congruence || tauto || (intros [? ?]; congruence)).
Qed.

(** C3 at the fully black image, the page in Band mode. *)
Lemma C3_witness :
  well_formed black7 /\
  exists bg0 bg n band k mask m,
    Web.floodFill black7 white 10 160 = Some bg0 /\
    Web.segmentation black7 (web_defaults Web.Band) = Some (bg, n) /\
    Web.bandStage black7 (web_defaults Web.Band) = Some (band, k) /\
    Web.sampleMask black7 (web_defaults Web.Band) = Some (mask, m) /\
    ((forall i, zget bg0 i <> Some true) ->
     let near := near_background black7 white 10 160 in
     (forall x y, inside 7 7 x y -> (zget bg (y * 7 + x) = Some true <-> near x y)) /\
     ((forall x y, inside 7 7 x y -> ~ near x y) ->
      (forall i, zget bg i <> Some true) /\
      (forall x y, inside 7 7 x y ->
         (zget band (y * 7 + x) = Some true <-> within_edge 7 7 2 x y)) /\
      (forall x y, within_edge 7 7 2 x y <-> outermost_rows 7 7 (Z.max 0 2 + 1) x y) /\
      (forall x y, inside 7 7 x y ->
         (zget mask (y * 7 + x) = Some true <-> within_edge 7 7 2 x y)))).
Proof.
  assert (Hwf : well_formed black7) by (unfold well_formed; vm_compute; repeat split).
  split; [exact Hwf|].
  exact (C3_fallback_tiers black7 (web_defaults Web.Band) Hwf).
Defined.

(** C3, counterexample to the specification's wording: on a fully
    opaque black 7 x 7 image neither tier marks a pixel.  In All mode the
    page's sample mask holds the centre pixel, which is not within
    [bandRadius = 2] of any edge, so the mask is not independent of the
    sample mode.  In Band mode the mask holds 48 pixels, among them the
    pixel (2, 2), which is not in the 2 outermost rows and columns: the
    band is 3 pixels thick, not [bandRadius = 2]. *)
Lemma C3_counterexample :
  (exists bg0 bg mask m,
    Web.floodFill black7 white 10 160 = Some bg0 /\
    (forall i, zget bg0 i <> Some true) /\
    Web.segmentation black7 (web_defaults Web.All) = Some (bg, 0) /\
    (forall i, zget bg i <> Some true) /\
    Web.sampleMask black7 (web_defaults Web.All) = Some (mask, m) /\
    zget mask (3 * 7 + 3) = Some true /\
    ~ within_edge 7 7 (Web.bandRadius (web_defaults Web.All)) 3 3) /\
  (exists bg mask,
    Web.segmentation black7 (web_defaults Web.Band) = Some (bg, 0) /\
    (forall i, zget bg i <> Some true) /\
    Web.sampleMask black7 (web_defaults Web.Band) = Some (mask, 48) /\
    zget mask (2 * 7 + 2) = Some true /\
    ~ outermost_rows 7 7 (Web.bandRadius (web_defaults Web.Band)) 2 2).
Proof.
  split.
  - eexists _, _, _, _.
    split; [vm_compute; reflexivity|].
    split; [apply popcount_zero; vm_compute; reflexivity|].
    split; [vm_compute; reflexivity|].
    split; [apply popcount_zero; vm_compute; reflexivity|].
    split; [vm_compute; reflexivity|].
    split; [vm_compute; reflexivity|].
    unfold within_edge. simpl. lia.
  - eexists _, _.
    split; [vm_compute; reflexivity|].
    split; [apply popcount_zero; vm_compute; reflexivity|].
    split; [vm_compute; reflexivity|].
    split; [vm_compute; reflexivity|].
    unfold outermost_rows. simpl. lia.
Qed.

(** The batch tool on the same image: its background mask is the
    fill's, which is empty, and so is its edge band; no second or third
    tier is tried, and not even the corner pixel is sampled. *)
Lemma batch_black7_no_fallback :
  exists res,
    Batch.analyzeOne black7 batch_defaults = Returned res /\
    (forall i, zget (Batch.res_bg res) i <> Some true) /\
    zget (Batch.res_band res) (0 * 7 + 0) = Some false /\
    Batch.bandPixels res = 0 /\
    within_edge 7 7 (Batch.bandRadius batch_defaults) 0 0.
Proof.
  destruct (batch_stages_exist black7 batch_defaults ltac:(reflexivity) ltac:(reflexivity))
    as (res & B).
  assert (Hbg : Batch.floodFill black7 white 10 160 = Some (new_mask 49))
    by (vm_compute; reflexivity).
  pose proof (bs_fill _ _ _ B) as Hf. cbn in Hf. rewrite Hbg in Hf. injection Hf as Hf.
  assert (Hband : Batch.res_band res = new_mask 49).
  { rewrite (bs_band_def _ _ _ B), <- Hf. vm_compute. reflexivity. }
  exists res. split; [apply B|]. split; [|split; [|split]].
  - rewrite <- Hf. apply popcount_zero. vm_compute. reflexivity.
  - rewrite Hband. vm_compute. reflexivity.
  - rewrite (bs_band_count _ _ _ B), Hband. vm_compute. reflexivity.
  - unfold within_edge. simpl. lia.
Qed.

Lemma analyze_returns img opts mask m :
  Web.sampleMask img opts = Some (mask, m) ->
  exists res, Web.analyze img opts = Some res /\
    Web.count (Web.stats res) = len (fst (Web.ratiosOf img opts mask)) /\
    Web.bandCount (Web.stats res) = m /\
    Web.mask res = snd (Web.ratiosOf img opts mask) /\
    Web.pass res = snd (Web.summarize opts (fst (Web.ratiosOf img opts mask)) m).
Proof.
  intros Hs. unfold Web.analyze. rewrite Hs.
  destruct (Web.ratiosOf img opts mask) as [ratios failing].
  eexists. split; [reflexivity|]. cbn [fst snd Web.stats Web.mask Web.pass].
  unfold Web.summarize. cbn [Web.count Web.bandCount snd].
  by rewrite len_sort_asc.
Qed.

(** C7 (as the code has it): on the page a pixel whose alpha is below
    [minAlpha] contributes no contrast ratio and is never flagged as
    failing, in every sample mode; the ratio count counts the remaining
    mask pixels only.  The mask and the reported mask count
    ([stats.bandCount]) are taken before the gate. *)
Theorem C7_alpha_gate (img : ImageData) (opts : Web.Opts) :
  well_formed img ->
  exists mask m res,
    Web.sampleMask img opts = Some (mask, m) /\
    Web.analyze img opts = Some res /\
    fst (Web.ratiosOf img opts mask) =
      map (ratioAt img (Web.opt_bg opts))
          (filter (fun i => scored img opts mask i = true)
                  (seqZ 0 (width img * height img))) /\
    (forall i, alphaAt img i < Web.minAlpha opts ->
       scored img opts mask i = false /\ zget (Web.mask res) i <> Some true) /\
    Web.count (Web.stats res) =
      len (filter (fun i => scored img opts mask i = true)
                  (seqZ 0 (width img * height img))) /\
    Web.bandCount (Web.stats res) = popcount mask.
Proof.
  intros (Hw & Hh & _).
  destruct (web_stages_exist img opts Hw Hh)
    as (bg0 & bg & n & band & k & mask & m & W).
  destruct (analyze_returns img opts mask m (ws_mask _ _ _ _ _ _ _ _ _ W))
    as (res & Ea & Ec & Eb & Em & _).
  destruct (ratiosOf_spec img opts Hw Hh mask) as (R1 & R2 & R3).
  exists mask, m, res. split; [apply W|]. split; [done|]. split; [done|].
  assert (Hgate : forall i, alphaAt img i < Web.minAlpha opts -> scored img opts mask i = false).
  { intros i Hi. unfold scored. destruct (Z.ltb_spec (alphaAt img i) (Web.minAlpha opts)); [|lia].
    apply andb_false_r. }
  split; [|split].
  - intros i Hi. split; [by apply Hgate|]. rewrite Em. intros Ht.
    pose proof (zget_Some_range _ _ _ Ht) as Hr. rewrite R2 in Hr.
    rewrite (R3 i Hr), (Hgate i Hi) in Ht. done.
  - rewrite Ec, R1. unfold len. by rewrite length_map.
  - rewrite Eb. apply W.
Qed.

(** C7 at [dot3], the page in Stroke mode. *)
Lemma C7_witness :
  well_formed dot3 /\
  exists mask m res,
    Web.sampleMask dot3 (web_defaults Web.Stroke) = Some (mask, m) /\
    Web.analyze dot3 (web_defaults Web.Stroke) = Some res /\
    fst (Web.ratiosOf dot3 (web_defaults Web.Stroke) mask) =
      map (ratioAt dot3 white)
          (filter (fun i => scored dot3 (web_defaults Web.Stroke) mask i = true)
                  (seqZ 0 (width dot3 * height dot3))) /\
    (forall i, alphaAt dot3 i < 200 ->
       scored dot3 (web_defaults Web.Stroke) mask i = false /\
       zget (Web.mask res) i <> Some true) /\
    Web.count (Web.stats res) =
      len (filter (fun i => scored dot3 (web_defaults Web.Stroke) mask i = true)
                  (seqZ 0 (width dot3 * height dot3))) /\
    Web.bandCount (Web.stats res) = popcount mask.
Proof.
  split; [exact dot3_well_formed|].
  exact (C7_alpha_gate dot3 (web_defaults Web.Stroke) dot3_well_formed).
Defined.

(** C7, counterexample to the specification's wording: the centre pixel
    of [dot3] has alpha 100, below [minAlpha = 200], yet on the page it
    is set in the sample mask and counted in the reported mask count
    ([stats.bandCount]), while no ratio is computed for it. *)
Lemma C7_counterexample :
  exists mask res,
    Web.sampleMask dot3 (web_defaults Web.Band) = Some (mask, 1) /\
    zget mask (1 * 3 + 1) = Some true /\
    alphaAt dot3 (1 * 3 + 1) = 100 /\
    Web.minAlpha (web_defaults Web.Band) = 200 /\
    Web.analyze dot3 (web_defaults Web.Band) = Some res /\
    Web.bandCount (Web.stats res) = 1 /\
    Web.count (Web.stats res) = 0.
Proof.
  assert (Hs : Web.sampleMask dot3 (web_defaults Web.Band) =
               Some ([false; false; false; false; true; false; false; false; false], 1))
    by (vm_compute; reflexivity).
  destruct (analyze_returns _ _ _ _ Hs) as (res & Ea & Ec & Eb & _).
  eexists _, res. split; [exact Hs|].
  split; [reflexivity|]. split; [reflexivity|]. split; [reflexivity|].
  split; [exact Ea|]. split; [exact Eb|].
  rewrite Ec.
  destruct (ratiosOf_spec dot3 (web_defaults Web.Band) ltac:(reflexivity) ltac:(reflexivity)
              [false; false; false; false; true; false; false; false; false]) as (R1 & _).
  rewrite R1. vm_compute. reflexivity.
Qed.

(** The batch tool on the same image: it reads no minimum alpha, so the
    centre pixel is in its edge band, is counted, and its ratio is
    computed. *)
Lemma batch_dot3_no_alpha_gate :
  exists res r,
    Batch.analyzeOne dot3 batch_defaults = Returned res /\
    zget (Batch.res_band res) (1 * 3 + 1) = Some true /\
    alphaAt dot3 (1 * 3 + 1) = 100 /\
    Batch.bandPixels res = 1 /\
    Batch.res_backgrounds res !! "white"%string = Some r /\
    Batch.count (Batch.stats r) = 1.
Proof.
  destruct (batch_stages_exist dot3 batch_defaults ltac:(reflexivity) ltac:(reflexivity))
    as (res & B).
  assert (Hbg : Batch.floodFill dot3 white 10 160 =
                Some [true; true; true; true; false; true; true; true; true])
    by (vm_compute; reflexivity).
  pose proof (bs_fill _ _ _ B) as Hf. cbn in Hf. rewrite Hbg in Hf. injection Hf as Hf.
  assert (Hband : Batch.res_band res =
                  [false; false; false; false; true; false; false; false; false]).
  { rewrite (bs_band_def _ _ _ B), <- Hf. vm_compute. reflexivity. }
  exists res, (Batch.collectRatios dot3 batch_defaults
                 [false; false; false; false; true; false; false; false; false] white).
  split; [apply B|]. split; [by rewrite Hband|]. split; [reflexivity|]. split; [|split].
  - rewrite (bs_band_count _ _ _ B), Hband. vm_compute. reflexivity.
  - rewrite (bs_perBg _ _ _ B), Hband. unfold perBgOf.
    cbn [fold_left Batch.backgrounds batch_defaults Batch.label Batch.bg_rgb].
    rewrite lookup_insert_ne by done. by rewrite lookup_insert_eq.
  - unfold Batch.collectRatios. cbv zeta.
    destruct (collected_spec dot3 [false; false; false; false; true; false; false; false; false]
                white ltac:(reflexivity) ltac:(reflexivity)) as [Hr _].
    rewrite Hr.
    replace (filter (fun i => inMask [false; false; false; false; true; false; false; false; false] i = true)
               (seqZ 0 (width dot3 * height dot3)))
      with [4]%Z by (vm_compute; reflexivity).
    reflexivity.
Qed.

(** ** Exact cases of the double-precision arithmetic *)

Lemma digits2_iter_xO (p j : positive) :
  SpecFloat.digits2_pos (Pos.iter xO p j) = (SpecFloat.digits2_pos p + j)%positive.
Proof.
  induction j as [|j IH] using Pos.peano_ind.
  - cbn. by rewrite Pos.add_1_r.
  - rewrite Pos.iter_succ. cbn [SpecFloat.digits2_pos]. rewrite IH.
    by rewrite Pos.add_succ_r.
Qed.

Lemma iter_xO_value (p j : positive) :
  Z.pos (Pos.iter xO p j) = Z.pos p * 2 ^ Z.pos j.
Proof.
  induction j as [|j IH] using Pos.peano_ind.
  - cbn. lia.
  - rewrite Pos.iter_succ, Pos2Z.inj_xO, IH, Pos2Z.inj_succ, Z.pow_succ_r by lia. lia.
Qed.

Lemma digits2_bound (p : positive) (n : Z) :
  0 <= n -> Z.pos p < 2 ^ n -> Z.pos (SpecFloat.digits2_pos p) <= n.
Proof.
  revert n. induction p as [p IH|p IH|]; intros n Hn Hp.
  - assert (n <> 0) by (intros ->; cbn in Hp; lia).
    cbn [SpecFloat.digits2_pos]. rewrite Pos2Z.inj_succ.
    specialize (IH (n - 1) ltac:(lia)).
    replace n with (Z.succ (n - 1)) in Hp by lia. rewrite Z.pow_succ_r in Hp by lia.
    lia.
  - assert (n <> 0) by (intros ->; cbn in Hp; lia).
    cbn [SpecFloat.digits2_pos]. rewrite Pos2Z.inj_succ.
    specialize (IH (n - 1) ltac:(lia)).
    replace n with (Z.succ (n - 1)) in Hp by lia. rewrite Z.pow_succ_r in Hp by lia.
    lia.
  - assert (n <> 0) by (intros ->; cbn in Hp; lia). cbn. lia.
Qed.

(** A mantissa of 53 bits with an exponent in range is not rounded. *)
Lemma round_canonical (s : bool) (m : positive) (e : Z) :
  Z.pos (SpecFloat.digits2_pos m) = 53 -> -1074 <= e <= 971 ->
  SpecFloat.binary_round_aux F64.prec F64.emax s (Z.pos m) e SpecFloat.loc_Exact
    = SpecFloat.S754_finite s m e.
Proof.
  intros Hd He. unfold SpecFloat.binary_round_aux, SpecFloat.shr_fexp.
  cbn [SpecFloat.Zdigits2 SpecFloat.shr_record_of_loc]. rewrite Hd.
  assert (E0 : SpecFloat.fexp F64.prec F64.emax (53 + e) - e = 0).
  { unfold SpecFloat.fexp, SpecFloat.emin, F64.prec, F64.emax. lia. }
  rewrite E0. cbn [SpecFloat.shr SpecFloat.shr_m SpecFloat.loc_of_shr_record
                   SpecFloat.round_nearest_even SpecFloat.Zdigits2
                   SpecFloat.shr_record_of_loc].
  rewrite Hd, E0. cbn [SpecFloat.shr SpecFloat.shr_m].
  destruct (Z.leb_spec e (F64.emax - F64.prec)) as [_|H]; [done|].
  unfold F64.emax, F64.prec in H. lia.
Qed.

Lemma of_Z_pos (p : positive) :
  Z.pos p < 2 ^ 53 ->
  exists m e,
    F64.of_Z (Z.pos p) = SpecFloat.S754_finite false m e /\
    Z.pos (SpecFloat.digits2_pos m) = 53 /\ -52 <= e <= 0 /\
    Z.pos m = Z.pos p * 2 ^ (- e).
Proof.
  intros Hp. pose proof (digits2_bound p 53 ltac:(lia) Hp) as Hd.
  unfold F64.of_Z, SpecFloat.binary_normalize, SpecFloat.binary_round.
  set (d := SpecFloat.digits2_pos p) in *.
  assert (Ef : SpecFloat.fexp F64.prec F64.emax (Z.pos d + 0) = Z.pos d - 53).
  { unfold SpecFloat.fexp, SpecFloat.emin, F64.prec, F64.emax. lia. }
  rewrite Ef. unfold SpecFloat.shl_align.
  destruct (Z.pos d - 53 - 0) as [|q|q] eqn:Eq; [| lia |].
  - exists p, 0. rewrite round_canonical by (fold d; lia).
    split; [done|]. split; [fold d; lia|]. split; [lia|]. cbn. lia.
  - exists (Pos.iter xO p q), (Z.pos d - 53).
    rewrite round_canonical.
    + split; [done|]. split.
      * rewrite digits2_iter_xO. fold d. lia.
      * split; [lia|]. rewrite iter_xO_value. f_equal. f_equal. lia.
    + rewrite digits2_iter_xO. fold d. lia.
    + lia.
Qed.

Lemma one_bits : F64.one = SpecFloat.S754_finite false 4503599627370496 (-52).
Proof. vm_compute. reflexivity. Qed.

(** Multiplying a double of 53 bits by 1 leaves it as it is. *)
Lemma mul_one (m : positive) (e : Z) :
  Z.pos (SpecFloat.digits2_pos m) = 53 -> -52 <= e <= 0 ->
  F64.mul (SpecFloat.S754_finite false m e) F64.one = SpecFloat.S754_finite false m e.
Proof.
  intros Hd He. rewrite one_bits. unfold F64.mul, SpecFloat.SFmul. cbn [xorb].
  rewrite (Pos.mul_comm m).
  change (4503599627370496 * m)%positive with (Pos.iter xO m 52).
  unfold SpecFloat.binary_round_aux at 1, SpecFloat.shr_fexp at 1.
  cbn [SpecFloat.Zdigits2 SpecFloat.shr_record_of_loc].
  rewrite digits2_iter_xO.
  assert (E52 : SpecFloat.fexp F64.prec F64.emax
                  (Z.pos (SpecFloat.digits2_pos m + 52) + (e + -52)) - (e + -52) = 52).
  { unfold SpecFloat.fexp, SpecFloat.emin, F64.prec, F64.emax. lia. }
  rewrite E52. cbn [SpecFloat.shr].
  assert (Esh : SpecFloat.iter_pos SpecFloat.shr_1 52
                  {| SpecFloat.shr_m := Z.pos (Pos.iter xO m 52);
                     SpecFloat.shr_r := false; SpecFloat.shr_s := false |}
                = {| SpecFloat.shr_m := Z.pos m;
                     SpecFloat.shr_r := false; SpecFloat.shr_s := false |}).
  { reflexivity. }
  rewrite Esh.
  cbn [SpecFloat.shr_m SpecFloat.loc_of_shr_record SpecFloat.round_nearest_even].
  replace (e + -52 + 52) with e by lia.
  pose proof (round_canonical false m e Hd ltac:(lia)) as R.
  unfold SpecFloat.binary_round_aux in R.
  unfold SpecFloat.shr_fexp at 1 in R.
  cbn [SpecFloat.Zdigits2 SpecFloat.shr_record_of_loc] in R. rewrite Hd in R.
  assert (E0 : SpecFloat.fexp F64.prec F64.emax (53 + e) - e = 0).
  { unfold SpecFloat.fexp, SpecFloat.emin, F64.prec, F64.emax. lia. }
  rewrite E0 in R.
  cbn [SpecFloat.shr SpecFloat.shr_m SpecFloat.loc_of_shr_record
       SpecFloat.round_nearest_even] in R.
  exact R.
Qed.

Lemma floor_ceil_integer (m : positive) (e k : Z) :
  e <= 0 -> Z.pos m = k * 2 ^ (- e) ->
  F64.floorZ (SpecFloat.S754_finite false m e) = Some k /\
  F64.ceilZ (SpecFloat.S754_finite false m e) = Some k.
Proof.
  intros He Hm. unfold F64.floorZ, F64.ceilZ, F64.signed.
  assert (Hpow : 0 < 2 ^ (- e)) by (apply Z.pow_pos_nonneg; lia).
  destruct (Z.leb_spec 0 e) as [H0|H0].
  - assert (e = 0) as -> by lia. cbn in Hm. rewrite Z.pow_0_r. split; f_equal; lia.
  - rewrite Hm. split; f_equal.
    + apply Z.div_mul. lia.
    + rewrite <- Z.mul_opp_l, Z.div_mul by lia. lia.
Qed.

Lemma percentile64_ends (d : list F64.float) :
  d <> [] -> len d <= 2 ^ 53 ->
  percentile64 d F64.zero = item64 d 0 /\
  percentile64 d F64.one = item64 d (len d - 1).
Proof.
  intros Hne Hlen. unfold percentile64.
  assert (Hn : 1 <= len d).
  { unfold len. destruct d; [done|]. cbn [length]. lia. }
  destruct (Z.eqb_spec (len d) 0) as [E|_]; [lia|]. cbv zeta.
  destruct (len d - 1) as [|p|p] eqn:Ek; [| |lia].
  - change (F64.of_Z 0) with F64.zero.
    change (F64.mul F64.zero F64.zero) with F64.zero.
    change (F64.mul F64.zero F64.one) with F64.zero.
    split; reflexivity.
  - destruct (of_Z_pos p ltac:(lia)) as (m & e & Eo & Hd & He & Hm).
    rewrite Eo. split.
    + reflexivity.
    + rewrite (mul_one m e Hd He).
      destruct (floor_ceil_integer m e (Z.pos p) ltac:(lia) Hm) as [-> ->].
      by rewrite Z.eqb_refl.
Qed.

Section NumericClaims.
Local Open Scope R_scope.

Lemma percentile_not_null (s : list R) p : percentile s p = Null -> s = [].
Proof.
  unfold percentile. destruct (Z.eqb_spec (len s) 0) as [E|_].
  - intros _. destruct s; [done|]. unfold len in E. simpl in E. lia.
  - destruct (Zfloor _ =? Zceil _)%Z.
    + unfold item. by destruct (zget s _).
    + unfold item. by destruct (zget s _), (zget s _).
Qed.

Lemma jge_at_least (s : list R) p t :
  s <> [] -> jge (percentile s p) t = true <-> at_least t (percentile s p).
Proof.
  intros Hne. pose proof (percentile_not_null s p) as Hn.
  destruct (percentile s p) as [r| |]; simpl.
  - apply Rleb_true.
  - by specialize (Hn eq_refl).
  - done.
Qed.

Lemma len_zero {A} (l : list A) : len l = 0%Z <-> l = [].
Proof. unfold len. destruct l; simpl; split; (done || lia). Qed.

(** C1: the per-background verdict is true exactly when the sample
    count is positive, the percentile-at-p of the ratios is at least
    the threshold, and the percentage below the threshold is at most
    the allowed maximum; an empty ratio sequence never passes.  Stated
    for [passByStats] on [statsForRatios] (batch) and for the verdict of
    the page. *)
Theorem C1_pass_rule (ratios : list R) (pp thr maxPct : R) (wo : Web.Opts) (maskCount : Z) :
  let st := Batch.statsForRatios ratios pp thr in
  let ws := Web.summarize wo ratios maskCount in
  (Batch.count st = len ratios /\ Web.count (fst ws) = len ratios) /\
  (ratios <> [] ->
     Batch.pX st = percentile (sort_asc ratios) pp /\
     Batch.pctBelow st = pctBelowOf ratios thr /\
     Web.pX (fst ws) = percentile (sort_asc ratios) (Web.p wo) /\
     Web.pctBelow (fst ws) = pctBelowOf (sort_asc ratios) (Web.threshold wo)) /\
  (Batch.passByStats st thr maxPct = true <->
     (0 < Batch.count st)%Z /\ at_least thr (Batch.pX st) /\ Batch.pctBelow st <= maxPct) /\
  (snd ws = true <->
     (0 < Web.count (fst ws))%Z /\ at_least (Web.threshold wo) (Web.pX (fst ws)) /\
     Web.pctBelow (fst ws) <= Web.maxPctBelow wo) /\
  (ratios = [] -> Batch.passByStats st thr maxPct = false /\ snd ws = false).
Proof.
  cbv zeta. unfold Batch.statsForRatios, Batch.passByStats, Web.summarize.
  pose proof (len_sort_asc ratios) as Hls.
  destruct (Z.eqb_spec (len ratios) 0) as [E|E].
  - apply len_zero in E. subst ratios. cbn.
    split; [done|]. split; [done|]. split; [|split; [|done]].
    + split; [done|]. intros [H _]. lia.
    + split; [done|]. intros [H _]. unfold len in H. simpl in H. lia.
  - assert (Hne : ratios <> []) by (intros ->; by apply E).
    assert (Hsne : sort_asc ratios <> []).
    { intros Hs. rewrite Hs in Hls. unfold len in Hls at 1. simpl in Hls. lia. }
    assert (Hpos : (0 < len ratios)%Z) by (unfold len in *; lia).
    cbn [Batch.count Batch.pX Batch.pctBelow Web.count Web.pX Web.pctBelow fst snd].
    rewrite Hls. destruct (Z.eqb_spec (len ratios) 0) as [E'|_]; [done|].
    split; [done|]. split; [done|]. split; [|split; [|done]].
    + rewrite andb_true_iff, jge_at_least, Rleb_true by done. tauto.
    + rewrite !andb_true_iff, jge_at_least, Rleb_true by done.
      rewrite Z.gtb_lt. tauto.
Qed.

(** C4: every ratio lies in [1, 21]; an opaque pixel against its own
    colour gives 1; opaque black against white gives 21. *)
Theorem C4_contrast_ratio_bounds (r g b a : Z) (bg : rgb) :
  is_byte r -> is_byte g -> is_byte b -> is_byte a ->
  is_byte (red bg) -> is_byte (green bg) -> is_byte (blue bg) ->
  1 <= contrastRatioPixelVsBg r g b a bg <= 21 /\
  contrastRatioPixelVsBg r g b 255 (mkRgb r g b) = 1 /\
  contrastRatioPixelVsBg 0 0 0 255 (mkRgb 255 255 255) = 21.
Proof.
  intros Hr Hg Hb Ha Hbr Hbg Hbb. split; [by apply contrast_range|].
  split; [by apply contrast_self | apply contrast_black_on_white].
Qed.

(** C4 at a half-transparent pixel over white. *)
Lemma C4_witness :
  is_byte 12 /\ is_byte 200 /\ is_byte 77 /\ is_byte 128 /\
  is_byte (red white) /\ is_byte (green white) /\ is_byte (blue white) /\
  (1 <= contrastRatioPixelVsBg 12 200 77 128 white <= 21 /\
   contrastRatioPixelVsBg 12 200 77 255 (mkRgb 12 200 77) = 1 /\
   contrastRatioPixelVsBg 0 0 0 255 (mkRgb 255 255 255) = 21).
Proof.
  assert (B : forall v, (0 <=? v)%Z && (v <=? 255)%Z = true -> is_byte v).
  { intros v Hv. apply andb_true_iff in Hv as [H1 H2]. unfold is_byte. lia. }
  repeat (split; [apply B; reflexivity|]).
  apply (C4_contrast_ratio_bounds 12 200 77 128 white); apply B; reflexivity.
Defined.

(** C8 (as the code has it): in double precision, as the program
    computes, the percentile of a non-empty sequence is its first
    element at 0 and its last element at 1, exactly: the minimum and the
    maximum of an ascending sequence.  In exact arithmetic the
    interpolation is non-decreasing in [p] on [0, 1], with the minimum
    at 0 and the maximum at 1; in double precision the interpolated
    value is rounded, and nothing is stated of it between the ends. *)
Theorem C8_percentile_ends_exact (d : list F64.float) (s : list R) (p1 p2 : R) :
  d <> [] -> (len d <= 2 ^ 53)%Z ->
  s <> [] -> Sorted Rle s -> 0 <= p1 -> p1 <= p2 -> p2 <= 1 ->
  (exists first final,
     head d = Some first /\ last d = Some final /\
     percentile64 d F64.zero = Num64 first /\
     percentile64 d F64.one = Num64 final) /\
  (exists v1 v2, percentile s p1 = Num v1 /\ percentile s p2 = Num v2 /\ v1 <= v2) /\
  (exists lo, percentile s 0 = Num lo /\ lo ∈ s /\ Forall (fun x => lo <= x) s) /\
  (exists hi, percentile s 1 = Num hi /\ hi ∈ s /\ Forall (fun x => x <= hi) s).
Proof.
  intros Hd Hlen Hne Hs H0 H12 H1. apply Sorted_Rle_strong in Hs. split.
  { destruct (percentile64_ends d Hd Hlen) as [E0 E1].
    destruct d as [|first d']; [done|].
    destruct (last (first :: d')) as [final|] eqn:El.
    2:{ apply last_None in El. done. }
    exists first, final. split; [done|]. split; [done|]. split; [exact E0|].
    rewrite E1. unfold item64, zget.
    destruct (Z.ltb_spec (len (first :: d') - 1) 0) as [Hneg|_].
    { unfold len in Hneg. cbn [length] in Hneg. lia. }
    rewrite last_lookup in El.
    replace (Z.to_nat (len (first :: d') - 1)) with (Nat.pred (length (first :: d')))
      by (unfold len; lia).
    by rewrite El. }
  split; [by apply percentile_mono|]. split.
  - destruct s as [|x s]; [done|]. exists x.
    split; [by apply percentile_at_0|]. split; [left|].
    by apply sorted_head_min.
  - destruct (last s) as [x|] eqn:El.
    2:{ apply last_None in El. done. }
    exists x. split; [by apply percentile_at_1|]. split.
    + rewrite last_lookup in El. by eapply list_elem_of_lookup_2.
    + by apply sorted_last_max.
Qed.

(** C8 at the doubles 1, 2, 4, and at the real numbers 1, 2, 4 with the
    fractions 0.05 and 0.5. *)
Lemma C8_witness :
  [F64.of_Z 1; F64.of_Z 2; F64.of_Z 4] <> [] /\
  (len [F64.of_Z 1; F64.of_Z 2; F64.of_Z 4] <= 2 ^ 53)%Z /\
  [1; 2; 4] <> [] /\ Sorted Rle [1; 2; 4] /\ 0 <= 0.05 /\ 0.05 <= 0.5 /\ 0.5 <= 1 /\
  ((exists first final,
      head [F64.of_Z 1; F64.of_Z 2; F64.of_Z 4] = Some first /\
      last [F64.of_Z 1; F64.of_Z 2; F64.of_Z 4] = Some final /\
      percentile64 [F64.of_Z 1; F64.of_Z 2; F64.of_Z 4] F64.zero = Num64 first /\
      percentile64 [F64.of_Z 1; F64.of_Z 2; F64.of_Z 4] F64.one = Num64 final) /\
   (exists v1 v2, percentile [1; 2; 4] 0.05 = Num v1 /\
                  percentile [1; 2; 4] 0.5 = Num v2 /\ v1 <= v2) /\
   (exists lo, percentile [1; 2; 4] 0 = Num lo /\ lo ∈ [1; 2; 4] /\
               Forall (fun x => lo <= x) [1; 2; 4]) /\
   (exists hi, percentile [1; 2; 4] 1 = Num hi /\ hi ∈ [1; 2; 4] /\
               Forall (fun x => x <= hi) [1; 2; 4])).
Proof.
  assert (Hs : Sorted Rle [1; 2; 4]).
  { repeat constructor; lra. }
  assert (Hl : (len [F64.of_Z 1; F64.of_Z 2; F64.of_Z 4] <= 2 ^ 53)%Z).
  { unfold len. cbn [length]. lia. }
  split; [discriminate|]. split; [exact Hl|].
  split; [discriminate|]. split; [exact Hs|].
  split; [lra|]. split; [lra|]. split; [lra|].
  apply (C8_percentile_ends_exact [F64.of_Z 1; F64.of_Z 2; F64.of_Z 4] [1; 2; 4] 0.05 0.5);
    [discriminate | exact Hl | discriminate | exact Hs | lra ..].
Defined.

(** C8, counterexample to the specification's wording: the sequence
    21, 21, 21 is ascending and 0.05 is below 0.5, yet in double
    precision the percentile at 0.05 is 21.000000000000004, the double
    just above 21: it is above the percentile at 0.5, which is 21, and
    above the maximum of the sequence. *)
Lemma C8_counterexample :
  exists v1 v2,
    percentile64 [d21; d21; d21] p005 = Num64 v1 /\
    percentile64 [d21; d21; d21] p05 = Num64 v2 /\
    F64.ltb F64.zero p005 = true /\ F64.ltb p005 p05 = true /\
    F64.ltb p05 F64.one = true /\
    F64.ltb v2 v1 = true /\
    v2 = d21 /\ F64.ltb d21 v1 = true /\
    d21 = SpecFloat.S754_finite false 5910974510923776 (-48) /\
    v1 = SpecFloat.S754_finite false 5910974510923777 (-48) /\
    p005 = SpecFloat.S754_finite false 7205759403792794 (-57) /\
    p05 = SpecFloat.S754_finite false 4503599627370496 (-53).
Proof.
  exists (SpecFloat.S754_finite false 5910974510923777 (-48)), d21.
  repeat split; vm_compute; reflexivity.
Qed.
End NumericClaims.

Section ScenarioB.
Local Open Scope R_scope.

Lemma percentile_replicate (n : nat) (x p : R) :
  (1 <= n)%nat -> 0 <= p <= 1 -> percentile (replicate n x) p = Num x.
Proof.
  intros Hn Hp.
  assert (Hlen : (1 <= len (replicate n x))%Z).
  { unfold len. rewrite length_replicate. lia. }
  destruct (percentile_value (replicate n x) p Hlen Hp) as (a & b & La & Lb & E).
  apply lookup_replicate in La as [-> _]. apply lookup_replicate in Lb as [-> _].
  rewrite E. f_equal. destruct (Zfloor _ =? Zceil _)%Z; lra.
Qed.

Lemma filter_below_replicate (n : nat) (x thr : R) :
  thr <= x -> filter (fun v => Rltb v thr = true) (replicate n x) = [].
Proof.
  intros Hx. induction n as [|n IH]; [done|].
  change (replicate (S n) x) with (x :: replicate n x).
  rewrite filter_cons_False; [done|].
  intros Hlt. apply Rltb_true in Hlt. lra.
Qed.

(** The statistics of a sequence of [n] equal ratios at or above the
    threshold. *)
Lemma stats_constant (n : nat) (x pp thr maxPct : R) :
  (1 <= n)%nat -> 0 <= pp <= 1 -> thr <= x -> 0 <= maxPct ->
  let st := Batch.statsForRatios (replicate n x) pp thr in
  Batch.count st = Z.of_nat n /\ Batch.pX st = Num x /\ Batch.pctBelow st = 0 /\
  Batch.passByStats st thr maxPct = true.
Proof.
  intros Hn Hp Hx Hm. cbv zeta. unfold Batch.statsForRatios, Batch.passByStats.
  assert (Hlen : len (replicate n x) = Z.of_nat n).
  { unfold len. by rewrite length_replicate. }
  rewrite Hlen. destruct (Z.eqb_spec (Z.of_nat n) 0) as [E|_]; [lia|].
  cbn [Batch.count Batch.pX Batch.pctBelow].
  destruct (Z.eqb_spec (Z.of_nat n) 0) as [E|_]; [lia|].
  rewrite sort_asc_replicate, percentile_replicate by done.
  assert (Hpct : pctBelowOf (replicate n x) thr = 0).
  { unfold pctBelowOf. rewrite filter_below_replicate by done.
    change (len (@nil R)) with 0%Z. unfold Rdiv. by rewrite Rmult_0_r, Rmult_0_l. }
  rewrite Hpct. split; [done|]. split; [done|]. split; [done|].
  apply andb_true_iff. split; [by apply Rleb_true | by apply Rleb_true].
Qed.
End ScenarioB.

Lemma grey10_white_result :
  exists res r,
    Batch.analyzeOne grey10 batch_defaults = Returned res /\
    Batch.res_band res = square_mask /\
    Batch.res_backgrounds res !! "white"%string = Some r /\
    r = Batch.collectRatios grey10 batch_defaults square_mask white /\
    Batch.ratios (Batch.collected grey10 square_mask white) =
      replicate 16 (contrastRatioPixelVsBg 130 130 130 255 white).
Proof.
  destruct (batch_stages_exist grey10 batch_defaults ltac:(reflexivity) ltac:(reflexivity))
    as (res & B).
  assert (Hbg : Batch.floodFill grey10 white 10 160 = Some (map negb square_mask))
    by (vm_compute; reflexivity).
  pose proof (bs_fill _ _ _ B) as Hf. cbn in Hf. rewrite Hbg in Hf. injection Hf as Hf.
  assert (Hband : Batch.res_band res = square_mask).
  { rewrite (bs_band_def _ _ _ B), <- Hf. vm_compute. reflexivity. }
  exists res, (Batch.collectRatios grey10 batch_defaults square_mask white).
  split; [apply B|]. split; [done|]. split; [|split; [done|]].
  - rewrite (bs_perBg _ _ _ B), Hband. unfold perBgOf. cbn [fold_left Batch.backgrounds batch_defaults Batch.label Batch.bg_rgb].
    rewrite lookup_insert_ne by done. by rewrite lookup_insert_eq.
  - destruct (collected_spec grey10 square_mask white ltac:(reflexivity) ltac:(reflexivity))
      as [Hr _].
    rewrite Hr.
    replace (filter (fun i => inMask square_mask i = true) (seqZ 0 (width grey10 * height grey10)))
      with [33; 34; 35; 36; 43; 44; 45; 46; 53; 54; 55; 56; 63; 64; 65; 66]%Z
      by (vm_compute; reflexivity).
    unfold ratioAt.
    change (map (fun i => ratioOf white (pixelAt grey10 i)))
      with (map (fun i => ratioOf white (pixelAt grey10 i))).
    rewrite <- (map_map (pixelAt grey10) (ratioOf white)).
    replace (map (pixelAt grey10) [33; 34; 35; 36; 43; 44; 45; 46; 53; 54; 55; 56; 63; 64; 65; 66]%Z)
      with (replicate 16 (130, 130, 130, 255)%Z) by (vm_compute; reflexivity).
    reflexivity.
Qed.

Section ScenarioBClaims.
Local Open Scope R_scope.

Lemma grey10_white_stats :
  exists res r,
    Batch.analyzeOne grey10 batch_defaults = Returned res /\
    Batch.res_band res = square_mask /\
    Batch.res_backgrounds res !! "white"%string = Some r /\
    Batch.ratios (Batch.collected grey10 square_mask white) =
      replicate 16 (contrastRatioPixelVsBg 130 130 130 255 white) /\
    Batch.count (Batch.stats r) = 16%Z /\
    Batch.pX (Batch.stats r) = Num (contrastRatioPixelVsBg 130 130 130 255 white) /\
    Batch.pctBelow (Batch.stats r) = 0 /\
    Batch.pass r = true.
Proof.
  destruct grey10_white_result as (res & r & Ha & Hb & Hl & -> & Hr).
  eexists res, _. split; [exact Ha|]. split; [exact Hb|]. split; [exact Hl|].
  split; [exact Hr|].
  unfold Batch.collectRatios. cbn [Batch.stats Batch.pass]. rewrite Hr.
  pose proof gray130_on_white as Hg. fold white in Hg.
  destruct (stats_constant 16 (contrastRatioPixelVsBg 130 130 130 255 white)
              (Batch.p batch_defaults) (Batch.threshold batch_defaults)
              (Batch.maxPctBelow batch_defaults)) as (S1 & S2 & S3 & S4);
    [lia | cbn [Batch.p batch_defaults]; lra
     | cbn [Batch.threshold batch_defaults]; lra
     | cbn [Batch.maxPctBelow batch_defaults]; lra |].
  split; [exact S1|]. split; [exact S2|]. split; [exact S3 | exact S4].
Qed.

(** C5 (as the code has it): in scenario B every sampled pixel has a
    contrast ratio against white between 3.8 and 3.9 (about 3.84, at
    least the threshold 3), so the percentage below the threshold is 0
    and the verdict for the white background is pass. *)
Theorem C5_grey_square_passes_on_white :
  exists res r,
    Batch.analyzeOne grey10 batch_defaults = Returned res /\
    Batch.res_band res = square_mask /\
    Batch.res_backgrounds res !! "white"%string = Some r /\
    Forall (fun v => 3.8 < v < 3.9)
           (Batch.ratios (Batch.collected grey10 (Batch.res_band res) white)) /\
    Batch.count (Batch.stats r) = 16%Z /\
    (exists v, Batch.pX (Batch.stats r) = Num v /\ 3.8 < v < 3.9) /\
    Batch.pctBelow (Batch.stats r) = 0 /\
    Batch.pass r = true.
Proof.
  destruct grey10_white_stats as (res & r & Ha & Hb & Hl & Hr & Hc & Hp & Hpct & Hpass).
  pose proof gray130_on_white as Hg. fold white in Hg.
  exists res, r. split; [exact Ha|]. split; [exact Hb|]. split; [exact Hl|]. split.
  - rewrite Hb, Hr. apply Forall_forall. intros v Hv.
    apply elem_of_replicate in Hv as [-> _]. exact Hg.
  - split; [exact Hc|]. split; [eauto|]. split; [exact Hpct | exact Hpass].
Qed.

(** C5, counterexample to the specification's wording: on scenario B
    the sampled ratios exceed the threshold 3 (none is near 1.6), the
    percentage below the threshold is not 100, and the verdict is pass. *)
Lemma C5_counterexample :
  exists res r,
    Batch.analyzeOne grey10 batch_defaults = Returned res /\
    Batch.res_backgrounds res !! "white"%string = Some r /\
    Batch.ratios (Batch.collected grey10 (Batch.res_band res) white) <> [] /\
    Forall (fun v => Batch.threshold batch_defaults < v)
           (Batch.ratios (Batch.collected grey10 (Batch.res_band res) white)) /\
    Batch.pctBelow (Batch.stats r) <> 100 /\
    Batch.pass r = true.
Proof.
  destruct grey10_white_stats as (res & r & Ha & Hb & Hl & Hr & Hc & Hp & Hpct & Hpass).
  pose proof gray130_on_white as Hg. fold white in Hg.
  exists res, r. split; [exact Ha|]. split; [exact Hl|]. rewrite Hb, Hr.
  split; [discriminate|]. split.
  - apply Forall_forall. intros v Hv.
    apply elem_of_replicate in Hv as [-> _]. cbn [Batch.threshold batch_defaults]. lra.
  - split; [rewrite Hpct; lra | exact Hpass].
Qed.
End ScenarioBClaims.

(** C9: the analysis is a function of the pixel bytes and the
    configuration alone: both paths return a result, and two buffers
    with the same dimensions and bytes give the same result under the
    same configuration.  The worst sample of the batch tool is fixed by
    the row-major scan: it is the first pixel, in row-major order, among
    the sampled pixels of least ratio. *)
Theorem C9_analysis_deterministic
    (img img' : ImageData) (bo : Batch.Opts) (wo : Web.Opts)
    (mask : list bool) (bgColor : rgb) :
  well_formed img ->
  width img = width img' -> height img = height img' -> data img = data img' ->
  (exists res, Batch.analyzeOne img bo = Returned res /\
               Batch.analyzeOne img' bo = Returned res) /\
  (exists res, Web.analyze img wo = Some res /\ Web.analyze img' wo = Some res) /\
  collected_upto img mask bgColor (width img * height img)
    (Batch.collected img mask bgColor) /\
  Batch.collectRatios img bo mask bgColor = Batch.collectRatios img' bo mask bgColor.
Proof.
  intros (Hw & Hh & _) Ew Eh Ed.
  assert (E : img = img') by (destruct img, img'; simpl in *; congruence).
  subst img'. split; [|split; [|split; [|done]]].
  - destruct (batch_stages_exist img bo Hw Hh) as (res & B).
    exists res. split; apply B.
  - destruct (web_stages_exist img wo Hw Hh)
      as (bg0 & bg & n & band & k & m0 & m & W).
    destruct (analyze_returns img wo m0 m (ws_mask _ _ _ _ _ _ _ _ _ W)) as (res & Ea & _).
    by exists res.
  - by apply collected_spec.
Qed.

(** C9 at [dot3], read twice, and the mask holding its centre pixel. *)
Lemma C9_witness :
  well_formed dot3 /\
  (exists res, Batch.analyzeOne dot3 batch_defaults = Returned res /\
               Batch.analyzeOne (mkImage 3 3 (data dot3)) batch_defaults = Returned res) /\
  (exists res, Web.analyze dot3 (web_defaults Web.Band) = Some res /\
               Web.analyze (mkImage 3 3 (data dot3)) (web_defaults Web.Band) = Some res) /\
  collected_upto dot3 [false; false; false; false; true; false; false; false; false] white
    (width dot3 * height dot3)
    (Batch.collected dot3 [false; false; false; false; true; false; false; false; false] white) /\
  Batch.collectRatios dot3 batch_defaults
    [false; false; false; false; true; false; false; false; false] white =
  Batch.collectRatios (mkImage 3 3 (data dot3)) batch_defaults
    [false; false; false; false; true; false; false; false; false] white.
Proof.
  split; [exact dot3_well_formed|].
  exact (C9_analysis_deterministic dot3 (mkImage 3 3 (data dot3)) batch_defaults
           (web_defaults Web.Band)
           [false; false; false; false; true; false; false; false; false] white
           dot3_well_formed eq_refl eq_refl eq_refl).
Defined.

(** * Further properties of the code *)

(** ** Counting set cells *)

Lemma zget_of_nat {A} (l : list A) (k : nat) : zget l (Z.of_nat k) = l !! k.
Proof.
  unfold zget. destruct (Z.ltb_spec (Z.of_nat k) 0) as [H|_]; [lia|].
  by rewrite Nat2Z.id.
Qed.

Lemma popcount_cons b m : popcount (b :: m) = (if b then 1 else 0) + popcount m.
Proof.
  unfold popcount. destruct b.
  - rewrite filter_cons_True by done. simpl. lia.
  - rewrite filter_cons_False by done. lia.
Qed.

Lemma popcount_range m : 0 <= popcount m <= Z.of_nat (length m).
Proof.
  induction m as [|b m IH]; [done|].
  rewrite popcount_cons. simpl. destruct b; lia.
Qed.

Lemma popcount_subset (m1 m2 : list bool) :
  length m1 = length m2 ->
  (forall i, zget m1 i = Some true -> zget m2 i = Some true) ->
  popcount m1 <= popcount m2.
Proof.
  revert m2. induction m1 as [|b m1 IH]; intros [|c m2] Hl Hs; simplify_eq/=.
  - done.
  - rewrite !popcount_cons.
    assert (popcount m1 <= popcount m2).
    { apply IH; [done|]. intros i Hi.
      pose proof (zget_Some_range _ _ _ Hi) as Hr.
      specialize (Hs (i + 1)). unfold zget in *.
      destruct (Z.ltb_spec i 0); [lia|]. destruct (Z.ltb_spec (i + 1) 0); [lia|].
      replace (Z.to_nat (i + 1)) with (S (Z.to_nat i)) in Hs by lia. by apply Hs. }
    destruct b; [|destruct c; lia].
    specialize (Hs 0 eq_refl). cbv in Hs. simplify_eq. lia.
Qed.

Lemma popcount_complement (m1 m2 : list bool) :
  length m1 = length m2 ->
  (forall i, 0 <= i < Z.of_nat (length m1) ->
     zget m2 i = Some (negb (truthy (zget m1 i)))) ->
  popcount m1 + popcount m2 = Z.of_nat (length m1).
Proof.
  revert m2. induction m1 as [|b m1 IH]; intros [|c m2] Hl Hs; simplify_eq/=.
  - done.
  - rewrite !popcount_cons.
    assert (popcount m1 + popcount m2 = Z.of_nat (length m1)).
    { apply IH; [done|]. intros i Hi.
      specialize (Hs (i + 1) ltac:(lia)). unfold zget in *.
      destruct (Z.ltb_spec i 0); [lia|]. destruct (Z.ltb_spec (i + 1) 0); [lia|].
      replace (Z.to_nat (i + 1)) with (S (Z.to_nat i)) in Hs by lia. by apply Hs. }
    specialize (Hs 0 ltac:(lia)). cbv in Hs. simplify_eq.
    destruct b; simpl; lia.
Qed.

(** ** The result of [analyzeOne], field by field *)

Lemma analyzeOne_fields img opts :
  0 < width img -> 0 < height img ->
  exists res bg,
    Batch.analyzeOne img opts = Returned res /\
    Batch.floodFill img (Batch.bg_rgb (Batch.segBg opts)) (Batch.alphaBg opts)
      (Batch.nearBgDist opts) = Some bg /\
    Z.of_nat (length bg) = width img * height img /\
    Batch.res_bg res = bg /\
    Batch.size res = (width img, height img) /\
    Batch.fgPixels res = snd (Batch.foreground img bg) /\
    Batch.res_band res = fst (Batch.edgeBand img opts bg (fst (Batch.foreground img bg))) /\
    Batch.bandPixels res = snd (Batch.edgeBand img opts bg (fst (Batch.foreground img bg))) /\
    Batch.res_backgrounds res = perBgOf img opts (Batch.res_band res) /\
    Batch.overall res =
      (if Batch.requireBoth opts
       then forallb (fun v => v)
              (map (Batch.passOf (Batch.res_backgrounds res)) (Batch.backgrounds opts))
       else existsb (fun v => v)
              (map (Batch.passOf (Batch.res_backgrounds res)) (Batch.backgrounds opts))) /\
    Batch.byBackground res =
      fold_left (fun m b => <[ Batch.label b :=
                                 Batch.passOf (Batch.res_backgrounds res) b ]> m)
                (Batch.backgrounds opts) (∅ : gmap string bool).
Proof.
  intros Hw Hh.
  destruct (batch_fill_spec img (Batch.bg_rgb (Batch.segBg opts)) (Batch.alphaBg opts)
              (Batch.nearBgDist opts) Hw Hh) as (bg & Ef & Lf & _).
  unfold Batch.analyzeOne.
  destruct (Z.eqb_spec (width img) 0) as [E|_]; [lia|].
  destruct (Z.eqb_spec (height img) 0) as [E|_]; [lia|].
  cbn [orb]. rewrite Ef.
  destruct (Batch.foreground img bg) as [fg fgCount] eqn:Efg.
  destruct (Batch.edgeBand img opts bg fg) as [band bandCount] eqn:Eb.
  eexists _, bg. split; [reflexivity|].
  cbn [Batch.res_bg Batch.size Batch.fgPixels Batch.res_band Batch.bandPixels
       Batch.res_backgrounds Batch.overall Batch.byBackground fst snd].
  rewrite Efg. cbn [fst snd]. rewrite Eb. cbn [fst snd]. unfold perBgOf.
  repeat (split; [done|]). done.
Qed.

Lemma index_form (img : ImageData) (P : Z -> Prop) :
  0 < width img ->
  (forall x y, inside (width img) (height img) x y -> P (y * width img + x)) ->
  forall i, 0 <= i < width img * height img -> P i.
Proof.
  intros Hw H i Hi. destruct (index_coords _ _ i Hw Hi) as [Hin Heq].
  rewrite Heq. by apply H.
Qed.

(** X1: the two pixel counts that [analyzeOne] reports are the sizes
    of its masks: [fgPixels] is the number of pixels outside the
    background mask, [bandPixels] the number of pixels of the edge band,
    and the band never holds more pixels than the foreground. *)
Theorem batch_pixel_counts (img : ImageData) (opts : Batch.Opts) :
  0 < width img -> 0 < height img ->
  exists res,
    Batch.analyzeOne img opts = Returned res /\
    Batch.size res = (width img, height img) /\
    Batch.fgPixels res = width img * height img - popcount (Batch.res_bg res) /\
    Batch.bandPixels res = popcount (Batch.res_band res) /\
    0 <= Batch.bandPixels res <= Batch.fgPixels res /\
    Batch.fgPixels res <= width img * height img.
Proof.
  intros Hw Hh.
  destruct (analyzeOne_fields img opts Hw Hh)
    as (res & bg & Hret & _ & Lbg & Ebg & Esz & Efg & Eband & Ebp & _).
  pose proof (foreground_spec img Hw Hh bg) as (F1 & F2 & F3).
  pose proof (edgeBand_spec img opts Hw Hh bg (fst (Batch.foreground img bg)))
    as (B1 & B2 & B3).
  set (fg := fst (Batch.foreground img bg)) in *.
  rewrite <- Eband in B1, B2, B3. rewrite <- Ebp in B3. rewrite <- Efg in F3.
  assert (Hc : popcount bg + popcount fg = width img * height img).
  { rewrite <- Lbg. apply popcount_complement; [lia|].
    rewrite Lbg. apply (index_form img (fun i => zget fg i = Some (negb (truthy (zget bg i)))));
      [done|]. exact F2. }
  assert (Hs : popcount (Batch.res_band res) <= popcount fg).
  { apply popcount_subset; [lia|]. intros i Hi.
    pose proof (zget_Some_range _ _ _ Hi) as Hr. rewrite B1 in Hr. revert Hi.
    apply (index_form img (fun i => zget (Batch.res_band res) i = Some true ->
                                    zget fg i = Some true)); [done| |done].
    intros x y Hin. rewrite (B2 x y Hin). intros [= Ht].
    apply andb_true_iff in Ht as [Ht _]. by apply truthy_true. }
  pose proof (popcount_range (Batch.res_band res)).
  pose proof (popcount_range bg).
  exists res. rewrite Ebg. split; [done|]. split; [done|]. lia.
Qed.

(** ** The table of verdicts *)

Lemma fold_insert_lookup {V} (f : Batch.BackgroundSpec -> V)
    (l : list Batch.BackgroundSpec) (m0 : gmap string V) (k : string) :
  fold_left (fun m b => <[ Batch.label b := f b ]> m) l m0 !! k =
    match last (filter (fun b => Batch.label b = k) l) with
    | Some b => Some (f b)
    | None => m0 !! k
    end.
Proof.
  induction l as [|b l IH] using rev_ind; [done|].
  rewrite fold_left_app, filter_app. cbn [fold_left].
  destruct (decide (Batch.label b = k)) as [E|E].
  - rewrite filter_cons_True by done. rewrite filter_nil, last_snoc, E.
    by rewrite lookup_insert_eq.
  - rewrite filter_cons_False by done. rewrite filter_nil, app_nil_r.
    by rewrite lookup_insert_ne.
Qed.

Lemma fold_insert_member {V} (f : Batch.BackgroundSpec -> V)
    (l : list Batch.BackgroundSpec) (m0 : gmap string V) (b : Batch.BackgroundSpec) :
  b ∈ l ->
  (forall b', b' ∈ l -> Batch.label b' = Batch.label b -> f b' = f b) ->
  fold_left (fun m b => <[ Batch.label b := f b ]> m) l m0 !! Batch.label b = Some (f b).
Proof.
  intros Hb Hf. rewrite fold_insert_lookup.
  destruct (last (filter (fun b' => Batch.label b' = Batch.label b) l)) as [b'|] eqn:El.
  - assert (Hin : b' ∈ filter (fun b' => Batch.label b' = Batch.label b) l).
    { rewrite last_lookup in El. by eapply list_elem_of_lookup_2. }
    apply list_elem_of_filter in Hin as [E Hin]. f_equal. by apply Hf.
  - apply last_None in El.
    assert (Hin : b ∈ filter (fun b' => Batch.label b' = Batch.label b) l)
      by (by apply list_elem_of_filter).
    rewrite El in Hin. by apply elem_of_nil in Hin.
Qed.

Lemma fold_insert_absent {V} (f : Batch.BackgroundSpec -> V)
    (l : list Batch.BackgroundSpec) (k : string) :
  (forall b, b ∈ l -> Batch.label b <> k) ->
  fold_left (fun m b => <[ Batch.label b := f b ]> m) l (∅ : gmap string V) !! k = None.
Proof.
  intros Hk. rewrite fold_insert_lookup.
  destruct (last (filter (fun b' => Batch.label b' = k) l)) as [b'|] eqn:El; [|done].
  assert (Hin : b' ∈ filter (fun b' => Batch.label b' = k) l).
  { rewrite last_lookup in El. by eapply list_elem_of_lookup_2. }
  apply list_elem_of_filter in Hin as [E Hin]. by apply Hk in Hin.
Qed.

(** X2: the table of per-background results holds, under each
    background's label, the result of [collectRatios] for that
    background's colour, and nothing under any other key; [overall] is
    true exactly when every background passes ([requireBoth]) or some
    background passes (otherwise).  Stated for backgrounds whose labels
    determine their colours, as the labels made by [parseColor] do. *)
Theorem batch_overall_verdict (img : ImageData) (opts : Batch.Opts) :
  0 < width img -> 0 < height img ->
  (forall b b', b ∈ Batch.backgrounds opts -> b' ∈ Batch.backgrounds opts ->
     Batch.label b = Batch.label b' -> Batch.bg_rgb b = Batch.bg_rgb b') ->
  exists res,
    Batch.analyzeOne img opts = Returned res /\
    let verdict b :=
      Batch.pass (Batch.collectRatios img opts (Batch.res_band res) (Batch.bg_rgb b)) in
    (forall b, b ∈ Batch.backgrounds opts ->
       Batch.res_backgrounds res !! Batch.label b =
         Some (Batch.collectRatios img opts (Batch.res_band res) (Batch.bg_rgb b)) /\
       Batch.byBackground res !! Batch.label b = Some (verdict b)) /\
    (forall k, (forall b, b ∈ Batch.backgrounds opts -> Batch.label b <> k) ->
       Batch.res_backgrounds res !! k = None /\ Batch.byBackground res !! k = None) /\
    (Batch.overall res = true <->
       if Batch.requireBoth opts
       then forall b, b ∈ Batch.backgrounds opts -> verdict b = true
       else exists b, b ∈ Batch.backgrounds opts /\ verdict b = true).
Proof.
  intros Hw Hh Hlab.
  destruct (analyzeOne_fields img opts Hw Hh)
    as (res & bg & Hret & _ & _ & _ & _ & _ & _ & _ & Eper & Eov & Eby).
  exists res. split; [done|]. cbv zeta.
  assert (Hper : forall b, b ∈ Batch.backgrounds opts ->
            Batch.res_backgrounds res !! Batch.label b =
              Some (Batch.collectRatios img opts (Batch.res_band res) (Batch.bg_rgb b))).
  { intros b Hb. rewrite Eper. unfold perBgOf.
    apply (fold_insert_member
             (fun b => Batch.collectRatios img opts (Batch.res_band res) (Batch.bg_rgb b)));
      [done|].
    intros b' Hb' E. f_equal. by apply Hlab. }
  assert (Hpass : forall b, b ∈ Batch.backgrounds opts ->
            Batch.passOf (Batch.res_backgrounds res) b =
              Batch.pass (Batch.collectRatios img opts (Batch.res_band res) (Batch.bg_rgb b))).
  { intros b Hb. unfold Batch.passOf. by rewrite (Hper b Hb). }
  split; [|split].
  - intros b Hb. split; [by apply Hper|]. rewrite Eby, <- (Hpass b Hb).
    apply (fold_insert_member (Batch.passOf (Batch.res_backgrounds res))); [done|].
    intros b' _ E. unfold Batch.passOf. by rewrite E.
  - intros k Hk. split.
    + rewrite Eper. unfold perBgOf. by apply fold_insert_absent.
    + rewrite Eby. by apply fold_insert_absent.
  - rewrite Eov. destruct (Batch.requireBoth opts).
    + rewrite forallb_forall. split.
      * intros H b Hb. rewrite <- (Hpass b Hb). apply H.
        apply in_map_iff. exists b. split; [done|]. by apply list_elem_of_In.
      * intros H v Hv. apply in_map_iff in Hv as (b & <- & Hb).
        apply list_elem_of_In in Hb. rewrite (Hpass b Hb). by apply H.
    + rewrite existsb_exists. split.
      * intros (v & Hv & Ht). apply in_map_iff in Hv as (b & <- & Hb).
        apply list_elem_of_In in Hb. exists b. split; [done|]. by rewrite <- (Hpass b Hb).
      * intros (b & Hb & Ht). exists true. split; [|done].
        apply in_map_iff. exists b. rewrite (Hpass b Hb).
        split; [done|]. by apply list_elem_of_In.
Qed.

(** ** The least ratio *)

Lemma filter_none {A} (P : A -> Prop) `{!forall x, Decision (P x)} (l : list A) :
  (forall x, x ∈ l -> ~ P x) -> filter P l = [].
Proof.
  induction l as [|a l IH]; intros Hn; [done|].
  rewrite filter_cons_False by (apply Hn; by left).
  apply IH. intros x Hx. apply Hn. by right.
Qed.

Section LeastRatio.
Local Open Scope R_scope.

Lemma sort_asc_head_min (l : list R) (m : R) :
  m ∈ l -> Forall (fun x => m <= x) l -> head (sort_asc l) = Some m.
Proof.
  intros Hm Hall.
  pose proof (sort_asc_perm l) as Hp. pose proof (sort_asc_sorted l) as Hs.
  destruct (sort_asc l) as [|h s] eqn:E.
  - apply Permutation_nil_l in Hp. subst l. by apply elem_of_nil in Hm.
  - cbn [head]. f_equal. apply Rle_antisym.
    + pose proof (sorted_head_min (h :: s) h Hs eq_refl) as Hmin.
      rewrite Forall_forall in Hmin. apply Hmin. by rewrite Hp.
    + rewrite Forall_forall in Hall. apply Hall. rewrite <- Hp. by left.
Qed.

Lemma item_head (l : list R) (m : R) : head l = Some m -> item l 0 = Num m.
Proof. destruct l; [done|]. intros [= ->]. reflexivity. Qed.

End LeastRatio.

(** X3: the [worst] ratio that [collectRatios] tracks while scanning
    is the [min] of its statistics (both [null] when no pixel is
    sampled), and [worstPixel] is a pixel of the mask whose bytes give
    that ratio. *)
Theorem batch_worst_is_min (img : ImageData) (opts : Batch.Opts)
    (mask : list bool) (bgColor : rgb) :
  0 < width img -> 0 < height img ->
  let r := Batch.collectRatios img opts mask bgColor in
  Batch.res_worst r = Batch.min_ (Batch.stats r) /\
  (Batch.count (Batch.stats r) = 0 ->
     Batch.res_worst r = Null /\ Batch.res_worstPixel r = None) /\
  (Batch.count (Batch.stats r) <> 0 ->
     exists wp,
       Batch.res_worstPixel r = Some wp /\
       inside (width img) (height img) (Batch.wx wp) (Batch.wy wp) /\
       zget mask (Batch.wy wp * width img + Batch.wx wp) = Some true /\
       pixelAt img (Batch.wy wp * width img + Batch.wx wp) =
         (Batch.wr wp, Batch.wg wp, Batch.wb wp, Batch.wa wp) /\
       Batch.res_worst r =
         Num (contrastRatioPixelVsBg (Batch.wr wp) (Batch.wg wp) (Batch.wb wp)
                (Batch.wa wp) bgColor)).
Proof.
  intros Hw Hh. cbv zeta.
  destruct (collected_spec img mask bgColor Hw Hh) as [Hr Hwst].
  unfold Batch.collectRatios. cbv zeta.
  cbn [Batch.res_worst Batch.res_worstPixel Batch.stats].
  set (c := Batch.collected img mask bgColor) in *.
  unfold Batch.statsForRatios.
  destruct (Batch.worst c) as [m|] eqn:Ew.
  - destruct Hwst as (wp & i & Hwp & (x & y & Hin & Hi & Hrec) & Hik & Hmi & Hri & Hmin & _).
    assert (Hmem : m ∈ Batch.ratios c).
    { rewrite Hr, <- Hri. apply list_elem_of_fmap_2. apply list_elem_of_filter.
      split; [done|]. apply elem_of_seqZ. lia. }
    assert (Hall : Forall (fun v => (m <= v)%R) (Batch.ratios c)).
    { rewrite Hr. apply Forall_forall. intros v Hv.
      apply list_elem_of_fmap in Hv as (j & -> & Hj).
      apply list_elem_of_filter in Hj as [Hmj Hj]. apply elem_of_seqZ in Hj.
      apply Hmin; [lia | done]. }
    destruct (Z.eqb_spec (len (Batch.ratios c)) 0) as [E|E].
    { unfold len in E. destruct (Batch.ratios c); [by apply elem_of_nil in Hmem | simpl in E; lia]. }
    cbn [Batch.min_ Batch.count].
    split; [|split; [done|]].
    + symmetry. apply item_head. by apply sort_asc_head_min.
    + intros _. exists wp. split; [done|]. subst wp.
      cbn [Batch.wx Batch.wy Batch.wr Batch.wg Batch.wb Batch.wa]. rewrite <- Hi.
      split; [done|]. split; [by apply truthy_true|]. split; [done|].
      rewrite <- Hri. reflexivity.
  - destruct Hwst as [Hwp Hnone].
    assert (E : Batch.ratios c = []).
    { rewrite Hr, filter_none; [done|]. intros j Hj. apply elem_of_seqZ in Hj.
      rewrite Hnone by lia. done. }
    rewrite E. cbn [len length Z.of_nat Z.eqb Batch.min_ Batch.count].
    split; [done|]. split; [done|]. intros H. done.
Qed.

(** ** Images in which nothing is sampled *)

Lemma collectRatios_empty (img : ImageData) (opts : Batch.Opts) (mask : list bool)
    (bgColor : rgb) :
  0 < width img -> 0 < height img ->
  (forall i, zget mask i <> Some true) ->
  Batch.count (Batch.stats (Batch.collectRatios img opts mask bgColor)) = 0 /\
  Batch.pass (Batch.collectRatios img opts mask bgColor) = false.
Proof.
  intros Hw Hh Hnone.
  destruct (collected_spec img mask bgColor Hw Hh) as [Hr _].
  unfold Batch.collectRatios. cbv zeta. cbn [Batch.stats Batch.pass].
  rewrite Hr, filter_none.
  - done.
  - intros i _ Hi. apply truthy_true in Hi. by apply Hnone in Hi.
Qed.

Lemma batch_nothing_sampled (img : ImageData) (opts : Batch.Opts) (res : Batch.Result) :
  0 < width img -> 0 < height img ->
  Batch.res_backgrounds res = perBgOf img opts (Batch.res_band res) ->
  Batch.overall res =
    (if Batch.requireBoth opts
     then forallb (fun v => v)
            (map (Batch.passOf (Batch.res_backgrounds res)) (Batch.backgrounds opts))
     else existsb (fun v => v)
            (map (Batch.passOf (Batch.res_backgrounds res)) (Batch.backgrounds opts))) ->
  (forall i, zget (Batch.res_band res) i <> Some true) ->
  (forall k r, Batch.res_backgrounds res !! k = Some r ->
     Batch.count (Batch.stats r) = 0 /\ Batch.pass r = false) /\
  (Batch.backgrounds opts <> [] -> Batch.overall res = false).
Proof.
  intros Hw Hh Eper Eov Hnone.
  assert (Hall : forall k r, Batch.res_backgrounds res !! k = Some r ->
            Batch.count (Batch.stats r) = 0 /\ Batch.pass r = false).
  { intros k r Hk. rewrite Eper in Hk. unfold perBgOf in Hk.
    rewrite fold_insert_lookup in Hk.
    destruct (last _) as [b|]; [|by rewrite lookup_empty in Hk].
    injection Hk as <-. by apply collectRatios_empty. }
  split; [done|]. intros Hne. rewrite Eov.
  assert (Hp : forall b, Batch.passOf (Batch.res_backgrounds res) b = false).
  { intros b. unfold Batch.passOf.
    destruct (Batch.res_backgrounds res !! Batch.label b) as [r|] eqn:E; [|done].
    by apply Hall in E as [_ E]. }
  assert (Hex : forall l, existsb (fun v => v)
                            (map (Batch.passOf (Batch.res_backgrounds res)) l) = false).
  { induction l as [|b' l IH]; [done|]. cbn [map existsb]. by rewrite Hp. }
  rewrite Hex. destruct (Batch.backgrounds opts) as [|b l]; [done|].
  cbn [map forallb]. rewrite Hp. by destruct (Batch.requireBoth opts).
Qed.

Lemma all_reach (w h : Z) (P : Z -> Z -> Prop) :
  (forall x y, inside w h x y -> P x y) ->
  forall x y, inside w h x y -> reach w h P x y.
Proof.
  intros HP x y [Hx Hy].
  assert (H : forall n : nat, (Z.of_nat n < w) -> reach w h P (Z.of_nat n) y).
  { induction n as [|n IH]; intros Hn.
    - apply reach_seed; [unfold inside; lia | left; lia | apply HP; unfold inside; lia].
    - apply (reach_step w h P (Z.of_nat n) y); [apply IH; lia | left; lia | unfold inside; lia |].
      apply HP. unfold inside. lia. }
  specialize (H (Z.to_nat x)). rewrite Z2Nat.id in H by lia. apply H. lia.
Qed.

(** X4: an image all of whose pixels are near the segmentation
    background gives the batch tool nothing to test: the foreground and
    the edge band are empty, every background's result has count 0 and
    verdict fail, and so is the overall verdict whenever a background is
    tested. *)
Theorem blank_image_fails_batch (img : ImageData) (opts : Batch.Opts) :
  well_formed img ->
  (forall x y, inside (width img) (height img) x y ->
     near_background img (Batch.bg_rgb (Batch.segBg opts)) (Batch.alphaBg opts)
       (Batch.nearBgDist opts) x y) ->
  exists res,
    Batch.analyzeOne img opts = Returned res /\
    Batch.fgPixels res = 0 /\ Batch.bandPixels res = 0 /\
    (forall k r, Batch.res_backgrounds res !! k = Some r ->
       Batch.count (Batch.stats r) = 0 /\ Batch.pass r = false) /\
    (Batch.backgrounds opts <> [] -> Batch.overall res = false).
Proof.
  intros Hwf Hnear. pose proof Hwf as (Hw & Hh & _).
  destruct (analyzeOne_fields img opts Hw Hh)
    as (res & bg & Hret & Hfill & Lbg & Ebg & _ & Efg & Eband & Ebp & Eper & Eov & _).
  destruct (batch_stages_exist img opts Hw Hh) as (res' & B).
  assert (res' = res) by (pose proof (bs_returns _ _ _ B); congruence). subst res'.
  assert (Hall : forall i, 0 <= i < width img * height img -> zget bg i = Some true).
  { apply (index_form img (fun i => zget bg i = Some true)); [done|].
    intros x y Hin. rewrite <- Ebg. apply (bs_fill_spec _ _ _ B x y Hin).
    apply all_reach; [|done]. intros x' y' Hin'.
    by apply near_background_iff, Hnear. }
  pose proof (foreground_spec img Hw Hh bg) as (F1 & F2 & F3).
  assert (Hfg : forall i, zget (fst (Batch.foreground img bg)) i <> Some true).
  { intros i Hi. pose proof (zget_Some_range _ _ _ Hi) as Hr. rewrite F1 in Hr.
    revert Hi. apply (index_form img (fun i => zget _ i <> Some true)); [done| |done].
    intros x y Hin. rewrite (F2 x y Hin), (Hall _ (inside_index _ _ Hw Hh x y Hin)). done. }
  assert (Hband : forall i, zget (Batch.res_band res) i <> Some true).
  { intros i Hi. pose proof (zget_Some_range _ _ _ Hi) as Hr.
    rewrite (bs_band_len _ _ _ B) in Hr. revert Hi.
    apply (index_form img (fun i => zget _ i <> Some true)); [done| |done].
    intros x y Hin. rewrite (bs_band_spec _ _ _ B x y Hin), Ebg.
    rewrite (Hall _ (inside_index _ _ Hw Hh x y Hin)). done. }
  exists res. split; [done|]. split; [|split].
  - rewrite Efg, F3. by apply popcount_zero.
  - rewrite (bs_band_count _ _ _ B). by apply popcount_zero.
  - by apply (batch_nothing_sampled img opts res).
Qed.

Lemma web_nothing_sampled (img : ImageData) (opts : Web.Opts) (mask : list bool) (m : Z) :
  0 < width img -> 0 < height img ->
  Web.sampleMask img opts = Some (mask, m) -> m = popcount mask ->
  (forall i, zget mask i <> Some true) ->
  exists res,
    Web.analyze img opts = Some res /\
    Web.count (Web.stats res) = 0 /\ Web.bandCount (Web.stats res) = 0 /\
    Web.pass res = false /\ (forall i, zget (Web.mask res) i <> Some true).
Proof.
  intros Hw Hh Hs Hm Hnone.
  destruct (analyze_returns img opts mask m Hs) as (res & Ea & Ec & Eb & Em & Ep).
  destruct (ratiosOf_spec img opts Hw Hh mask) as (R1 & R2 & R3).
  assert (Hsc : forall i, scored img opts mask i = false).
  { intros i. unfold scored. destruct (truthy (zget mask i)) eqn:E; [|done].
    apply truthy_true in E. by apply Hnone in E. }
  assert (E : fst (Web.ratiosOf img opts mask) = []).
  { rewrite R1, filter_none; [done|]. intros i _. by rewrite Hsc. }
  exists res. split; [done|]. split; [by rewrite Ec, E|]. split; [|split].
  - rewrite Eb, Hm. by apply popcount_zero.
  - rewrite Ep, E. reflexivity.
  - intros i Hi. rewrite Em in Hi. pose proof (zget_Some_range _ _ _ Hi) as Hr.
    rewrite R2 in Hr. rewrite (R3 i Hr), Hsc in Hi. done.
Qed.

(** X5: on the page an image all of whose pixels are near the
    segmentation background is not tested at all, whatever the sample
    mode: no ratio is computed, the sample mask is empty, no pixel is
    flagged and the verdict is fail. *)
Theorem blank_image_fails_page (img : ImageData) (opts : Web.Opts) :
  well_formed img ->
  (forall x y, inside (width img) (height img) x y ->
     near_background img (Web.segBg opts) (Web.alphaBg opts) (Web.nearBgDist opts) x y) ->
  exists res,
    Web.analyze img opts = Some res /\
    Web.count (Web.stats res) = 0 /\ Web.bandCount (Web.stats res) = 0 /\
    Web.pass res = false /\ (forall i, zget (Web.mask res) i <> Some true).
Proof.
  intros Hwf Hnear. pose proof Hwf as (Hw & Hh & _).
  destruct (web_stages_exist img opts Hw Hh)
    as (bg0 & bg & n & band & k & mask & m & W).
  assert (Hall : forall i, 0 <= i < width img * height img -> zget bg0 i = Some true).
  { apply (index_form img (fun i => zget bg0 i = Some true)); [done|].
    intros x y Hin. apply (ws_fill_spec _ _ _ _ _ _ _ _ _ W x y Hin).
    apply all_reach; [|done]. intros x' y' Hin'.
    by apply near_background_iff, Hnear. }
  assert (Hne : popcount bg0 <> 0).
  { intros Hz. apply (proj1 (popcount_zero bg0) Hz 0). apply Hall. lia. }
  pose proof (ws_tier1 _ _ _ _ _ _ _ _ _ W Hne) as ->.
  assert (Hn : n <> 0) by (by rewrite (ws_bg_count _ _ _ _ _ _ _ _ _ W)).
  assert (Hband : forall i, zget band i <> Some true).
  { intros i Hi. pose proof (zget_Some_range _ _ _ Hi) as Hr.
    rewrite (ws_band_len _ _ _ _ _ _ _ _ _ W) in Hr. revert Hi.
    apply (index_form img (fun i => zget _ i <> Some true)); [done| |done].
    intros x y Hin. rewrite (ws_band_spec _ _ _ _ _ _ _ _ _ W x y Hin).
    destruct (Z.eqb_spec n 0) as [|_]; [done|].
    rewrite (Hall _ (inside_index _ _ Hw Hh x y Hin)). done. }
  apply (web_nothing_sampled img opts mask m Hw Hh);
    [apply W | apply W |].
  intros i Hi. pose proof (zget_Some_range _ _ _ Hi) as Hr.
  rewrite (ws_mask_len _ _ _ _ _ _ _ _ _ W) in Hr.
  rewrite (ws_mask_spec _ _ _ _ _ _ _ _ _ W i Hr) in Hi.
  destruct (Web.sampleMode opts).
  - injection Hi as Hi. apply truthy_true in Hi. by apply Hband in Hi.
  - rewrite (Hall i Hr) in Hi. done.
  - injection Hi as Hi. apply andb_true_iff in Hi as [Hi _].
    apply truthy_true in Hi. by apply Hband in Hi.
Qed.

(** ** A band radius that is not positive *)

Lemma nearBackground_nonpos (img : ImageData) (bg : list bool) (radius x y : Z) :
  radius <= 0 -> inside (width img) (height img) x y ->
  zget bg (y * width img + x) <> Some true ->
  nearBackground img bg radius x y = false.
Proof.
  intros Hr [Hx Hy] Hbg. unfold nearBackground, range_incl.
  destruct (decide (radius = 0)) as [->|Hne].
  - change (seqZ (- 0) (0 - - 0 + 1)) with [0]. cbn [existsb]. cbv zeta.
    rewrite !Z.add_0_r, !orb_false_r.
    destruct (Z.ltb_spec x 0); [lia|]. destruct (Z.ltb_spec y 0); [lia|].
    destruct (Z.geb_spec x (width img)); [lia|]. destruct (Z.geb_spec y (height img)); [lia|].
    cbn [orb]. destruct (truthy _) eqn:E; [|done]. by apply truthy_true in E.
  - rewrite seqZ_nil by lia. done.
Qed.

(** X6: with a band radius of zero or less the batch tool's edge
    band is empty, so every background's result has count 0 and verdict
    fail, and the overall verdict is fail whenever a background is
    tested. *)
Theorem nonpositive_radius_fails_batch (img : ImageData) (opts : Batch.Opts) :
  0 < width img -> 0 < height img -> Batch.bandRadius opts <= 0 ->
  exists res,
    Batch.analyzeOne img opts = Returned res /\
    Batch.bandPixels res = 0 /\
    (forall k r, Batch.res_backgrounds res !! k = Some r ->
       Batch.count (Batch.stats r) = 0 /\ Batch.pass r = false) /\
    (Batch.backgrounds opts <> [] -> Batch.overall res = false).
Proof.
  intros Hw Hh Hrad.
  destruct (analyzeOne_fields img opts Hw Hh)
    as (res & bg & Hret & _ & _ & _ & _ & _ & _ & _ & Eper & Eov & _).
  destruct (batch_stages_exist img opts Hw Hh) as (res' & B).
  assert (res' = res) by (pose proof (bs_returns _ _ _ B); congruence). subst res'.
  assert (Hband : forall i, zget (Batch.res_band res) i <> Some true).
  { intros i Hi. pose proof (zget_Some_range _ _ _ Hi) as Hr.
    rewrite (bs_band_len _ _ _ B) in Hr. revert Hi.
    apply (index_form img (fun i => zget _ i <> Some true)); [done| |done].
    intros x y Hin. rewrite (bs_band_spec _ _ _ B x y Hin).
    destruct (truthy (zget (Batch.res_bg res) (y * width img + x))) eqn:E; [done|].
    rewrite nearBackground_nonpos; [done..|].
    intros Ht. by rewrite Ht in E. }
  exists res. split; [done|]. split.
  - rewrite (bs_band_count _ _ _ B). by apply popcount_zero.
  - by apply (batch_nothing_sampled img opts res).
Qed.

(** X7: on the page, with a band radius of zero or less and a
    sample mode other than All, the analysis tests nothing and fails
    whenever segmentation found a background pixel (otherwise the border
    band of the last fallback is used). *)
Theorem nonpositive_radius_page (img : ImageData) (opts : Web.Opts) :
  0 < width img -> 0 < height img ->
  Web.bandRadius opts <= 0 -> Web.sampleMode opts <> Web.All ->
  exists bg n res,
    Web.segmentation img opts = Some (bg, n) /\
    Web.analyze img opts = Some res /\
    (n <> 0 ->
     Web.count (Web.stats res) = 0 /\ Web.bandCount (Web.stats res) = 0 /\
     Web.pass res = false /\ (forall i, zget (Web.mask res) i <> Some true)).
Proof.
  intros Hw Hh Hrad Hmode.
  destruct (web_stages_exist img opts Hw Hh)
    as (bg0 & bg & n & band & k & mask & m & W).
  destruct (analyze_returns img opts mask m (ws_mask _ _ _ _ _ _ _ _ _ W))
    as (res & Ea & _).
  exists bg, n, res. split; [apply W|]. split; [done|]. intros Hn.
  assert (Hband : forall i, zget band i <> Some true).
  { intros i Hi. pose proof (zget_Some_range _ _ _ Hi) as Hr.
    rewrite (ws_band_len _ _ _ _ _ _ _ _ _ W) in Hr. revert Hi.
    apply (index_form img (fun i => zget _ i <> Some true)); [done| |done].
    intros x y Hin. rewrite (ws_band_spec _ _ _ _ _ _ _ _ _ W x y Hin).
    destruct (Z.eqb_spec n 0) as [|_]; [done|].
    destruct (truthy (zget bg (y * width img + x))) eqn:E; [done|].
    rewrite nearBackground_nonpos; [done..|].
    intros Ht. by rewrite Ht in E. }
  destruct (web_nothing_sampled img opts mask m Hw Hh) as (res' & Ea' & Hres);
    [apply W | apply W | | by simplify_eq].
  intros i Hi. pose proof (zget_Some_range _ _ _ Hi) as Hr.
  rewrite (ws_mask_len _ _ _ _ _ _ _ _ _ W) in Hr.
  rewrite (ws_mask_spec _ _ _ _ _ _ _ _ _ W i Hr) in Hi.
  destruct (Web.sampleMode opts).
  - injection Hi as Hi. apply truthy_true in Hi. by apply Hband in Hi.
  - done.
  - injection Hi as Hi. apply andb_true_iff in Hi as [Hi _].
    apply truthy_true in Hi. by apply Hband in Hi.
Qed.

(** ** The edge band as a neighbourhood *)

Lemma nearBackground_spec (img : ImageData) (bg : list bool) (radius x y : Z) :
  nearBackground img bg radius x y = true <->
  exists x' y', inside (width img) (height img) x' y' /\
    Z.abs (x' - x) <= radius /\ Z.abs (y' - y) <= radius /\
    zget bg (y' * width img + x') = Some true.
Proof.
  unfold nearBackground, range_incl. rewrite existsb_exists. split.
  - intros (dy & Hdy & H). apply existsb_exists in H as (dx & Hdx & H).
    apply list_elem_of_In, elem_of_seqZ in Hdy, Hdx. cbv zeta in H.
    destruct (Z.ltb_spec (x + dx) 0); [done|]. destruct (Z.ltb_spec (y + dy) 0); [done|].
    destruct (Z.geb_spec (x + dx) (width img)); [done|].
    destruct (Z.geb_spec (y + dy) (height img)); [done|].
    cbn [orb] in H. apply truthy_true in H.
    exists (x + dx), (y + dy). unfold inside. repeat split; try lia. done.
  - intros (x' & y' & [Hx Hy] & Hax & Hay & Hb).
    exists (y' - y). split; [apply list_elem_of_In, elem_of_seqZ; lia|].
    apply existsb_exists. exists (x' - x).
    split; [apply list_elem_of_In, elem_of_seqZ; lia|]. cbv zeta.
    replace (x + (x' - x)) with x' by lia. replace (y + (y' - y)) with y' by lia.
    destruct (Z.ltb_spec x' 0); [lia|]. destruct (Z.ltb_spec y' 0); [lia|].
    destruct (Z.geb_spec x' (width img)); [lia|].
    destruct (Z.geb_spec y' (height img)); [lia|].
    cbn [orb]. by apply truthy_true.
Qed.

(** X8: a pixel is in the edge band exactly when it is outside the
    background mask and some background pixel of the image lies within
    [bandRadius] of it along both axes (the square window of side
    [2 * bandRadius + 1] around it).  Batch tool, and the page whenever
    segmentation found a background pixel. *)
Theorem edge_band_neighbourhood (img : ImageData) (bo : Batch.Opts) (wo : Web.Opts) :
  0 < width img -> 0 < height img ->
  (exists res,
     Batch.analyzeOne img bo = Returned res /\
     forall x y, inside (width img) (height img) x y ->
       (zget (Batch.res_band res) (y * width img + x) = Some true <->
        zget (Batch.res_bg res) (y * width img + x) <> Some true /\
        exists x' y', inside (width img) (height img) x' y' /\
          Z.abs (x' - x) <= Batch.bandRadius bo /\ Z.abs (y' - y) <= Batch.bandRadius bo /\
          zget (Batch.res_bg res) (y' * width img + x') = Some true)) /\
  (exists bg n band k,
     Web.segmentation img wo = Some (bg, n) /\
     Web.bandStage img wo = Some (band, k) /\
     (n <> 0 ->
      forall x y, inside (width img) (height img) x y ->
        (zget band (y * width img + x) = Some true <->
         zget bg (y * width img + x) <> Some true /\
         exists x' y', inside (width img) (height img) x' y' /\
           Z.abs (x' - x) <= Web.bandRadius wo /\ Z.abs (y' - y) <= Web.bandRadius wo /\
           zget bg (y' * width img + x') = Some true))).
Proof.
  intros Hw Hh. split.
  - destruct (batch_stages_exist img bo Hw Hh) as (res & B).
    exists res. split; [apply B|]. intros x y Hin.
    rewrite (bs_band_spec _ _ _ B x y Hin), <- nearBackground_spec.
    destruct (truthy (zget (Batch.res_bg res) (y * width img + x))) eqn:E.
    + apply truthy_true in E. cbn [negb andb]. split; [done|]. intros [Hn _]. done.
    + cbn [negb andb]. split.
      * intros [= Hn]. split; [|done]. intros Ht. by rewrite Ht in E.
      * intros [_ Hn]. by rewrite Hn.
  - destruct (web_stages_exist img wo Hw Hh)
      as (bg0 & bg & n & band & k & mask & m & W).
    exists bg, n, band, k. split; [apply W|]. split; [apply W|].
    intros Hn x y Hin.
    rewrite (ws_band_spec _ _ _ _ _ _ _ _ _ W x y Hin), <- nearBackground_spec.
    destruct (Z.eqb_spec n 0) as [|_]; [done|].
    destruct (truthy (zget bg (y * width img + x))) eqn:E.
    + apply truthy_true in E. cbn [negb andb]. split; [done|]. intros [Hn' _]. done.
    + cbn [negb andb]. split.
      * intros [= Hn']. split; [|done]. intros Ht. by rewrite Ht in E.
      * intros [_ Hn']. by rewrite Hn'.
Qed.

(** X9: enlarging [bandRadius] never removes a pixel from the batch
    tool's edge band: under the same segmentation options the background
    mask is the same, the band of the smaller radius lies inside the
    band of the larger one, and [bandPixels] does not decrease. *)
Theorem edge_band_grows_with_radius (img : ImageData) (opts opts' : Batch.Opts) :
  0 < width img -> 0 < height img ->
  Batch.segBg opts = Batch.segBg opts' -> Batch.alphaBg opts = Batch.alphaBg opts' ->
  Batch.nearBgDist opts = Batch.nearBgDist opts' ->
  Batch.bandRadius opts <= Batch.bandRadius opts' ->
  exists res res',
    Batch.analyzeOne img opts = Returned res /\
    Batch.analyzeOne img opts' = Returned res' /\
    Batch.res_bg res = Batch.res_bg res' /\
    Batch.fgPixels res = Batch.fgPixels res' /\
    (forall i, zget (Batch.res_band res) i = Some true ->
       zget (Batch.res_band res') i = Some true) /\
    Batch.bandPixels res <= Batch.bandPixels res'.
Proof.
  intros Hw Hh Es Ea En Hr.
  destruct (analyzeOne_fields img opts Hw Hh)
    as (res & bg & Hret & Hfill & _ & Ebg & _ & Efg & _).
  destruct (analyzeOne_fields img opts' Hw Hh)
    as (res' & bg' & Hret' & Hfill' & _ & Ebg' & _ & Efg' & _).
  rewrite Es, Ea, En in Hfill. assert (Hbb : bg' = bg) by congruence.
  rewrite Hbb in Ebg', Efg'. clear Hbb Hfill'.
  destruct (batch_stages_exist img opts Hw Hh) as (r & B).
  assert (r = res) by (pose proof (bs_returns _ _ _ B); congruence). subst r.
  destruct (batch_stages_exist img opts' Hw Hh) as (r & B').
  assert (r = res') by (pose proof (bs_returns _ _ _ B'); congruence). subst r.
  assert (Hsub : forall i, zget (Batch.res_band res) i = Some true ->
                           zget (Batch.res_band res') i = Some true).
  { intros i Hi. pose proof (zget_Some_range _ _ _ Hi) as Hrg.
    rewrite (bs_band_len _ _ _ B) in Hrg. revert Hi.
    apply (index_form img (fun i => zget _ i = Some true -> zget _ i = Some true));
      [done| |done].
    intros x y Hin.
    rewrite (bs_band_spec _ _ _ B x y Hin), (bs_band_spec _ _ _ B' x y Hin), Ebg, Ebg'.
    intros [= Ht]. apply andb_true_iff in Ht as [Ht1 Ht2]. f_equal.
    apply andb_true_iff. split; [done|].
    apply nearBackground_spec in Ht2 as (x' & y' & Hin' & Hx & Hy & Hb).
    apply nearBackground_spec. exists x', y'.
    split; [done|]. split; [lia|]. split; [lia | done]. }
  exists res, res'. split; [done|]. split; [done|]. split; [congruence|].
  split; [congruence|]. split; [done|].
  rewrite (bs_band_count _ _ _ B), (bs_band_count _ _ _ B').
  apply popcount_subset; [|done].
  pose proof (bs_band_len _ _ _ B). pose proof (bs_band_len _ _ _ B'). lia.
Qed.

(** ** The page's result, field by field *)

Lemma analyze_fields (img : ImageData) (opts : Web.Opts) (mask : list bool) (m : Z) :
  Web.sampleMask img opts = Some (mask, m) ->
  exists res,
    Web.analyze img opts = Some res /\
    Web.stats res = fst (Web.summarize opts (fst (Web.ratiosOf img opts mask)) m) /\
    Web.pass res = snd (Web.summarize opts (fst (Web.ratiosOf img opts mask)) m) /\
    Web.mask res = snd (Web.ratiosOf img opts mask).
Proof.
  intros Hs. unfold Web.analyze. rewrite Hs.
  destruct (Web.ratiosOf img opts mask) as [ratios failing].
  destruct (Web.summarize opts ratios m) as [st ps] eqn:E.
  eexists. split; [reflexivity|]. cbn [fst snd Web.stats Web.pass Web.mask].
  by rewrite E.
Qed.

Lemma filter_ext_in {A} (P Q : A -> Prop) `{!forall x, Decision (P x)}
    `{!forall x, Decision (Q x)} (l : list A) :
  (forall x, x ∈ l -> (P x <-> Q x)) -> filter P l = filter Q l.
Proof.
  induction l as [|a l IH]; intros HPQ; [done|].
  rewrite !filter_cons. rewrite IH by (intros x Hx; apply HPQ; by right).
  destruct (decide (P a)) as [Hp|Hp], (decide (Q a)) as [Hq|Hq]; try done.
  - exfalso. apply Hq, (HPQ a); [by left | done].
  - exfalso. apply Hp, (HPQ a); [by left | done].
Qed.

Lemma popcount_app m1 m2 : popcount (m1 ++ m2) = popcount m1 + popcount m2.
Proof. unfold popcount. rewrite filter_app, length_app. lia. Qed.

(** The number of set cells is the number of indices at which the mask
    is set. *)
Lemma popcount_as_filter (mask : list bool) :
  popcount mask =
    len (filter (fun i => inMask mask i = true) (seqZ 0 (Z.of_nat (length mask)))).
Proof.
  induction mask as [|b mask IH] using rev_ind; [done|].
  rewrite popcount_app, length_app. cbn [length].
  replace (Z.of_nat (length mask + 1)) with (Z.of_nat (length mask) + 1) by lia.
  rewrite seqZ_snoc, filter_app by lia. unfold len in *.
  rewrite length_app, Nat2Z.inj_add.
  rewrite (filter_ext_in _ (fun i => inMask mask i = true) (seqZ 0 _)).
  - rewrite <- IH. rewrite filter_single. unfold inMask at 1.
    rewrite zget_of_nat, list_lookup_middle by done.
    rewrite popcount_cons. change (popcount []) with 0.
    destruct b; cbn [truthy length]; lia.
  - intros i Hi. apply elem_of_seqZ in Hi. unfold inMask, zget.
    destruct (Z.ltb_spec i 0); [lia|]. rewrite lookup_app_l by lia. done.
Qed.

Lemma len_filter_le {A} (P Q : A -> Prop) `{!forall x, Decision (P x)}
    `{!forall x, Decision (Q x)} (l : list A) :
  (forall x, x ∈ l -> P x -> Q x) -> len (filter P l) <= len (filter Q l).
Proof.
  unfold len. induction l as [|a l IH]; intros HPQ; [done|].
  rewrite !filter_cons. specialize (IH ltac:(intros x Hx; apply HPQ; by right)).
  destruct (decide (P a)) as [Hp|Hp], (decide (Q a)) as [Hq|Hq]; cbn [length]; try lia.
  exfalso. apply Hq, (HPQ a); [by left | done].
Qed.

Section BelowCount.
Local Open Scope R_scope.

Lemma filter_map_below (f : Z -> R) (t : R) (l : list Z) :
  filter (fun x => Rltb x t = true) (map f l) =
    map f (filter (fun i => Rltb (f i) t = true) l).
Proof.
  induction l as [|a l IH]; [done|]. cbn [map]. rewrite !filter_cons, IH.
  by destruct (decide (Rltb (f a) t = true)).
Qed.

Lemma below_sort_asc (l : list R) (t : R) :
  len (filter (fun x => Rltb x t = true) (sort_asc l)) =
    len (filter (fun x => Rltb x t = true) l).
Proof. unfold len. by rewrite (sort_asc_perm l). Qed.

Lemma pctBelowOf_sort_asc (l : list R) (t : R) :
  pctBelowOf (sort_asc l) t = pctBelowOf l t.
Proof. unfold pctBelowOf. by rewrite below_sort_asc, len_sort_asc. Qed.

End BelowCount.

(** X10: in the page's result a pixel is flagged exactly when it is in
    the sample mask, its alpha is not below [minAlpha] and its ratio is
    below the threshold; [flagged <= count <= bandCount <= width * height];
    and [pctBelow] is the quotient of 100 times the number of flagged
    pixels by [count] (0 when [count] is 0): the ratios counted below
    the threshold are those of the flagged pixels. *)
Theorem page_flagged_pixels (img : ImageData) (opts : Web.Opts) :
  0 < width img -> 0 < height img ->
  exists mask m res,
    Web.sampleMask img opts = Some (mask, m) /\
    Web.analyze img opts = Some res /\
    (forall i, zget (Web.mask res) i = Some true <->
       zget mask i = Some true /\ Web.minAlpha opts <= alphaAt img i /\
       (ratioAt img (Web.opt_bg opts) i < Web.threshold opts)%R) /\
    popcount (Web.mask res) <= Web.count (Web.stats res) /\
    Web.count (Web.stats res) <= Web.bandCount (Web.stats res) /\
    Web.bandCount (Web.stats res) <= width img * height img /\
    Web.pctBelow (Web.stats res) =
      (if Web.count (Web.stats res) =? 0 then 0
       else 100 * IZR (popcount (Web.mask res)) / IZR (Web.count (Web.stats res)))%R.
Proof.
  intros Hw Hh.
  destruct (web_stages_exist img opts Hw Hh)
    as (bg0 & bg & n & band & k & mask & m & W).
  pose proof (ws_mask _ _ _ _ _ _ _ _ _ W) as Hs.
  pose proof (ws_mask_len _ _ _ _ _ _ _ _ _ W) as Lm.
  pose proof (ws_mask_count _ _ _ _ _ _ _ _ _ W) as Hm.
  destruct (analyze_fields img opts mask m Hs) as (res & Ea & Est & _ & Em).
  destruct (ratiosOf_spec img opts Hw Hh mask) as (R1 & R2 & R3).
  set (N := width img * height img) in *.
  set (sc := fun i => scored img opts mask i = true).
  set (bl := fun i => Rltb (ratioAt img (Web.opt_bg opts) i) (Web.threshold opts) = true).
  assert (Hflag : popcount (Web.mask res) =
                  len (filter (fun i => bl i /\ sc i) (seqZ 0 N))).
  { rewrite popcount_as_filter, Em, R2. f_equal. apply filter_ext_in.
    intros i Hi. apply elem_of_seqZ in Hi. unfold inMask.
    rewrite (R3 i ltac:(lia)). unfold bl, sc.
    destruct (scored img opts mask i), (Rltb _ _); cbn [truthy andb];
      intuition congruence. }
  assert (Hcount : Web.count (Web.stats res) = len (filter sc (seqZ 0 N))).
  { rewrite Est. unfold Web.summarize. cbn [fst Web.count].
    rewrite len_sort_asc, R1. unfold len. by rewrite length_map. }
  assert (Hbelow : len (filter (fun x => Rltb x (Web.threshold opts) = true)
                          (fst (Web.ratiosOf img opts mask))) =
                   len (filter (fun i => bl i /\ sc i) (seqZ 0 N))).
  { rewrite R1, filter_map_below. unfold len. rewrite length_map.
    by rewrite list_filter_filter. }
  exists mask, m, res. split; [done|]. split; [done|]. split; [|split; [|split; [|split]]].
  - intros i. rewrite Em. split.
    + intros Hi. pose proof (zget_Some_range _ _ _ Hi) as Hr. rewrite R2 in Hr.
      rewrite (R3 i Hr) in Hi. injection Hi as Hi.
      apply andb_true_iff in Hi as [Hi1 Hi2]. unfold scored in Hi1.
      apply andb_true_iff in Hi1 as [Hi1 Hi3].
      split; [by apply truthy_true|]. split.
      * apply negb_true_iff in Hi3. destruct (Z.ltb_spec (alphaAt img i) (Web.minAlpha opts)); [done | lia].
      * by apply Rltb_true.
    + intros (H1 & H2 & H3). pose proof (zget_Some_range _ _ _ H1) as Hr. rewrite Lm in Hr.
      rewrite (R3 i Hr). f_equal. apply andb_true_iff. split; [|by apply Rltb_true].
      unfold scored. apply andb_true_iff. split; [by apply truthy_true|].
      apply negb_true_iff. destruct (Z.ltb_spec (alphaAt img i) (Web.minAlpha opts)); [lia | done].
  - rewrite Hflag, Hcount. apply len_filter_le. intros i _ [_ Hi]. done.
  - rewrite Hcount.
    replace (Web.bandCount (Web.stats res)) with m
      by (rewrite Est; unfold Web.summarize; reflexivity).
    rewrite Hm, popcount_as_filter, Lm. apply len_filter_le.
    intros i _ Hi. unfold sc, scored in Hi. apply andb_true_iff in Hi as [Hi _]. done.
  - replace (Web.bandCount (Web.stats res)) with m
      by (rewrite Est; unfold Web.summarize; reflexivity).
    rewrite Hm. pose proof (popcount_range mask). lia.
  - rewrite Hflag, <- Hbelow. rewrite Est. unfold Web.summarize. cbn [fst Web.pctBelow Web.count].
    rewrite len_sort_asc.
    destruct (Z.eqb_spec (len (fst (Web.ratiosOf img opts mask))) 0) as [E|E]; [done|].
    rewrite pctBelowOf_sort_asc. reflexivity.
Qed.

(** ** The two implementations of the statistics *)

Lemma summarize_as_stats (ratios : list R) (wo : Web.Opts) (maskCount : Z) :
  let st := Batch.statsForRatios ratios (Web.p wo) (Web.threshold wo) in
  let ws := Web.summarize wo ratios maskCount in
  Web.count (fst ws) = Batch.count st /\
  Web.pX (fst ws) = Batch.pX st /\
  Web.median (fst ws) = Batch.median st /\
  Web.min_ (fst ws) = Batch.min_ st /\
  Web.pctBelow (fst ws) = Batch.pctBelow st /\
  Web.bandCount (fst ws) = maskCount /\
  snd ws = Batch.passByStats st (Web.threshold wo) (Web.maxPctBelow wo).
Proof.
  cbv zeta. unfold Web.summarize, Batch.statsForRatios, Batch.passByStats.
  cbn [fst snd Web.count Web.pX Web.median Web.min_ Web.pctBelow Web.bandCount].
  rewrite len_sort_asc.
  destruct (Z.eqb_spec (len ratios) 0) as [E|E].
  - apply len_zero in E. subst ratios.
    cbn [Batch.count Batch.pX Batch.median Batch.min_ Batch.pctBelow].
    repeat (split; [reflexivity|]). reflexivity.
  - cbn [Batch.count Batch.pX Batch.median Batch.min_ Batch.pctBelow].
    destruct (Z.eqb_spec (len ratios) 0) as [E'|_]; [done|].
    rewrite pctBelowOf_sort_asc.
    repeat (split; [reflexivity|]).
    assert (Hpos : (len ratios >? 0) = true) by (unfold len in *; lia).
    rewrite Hpos. reflexivity.
Qed.

(** X11: the statistics and the verdict that the page computes
    inline are those of the batch tool's [statsForRatios] and
    [passByStats] on the same ratios, percentile and thresholds (the
    page sorts first and counts the ratios below the threshold in the
    sorted array, the batch tool counts them before sorting). *)
Theorem page_statistics_match_batch (ratios : list R) (wo : Web.Opts) (maskCount : Z) :
  Web.count (fst (Web.summarize wo ratios maskCount)) =
    Batch.count (Batch.statsForRatios ratios (Web.p wo) (Web.threshold wo)) /\
  Web.pX (fst (Web.summarize wo ratios maskCount)) =
    Batch.pX (Batch.statsForRatios ratios (Web.p wo) (Web.threshold wo)) /\
  Web.median (fst (Web.summarize wo ratios maskCount)) =
    Batch.median (Batch.statsForRatios ratios (Web.p wo) (Web.threshold wo)) /\
  Web.min_ (fst (Web.summarize wo ratios maskCount)) =
    Batch.min_ (Batch.statsForRatios ratios (Web.p wo) (Web.threshold wo)) /\
  Web.pctBelow (fst (Web.summarize wo ratios maskCount)) =
    Batch.pctBelow (Batch.statsForRatios ratios (Web.p wo) (Web.threshold wo)) /\
  snd (Web.summarize wo ratios maskCount) =
    Batch.passByStats (Batch.statsForRatios ratios (Web.p wo) (Web.threshold wo))
      (Web.threshold wo) (Web.maxPctBelow wo).
Proof.
  destruct (summarize_as_stats ratios wo maskCount) as (H1 & H2 & H3 & H4 & H5 & _ & H7).
  split; [exact H1|]. split; [exact H2|]. split; [exact H3|].
  split; [exact H4|]. split; [exact H5 | exact H7].
Qed.

Section OrderedStats.
Local Open Scope R_scope.

Lemma stats_fields (ratios : list R) (p below : R) :
  ratios <> [] ->
  exists lo : R,
    Batch.statsForRatios ratios p below =
      Batch.mkStats (len ratios) (Num lo) (percentile (sort_asc ratios) p)
        (percentile (sort_asc ratios) 0.5) (pctBelowOf ratios below) /\
    lo ∈ ratios /\ Forall (fun v => lo <= v) ratios.
Proof.
  intros Hne. unfold Batch.statsForRatios.
  destruct (Z.eqb_spec (len ratios) 0) as [E|_]; [by apply len_zero in E|].
  pose proof (sort_asc_perm ratios) as Hperm.
  pose proof (sort_asc_sorted ratios) as Hs.
  destruct (sort_asc ratios) as [|lo s'] eqn:Es.
  { apply Permutation_nil_l in Hperm. done. }
  exists lo. split; [reflexivity|]. split; [rewrite <- Hperm; by left|].
  rewrite <- Hperm. by apply (sorted_head_min (lo :: s') lo Hs).
Qed.

Lemma pctBelowOf_range (ratios : list R) (below : R) :
  ratios <> [] -> 0 <= pctBelowOf ratios below <= 100.
Proof.
  intros Hne. unfold pctBelowOf.
  pose proof (len_pos ratios Hne) as Hn.
  assert (Hk : (0 <= len (filter (fun x => Rltb x below = true) ratios) <= len ratios)%Z).
  { unfold len. pose proof (length_filter (fun x => Rltb x below = true) ratios). lia. }
  destruct Hk as [Hk1 Hk2]. apply IZR_le in Hk1, Hk2, Hn.
  set (k := IZR (len (filter _ ratios))) in *. set (n := IZR (len ratios)) in *.
  split.
  - apply Rdiv_le_lower; lra.
  - apply Rdiv_le_upper; lra.
Qed.

Lemma filter_all_length {A} (P : A -> Prop) `{!forall x, Decision (P x)} (l : list A) :
  length (filter P l) = length l <-> Forall P l.
Proof.
  induction l as [|a l IH]; [by split; [constructor|]|].
  pose proof (length_filter P l) as Hle.
  destruct (decide (P a)) as [Ha|Ha].
  - rewrite filter_cons_True by done. cbn [length]. rewrite Forall_cons.
    split; [intros [= E]; split; [done | by apply IH] | intros [_ E]; f_equal; by apply IH].
  - rewrite filter_cons_False by done. cbn [length]. rewrite Forall_cons.
    split; [lia | tauto].
Qed.

Lemma filter_nil_none {A} (P : A -> Prop) `{!forall x, Decision (P x)} (l : list A) :
  filter P l = [] <-> Forall (fun x => ~ P x) l.
Proof.
  induction l as [|a l IH]; [by split; [constructor|]|].
  destruct (decide (P a)) as [Ha|Ha].
  - rewrite filter_cons_True by done. rewrite Forall_cons. split; [done | tauto].
  - rewrite filter_cons_False by done. rewrite Forall_cons. rewrite IH. tauto.
Qed.

Lemma pctBelowOf_extremes (ratios : list R) (below : R) :
  ratios <> [] ->
  (pctBelowOf ratios below = 0 <-> Forall (fun v => below <= v) ratios) /\
  (pctBelowOf ratios below = 100 <-> Forall (fun v => v < below) ratios).
Proof.
  intros Hne. unfold pctBelowOf.
  pose proof (len_pos ratios Hne) as Hn. apply IZR_le in Hn.
  set (f := filter (fun x => Rltb x below = true) ratios).
  assert (Hn0 : IZR (len ratios) <> 0) by lra.
  split.
  - transitivity (f = []).
    + split.
      * intros H. apply len_zero. apply eq_IZR.
        apply (Rmult_eq_compat_r (IZR (len ratios))) in H.
        unfold Rdiv in H. rewrite Rmult_assoc, Rinv_l in H by done. lra.
      * intros ->. change (len (@nil R)) with 0%Z. unfold Rdiv. lra.
    + unfold f. rewrite filter_nil_none. apply Forall_iff. intros v.
      rewrite Rltb_true. lra.
  - transitivity (length f = length ratios).
    + split.
      * intros H. apply (Rmult_eq_compat_r (IZR (len ratios))) in H.
        unfold Rdiv in H. rewrite Rmult_assoc, Rinv_l in H by done.
        assert (E : IZR (len f) = IZR (len ratios)) by lra.
        apply eq_IZR in E. unfold len in E. lia.
      * intros E. unfold len. rewrite E. field. exact Hn0.
    + unfold f. rewrite filter_all_length. apply Forall_iff. intros v.
      apply Rltb_true.
Qed.

End OrderedStats.

Section StatsTheorems.
Local Open Scope R_scope.

(** X12: for a non-empty list of ratios [statsForRatios] returns
    the number of ratios as [count] and the least ratio, one of the
    list, as [min]; [pX] and [median] are not [null]; [pctBelow] lies in
    [0, 100], is 0 exactly when no ratio is below the bound and 100
    exactly when every ratio is. *)
Theorem statistics_min_and_pctBelow (ratios : list R) (p below : R) :
  ratios <> [] ->
  exists lo : R,
    Batch.count (Batch.statsForRatios ratios p below) = len ratios /\
    Batch.min_ (Batch.statsForRatios ratios p below) = Num lo /\
    lo ∈ ratios /\ Forall (fun v => lo <= v) ratios /\
    Batch.pX (Batch.statsForRatios ratios p below) <> Null /\
    Batch.median (Batch.statsForRatios ratios p below) <> Null /\
    0 <= Batch.pctBelow (Batch.statsForRatios ratios p below) <= 100 /\
    (Batch.pctBelow (Batch.statsForRatios ratios p below) = 0 <->
     Forall (fun v => below <= v) ratios) /\
    (Batch.pctBelow (Batch.statsForRatios ratios p below) = 100 <->
     Forall (fun v => v < below) ratios).
Proof.
  intros Hne.
  destruct (stats_fields ratios p below Hne) as (lo & E & Hlo & Hall).
  assert (Hs : sort_asc ratios <> []).
  { intros E0. pose proof (sort_asc_perm ratios) as Hp. rewrite E0 in Hp.
    by apply Permutation_nil_l in Hp. }
  exists lo. rewrite E.
  cbn [Batch.count Batch.min_ Batch.pX Batch.median Batch.pctBelow].
  split; [done|]. split; [done|]. split; [done|]. split; [done|].
  split; [intros H; by apply percentile_not_null in H|].
  split; [intros H; by apply percentile_not_null in H|].
  split; [by apply pctBelowOf_range|]. by apply pctBelowOf_extremes.
Qed.

(** X13: when every ratio is below the threshold the verdict is
    fail for every [maxPctBelow] under 100; when no ratio is below the
    threshold and [maxPctBelow] is not negative, the verdict is decided
    by the percentile alone: it is pass exactly when [pX] is at least
    the threshold. *)
Theorem verdict_at_the_extremes (ratios : list R) (p threshold maxPctBelow : R) :
  ratios <> [] ->
  (Forall (fun v => v < threshold) ratios -> maxPctBelow < 100 ->
   Batch.passByStats (Batch.statsForRatios ratios p threshold) threshold maxPctBelow = false) /\
  (Forall (fun v => threshold <= v) ratios -> 0 <= maxPctBelow ->
   Batch.passByStats (Batch.statsForRatios ratios p threshold) threshold maxPctBelow =
     jge (Batch.pX (Batch.statsForRatios ratios p threshold)) threshold).
Proof.
  intros Hne.
  destruct (stats_fields ratios p threshold Hne) as (lo & E & _ & _).
  destruct (pctBelowOf_extremes ratios threshold Hne) as [H0 H100].
  rewrite E. unfold Batch.passByStats. cbn [Batch.count Batch.pX Batch.pctBelow].
  pose proof (len_pos ratios Hne) as Hn.
  destruct (Z.eqb_spec (len ratios) 0) as [E0|_]; [lia|].
  split.
  - intros Hall Hmax. apply andb_false_iff. right. apply Rleb_false.
    rewrite (proj2 H100 Hall). exact Hmax.
  - intros Hall Hmax. rewrite (proj2 H0 Hall).
    rewrite (proj2 (Rleb_true 0 maxPctBelow) Hmax). apply andb_true_r.
Qed.

End StatsTheorems.


Lemma list_bool_ext (m1 m2 : list bool) (n : Z) :
  Z.of_nat (length m1) = n -> Z.of_nat (length m2) = n ->
  (forall i, 0 <= i < n -> zget m1 i = zget m2 i) -> m1 = m2.
Proof.
  intros L1 L2 H. apply list_eq. intros k.
  destruct (decide (Z.of_nat k < n)) as [Hk|Hk].
  - specialize (H (Z.of_nat k) ltac:(lia)). by rewrite !zget_of_nat in H.
  - rewrite !lookup_ge_None_2 by lia. done.
Qed.

(** X14: run with the batch tool's options in Band mode, on an
    image none of whose pixels is below [minAlpha], the page computes
    what the batch tool computes for the same background colour whenever
    the border-seeded fill marks a pixel: the same number of sampled
    pixels, the same statistics and the same verdict. *)
Theorem page_band_mode_matches_batch (img : ImageData) (bo : Batch.Opts)
    (b : Batch.BackgroundSpec) (minAlpha : Z) (strokeLumaMax : R) :
  0 < width img -> 0 < height img ->
  (forall i, 0 <= i < width img * height img -> minAlpha <= alphaAt img i) ->
  exists resB resW,
    Batch.analyzeOne img bo = Returned resB /\
    Web.analyze img (pageOpts bo b minAlpha Web.Band strokeLumaMax) = Some resW /\
    ((exists i, zget (Batch.res_bg resB) i = Some true) ->
     let r := Batch.collectRatios img bo (Batch.res_band resB) (Batch.bg_rgb b) in
     Web.bandCount (Web.stats resW) = Batch.bandPixels resB /\
     Web.count (Web.stats resW) = Batch.count (Batch.stats r) /\
     Web.min_ (Web.stats resW) = Batch.min_ (Batch.stats r) /\
     Web.pX (Web.stats resW) = Batch.pX (Batch.stats r) /\
     Web.median (Web.stats resW) = Batch.median (Batch.stats r) /\
     Web.pctBelow (Web.stats resW) = Batch.pctBelow (Batch.stats r) /\
     Web.pass resW = Batch.pass r).
Proof.
  intros Hw Hh Halpha.
  set (wo := pageOpts bo b minAlpha Web.Band strokeLumaMax).
  destruct (batch_stages_exist img bo Hw Hh) as (resB & B).
  destruct (web_stages_exist img wo Hw Hh)
    as (bg0 & bg & n & band & k & mask & m & W).
  destruct (analyze_fields img wo mask m (ws_mask _ _ _ _ _ _ _ _ _ W))
    as (resW & Ea & Est & Eps & _).
  exists resB, resW. split; [apply B|]. split; [done|].
  intros [i0 Hi0]. cbv zeta.
  pose proof (ws_fill _ _ _ _ _ _ _ _ _ W) as Fw.
  pose proof (bs_fill _ _ _ B) as Fb.
  destruct (fills_agree img (Batch.bg_rgb (Batch.segBg bo)) (Batch.alphaBg bo)
              (Batch.nearBgDist bo) Hw Hh) as (f & F1 & F2).
  change (Web.segBg wo) with (Batch.bg_rgb (Batch.segBg bo)) in Fw.
  change (Web.alphaBg wo) with (Batch.alphaBg bo) in Fw.
  change (Web.nearBgDist wo) with (Batch.nearBgDist bo) in Fw.
  assert (E0 : bg0 = Batch.res_bg resB) by congruence.
  assert (Hne : popcount bg0 <> 0).
  { intros Hz. apply (proj1 (popcount_zero bg0) Hz i0). by rewrite E0. }
  pose proof (ws_tier1 _ _ _ _ _ _ _ _ _ W Hne) as Ebg.
  assert (Hn : n <> 0) by (rewrite (ws_bg_count _ _ _ _ _ _ _ _ _ W); congruence).
  assert (Eband : band = Batch.res_band resB).
  { apply (mask_ext (width img) (height img)); [done | done | apply W | apply B |].
    intros x y Hin.
    rewrite (ws_band_spec _ _ _ _ _ _ _ _ _ W x y Hin), (bs_band_spec _ _ _ B x y Hin).
    destruct (Z.eqb_spec n 0) as [|_]; [done|]. by rewrite Ebg, E0. }
  assert (Emask : mask = band).
  { apply (list_bool_ext _ _ (width img * height img)); [apply W | apply W |].
    intros i Hi. rewrite (ws_mask_spec _ _ _ _ _ _ _ _ _ W i Hi).
    change (Web.sampleMode wo) with Web.Band. cbv iota.
    pose proof (ws_band_len _ _ _ _ _ _ _ _ _ W) as Lb.
    destruct (zget_in_range band i ltac:(lia)) as [[] E]; by rewrite E. }
  assert (Eratios : fst (Web.ratiosOf img wo mask) =
                    Batch.ratios (Batch.collected img (Batch.res_band resB) (Batch.bg_rgb b))).
  { destruct (ratiosOf_spec img wo Hw Hh mask) as (R1 & _).
    destruct (collected_spec img (Batch.res_band resB) (Batch.bg_rgb b) Hw Hh) as [Hr _].
    rewrite R1, Hr. change (Web.opt_bg wo) with (Batch.bg_rgb b). f_equal.
    apply filter_ext_in. intros i Hi. apply elem_of_seqZ in Hi.
    unfold scored, inMask. rewrite Emask, Eband.
    change (Web.minAlpha wo) with minAlpha.
    destruct (Z.ltb_spec (alphaAt img i) minAlpha) as [Hlt|_].
    - specialize (Halpha i ltac:(lia)). lia.
    - by rewrite andb_true_r. }
  destruct (summarize_as_stats (fst (Web.ratiosOf img wo mask)) wo m)
    as (S1 & S2 & S3 & S4 & S5 & S6 & S7).
  cbv zeta in S1, S2, S3, S4, S5, S6, S7.
  rewrite <- Est in S1, S2, S3, S4, S5, S6. rewrite <- Eps in S7.
  rewrite Eratios in S1, S2, S3, S4, S5, S7.
  change (Web.p wo) with (Batch.p bo) in *.
  change (Web.threshold wo) with (Batch.threshold bo) in *.
  change (Web.maxPctBelow wo) with (Batch.maxPctBelow bo) in *.
  unfold Batch.collectRatios. cbv zeta. cbn [Batch.stats Batch.pass].
  split.
  { rewrite S6, (ws_mask_count _ _ _ _ _ _ _ _ _ W), (bs_band_count _ _ _ B).
    by rewrite Emask, Eband. }
  split; [exact S1|]. split; [exact S4|]. split; [exact S2|].
  split; [exact S3|]. split; [exact S5 | exact S7].
Qed.


Lemma white3_well_formed : well_formed white3.
Proof. unfold well_formed. vm_compute. repeat split. Qed.

Lemma inside_3_cases (x y : Z) :
  inside 3 3 x y ->
  (x = 0 \/ x = 1 \/ x = 2) /\ (y = 0 \/ y = 1 \/ y = 2).
Proof. unfold inside. lia. Qed.

Lemma white3_all_near (x y : Z) :
  inside (width white3) (height white3) x y ->
  near_background white3 white 10 160 x y.
Proof.
  intros Hin. apply near_background_iff; [exact white3_well_formed | exact Hin |].
  apply inside_3_cases in Hin as [[->|[->| ->]] [->|[->| ->]]]; vm_compute; reflexivity.
Qed.

(** X1 at [dot3]. *)
Lemma batch_pixel_counts_witness :
  0 < width dot3 /\ 0 < height dot3 /\
  exists res,
    Batch.analyzeOne dot3 batch_defaults = Returned res /\
    Batch.size res = (width dot3, height dot3) /\
    Batch.fgPixels res = width dot3 * height dot3 - popcount (Batch.res_bg res) /\
    Batch.bandPixels res = popcount (Batch.res_band res) /\
    0 <= Batch.bandPixels res <= Batch.fgPixels res /\
    Batch.fgPixels res <= width dot3 * height dot3.
Proof.
  split; [reflexivity|]. split; [reflexivity|].
  apply (batch_pixel_counts dot3 batch_defaults); reflexivity.
Defined.

Lemma default_labels (b b' : Batch.BackgroundSpec) :
  b ∈ Batch.backgrounds batch_defaults -> b' ∈ Batch.backgrounds batch_defaults ->
  Batch.label b = Batch.label b' -> Batch.bg_rgb b = Batch.bg_rgb b'.
Proof.
  cbn [Batch.backgrounds batch_defaults]. rewrite !elem_of_cons, !elem_of_nil.
  intros [->|[->|[]]] [->|[->|[]]]; cbn [Batch.label Batch.bg_rgb]; done.
Qed.

(** X2 at [dot3] and the default backgrounds. *)
Lemma batch_overall_verdict_witness :
  0 < width dot3 /\ 0 < height dot3 /\
  (forall b b', b ∈ Batch.backgrounds batch_defaults ->
     b' ∈ Batch.backgrounds batch_defaults ->
     Batch.label b = Batch.label b' -> Batch.bg_rgb b = Batch.bg_rgb b') /\
  exists res,
    Batch.analyzeOne dot3 batch_defaults = Returned res /\
    let verdict b :=
      Batch.pass (Batch.collectRatios dot3 batch_defaults (Batch.res_band res)
                    (Batch.bg_rgb b)) in
    (forall b, b ∈ Batch.backgrounds batch_defaults ->
       Batch.res_backgrounds res !! Batch.label b =
         Some (Batch.collectRatios dot3 batch_defaults (Batch.res_band res)
                 (Batch.bg_rgb b)) /\
       Batch.byBackground res !! Batch.label b = Some (verdict b)) /\
    (forall k, (forall b, b ∈ Batch.backgrounds batch_defaults -> Batch.label b <> k) ->
       Batch.res_backgrounds res !! k = None /\ Batch.byBackground res !! k = None) /\
    (Batch.overall res = true <->
       if Batch.requireBoth batch_defaults
       then forall b, b ∈ Batch.backgrounds batch_defaults -> verdict b = true
       else exists b, b ∈ Batch.backgrounds batch_defaults /\ verdict b = true).
Proof.
  split; [reflexivity|]. split; [reflexivity|]. split; [exact default_labels|].
  exact (batch_overall_verdict dot3 batch_defaults eq_refl eq_refl default_labels).
Defined.

(** X3 at [dot3] and the mask holding its centre pixel. *)
Lemma batch_worst_is_min_witness :
  0 < width dot3 /\ 0 < height dot3 /\
  let r := Batch.collectRatios dot3 batch_defaults
             [false; false; false; false; true; false; false; false; false] white in
  Batch.res_worst r = Batch.min_ (Batch.stats r) /\
  (Batch.count (Batch.stats r) = 0 ->
     Batch.res_worst r = Null /\ Batch.res_worstPixel r = None) /\
  (Batch.count (Batch.stats r) <> 0 ->
     exists wp,
       Batch.res_worstPixel r = Some wp /\
       inside (width dot3) (height dot3) (Batch.wx wp) (Batch.wy wp) /\
       zget [false; false; false; false; true; false; false; false; false]
         (Batch.wy wp * width dot3 + Batch.wx wp) = Some true /\
       pixelAt dot3 (Batch.wy wp * width dot3 + Batch.wx wp) =
         (Batch.wr wp, Batch.wg wp, Batch.wb wp, Batch.wa wp) /\
       Batch.res_worst r =
         Num (contrastRatioPixelVsBg (Batch.wr wp) (Batch.wg wp) (Batch.wb wp)
                (Batch.wa wp) white)).
Proof.
  split; [reflexivity|]. split; [reflexivity|].
  exact (batch_worst_is_min dot3 batch_defaults
           [false; false; false; false; true; false; false; false; false] white
           eq_refl eq_refl).
Defined.

(** X4 at the white 3 x 3 image. *)
Lemma blank_image_fails_batch_witness :
  well_formed white3 /\
  (forall x y, inside (width white3) (height white3) x y ->
     near_background white3 white 10 160 x y) /\
  exists res,
    Batch.analyzeOne white3 batch_defaults = Returned res /\
    Batch.fgPixels res = 0 /\ Batch.bandPixels res = 0 /\
    (forall k r, Batch.res_backgrounds res !! k = Some r ->
       Batch.count (Batch.stats r) = 0 /\ Batch.pass r = false) /\
    (Batch.backgrounds batch_defaults <> [] -> Batch.overall res = false).
Proof.
  split; [exact white3_well_formed|]. split; [exact white3_all_near|].
  exact (blank_image_fails_batch white3 batch_defaults white3_well_formed white3_all_near).
Defined.

(** X5 at the white 3 x 3 image, the page in All mode. *)
Lemma blank_image_fails_page_witness :
  well_formed white3 /\
  (forall x y, inside (width white3) (height white3) x y ->
     near_background white3 white 10 160 x y) /\
  exists res,
    Web.analyze white3 (web_defaults Web.All) = Some res /\
    Web.count (Web.stats res) = 0 /\ Web.bandCount (Web.stats res) = 0 /\
    Web.pass res = false /\ (forall i, zget (Web.mask res) i <> Some true).
Proof.
  split; [exact white3_well_formed|]. split; [exact white3_all_near|].
  exact (blank_image_fails_page white3 (web_defaults Web.All) white3_well_formed
           white3_all_near).
Defined.

(** X6 at [dot3] with [bandRadius = 0]. *)
Lemma nonpositive_radius_fails_batch_witness :
  0 < width dot3 /\ 0 < height dot3 /\
  Batch.bandRadius (Batch.mkOpts 160 0 3%R 2%R 0.05%R false
                      [Batch.mkBg "white" white] (Batch.mkBg "white" white) 10) <= 0 /\
  exists res,
    Batch.analyzeOne dot3 (Batch.mkOpts 160 0 3%R 2%R 0.05%R false
                      [Batch.mkBg "white" white] (Batch.mkBg "white" white) 10)
      = Returned res /\
    Batch.bandPixels res = 0 /\
    (forall k r, Batch.res_backgrounds res !! k = Some r ->
       Batch.count (Batch.stats r) = 0 /\ Batch.pass r = false) /\
    ([Batch.mkBg "white" white] <> [] -> Batch.overall res = false).
Proof.
  split; [reflexivity|]. split; [reflexivity|].
  split; [cbn [Batch.bandRadius]; lia|].
  apply (nonpositive_radius_fails_batch dot3); [reflexivity | reflexivity |].
  cbn [Batch.bandRadius]. lia.
Defined.

(** X7 at [dot3] with [bandRadius = 0], Band mode. *)
Lemma nonpositive_radius_page_witness :
  0 < width dot3 /\ 0 < height dot3 /\
  Web.bandRadius (Web.mkOpts white white 3%R 2%R 0.05%R 160 0 10 200 Web.Band 0.2%R) <= 0 /\
  Web.sampleMode (Web.mkOpts white white 3%R 2%R 0.05%R 160 0 10 200 Web.Band 0.2%R)
    <> Web.All /\
  exists bg n res,
    Web.segmentation dot3 (Web.mkOpts white white 3%R 2%R 0.05%R 160 0 10 200 Web.Band 0.2%R)
      = Some (bg, n) /\
    Web.analyze dot3 (Web.mkOpts white white 3%R 2%R 0.05%R 160 0 10 200 Web.Band 0.2%R)
      = Some res /\
    (n <> 0 ->
     Web.count (Web.stats res) = 0 /\ Web.bandCount (Web.stats res) = 0 /\
     Web.pass res = false /\ (forall i, zget (Web.mask res) i <> Some true)).
Proof.
  split; [reflexivity|]. split; [reflexivity|].
  split; [cbn [Web.bandRadius]; lia|]. split; [discriminate|].
  apply (nonpositive_radius_page dot3); [reflexivity | reflexivity | | discriminate].
  cbn [Web.bandRadius]. lia.
Defined.

(** X8 at [dot3]. *)
Lemma edge_band_neighbourhood_witness :
  0 < width dot3 /\ 0 < height dot3 /\
  (exists res,
     Batch.analyzeOne dot3 batch_defaults = Returned res /\
     forall x y, inside (width dot3) (height dot3) x y ->
       (zget (Batch.res_band res) (y * width dot3 + x) = Some true <->
        zget (Batch.res_bg res) (y * width dot3 + x) <> Some true /\
        exists x' y', inside (width dot3) (height dot3) x' y' /\
          Z.abs (x' - x) <= Batch.bandRadius batch_defaults /\
          Z.abs (y' - y) <= Batch.bandRadius batch_defaults /\
          zget (Batch.res_bg res) (y' * width dot3 + x') = Some true)) /\
  (exists bg n band k,
     Web.segmentation dot3 (web_defaults Web.Band) = Some (bg, n) /\
     Web.bandStage dot3 (web_defaults Web.Band) = Some (band, k) /\
     (n <> 0 ->
      forall x y, inside (width dot3) (height dot3) x y ->
        (zget band (y * width dot3 + x) = Some true <->
         zget bg (y * width dot3 + x) <> Some true /\
         exists x' y', inside (width dot3) (height dot3) x' y' /\
           Z.abs (x' - x) <= Web.bandRadius (web_defaults Web.Band) /\
           Z.abs (y' - y) <= Web.bandRadius (web_defaults Web.Band) /\
           zget bg (y' * width dot3 + x') = Some true))).
Proof.
  split; [reflexivity|]. split; [reflexivity|].
  exact (edge_band_neighbourhood dot3 batch_defaults (web_defaults Web.Band)
           eq_refl eq_refl).
Defined.

(** X9 at [dot3], radius 1 against the default 2. *)
Lemma edge_band_grows_with_radius_witness :
  0 < width dot3 /\ 0 < height dot3 /\
  exists res res',
    Batch.analyzeOne dot3
      (Batch.mkOpts 160 1 3%R 2%R 0.05%R false
         [Batch.mkBg "white" white; Batch.mkBg "black" black] (Batch.mkBg "white" white) 10)
      = Returned res /\
    Batch.analyzeOne dot3 batch_defaults = Returned res' /\
    Batch.res_bg res = Batch.res_bg res' /\
    Batch.fgPixels res = Batch.fgPixels res' /\
    (forall i, zget (Batch.res_band res) i = Some true ->
       zget (Batch.res_band res') i = Some true) /\
    Batch.bandPixels res <= Batch.bandPixels res'.
Proof.
  split; [reflexivity|]. split; [reflexivity|].
  apply (edge_band_grows_with_radius dot3 _ batch_defaults);
    [reflexivity | reflexivity | reflexivity | reflexivity | reflexivity |].
  cbn [Batch.bandRadius batch_defaults]. lia.
Defined.

(** X10 at [dot3], the page in All mode. *)
Lemma page_flagged_pixels_witness :
  0 < width dot3 /\ 0 < height dot3 /\
  exists mask m res,
    Web.sampleMask dot3 (web_defaults Web.All) = Some (mask, m) /\
    Web.analyze dot3 (web_defaults Web.All) = Some res /\
    (forall i, zget (Web.mask res) i = Some true <->
       zget mask i = Some true /\ Web.minAlpha (web_defaults Web.All) <= alphaAt dot3 i /\
       (ratioAt dot3 (Web.opt_bg (web_defaults Web.All)) i
        < Web.threshold (web_defaults Web.All))%R) /\
    popcount (Web.mask res) <= Web.count (Web.stats res) /\
    Web.count (Web.stats res) <= Web.bandCount (Web.stats res) /\
    Web.bandCount (Web.stats res) <= width dot3 * height dot3 /\
    Web.pctBelow (Web.stats res) =
      (if Web.count (Web.stats res) =? 0 then 0
       else 100 * IZR (popcount (Web.mask res)) / IZR (Web.count (Web.stats res)))%R.
Proof.
  split; [reflexivity|]. split; [reflexivity|].
  exact (page_flagged_pixels dot3 (web_defaults Web.All) eq_refl eq_refl).
Defined.

Section StatsWitnesses.
Local Open Scope R_scope.

(** X12 at the ratios 4, 1, 2 and the bound 3. *)
Lemma statistics_min_and_pctBelow_witness :
  [4; 1; 2] <> [] /\
  exists lo : R,
    Batch.count (Batch.statsForRatios [4; 1; 2] 0.05 3) = len [4; 1; 2] /\
    Batch.min_ (Batch.statsForRatios [4; 1; 2] 0.05 3) = Num lo /\
    lo ∈ [4; 1; 2] /\ Forall (fun v => lo <= v) [4; 1; 2] /\
    Batch.pX (Batch.statsForRatios [4; 1; 2] 0.05 3) <> Null /\
    Batch.median (Batch.statsForRatios [4; 1; 2] 0.05 3) <> Null /\
    0 <= Batch.pctBelow (Batch.statsForRatios [4; 1; 2] 0.05 3) <= 100 /\
    (Batch.pctBelow (Batch.statsForRatios [4; 1; 2] 0.05 3) = 0 <->
     Forall (fun v => 3 <= v) [4; 1; 2]) /\
    (Batch.pctBelow (Batch.statsForRatios [4; 1; 2] 0.05 3) = 100 <->
     Forall (fun v => v < 3) [4; 1; 2]).
Proof.
  split; [discriminate|].
  apply (statistics_min_and_pctBelow [4; 1; 2] 0.05 3); discriminate.
Defined.

(** X13 at the ratios 1, 2 under the threshold 3, and at the ratios
    4, 5 above it. *)
Lemma verdict_at_the_extremes_witness :
  [1; 2] <> [] /\ Forall (fun v => v < 3) [1; 2] /\ 2 < 100 /\
  Batch.passByStats (Batch.statsForRatios [1; 2] 0.05 3) 3 2 = false.
Proof.
  assert (Hne : [1; 2] <> []) by discriminate.
  assert (Hall : Forall (fun v => v < 3) [1; 2]) by (repeat constructor; lra).
  assert (Hmax : 2 < 100) by lra.
  split; [exact Hne|]. split; [exact Hall|]. split; [exact Hmax|].
  exact (proj1 (verdict_at_the_extremes [1; 2] 0.05 3 2 Hne) Hall Hmax).
Defined.

End StatsWitnesses.

Lemma dot3_alpha_at_least_100 (i : Z) :
  0 <= i < width dot3 * height dot3 -> 100 <= alphaAt dot3 i.
Proof.
  change (width dot3 * height dot3) with 9. intros Hi.
  assert (H : i = 0 \/ i = 1 \/ i = 2 \/ i = 3 \/ i = 4 \/ i = 5 \/ i = 6 \/ i = 7 \/ i = 8)
    by lia.
  destruct H as [->|[->|[->|[->|[->|[->|[->|[->| ->]]]]]]]]; vm_compute; discriminate.
Qed.

(** X14 at [dot3], white background, [minAlpha = 100]. *)
Lemma page_band_mode_matches_batch_witness :
  0 < width dot3 /\ 0 < height dot3 /\
  (forall i, 0 <= i < width dot3 * height dot3 -> 100 <= alphaAt dot3 i) /\
  exists resB resW,
    Batch.analyzeOne dot3 batch_defaults = Returned resB /\
    Web.analyze dot3 (pageOpts batch_defaults (Batch.mkBg "white" white) 100 Web.Band 0.2%R)
      = Some resW /\
    ((exists i, zget (Batch.res_bg resB) i = Some true) ->
     let r := Batch.collectRatios dot3 batch_defaults (Batch.res_band resB)
                (Batch.bg_rgb (Batch.mkBg "white" white)) in
     Web.bandCount (Web.stats resW) = Batch.bandPixels resB /\
     Web.count (Web.stats resW) = Batch.count (Batch.stats r) /\
     Web.min_ (Web.stats resW) = Batch.min_ (Batch.stats r) /\
     Web.pX (Web.stats resW) = Batch.pX (Batch.stats r) /\
     Web.median (Web.stats resW) = Batch.median (Batch.stats r) /\
     Web.pctBelow (Web.stats resW) = Batch.pctBelow (Batch.stats r) /\
     Web.pass resW = Batch.pass r).
Proof.
  split; [reflexivity|]. split; [reflexivity|]. split; [exact dot3_alpha_at_least_100|].
  exact (page_band_mode_matches_batch dot3 batch_defaults (Batch.mkBg "white" white) 100
           0.2%R eq_refl eq_refl dot3_alpha_at_least_100).
Defined.

(** ** Arguments of the command line *)


Lemma eqb_name_false (a name : string) : a <> name -> String.eqb a name = false.
Proof. intros H. by apply String.eqb_neq. Qed.

Lemma indexOfFrom_absent (argv : list string) (name : string) (i : Z) :
  name ∉ argv -> Cli.indexOfFrom argv name i = -1.
Proof.
  revert i. induction argv as [|a argv IH]; intros i Hn; [done|].
  cbn [Cli.indexOfFrom]. rewrite eqb_name_false.
  - apply IH. intros H. apply Hn. by right.
  - intros ->. apply Hn. by left.
Qed.

Lemma indexOfFrom_first (pre rest : list string) (name : string) (i : Z) :
  name ∉ pre -> Cli.indexOfFrom (pre ++ name :: rest) name i = i + len pre.
Proof.
  revert i. induction pre as [|a pre IH]; intros i Hn.
  - cbn [app Cli.indexOfFrom]. rewrite String.eqb_refl. unfold len. simpl. lia.
  - cbn [app Cli.indexOfFrom]. rewrite eqb_name_false.
    + rewrite IH by (intros H; apply Hn; by right). unfold len. cbn [length]. lia.
    + intros ->. apply Hn. by left.
Qed.

Lemma zget_app_at {A} (pre : list A) (x : A) (rest : list A) :
  zget (pre ++ x :: rest) (len pre) = Some x.
Proof. unfold len. rewrite zget_of_nat. by apply list_lookup_middle. Qed.

Lemma zget_app_after {A} (pre : list A) (x y : A) (rest : list A) :
  zget (pre ++ x :: y :: rest) (len pre + 1) = Some y.
Proof.
  replace (pre ++ x :: y :: rest) with ((pre ++ [x]) ++ y :: rest)
    by (by rewrite <- app_assoc).
  replace (len pre + 1) with (len (pre ++ [x]))
    by (unfold len; rewrite length_app; simpl; lia).
  apply zget_app_at.
Qed.

Lemma getArg_cases (pre rest : list string) (name v : string) (def : option string) :
  name ∉ pre ->
  Cli.getArg (pre ++ name :: v :: rest) name def = Some v /\
  Cli.getArg (pre ++ [name]) name def = def /\
  Cli.getArg pre name def = def.
Proof.
  intros Hn. unfold Cli.getArg, Cli.indexOf. split; [|split].
  - rewrite indexOfFrom_first, Z.add_0_l by done.
    destruct (Z.eqb_spec (len pre) (-1)) as [E|_]; [unfold len in E; lia|].
    destruct (Z.ltb_spec (len pre + 1) (len (pre ++ name :: v :: rest))) as [_|H].
    + cbn [negb andb]. apply zget_app_after.
    + unfold len in H. rewrite length_app in H. cbn [length] in H. lia.
  - rewrite indexOfFrom_first, Z.add_0_l by done.
    destruct (Z.ltb_spec (len pre + 1) (len (pre ++ [name]))) as [H|_].
    + unfold len in H. rewrite length_app in H. cbn [length] in H. lia.
    + by rewrite andb_false_r.
  - by rewrite indexOfFrom_absent.
Qed.

(** X15: [getArg] reads the argument that follows the first
    occurrence of the flag, whatever that argument is; it gives the
    default when the flag does not occur or when its first occurrence is
    the last argument. *)
Theorem getArg_reads_first_occurrence (pre rest : list string) (name v : string)
    (def : option string) :
  name ∉ pre ->
  Cli.getArg (pre ++ name :: v :: rest) name def = Some v /\
  Cli.getArg (pre ++ [name]) name def = def /\
  Cli.getArg pre name def = def.
Proof.
  intros Hn. destruct (getArg_cases pre rest name v def Hn) as (H1 & H2 & H3).
  split; [exact H1|]. split; [exact H2 | exact H3].
Qed.

(** X15 at a command line with the flag given twice. *)
Lemma getArg_reads_first_occurrence_witness :
  ("--bg" ∉ ["node"; "tool.js"; "art"]) /\
  Cli.getArg (["node"; "tool.js"; "art"] ++ "--bg" :: "white" :: ["--bg"; "black"])
    "--bg" None = Some "white" /\
  Cli.getArg (["node"; "tool.js"; "art"] ++ ["--bg"]) "--bg" None = None /\
  Cli.getArg ["node"; "tool.js"; "art"] "--bg" None = None.
Proof.
  assert (H : "--bg" ∉ ["node"; "tool.js"; "art"]).
  { rewrite !not_elem_of_cons. repeat split; try discriminate. apply not_elem_of_nil. }
  split; [exact H|].
  exact (getArg_reads_first_occurrence ["node"; "tool.js"; "art"] ["--bg"; "black"]
           "--bg" "white" None H).
Defined.

Lemma getArgsLoop_spec (name : string) (fuel : nat) :
  forall (argv : list string) (i : Z) (out : list string),
    0 <= i <= len argv -> len argv - i <= Z.of_nat fuel ->
    Cli.getArgsLoop fuel argv name i out =
      out ++ valuesAfter (drop (Z.to_nat i) argv) name.
Proof.
  induction fuel as [|fuel IH]; intros argv i out Hi Hf.
  - assert (i = len argv) by lia. subst i. cbn [Cli.getArgsLoop].
    unfold len. rewrite Nat2Z.id, drop_all. by rewrite app_nil_r.
  - cbn [Cli.getArgsLoop]. destruct (Z.ltb_spec i (len argv)) as [Hlt|Hge].
    2:{ assert (i = len argv) by lia. subst i.
        unfold len. rewrite Nat2Z.id, drop_all. by rewrite app_nil_r. }
    destruct (zget_in_range argv i ltac:(unfold len in *; lia)) as [a Ea].
    rewrite Ea.
    assert (Hd : drop (Z.to_nat i) argv = a :: drop (Z.to_nat (i + 1)) argv).
    { unfold zget in Ea. destruct (Z.ltb_spec i 0); [lia|].
      replace (Z.to_nat (i + 1)) with (S (Z.to_nat i)) by lia.
      by apply drop_S. }
    rewrite Hd. destruct (Z.ltb_spec (i + 1) (len argv)) as [Hlt2|Hge2].
    + destruct (zget_in_range argv (i + 1) ltac:(unfold len in *; lia)) as [v Ev].
      rewrite Ev.
      assert (Hd2 : drop (Z.to_nat (i + 1)) argv = v :: drop (Z.to_nat (i + 1 + 1)) argv).
      { unfold zget in Ev. destruct (Z.ltb_spec (i + 1) 0); [lia|].
        replace (Z.to_nat (i + 1 + 1)) with (S (Z.to_nat (i + 1))) by lia.
        by apply drop_S. }
      rewrite Hd2. cbn [valuesAfter]. rewrite andb_true_r.
      destruct (String.eqb a name).
      * rewrite IH by lia. by rewrite <- app_assoc.
      * rewrite IH by lia. by rewrite Hd2.
    + assert (Ev : zget argv (i + 1) = None).
      { unfold zget. destruct (Z.ltb_spec (i + 1) 0); [done|].
        apply lookup_ge_None_2. unfold len in *. lia. }
      rewrite Ev. rewrite IH by lia.
      assert (Hd2 : drop (Z.to_nat (i + 1)) argv = []).
      { apply drop_ge. unfold len in *. lia. }
      rewrite Hd2. done.
Qed.

Lemma getArgs_valuesAfter (argv : list string) (name : string) :
  Cli.getArgs argv name = valuesAfter argv name.
Proof.
  unfold Cli.getArgs. rewrite getArgsLoop_spec; [done | unfold len; lia | unfold len; lia].
Qed.

Lemma valuesAfter_absent (argv : list string) (name : string) :
  name ∉ argv -> valuesAfter argv name = [].
Proof.
  induction argv as [|a argv IH]; intros Hn; [done|].
  cbn [valuesAfter]. destruct argv as [|v argv']; [done|].
  rewrite eqb_name_false by (intros ->; apply Hn; by left).
  apply IH. intros H. apply Hn. by right.
Qed.

Lemma valuesAfter_first (pre rest : list string) (name v : string) :
  name ∉ pre -> valuesAfter (pre ++ name :: v :: rest) name = v :: valuesAfter rest name.
Proof.
  induction pre as [|a pre IH]; intros Hn.
  - cbn [app valuesAfter]. by rewrite String.eqb_refl.
  - cbn [app valuesAfter].
    destruct (pre ++ name :: v :: rest) as [|x l] eqn:E; [by destruct pre|].
    rewrite eqb_name_false by (intros ->; apply Hn; by left).
    apply IH. intros H. apply Hn. by right.
Qed.

Lemma valuesAfter_last (pre : list string) (name : string) :
  name ∉ pre -> valuesAfter (pre ++ [name]) name = [].
Proof.
  induction pre as [|a pre IH]; intros Hn; [done|].
  cbn [app valuesAfter].
  destruct (pre ++ [name]) as [|x l] eqn:E; [done|].
  rewrite eqb_name_false by (intros ->; apply Hn; by left).
  apply IH. intros H. apply Hn. by right.
Qed.

Lemma elem_of_dec_split (argv : list string) (name : string) :
  (name ∉ argv) \/ exists pre rest, (name ∉ pre) /\ argv = pre ++ name :: rest.
Proof.
  induction argv as [|a argv IH]; [left; apply not_elem_of_nil|].
  destruct (decide (a = name)) as [->|Hne].
  - right. exists [], argv. split; [apply not_elem_of_nil | done].
  - destruct IH as [IH|(pre & rest & Hn & ->)].
    + left. rewrite not_elem_of_cons. split; [congruence | done].
    + right. exists (a :: pre), rest. split; [|done].
      rewrite not_elem_of_cons. split; [congruence | done].
Qed.

(** X16: [getArgs] returns, in order, the argument that follows each
    occurrence of the flag, an argument taken as a value not being read
    as the flag again; it returns nothing when the flag does not occur
    or occurs only as the last argument.  Its first element, when there
    is one, is what [getArg] returns. *)
Theorem getArgs_collects_values (argv pre rest : list string) (name v : string) :
  name ∉ pre ->
  Cli.getArgs (pre ++ name :: v :: rest) name = v :: Cli.getArgs rest name /\
  Cli.getArgs (pre ++ [name]) name = [] /\
  Cli.getArgs pre name = [] /\
  head (Cli.getArgs argv name) = Cli.getArg argv name None.
Proof.
  intros Hn. rewrite !getArgs_valuesAfter.
  split; [by apply valuesAfter_first|]. split; [by apply valuesAfter_last|].
  split; [by apply valuesAfter_absent|].
  destruct (elem_of_dec_split argv name) as [Ha|(p & r & Hp & ->)].
  - rewrite valuesAfter_absent by done.
    by rewrite (proj2 (proj2 (getArg_cases argv [] name name None Ha))).
  - destruct r as [|w r].
    + rewrite valuesAfter_last by done.
      by rewrite (proj1 (proj2 (getArg_cases p [] name name None Hp))).
    + rewrite valuesAfter_first by done.
      by rewrite (proj1 (getArg_cases p r name w None Hp)).
Qed.

(** X16 at a command line with the flag given twice. *)
Lemma getArgs_collects_values_witness :
  ("--bg" ∉ ["node"; "tool.js"; "art"]) /\
  Cli.getArgs (["node"; "tool.js"; "art"] ++ "--bg" :: "white" :: ["--bg"; "black"]) "--bg"
    = "white" :: Cli.getArgs ["--bg"; "black"] "--bg" /\
  Cli.getArgs (["node"; "tool.js"; "art"] ++ ["--bg"]) "--bg" = [] /\
  Cli.getArgs ["node"; "tool.js"; "art"] "--bg" = [] /\
  head (Cli.getArgs ["--bg"; "--bg"; "white"] "--bg")
    = Cli.getArg ["--bg"; "--bg"; "white"] "--bg" None.
Proof.
  assert (H : "--bg" ∉ ["node"; "tool.js"; "art"]).
  { rewrite !not_elem_of_cons. repeat split; try discriminate. apply not_elem_of_nil. }
  split; [exact H|].
  exact (getArgs_collects_values ["--bg"; "--bg"; "white"] ["node"; "tool.js"; "art"]
           ["--bg"; "black"] "--bg" "white" H).
Defined.

(** ** Characters and strings *)

Import Js.

Lemma code_range (c : ascii) : 0 <= code c < 256.
Proof.
  unfold code. pose proof (N_ascii_bounded c) as H. lia.
Qed.

Lemma charOf_code (c : ascii) : charOf (code c) = c.
Proof. unfold charOf, code. rewrite N2Z.id. apply ascii_N_embedding. Qed.

(** A decidable property of one character holds of all of them as soon
    as it holds of the 256 code units. *)
Lemma all_chars (P : ascii -> Prop) `{!forall c, Decision (P c)} :
  forallb (fun n => bool_decide (P (charOf n))) (seqZ 0 256) = true ->
  forall c, P c.
Proof.
  intros Hall c. rewrite forallb_forall in Hall.
  specialize (Hall (code c)). rewrite charOf_code in Hall.
  apply (bool_decide_unpack (P c)), Is_true_true, Hall.
  apply list_elem_of_In, elem_of_seqZ. pose proof (code_range c). lia.
Qed.

Lemma lowerChar_facts (c : ascii) :
  lowerChar (lowerChar c) = lowerChar c /\
  isWhiteSpace (lowerChar c) = isWhiteSpace c /\
  digitValue (lowerChar c) = digitValue c /\
  isHexDigit (lowerChar c) = isHexDigit c /\
  isDigit (lowerChar c) = isDigit c /\
  (code (lowerChar c) =? 35) = (code c =? 35).
Proof. revert c. refine (all_chars _ _). vm_compute. reflexivity. Qed.

Lemma hexDigit_facts (c : ascii) :
  isHexDigit c = true ->
  isWhiteSpace c = false /\ (code c =? 45) = false /\ (code c =? 43) = false /\
  (code c =? 120) = false /\ (code c =? 88) = false /\ (code c =? 35) = false /\
  exists v, radixDigit 16 c = Some v /\ 0 <= v <= 15.
Proof.
  revert c.
  assert (H : forall c, isHexDigit c = true ->
    isWhiteSpace c = false /\ (code c =? 45) = false /\ (code c =? 43) = false /\
    (code c =? 120) = false /\ (code c =? 88) = false /\ (code c =? 35) = false /\
    match radixDigit 16 c with
    | Some v => (0 <=? v) && (v <=? 15)
    | None => false
    end = true).
  { refine (all_chars _ _). vm_compute. reflexivity. }
  intros c Hc. destruct (H c Hc) as (H1 & H2 & H3 & H4 & H5 & H6 & H7).
  repeat (split; [done|]). destruct (radixDigit 16 c) as [v|]; [|done].
  exists v. split; [done|]. lia.
Qed.

Lemma digit_facts (c : ascii) :
  isDigit c = true ->
  isWhiteSpace c = false /\ (code c =? 45) = false /\ (code c =? 43) = false /\
  (code c =? 44) = false /\ (code c =? 35) = false /\ lowerChar c = c /\
  Ascii.eqb "r" c = false /\ Ascii.eqb "w" c = false /\ Ascii.eqb "b" c = false /\
  radixDigit 10 c = Some (code c - 48) /\ 0 <= code c - 48 <= 9.
Proof. revert c. refine (all_chars _ _). vm_compute. reflexivity. Qed.

Lemma append_String (c : ascii) (s t : string) : String c s +:+ t = String c (s +:+ t).
Proof. reflexivity. Qed.

Lemma append_empty_l (t : string) : EmptyString +:+ t = t.
Proof. reflexivity. Qed.

Lemma append_empty_r (s : string) : s +:+ EmptyString = s.
Proof. induction s as [|c s IH]; [done|]. by rewrite append_String, IH. Qed.

Lemma append_assoc (s t u : string) : (s +:+ t) +:+ u = s +:+ (t +:+ u).
Proof. induction s as [|c s IH]; [done|]. by rewrite !append_String, IH. Qed.

Lemma every_app (P : ascii -> bool) (s t : string) :
  every P (s +:+ t) = every P s && every P t.
Proof.
  induction s as [|c s IH]; [done|].
  rewrite append_String. cbn [every]. by rewrite IH, andb_assoc.
Qed.

Lemma every_impl (P Q : ascii -> bool) (s : string) :
  (forall c, P c = true -> Q c = true) -> every P s = true -> every Q s = true.
Proof.
  intros H. induction s as [|c s IH]; [done|]. cbn [every].
  rewrite !andb_true_iff. intros [H1 H2]. split; [by apply H | by apply IH].
Qed.

Lemma toLowerCase_app (s t : string) :
  toLowerCase (s +:+ t) = toLowerCase s +:+ toLowerCase t.
Proof.
  induction s as [|c s IH]; [done|].
  rewrite append_String. cbn [toLowerCase]. by rewrite IH.
Qed.

Lemma toLowerCase_idem (s : string) : toLowerCase (toLowerCase s) = toLowerCase s.
Proof.
  induction s as [|c s IH]; [done|]. cbn [toLowerCase].
  by rewrite IH, (proj1 (lowerChar_facts c)).
Qed.

Lemma toLowerCase_fixed (s : string) :
  every (fun c => Ascii.eqb (lowerChar c) c) s = true -> toLowerCase s = s.
Proof.
  induction s as [|c s IH]; [done|]. cbn [every toLowerCase].
  intros [H1 H2]%andb_true_iff. apply Ascii.eqb_eq in H1. by rewrite H1, IH.
Qed.

Lemma slen_toLowerCase (s : string) : slen (toLowerCase s) = slen s.
Proof.
  unfold slen. f_equal. induction s as [|c s IH]; [done|].
  cbn [toLowerCase String.length]. by rewrite IH.
Qed.

Lemma trimStart_lower (s : string) :
  trimStart (toLowerCase s) = toLowerCase (trimStart s).
Proof.
  induction s as [|c s IH]; [done|]. cbn [toLowerCase trimStart].
  destruct (lowerChar_facts c) as (_ & -> & _).
  destruct (isWhiteSpace c); [exact IH | reflexivity].
Qed.

Lemma toLowerCase_empty (s : string) : toLowerCase s = EmptyString <-> s = EmptyString.
Proof. destruct s; cbn [toLowerCase]; split; congruence. Qed.

Lemma trimEnd_lower (s : string) :
  trimEnd (toLowerCase s) = toLowerCase (trimEnd s).
Proof.
  induction s as [|c s IH]; [done|]. cbn [toLowerCase trimEnd]. rewrite IH.
  destruct (lowerChar_facts c) as (_ & -> & _).
  destruct (trimEnd s) as [|d t]; cbn [toLowerCase]; [|done].
  by destruct (isWhiteSpace c).
Qed.

Lemma trim_lower (s : string) : trim (toLowerCase s) = toLowerCase (trim s).
Proof. unfold trim. by rewrite trimStart_lower, trimEnd_lower. Qed.

Lemma trimStart_head (s : string) :
  match trimStart s with
  | EmptyString => True
  | String c _ => isWhiteSpace c = false
  end.
Proof.
  induction s as [|c s IH]; [done|]. cbn [trimStart].
  destruct (isWhiteSpace c) eqn:E; [exact IH | exact E].
Qed.

Lemma trimEnd_head (c : ascii) (s : string) :
  isWhiteSpace c = false -> exists t, trimEnd (String c s) = String c t.
Proof.
  intros Hc. cbn [trimEnd]. rewrite Hc.
  destruct (trimEnd s) as [|d t]; eauto.
Qed.

Lemma trimEnd_idem (s : string) : trimEnd (trimEnd s) = trimEnd s.
Proof.
  induction s as [|c s IH]; [done|]. cbn [trimEnd].
  destruct (trimEnd s) as [|d t] eqn:E.
  - destruct (isWhiteSpace c) eqn:Ec; [done|]. cbn [trimEnd]. by rewrite Ec.
  - cbn [trimEnd] in IH |- *. rewrite IH. done.
Qed.

Lemma trim_idem (s : string) : trim (trim s) = trim s.
Proof.
  unfold trim. pose proof (trimStart_head s) as H.
  destruct (trimStart s) as [|c t] eqn:E; [done|].
  destruct (trimEnd_head c t H) as [u Eu]. rewrite Eu.
  cbn [trimStart]. rewrite H, <- Eu. apply trimEnd_idem.
Qed.

Lemma normalise_idem (s : string) :
  toLowerCase (trim (toLowerCase (trim s))) = toLowerCase (trim s).
Proof. by rewrite trim_lower, trim_idem, toLowerCase_idem. Qed.

Lemma trimStart_no_ws (s : string) :
  every (fun c => negb (isWhiteSpace c)) s = true -> trimStart s = s.
Proof.
  destruct s as [|c s]; [done|]. cbn [every trimStart].
  intros [H _]%andb_true_iff. apply negb_true_iff in H. by rewrite H.
Qed.

Lemma trimEnd_no_ws (s : string) :
  every (fun c => negb (isWhiteSpace c)) s = true -> trimEnd s = s.
Proof.
  induction s as [|c s IH]; [done|]. cbn [every trimEnd].
  intros [H1 H2]%andb_true_iff. rewrite (IH H2). apply negb_true_iff in H1.
  rewrite H1. by destruct s.
Qed.

Lemma trim_no_ws (s : string) :
  every (fun c => negb (isWhiteSpace c)) s = true -> trim s = s.
Proof. intros H. unfold trim. by rewrite trimStart_no_ws, trimEnd_no_ws. Qed.

(** ** Numbers in strings *)

Lemma parseInt_decimal (a : ascii) (s : string) :
  isDigit a = true ->
  parseInt (String a s) 10 = readDigits 10 (String a s) None.
Proof.
  intros Ha. destruct (digit_facts a Ha) as (Hws & Hm & Hp & _).
  unfold parseInt. cbn [trimStart]. rewrite Hws, Hm, Hp.
  change (negb (10 =? 0) && ((10 <? 2) || (36 <? 10))) with false.
  change ((10 =? 0) || (10 =? 16)) with false. cbn [andb].
  change (if 10 =? 0 then 10 else 10) with 10.
  assert (E : (let '(radix, s0) :=
                 match String a s with
                 | String c0 (String c1 s') => if false then (16, s') else (10, String a s)
                 | _ => (10, String a s)
                 end in
               match readDigits radix s0 None with
               | Some n => Some (1 * n)
               | None => None
               end) = readDigits 10 (String a s) None).
  { destruct s as [|b s'];
      (destruct (readDigits 10 _ None) as [n|]; [f_equal; lia | done]). }
  exact E.
Qed.

Lemma parseInt_hex (a b : ascii) (s : string) :
  isHexDigit a = true -> isHexDigit b = true ->
  parseInt (String a (String b s)) 16 = readDigits 16 (String a (String b s)) None.
Proof.
  intros Ha Hb. destruct (hexDigit_facts a Ha) as (Hws & Hm & Hp & _).
  destruct (hexDigit_facts b Hb) as (_ & _ & _ & Hx & HX & _).
  unfold parseInt. cbn [trimStart]. rewrite Hws, Hm, Hp.
  change (negb (16 =? 0) && ((16 <? 2) || (36 <? 16))) with false.
  change ((16 =? 0) || (16 =? 16)) with true.
  change (if 16 =? 0 then 10 else 16) with 16.
  cbv iota beta. rewrite Hx, HX. cbn [orb andb]. rewrite andb_false_r.
  destruct (readDigits 16 _ None) as [n|]; [f_equal; lia | done].
Qed.

Lemma isNum13_cases (m : string) :
  Cli.isNum13 m = true ->
  exists a, isDigit a = true /\
    (m = String a EmptyString \/
     exists b, isDigit b = true /\
       (m = String a (String b EmptyString) \/
        exists c, isDigit c = true /\ m = String a (String b (String c EmptyString)))).
Proof.
  unfold Cli.isNum13, slen.
  destruct m as [|a [|b [|c [|d m]]]]; cbn [String.length every];
    rewrite ?andb_true_iff, ?Z.leb_le; intros H.
  - lia.
  - exists a. split; [tauto|]. by left.
  - exists a. split; [tauto|]. right. exists b. split; [tauto|]. by left.
  - exists a. split; [tauto|]. right. exists b. split; [tauto|]. right.
    exists c. split; [tauto | done].
  - lia.
Qed.

Lemma isNum13_every (m : string) : Cli.isNum13 m = true -> every isDigit m = true.
Proof. unfold Cli.isNum13. rewrite !andb_true_iff. tauto. Qed.

Lemma isNum13_head (m : string) :
  Cli.isNum13 m = true -> exists a s, m = String a s /\ isDigit a = true.
Proof.
  intros H. destruct (isNum13_cases m H) as (a & Ha & [->|(b & Hb & [->|(c & Hc & ->)])]);
    eauto.
Qed.

(** The number a run of one to three digits stands for. *)
Lemma parseInt_isNum13 (m : string) :
  Cli.isNum13 m = true ->
  exists v, parseInt m 10 = Some v /\ 0 <= v <= 999.
Proof.
  intros H. destruct (isNum13_cases m H) as (a & Ha & Hm).
  destruct (digit_facts a Ha) as (_ & _ & _ & _ & _ & _ & _ & _ & _ & Ra & Va).
  destruct Hm as [->|(b & Hb & Hm)].
  { rewrite parseInt_decimal by done. cbn [readDigits]. rewrite Ra.
    eexists. split; [reflexivity|]. cbv [from_option Datatypes.id]. lia. }
  destruct (digit_facts b Hb) as (_ & _ & _ & _ & _ & _ & _ & _ & _ & Rb & Vb).
  destruct Hm as [->|(c & Hc & ->)].
  { rewrite parseInt_decimal by done. cbn [readDigits]. rewrite Ra, Rb.
    eexists. split; [reflexivity|]. cbv [from_option Datatypes.id]. lia. }
  destruct (digit_facts c Hc) as (_ & _ & _ & _ & _ & _ & _ & _ & _ & Rc & Vc).
  rewrite parseInt_decimal by done. cbn [readDigits]. rewrite Ra, Rb, Rc.
  eexists. split; [reflexivity|]. cbv [from_option Datatypes.id]. lia.
Qed.

Lemma mathMin_byte (m : string) :
  Cli.isNum13 m = true ->
  exists r, mathMin 255 (parseInt m 10) = Some r /\ is_byte r.
Proof.
  intros H. destruct (parseInt_isNum13 m H) as (v & -> & Hv).
  exists (Z.min 255 v). split; [done|]. unfold is_byte. lia.
Qed.

(** Bytes printed in decimal and read back. *)
Lemma decimal_byte (r : Z) :
  is_byte r ->
  Cli.isNum13 (integerToString r) = true /\
  parseInt (integerToString r) 10 = Some r.
Proof.
  intros Hr.
  assert (H : forallb (fun r => Cli.isNum13 (integerToString r) &&
                         bool_decide (parseInt (integerToString r) 10 = Some r))
                (seqZ 0 256) = true) by (vm_compute; reflexivity).
  rewrite forallb_forall in H. specialize (H r).
  rewrite andb_true_iff, bool_decide_eq_true in H. apply H.
  apply list_elem_of_In, elem_of_seqZ. unfold is_byte in Hr. lia.
Qed.

(** ** The patterns of [parseColor] *)

Lemma whiteSpace_facts (c : ascii) :
  isWhiteSpace c = true ->
  isDigit c = false /\ lowerChar c = c /\ (code c =? 44) = false /\ (code c =? 41) = false.
Proof. revert c. refine (all_chars _ _). vm_compute. reflexivity. Qed.

Lemma takeDigits_spec (n : nat) (s : string) :
  every isDigit (fst (Cli.takeDigits n s)) = true /\
  (String.length (fst (Cli.takeDigits n s)) <= n)%nat /\
  s = fst (Cli.takeDigits n s) +:+ snd (Cli.takeDigits n s).
Proof.
  revert s. induction n as [|n IH]; intros s.
  - cbn [Cli.takeDigits fst snd every String.length]. repeat split. lia.
  - destruct s as [|c s]; cbn [Cli.takeDigits].
    + cbn [fst snd every String.length]. split; [done|]. split; [lia | done].
    + destruct (isDigit c) eqn:Ec.
      * destruct (IH s) as (H1 & H2 & H3).
        destruct (Cli.takeDigits n s) as [d rest]. cbn [fst snd] in *.
        cbn [every String.length]. rewrite Ec, H1. split; [done|]. split; [lia|].
        rewrite append_String. by f_equal.
      * cbn [fst snd every String.length]. split; [done|]. split; [lia | done].
Qed.

Lemma digits13_spec (s d rest : string) :
  Cli.digits13 s = Some (d, rest) -> Cli.isNum13 d = true /\ s = d +:+ rest.
Proof.
  unfold Cli.digits13. destruct (takeDigits_spec 3 s) as (H1 & H2 & H3).
  destruct (Cli.takeDigits 3 s) as [d' rest']. cbn [fst snd] in *.
  destruct d' as [|c d'']; [done|]. intros [= <- <-]. split; [|done].
  unfold Cli.isNum13, slen. rewrite H1. cbn [String.length] in *.
  rewrite !andb_true_iff, !Z.leb_le. lia.
Qed.


Lemma takeDigits_exact (n : nat) (m rest : string) :
  every isDigit m = true -> (String.length m <= n)%nat -> noDigitAhead rest ->
  Cli.takeDigits n (m +:+ rest) = (m, rest).
Proof.
  revert m. induction n as [|n IH]; intros m Hm Hl Hr.
  - destruct m; [|cbn [String.length] in Hl; lia]. by destruct rest.
  - destruct m as [|c m].
    + rewrite append_empty_l. destruct rest as [|c rest]; [done|].
      cbn [Cli.takeDigits]. cbn [noDigitAhead] in Hr. by rewrite Hr.
    + rewrite append_String. cbn [Cli.takeDigits]. cbn [every] in Hm.
      apply andb_true_iff in Hm as [Hc Hm]. rewrite Hc.
      rewrite IH; [done | done | cbn [String.length] in Hl; lia | done].
Qed.

Lemma digits13_exact (m rest : string) :
  Cli.isNum13 m = true -> noDigitAhead rest ->
  Cli.digits13 (m +:+ rest) = Some (m, rest).
Proof.
  intros Hm Hr. unfold Cli.digits13. rewrite takeDigits_exact; [| |  |done].
  - destruct (isNum13_head m Hm) as (a & s & -> & _). done.
  - by apply isNum13_every.
  - unfold Cli.isNum13, slen in Hm. rewrite !andb_true_iff, !Z.leb_le in Hm. lia.
Qed.

Lemma trimStart_ws_app (w x : string) :
  every isWhiteSpace w = true ->
  match x with EmptyString => True | String c _ => isWhiteSpace c = false end ->
  trimStart (w +:+ x) = x.
Proof.
  intros Hw Hx. induction w as [|c w IH].
  - rewrite append_empty_l. destruct x as [|c x]; [done|]. cbn [trimStart]. by rewrite Hx.
  - cbn [every] in Hw. apply andb_true_iff in Hw as [Hc Hw].
    rewrite append_String. cbn [trimStart]. rewrite Hc. by apply IH.
Qed.

Lemma noDigitAhead_ws_app (w : string) (c : ascii) (x : string) :
  every isWhiteSpace w = true -> isDigit c = false ->
  noDigitAhead (w +:+ String c x).
Proof.
  intros Hw Hc. destruct w as [|d w]; [exact Hc|].
  cbn [every] in Hw. apply andb_true_iff in Hw as [Hd _].
  rewrite append_String. cbn [noDigitAhead]. by destruct (whiteSpace_facts d Hd) as [-> _].
Qed.

(** The pattern of the [rgb(...)] notation matches three runs of digits
    separated by commas, with any white space around them. *)
Lemma matchRgb_shape (m1 m2 m3 w1 w2 w3 w4 w5 w6 : string) :
  Cli.isNum13 m1 = true -> Cli.isNum13 m2 = true -> Cli.isNum13 m3 = true ->
  every isWhiteSpace w1 = true -> every isWhiteSpace w2 = true ->
  every isWhiteSpace w3 = true -> every isWhiteSpace w4 = true ->
  every isWhiteSpace w5 = true -> every isWhiteSpace w6 = true ->
  Cli.matchRgb ("rgb(" +:+ w1 +:+ m1 +:+ w2 +:+ "," +:+ w3 +:+ m2 +:+ w4 +:+ ","
                +:+ w5 +:+ m3 +:+ w6 +:+ ")") = Some (m1, m2, m3).
Proof.
  intros H1 H2 H3 W1 W2 W3 W4 W5 W6. unfold Cli.matchRgb.
  assert (Hnum : forall m x, Cli.isNum13 m = true ->
            match m +:+ x with EmptyString => True | String c _ => isWhiteSpace c = false end).
  { intros m x Hm. destruct (isNum13_head m Hm) as (a & s & -> & Ha).
    rewrite append_String. by destruct (digit_facts a Ha) as [-> _]. }
  change ("rgb(" +:+ ?x) with (String "r" (String "g" (String "b" (String "(" x)))).
  cbn [Cli.expect Ascii.eqb Bool.eqb]. cbn [mbind option_bind].
  rewrite (trimStart_ws_app w1) by (done || apply Hnum; done).
  rewrite (digits13_exact m1) by (done || apply noDigitAhead_ws_app; done).
  cbn [mbind option_bind].
  rewrite (trimStart_ws_app w2) by done.
  change ("," +:+ ?x) with (String "," x).
  cbn [Cli.expect Ascii.eqb Bool.eqb]. cbn [mbind option_bind].
  rewrite (trimStart_ws_app w3) by (done || apply Hnum; done).
  rewrite (digits13_exact m2) by (done || apply noDigitAhead_ws_app; done).
  cbn [mbind option_bind].
  rewrite (trimStart_ws_app w4) by done.
  change ("," +:+ ?x) with (String "," x).
  cbn [Cli.expect Ascii.eqb Bool.eqb]. cbn [mbind option_bind].
  rewrite (trimStart_ws_app w5) by (done || apply Hnum; done).
  rewrite (digits13_exact m3) by (done || apply noDigitAhead_ws_app; done).
  cbn [mbind option_bind].
  rewrite (trimStart_ws_app w6) by done.
  reflexivity.
Qed.

Lemma splitComma_nonempty (s : string) : Cli.splitComma s <> [].
Proof.
  induction s as [|c s IH]; [done|]. cbn [Cli.splitComma].
  destruct (code c =? 44); [done|]. by destruct (Cli.splitComma s).
Qed.

Lemma splitComma_plain (m : string) :
  every (fun c => negb (code c =? 44)) m = true -> Cli.splitComma m = [m].
Proof.
  induction m as [|c m IH]; [done|]. cbn [every Cli.splitComma].
  intros [Hc Hm]%andb_true_iff. apply negb_true_iff in Hc. by rewrite Hc, (IH Hm).
Qed.

Lemma splitComma_app (m rest : string) :
  every (fun c => negb (code c =? 44)) m = true ->
  Cli.splitComma (m +:+ "," +:+ rest) = m :: Cli.splitComma rest.
Proof.
  change ("," +:+ rest) with (String "," rest).
  induction m as [|c m IH]; [done|]. cbn [every].
  intros [Hc Hm]%andb_true_iff. apply negb_true_iff in Hc.
  rewrite append_String. cbn [Cli.splitComma]. by rewrite Hc, (IH Hm).
Qed.

Lemma digits_no_comma (m : string) :
  every isDigit m = true -> every (fun c => negb (code c =? 44)) m = true.
Proof.
  apply every_impl. intros c Hc.
  destruct (digit_facts c Hc) as (_ & _ & _ & -> & _). done.
Qed.

Lemma digits_no_ws (m : string) :
  every isDigit m = true -> every (fun c => negb (isWhiteSpace c)) m = true.
Proof.
  apply every_impl. intros c Hc. by destruct (digit_facts c Hc) as (-> & _).
Qed.

Lemma digits_lower (m : string) :
  every isDigit m = true -> every (fun c => Ascii.eqb (lowerChar c) c) m = true.
Proof.
  apply every_impl. intros c Hc.
  destruct (digit_facts c Hc) as (_ & _ & _ & _ & _ & -> & _). apply Ascii.eqb_refl.
Qed.

Lemma ws_lower (w : string) :
  every isWhiteSpace w = true -> every (fun c => Ascii.eqb (lowerChar c) c) w = true.
Proof.
  apply every_impl. intros c Hc.
  destruct (whiteSpace_facts c Hc) as (_ & -> & _). apply Ascii.eqb_refl.
Qed.

(** [parseColor] reads its argument through [trim] and [toLowerCase]
    only, the message of the error apart. *)
Lemma parseColor_normalised (a b : string) (c : Cli.Color) :
  toLowerCase (trim a) = toLowerCase (trim b) ->
  Cli.parseColor a = Value c -> Cli.parseColor b = Value c.
Proof.
  intros E. unfold Cli.parseColor. rewrite E. cbv zeta.
  destruct (String.eqb _ "white"); [done|].
  destruct (String.eqb _ "black"); [done|].
  destruct (Cli.isHexColor _); [done|].
  destruct (Cli.matchRgb _) as [[[m1 m2] m3]|]; [done|].
  destruct (map trim _) as [|p0 [|p1 [|p2 [|p3 l]]]]; try done.
  by destruct (Cli.isNum13 p0 && Cli.isNum13 p1 && Cli.isNum13 p2).
Qed.

Lemma append_nonempty_r (x y : string) : y <> EmptyString -> x +:+ y <> EmptyString.
Proof. intros Hy. destruct x; [done|]. by rewrite append_String. Qed.

Ltac nonempty := first [discriminate | apply append_nonempty_r; nonempty].

Lemma trimEnd_app_keep (x y : string) :
  trimEnd y = y -> y <> EmptyString -> trimEnd (x +:+ y) = x +:+ y.
Proof.
  intros Hy Hne. induction x as [|c x IH]; [done|].
  rewrite append_String. cbn [trimEnd]. rewrite IH.
  pose proof (append_nonempty_r x y Hne). by destruct (x +:+ y).
Qed.

Lemma digit_not_letter (c : ascii) :
  isDigit c = true -> Ascii.eqb c "w" = false /\ Ascii.eqb c "b" = false.
Proof. revert c. refine (all_chars _ _). vm_compute. reflexivity. Qed.

(** The [rgb(...)] notation. *)
Lemma parseColor_rgb (m1 m2 m3 w1 w2 w3 w4 w5 w6 : string) :
  Cli.isNum13 m1 = true -> Cli.isNum13 m2 = true -> Cli.isNum13 m3 = true ->
  every isWhiteSpace w1 = true -> every isWhiteSpace w2 = true ->
  every isWhiteSpace w3 = true -> every isWhiteSpace w4 = true ->
  every isWhiteSpace w5 = true -> every isWhiteSpace w6 = true ->
  let r := mathMin 255 (parseInt m1 10) in
  let g := mathMin 255 (parseInt m2 10) in
  let b := mathMin 255 (parseInt m3 10) in
  Cli.parseColor ("rgb(" +:+ w1 +:+ m1 +:+ w2 +:+ "," +:+ w3 +:+ m2 +:+ w4 +:+ ","
                  +:+ w5 +:+ m3 +:+ w6 +:+ ")") =
    Value (Cli.mkColor ("rgb(" +:+ numberToString r +:+ "," +:+ numberToString g +:+ ","
                        +:+ numberToString b +:+ ")") (r, g, b)).
Proof.
  intros H1 H2 H3 W1 W2 W3 W4 W5 W6. cbv zeta.
  pose proof (matchRgb_shape m1 m2 m3 w1 w2 w3 w4 w5 w6 H1 H2 H3 W1 W2 W3 W4 W5 W6) as Hm.
  set (s := "rgb(" +:+ w1 +:+ m1 +:+ w2 +:+ "," +:+ w3 +:+ m2 +:+ w4 +:+ ","
            +:+ w5 +:+ m3 +:+ w6 +:+ ")") in *.
  assert (Hs : toLowerCase (trim s) = s).
  { assert (Htrim : trim s = s).
    { unfold trim. change (trimStart s) with s. unfold s.
      do 12 (apply trimEnd_app_keep; [|nonempty]).
      reflexivity. }
    rewrite Htrim. unfold s. rewrite !toLowerCase_app.
    rewrite !(toLowerCase_fixed w1), !(toLowerCase_fixed w2), !(toLowerCase_fixed w3),
      !(toLowerCase_fixed w4), !(toLowerCase_fixed w5), !(toLowerCase_fixed w6),
      !(toLowerCase_fixed m1), !(toLowerCase_fixed m2), !(toLowerCase_fixed m3)
      by (first [apply ws_lower; done | apply digits_lower, isNum13_every; done]).
    reflexivity. }
  unfold Cli.parseColor. rewrite Hs. cbv zeta.
  change (String.eqb s "white") with false.
  change (String.eqb s "black") with false.
  change (Cli.isHexColor s) with false. cbv iota.
  rewrite Hm. reflexivity.
Qed.

(** The notation of three numbers separated by commas. *)
Lemma parseColor_commas (m1 m2 m3 : string) :
  Cli.isNum13 m1 = true -> Cli.isNum13 m2 = true -> Cli.isNum13 m3 = true ->
  let r := mathMin 255 (parseInt m1 10) in
  let g := mathMin 255 (parseInt m2 10) in
  let b := mathMin 255 (parseInt m3 10) in
  Cli.parseColor (m1 +:+ "," +:+ m2 +:+ "," +:+ m3) =
    Value (Cli.mkColor (numberToString r +:+ "," +:+ numberToString g +:+ ","
                        +:+ numberToString b) (r, g, b)).
Proof.
  intros H1 H2 H3. cbv zeta.
  pose proof (isNum13_every _ H1) as E1. pose proof (isNum13_every _ H2) as E2.
  pose proof (isNum13_every _ H3) as E3.
  set (s := m1 +:+ "," +:+ m2 +:+ "," +:+ m3).
  assert (Hs : toLowerCase (trim s) = s).
  { rewrite trim_no_ws.
    - unfold s. rewrite !toLowerCase_app.
      rewrite !(toLowerCase_fixed m1), !(toLowerCase_fixed m2), !(toLowerCase_fixed m3)
        by (by apply digits_lower).
      reflexivity.
    - unfold s. rewrite !every_app.
      rewrite (digits_no_ws m1), (digits_no_ws m2), (digits_no_ws m3) by done.
      reflexivity. }
  unfold Cli.parseColor. rewrite Hs. cbv zeta.
  destruct (isNum13_head m1 H1) as (a & x & Em & Ha).
  destruct (digit_facts a Ha) as (_ & _ & _ & _ & Hhash & _ & Hr & _).
  destruct (digit_not_letter a Ha) as [Hw Hb].
  assert (Es : s = String a (x +:+ "," +:+ m2 +:+ "," +:+ m3)).
  { unfold s. rewrite Em. by rewrite append_String. }
  assert (Hwhite : String.eqb s "white" = false).
  { rewrite Es. cbn [String.eqb]. by rewrite Hw. }
  assert (Hblack : String.eqb s "black" = false).
  { rewrite Es. cbn [String.eqb]. by rewrite Hb. }
  assert (Hhex : Cli.isHexColor s = false).
  { rewrite Es. cbn [Cli.isHexColor]. by rewrite Hhash. }
  assert (Hrgb : Cli.matchRgb s = None).
  { rewrite Es. unfold Cli.matchRgb. cbn [Cli.expect]. by rewrite Hr. }
  rewrite Hwhite, Hblack, Hhex, Hrgb.
  assert (Hsplit : Cli.splitComma s = [m1; m2; m3]).
  { unfold s.
    rewrite (splitComma_app m1), (splitComma_app m2), (splitComma_plain m3)
      by (by apply digits_no_comma).
    done. }
  rewrite Hsplit. cbn [map].
  rewrite !trim_no_ws by (by apply digits_no_ws).
  rewrite H1, H2, H3. reflexivity.
Qed.

(** ** Hexadecimal colours *)

Lemma radixDigit_lower (c : ascii) : radixDigit 16 (lowerChar c) = radixDigit 16 c.
Proof. unfold radixDigit. by destruct (lowerChar_facts c) as (_ & _ & -> & _). Qed.

Lemma hexPair (a b : ascii) :
  isHexDigit a = true -> isHexDigit b = true ->
  exists va vb,
    radixDigit 16 a = Some va /\ radixDigit 16 b = Some vb /\
    0 <= va <= 15 /\ 0 <= vb <= 15 /\
    parseInt (String a (String b EmptyString)) 16 = Some (va * 16 + vb) /\
    parseInt (String (lowerChar a) (String (lowerChar b) EmptyString)) 16
      = Some (va * 16 + vb).
Proof.
  intros Ha Hb.
  destruct (hexDigit_facts a Ha) as (_ & _ & _ & _ & _ & _ & va & Ra & Va).
  destruct (hexDigit_facts b Hb) as (_ & _ & _ & _ & _ & _ & vb & Rb & Vb).
  exists va, vb. repeat (split; [done|]). split.
  - rewrite parseInt_hex by done. cbn [readDigits]. rewrite Ra, Rb.
    cbv [from_option Datatypes.id]. f_equal; lia.
  - rewrite parseInt_hex
      by (by destruct (lowerChar_facts a) as (_ & _ & _ & -> & _)
          || by destruct (lowerChar_facts b) as (_ & _ & _ & -> & _)).
    cbn [readDigits]. rewrite !radixDigit_lower, Ra, Rb.
    cbv [from_option Datatypes.id]. f_equal; lia.
Qed.

Lemma hash_char (c : ascii) : (code c =? 35) = true -> c = "#"%char.
Proof. intros H%Z.eqb_eq. rewrite <- (charOf_code c), H. reflexivity. Qed.

Lemma hexDigit_lower_fixed_ws (c : ascii) :
  isHexDigit c = true ->
  isHexDigit (lowerChar c) = true /\ isWhiteSpace c = false.
Proof.
  intros Hc. destruct (lowerChar_facts c) as (_ & _ & _ & -> & _).
  by destruct (hexDigit_facts c Hc) as (-> & _).
Qed.

(** The two hexadecimal notations, in either letter case. *)
Lemma parseColor_hex3 (a b c : ascii) :
  isHexDigit a = true -> isHexDigit b = true -> isHexDigit c = true ->
  Cli.parseColor (String "#" (String a (String b (String c EmptyString)))) =
    Value (Cli.mkColor
             (String "#" (String (lowerChar a) (String (lowerChar b)
                (String (lowerChar c) EmptyString))))
             (parseInt (String a (String a EmptyString)) 16,
              parseInt (String b (String b EmptyString)) 16,
              parseInt (String c (String c EmptyString)) 16)).
Proof.
  intros Ha Hb Hc.
  destruct (hexDigit_lower_fixed_ws a Ha) as [La Wa].
  destruct (hexDigit_lower_fixed_ws b Hb) as [Lb Wb].
  destruct (hexDigit_lower_fixed_ws c Hc) as [Lc Wc].
  destruct (hexPair a a Ha Ha) as (va & ? & _ & _ & _ & _ & Ea & Ea').
  destruct (hexPair b b Hb Hb) as (vb & ? & _ & _ & _ & _ & Eb & Eb').
  destruct (hexPair c c Hc Hc) as (vc & ? & _ & _ & _ & _ & Ec & Ec').
  unfold Cli.parseColor. rewrite trim_no_ws.
  2:{ cbn [every]. rewrite Wa, Wb, Wc. reflexivity. }
  cbn [toLowerCase]. change (lowerChar "#") with "#"%char. cbv zeta.
  change (String.eqb (String "#" ?x) "white") with false.
  change (String.eqb (String "#" ?x) "black") with false.
  cbv iota. cbn [Cli.isHexColor every String.length]. rewrite La, Lb, Lc.
  change (code "#" =? 35) with true.
  change (slen (String (lowerChar a) (String (lowerChar b)
            (String (lowerChar c) EmptyString)))) with 3.
  cbn [Z.eqb Pos.eqb orb andb].
  change (sliceFrom (String "#" ?x) 1) with x.
  change (slen (String (lowerChar a) (String (lowerChar b)
            (String (lowerChar c) EmptyString)))) with 3.
  cbn [Z.eqb Pos.eqb].
  change (at_ (String (lowerChar a) ?x) 0) with (String (lowerChar a) EmptyString).
  change (at_ (String (lowerChar a) (String (lowerChar b) ?x)) 1)
    with (String (lowerChar b) EmptyString).
  change (at_ (String (lowerChar a) (String (lowerChar b) (String (lowerChar c) ?x))) 2)
    with (String (lowerChar c) EmptyString).
  rewrite !append_String, !append_empty_l.
  by rewrite Ea, Eb, Ec, Ea', Eb', Ec'.
Qed.

Lemma parseColor_hex6 (a b c d e f : ascii) :
  isHexDigit a = true -> isHexDigit b = true -> isHexDigit c = true ->
  isHexDigit d = true -> isHexDigit e = true -> isHexDigit f = true ->
  Cli.parseColor
    (String "#" (String a (String b (String c (String d (String e
       (String f EmptyString))))))) =
    Value (Cli.mkColor
             (String "#" (String (lowerChar a) (String (lowerChar b)
                (String (lowerChar c) (String (lowerChar d) (String (lowerChar e)
                   (String (lowerChar f) EmptyString)))))))
             (parseInt (String a (String b EmptyString)) 16,
              parseInt (String c (String d EmptyString)) 16,
              parseInt (String e (String f EmptyString)) 16)).
Proof.
  intros Ha Hb Hc Hd He Hf.
  destruct (hexDigit_lower_fixed_ws a Ha) as [La Wa].
  destruct (hexDigit_lower_fixed_ws b Hb) as [Lb Wb].
  destruct (hexDigit_lower_fixed_ws c Hc) as [Lc Wc].
  destruct (hexDigit_lower_fixed_ws d Hd) as [Ld Wd].
  destruct (hexDigit_lower_fixed_ws e He) as [Le We].
  destruct (hexDigit_lower_fixed_ws f Hf) as [Lf Wf].
  destruct (hexPair a b Ha Hb) as (? & ? & _ & _ & _ & _ & Ea & Ea').
  destruct (hexPair c d Hc Hd) as (? & ? & _ & _ & _ & _ & Eb & Eb').
  destruct (hexPair e f He Hf) as (? & ? & _ & _ & _ & _ & Ec & Ec').
  unfold Cli.parseColor. rewrite trim_no_ws.
  2:{ cbn [every]. rewrite Wa, Wb, Wc, Wd, We, Wf. reflexivity. }
  cbn [toLowerCase]. change (lowerChar "#") with "#"%char. cbv zeta.
  change (String.eqb (String "#" ?x) "white") with false.
  change (String.eqb (String "#" ?x) "black") with false.
  cbv iota. cbn [Cli.isHexColor every String.length]. rewrite La, Lb, Lc, Ld, Le, Lf.
  change (code "#" =? 35) with true.
  set (h := String (lowerChar a) (String (lowerChar b) (String (lowerChar c)
              (String (lowerChar d) (String (lowerChar e)
                 (String (lowerChar f) EmptyString)))))).
  change (slen h) with 6. cbn [Z.eqb Pos.eqb orb andb].
  change (sliceFrom (String "#" h) 1) with h.
  change (slen h) with 6. cbn [Z.eqb Pos.eqb].
  change (slice h 0 2) with (String (lowerChar a) (String (lowerChar b) EmptyString)).
  change (slice h 2 4) with (String (lowerChar c) (String (lowerChar d) EmptyString)).
  change (slice h 4 6) with (String (lowerChar e) (String (lowerChar f) EmptyString)).
  by rewrite Ea, Eb, Ec, Ea', Eb', Ec'.
Qed.

Lemma isHexColor_cases (s : string) :
  Cli.isHexColor s = true ->
  (exists a b c,
     isHexDigit a = true /\ isHexDigit b = true /\ isHexDigit c = true /\
     s = String "#" (String a (String b (String c EmptyString)))) \/
  (exists a b c d e f,
     isHexDigit a = true /\ isHexDigit b = true /\ isHexDigit c = true /\
     isHexDigit d = true /\ isHexDigit e = true /\ isHexDigit f = true /\
     s = String "#" (String a (String b (String c (String d (String e
           (String f EmptyString))))))).
Proof.
  destruct s as [|x h]; [done|]. cbn [Cli.isHexColor].
  rewrite !andb_true_iff, orb_true_iff, !Z.eqb_eq. intros [[Hx Hl] Hh].
  apply Z.eqb_eq, hash_char in Hx. subst x. unfold slen in Hl.
  destruct h as [|a [|b [|c [|d [|e [|f [|g h]]]]]]]; cbn [String.length] in Hl; try lia.
  - left. cbn [every] in Hh. rewrite !andb_true_iff in Hh. exists a, b, c. tauto.
  - right. cbn [every] in Hh. rewrite !andb_true_iff in Hh. exists a, b, c, d, e, f. tauto.
Qed.

Lemma matchRgb_groups (s m1 m2 m3 : string) :
  Cli.matchRgb s = Some (m1, m2, m3) ->
  Cli.isNum13 m1 = true /\ Cli.isNum13 m2 = true /\ Cli.isNum13 m3 = true.
Proof.
  unfold Cli.matchRgb. intros H.
  destruct (Cli.expect "rgb(" s) as [s1|]; [|done]. cbn [mbind option_bind] in H.
  destruct (Cli.digits13 (trimStart s1)) as [[d1 r1]|] eqn:D1; [|done].
  cbn [mbind option_bind] in H.
  destruct (Cli.expect "," (trimStart r1)) as [s2|]; [|done]. cbn [mbind option_bind] in H.
  destruct (Cli.digits13 (trimStart s2)) as [[d2 r2]|] eqn:D2; [|done].
  cbn [mbind option_bind] in H.
  destruct (Cli.expect "," (trimStart r2)) as [s3|]; [|done]. cbn [mbind option_bind] in H.
  destruct (Cli.digits13 (trimStart s3)) as [[d3 r3]|] eqn:D3; [|done].
  cbn [mbind option_bind] in H.
  destruct (Cli.expect ")" (trimStart r3)) as [s4|]; [|done]. cbn [mbind option_bind] in H.
  destruct s4; [|done]. injection H as <- <- <-.
  apply digits13_spec in D1 as [D1 _], D2 as [D2 _], D3 as [D3 _]. done.
Qed.

Lemma parseColor_result (input : string) :
  match Cli.parseColor input with
  | Value c =>
      exists r g b, Cli.rgb c = (Some r, Some g, Some b) /\
                    is_byte r /\ is_byte g /\ is_byte b
  | Error message => message = "Invalid color: " +:+ input
  end.
Proof.
  unfold Cli.parseColor. cbv zeta. set (s := toLowerCase (trim input)).
  destruct (String.eqb s "white").
  { exists 255, 255, 255. unfold is_byte. repeat split; lia. }
  destruct (String.eqb s "black").
  { exists 0, 0, 0. unfold is_byte. repeat split; lia. }
  destruct (Cli.isHexColor s) eqn:Ehex.
  { destruct (isHexColor_cases s Ehex)
      as [(a & b & c & Ha & Hb & Hc & ->)|(a & b & c & d & e & f & Ha & Hb & Hc & Hd & He & Hf & ->)].
    - change (sliceFrom (String "#" ?x) 1) with x.
      change (slen (String a (String b (String c EmptyString)))) with 3.
      cbn [Z.eqb Pos.eqb].
      change (at_ (String a ?x) 0) with (String a EmptyString).
      change (at_ (String a (String b ?x)) 1) with (String b EmptyString).
      change (at_ (String a (String b (String c ?x))) 2) with (String c EmptyString).
      rewrite !append_String, !append_empty_l.
      destruct (hexPair a a Ha Ha) as (va & va' & _ & _ & ? & ? & -> & _).
      destruct (hexPair b b Hb Hb) as (vb & vb' & _ & _ & ? & ? & -> & _).
      destruct (hexPair c c Hc Hc) as (vc & vc' & _ & _ & ? & ? & -> & _).
      eexists _, _, _. split; [reflexivity|]. unfold is_byte. lia.
    - set (h := String a (String b (String c (String d (String e (String f EmptyString)))))).
      change (sliceFrom (String "#" h) 1) with h.
      change (slen h) with 6. cbn [Z.eqb Pos.eqb].
      change (slice h 0 2) with (String a (String b EmptyString)).
      change (slice h 2 4) with (String c (String d EmptyString)).
      change (slice h 4 6) with (String e (String f EmptyString)).
      destruct (hexPair a b Ha Hb) as (va & va' & _ & _ & ? & ? & -> & _).
      destruct (hexPair c d Hc Hd) as (vb & vb' & _ & _ & ? & ? & -> & _).
      destruct (hexPair e f He Hf) as (vc & vc' & _ & _ & ? & ? & -> & _).
      eexists _, _, _. split; [reflexivity|]. unfold is_byte. lia. }
  destruct (Cli.matchRgb s) as [[[m1 m2] m3]|] eqn:Ergb.
  { destruct (matchRgb_groups s m1 m2 m3 Ergb) as (H1 & H2 & H3).
    destruct (mathMin_byte m1 H1) as (r & -> & Hr).
    destruct (mathMin_byte m2 H2) as (g & -> & Hg).
    destruct (mathMin_byte m3 H3) as (b & -> & Hb).
    by exists r, g, b. }
  destruct (map trim (Cli.splitComma s)) as [|p0 [|p1 [|p2 [|p3 l]]]]; try done.
  destruct (Cli.isNum13 p0) eqn:H1; [|done].
  destruct (Cli.isNum13 p1) eqn:H2; [|done].
  destruct (Cli.isNum13 p2) eqn:H3; [|done]. cbn [andb].
  destruct (mathMin_byte p0 H1) as (r & -> & Hr).
  destruct (mathMin_byte p1 H2) as (g & -> & Hg).
  destruct (mathMin_byte p2 H3) as (b & -> & Hb).
  by exists r, g, b.
Qed.

(** X17: whatever the argument, [parseColor] either returns a colour
    whose three channels are integers between 0 and 255 (never [NaN]),
    or throws the error whose message is the text [Invalid color: ]
    followed by the argument as it was given. *)
Theorem parseColor_yields_bytes (input : string) :
  match Cli.parseColor input with
  | Value c =>
      exists r g b, Cli.rgb c = (Some r, Some g, Some b) /\
                    is_byte r /\ is_byte g /\ is_byte b
  | Error message => message = "Invalid color: " +:+ input
  end.
Proof.
  pose proof (parseColor_result input) as H.
  destruct (Cli.parseColor input) as [c|m].
  - destruct H as (r & g & b & E & Hr & Hg & Hb). by exists r, g, b.
  - exact H.
Qed.

Lemma parseColor_label (input : string) (c : Cli.Color) :
  Cli.parseColor input = Value c -> Cli.parseColor (Cli.label c) = Value c.
Proof.
  intros Hc.
  assert (Hnorm : forall s', s' = toLowerCase (trim input) ->
            Cli.label c = s' -> Cli.parseColor (Cli.label c) = Value c).
  { intros s' -> El. apply (parseColor_normalised input); [|done].
    by rewrite El, normalise_idem. }
  revert Hc Hnorm. unfold Cli.parseColor at 1. cbv zeta.
  set (s := toLowerCase (trim input)).
  destruct (String.eqb s "white") eqn:Ew.
  { intros [= <-] _. reflexivity. }
  destruct (String.eqb s "black") eqn:Eb.
  { intros [= <-] _. reflexivity. }
  destruct (Cli.isHexColor s) eqn:Ehex.
  { destruct (slen (sliceFrom s 1) =? 3); intros [= <-] Hnorm; by apply (Hnorm s). }
  destruct (Cli.matchRgb s) as [[[m1 m2] m3]|] eqn:Ergb.
  { destruct (matchRgb_groups s m1 m2 m3 Ergb) as (H1 & H2 & H3).
    destruct (mathMin_byte m1 H1) as (r & -> & Hr).
    destruct (mathMin_byte m2 H2) as (g & -> & Hg).
    destruct (mathMin_byte m3 H3) as (b & -> & Hb).
    intros [= <-] _. cbn [Cli.label numberToString].
    destruct (decimal_byte r Hr) as [Nr Pr]. destruct (decimal_byte g Hg) as [Ng Pg].
    destruct (decimal_byte b Hb) as [Nb Pb].
    pose proof (parseColor_rgb (integerToString r) (integerToString g) (integerToString b)
                  EmptyString EmptyString EmptyString EmptyString EmptyString EmptyString
                  Nr Ng Nb eq_refl eq_refl eq_refl eq_refl eq_refl eq_refl) as P.
    cbv zeta in P. rewrite Pr, Pg, Pb in P. cbn [mathMin numberToString] in P.
    rewrite !Z.min_r in P by (unfold is_byte in *; lia).
    exact P. }
  destruct (map trim (Cli.splitComma s)) as [|p0 [|p1 [|p2 [|p3 l]]]]; try done.
  destruct (Cli.isNum13 p0) eqn:H1; [|done].
  destruct (Cli.isNum13 p1) eqn:H2; [|done].
  destruct (Cli.isNum13 p2) eqn:H3; [|done]. cbn [andb].
  destruct (mathMin_byte p0 H1) as (r & -> & Hr).
  destruct (mathMin_byte p1 H2) as (g & -> & Hg).
  destruct (mathMin_byte p2 H3) as (b & -> & Hb).
  intros [= <-] _. cbn [Cli.label numberToString].
  destruct (decimal_byte r Hr) as [Nr Pr]. destruct (decimal_byte g Hg) as [Ng Pg].
  destruct (decimal_byte b Hb) as [Nb Pb].
  pose proof (parseColor_commas (integerToString r) (integerToString g) (integerToString b)
                Nr Ng Nb) as P.
  cbv zeta in P. rewrite Pr, Pg, Pb in P. cbn [mathMin numberToString] in P.
  rewrite !Z.min_r in P by (unfold is_byte in *; lia).
  exact P.
Qed.

(** X18: the label of a parsed colour is itself a notation of that
    colour: parsing the label gives the colour back, label included.  So
    two arguments that are given the same label are given the same
    channels. *)
Theorem parseColor_label_round_trip (input input' : string) (c c' : Cli.Color) :
  Cli.parseColor input = Value c -> Cli.parseColor input' = Value c' ->
  Cli.parseColor (Cli.label c) = Value c /\
  (Cli.label c = Cli.label c' -> c = c').
Proof.
  intros H H'. pose proof (parseColor_label input c H) as L.
  pose proof (parseColor_label input' c' H') as L'.
  split; [exact L|]. intros E. rewrite E in L. congruence.
Qed.

(** X18 at a clamped [rgb(...)] argument and its label. *)
Lemma parseColor_label_round_trip_witness :
  Cli.parseColor "  RGB( 300 , 0,7 ) " =
    Value (Cli.mkColor "rgb(255,0,7)" (Some 255, Some 0, Some 7)) /\
  Cli.parseColor "rgb(255,0,7)" =
    Value (Cli.mkColor "rgb(255,0,7)" (Some 255, Some 0, Some 7)) /\
  Cli.parseColor
    (Cli.label (Cli.mkColor "rgb(255,0,7)" (Some 255, Some 0, Some 7))) =
    Value (Cli.mkColor "rgb(255,0,7)" (Some 255, Some 0, Some 7)) /\
  (Cli.label (Cli.mkColor "rgb(255,0,7)" (Some 255, Some 0, Some 7)) =
   Cli.label (Cli.mkColor "rgb(255,0,7)" (Some 255, Some 0, Some 7)) ->
   Cli.mkColor "rgb(255,0,7)" (Some 255, Some 0, Some 7) =
   Cli.mkColor "rgb(255,0,7)" (Some 255, Some 0, Some 7)).
Proof.
  split; [vm_compute; reflexivity|]. split; [vm_compute; reflexivity|].
  apply (parseColor_label_round_trip "  RGB( 300 , 0,7 ) " "rgb(255,0,7)");
    vm_compute; reflexivity.
Defined.

(** X19: for hexadecimal digits [a], [b], [c] in either letter case,
    [parseColor] accepts the short notation [#abc] and reads it as the
    long notation [#aabbcc]: each channel is 17 times the value of its
    digit.  The label is the argument in lower case, so the two
    notations give the same channels under two labels. *)
Theorem parseColor_hex_notations (a b c : ascii) :
  isHexDigit a = true -> isHexDigit b = true -> isHexDigit c = true ->
  exists va vb vc,
    radixDigit 16 a = Some va /\ radixDigit 16 b = Some vb /\
    radixDigit 16 c = Some vc /\
    Cli.parseColor (String "#" (String a (String b (String c EmptyString)))) =
      Value (Cli.mkColor
               (toLowerCase (String "#" (String a (String b (String c EmptyString)))))
               (Some (17 * va), Some (17 * vb), Some (17 * vc))) /\
    Cli.parseColor
      (String "#" (String a (String a (String b (String b (String c
         (String c EmptyString))))))) =
      Value (Cli.mkColor
               (toLowerCase (String "#" (String a (String a (String b (String b
                  (String c (String c EmptyString))))))))
               (Some (17 * va), Some (17 * vb), Some (17 * vc))).
Proof.
  intros Ha Hb Hc.
  destruct (hexPair a a Ha Ha) as (va & va' & Ra & Ra' & _ & _ & Ea & _).
  destruct (hexPair b b Hb Hb) as (vb & vb' & Rb & Rb' & _ & _ & Eb & _).
  destruct (hexPair c c Hc Hc) as (vc & vc' & Rc & Rc' & _ & _ & Ec & _).
  assert (va' = va) as -> by congruence. assert (vb' = vb) as -> by congruence.
  assert (vc' = vc) as -> by congruence.
  exists va, vb, vc. repeat (split; [done|]).
  rewrite parseColor_hex3, parseColor_hex6 by done.
  rewrite Ea, Eb, Ec. cbn [toLowerCase]. change (lowerChar "#") with "#"%char.
  replace (va * 16 + va) with (17 * va) by lia.
  replace (vb * 16 + vb) with (17 * vb) by lia.
  replace (vc * 16 + vc) with (17 * vc) by lia. done.
Qed.

(** X19 at [#Fa0], read as [#FFaa00]. *)
Lemma parseColor_hex_notations_witness :
  exists va vb vc,
    radixDigit 16 "F" = Some va /\ radixDigit 16 "a" = Some vb /\
    radixDigit 16 "0" = Some vc /\
    Cli.parseColor "#Fa0" =
      Value (Cli.mkColor (toLowerCase "#Fa0")
               (Some (17 * va), Some (17 * vb), Some (17 * vc))) /\
    Cli.parseColor "#FFaa00" =
      Value (Cli.mkColor (toLowerCase "#FFaa00")
               (Some (17 * va), Some (17 * vb), Some (17 * vc))).
Proof.
  apply (parseColor_hex_notations "F" "a" "0"); reflexivity.
Defined.

(** X20: three groups of one to three decimal digits are accepted
    both as [rgb(r, g, b)], with any white space around the numbers, and
    as [r,g,b].  Both give the numbers cut at 255 as channels, and a
    label that spells the cut numbers without spaces, so [rgb(300,0,7)]
    is the colour labelled [rgb(255,0,7)]. *)
Theorem parseColor_decimal_notations (m1 m2 m3 w1 w2 w3 w4 w5 w6 : string) :
  Cli.isNum13 m1 = true -> Cli.isNum13 m2 = true -> Cli.isNum13 m3 = true ->
  every isWhiteSpace w1 = true -> every isWhiteSpace w2 = true ->
  every isWhiteSpace w3 = true -> every isWhiteSpace w4 = true ->
  every isWhiteSpace w5 = true -> every isWhiteSpace w6 = true ->
  exists v1 v2 v3,
    parseInt m1 10 = Some v1 /\ parseInt m2 10 = Some v2 /\
    parseInt m3 10 = Some v3 /\
    0 <= v1 <= 999 /\ 0 <= v2 <= 999 /\ 0 <= v3 <= 999 /\
    let r := Z.min 255 v1 in
    let g := Z.min 255 v2 in
    let b := Z.min 255 v3 in
    Cli.parseColor ("rgb(" +:+ w1 +:+ m1 +:+ w2 +:+ "," +:+ w3 +:+ m2 +:+ w4 +:+ ","
                    +:+ w5 +:+ m3 +:+ w6 +:+ ")") =
      Value (Cli.mkColor ("rgb(" +:+ integerToString r +:+ "," +:+ integerToString g
                          +:+ "," +:+ integerToString b +:+ ")")
               (Some r, Some g, Some b)) /\
    Cli.parseColor (m1 +:+ "," +:+ m2 +:+ "," +:+ m3) =
      Value (Cli.mkColor (integerToString r +:+ "," +:+ integerToString g +:+ ","
                          +:+ integerToString b)
               (Some r, Some g, Some b)).
Proof.
  intros H1 H2 H3 W1 W2 W3 W4 W5 W6.
  destruct (parseInt_isNum13 m1 H1) as (v1 & E1 & B1).
  destruct (parseInt_isNum13 m2 H2) as (v2 & E2 & B2).
  destruct (parseInt_isNum13 m3 H3) as (v3 & E3 & B3).
  exists v1, v2, v3. repeat (split; [done || lia|]). cbv zeta.
  rewrite (parseColor_rgb m1 m2 m3 w1 w2 w3 w4 w5 w6) by done.
  rewrite (parseColor_commas m1 m2 m3) by done.
  cbv zeta. rewrite E1, E2, E3. cbn [mathMin numberToString]. done.
Qed.

(** X20 at [rgb( 300 , 0,7 )] and [300,0,7]. *)
Lemma parseColor_decimal_notations_witness :
  exists v1 v2 v3,
    parseInt "300" 10 = Some v1 /\ parseInt "0" 10 = Some v2 /\
    parseInt "7" 10 = Some v3 /\
    0 <= v1 <= 999 /\ 0 <= v2 <= 999 /\ 0 <= v3 <= 999 /\
    let r := Z.min 255 v1 in
    let g := Z.min 255 v2 in
    let b := Z.min 255 v3 in
    Cli.parseColor ("rgb(" +:+ " " +:+ "300" +:+ " " +:+ "," +:+ " " +:+ "0"
                    +:+ EmptyString +:+ "," +:+ EmptyString +:+ "7" +:+ " " +:+ ")") =
      Value (Cli.mkColor ("rgb(" +:+ integerToString r +:+ "," +:+ integerToString g
                          +:+ "," +:+ integerToString b +:+ ")")
               (Some r, Some g, Some b)) /\
    Cli.parseColor ("300" +:+ "," +:+ "0" +:+ "," +:+ "7") =
      Value (Cli.mkColor (integerToString r +:+ "," +:+ integerToString g +:+ ","
                          +:+ integerToString b)
               (Some r, Some g, Some b)).
Proof.
  apply (parseColor_decimal_notations "300" "0" "7" " " " " " " EmptyString EmptyString " ");
    reflexivity.
Defined.

(** X21: on a number sign followed by three or six hexadecimal
    digits, the value of a colour input, the page's [parseHexColor]
    gives the channels that the batch tool's [parseColor] gives. *)
Theorem parseHexColor_agrees_with_parseColor (h : string) :
  every isHexDigit h = true -> slen h = 3 \/ slen h = 6 ->
  exists c, Cli.parseColor (String "#" h) = Value c /\
            Page.parseHexColor (String "#" h) = Cli.rgb c.
Proof.
  intros Hh Hl.
  assert (Hc : Cli.isHexColor (String "#" h) = true).
  { cbn [Cli.isHexColor]. rewrite Hh. change (code "#" =? 35) with true.
    destruct Hl as [-> | ->]; reflexivity. }
  destruct (isHexColor_cases _ Hc)
    as [(a & b & c & Ha & Hb & Hc' & E)
       |(a & b & c & d & e & f & Ha & Hb & Hc' & Hd & He & Hf & E)];
    injection E as ->.
  - rewrite parseColor_hex3 by done. eexists. split; [reflexivity|].
    reflexivity.
  - rewrite parseColor_hex6 by done. eexists. split; [reflexivity|].
    reflexivity.
Qed.

(** X21 at [#1e90ff]. *)
Lemma parseHexColor_agrees_with_parseColor_witness :
  exists c, Cli.parseColor "#1e90ff" = Value c /\
            Page.parseHexColor "#1e90ff" = Cli.rgb c.
Proof.
  apply (parseHexColor_agrees_with_parseColor "1e90ff"); [reflexivity|].
  right. reflexivity.
Defined.

(** ** The options of [main] *)

Lemma absent_app_cons (pre rest : list string) (name other v : string) :
  name ∉ pre -> name <> other -> name ∉ v :: rest ->
  name ∉ pre ++ other :: v :: rest.
Proof.
  intros Hp Ho Hr. rewrite not_elem_of_app, not_elem_of_cons. done.
Qed.

(** X22: the colour-distance option of the batch tool is read after
    the first [--nearBgDist], wherever its older name [--nearWhiteDist]
    stands.  When [--nearWhiteDist] is not given, the option is 160 if
    [--nearBgDist] is absent or is only the last argument; the older
    name is read when the newer one is absent.  The band radius and the
    alpha bound are 2 and 10 when their flags are absent.  The value is
    one of at most 15 characters, which [parseInt] reads exactly. *)
Theorem main_integer_options (pre rest : list string) (v : string) :
  "--nearBgDist" ∉ pre -> (String.length v <= 15)%nat ->
  Cli.mainNearBgDist (pre ++ "--nearBgDist" :: v :: rest) = parseInt v 10 /\
  ("--nearWhiteDist" ∉ pre ->
   Cli.mainNearBgDist pre = Some 160 /\
   Cli.mainNearBgDist (pre ++ ["--nearBgDist"]) = Some 160 /\
   ("--nearBgDist" ∉ v :: rest ->
    Cli.mainNearBgDist (pre ++ "--nearWhiteDist" :: v :: rest) = parseInt v 10)) /\
  ("--bandRadius" ∉ pre -> Cli.mainBandRadius pre = Some 2) /\
  ("--alphaBg" ∉ pre -> Cli.mainAlphaBg pre = Some 10).
Proof.
  intros Hn _. unfold Cli.mainNearBgDist, Cli.mainBandRadius, Cli.mainAlphaBg.
  split; [|split; [|split]].
  - rewrite (proj1 (getArg_cases pre rest _ v _ Hn)). reflexivity.
  - intros Ho. split; [|split].
    + rewrite (proj2 (proj2 (getArg_cases pre [] _ EmptyString _ Hn))).
      rewrite (proj2 (proj2 (getArg_cases pre [] _ EmptyString _ Ho))). reflexivity.
    + rewrite (proj1 (proj2 (getArg_cases pre [] _ EmptyString _ Hn))).
      assert (Ho' : "--nearWhiteDist" ∉ pre ++ ["--nearBgDist"]).
      { rewrite not_elem_of_app, not_elem_of_cons. split; [done|].
        split; [discriminate | apply not_elem_of_nil]. }
      rewrite (proj2 (proj2 (getArg_cases _ [] _ EmptyString _ Ho'))). reflexivity.
    + intros Hr.
      assert (Hn' : "--nearBgDist" ∉ pre ++ "--nearWhiteDist" :: v :: rest).
      { apply absent_app_cons; [done | discriminate | done]. }
      rewrite (proj2 (proj2 (getArg_cases _ [] _ EmptyString _ Hn'))).
      rewrite (proj1 (getArg_cases pre rest _ v _ Ho)). reflexivity.
  - intros Hb. rewrite (proj2 (proj2 (getArg_cases pre [] _ EmptyString _ Hb))).
    reflexivity.
  - intros Ha. rewrite (proj2 (proj2 (getArg_cases pre [] _ EmptyString _ Ha))).
    reflexivity.
Qed.

(** X22 at a command line that gives the older name first. *)
Lemma main_integer_options_witness :
  ("--nearBgDist" ∉ ["node"; "tool.js"; "art"; "--nearWhiteDist"; "90"]) /\
  (String.length "120" <= 15)%nat /\
  parseInt "120" 10 = Some 120 /\
  Cli.mainNearBgDist (["node"; "tool.js"; "art"; "--nearWhiteDist"; "90"] ++
                      "--nearBgDist" :: "120" :: ["--csv"; "out.csv"])
    = parseInt "120" 10.
Proof.
  assert (H1 : "--nearBgDist" ∉ ["node"; "tool.js"; "art"; "--nearWhiteDist"; "90"]).
  { rewrite !not_elem_of_cons. repeat split; try discriminate. apply not_elem_of_nil. }
  assert (H2 : (String.length "120" <= 15)%nat) by (cbn; lia).
  split; [exact H1|]. split; [exact H2|]. split; [reflexivity|].
  exact (proj1 (main_integer_options ["node"; "tool.js"; "art"; "--nearWhiteDist"; "90"]
                  ["--csv"; "out.csv"] "120" H1 H2)).
Defined.

Lemma parseColors_spec (args : list string) :
  match Cli.parseColors args with
  | Value cs => Forall2 (fun a c => Cli.parseColor a = Value c) args cs
  | Error m => exists a, a ∈ args /\ Cli.parseColor a = Error m
  end.
Proof.
  induction args as [|a args IH]; cbn [Cli.parseColors]; [constructor|].
  destruct (Cli.parseColor a) as [c|m] eqn:Ea.
  - destruct (Cli.parseColors args) as [cs|m].
    + by constructor.
    + destruct IH as (a' & Hin & Ha'). exists a'. split; [by right | done].
  - exists a. split; [by left | done].
Qed.

Lemma parsed_labels_determine (args : list string) (cs : list Cli.Color) :
  Forall2 (fun a c => Cli.parseColor a = Value c) args cs ->
  forall c c', c ∈ cs -> c' ∈ cs -> Cli.label c = Cli.label c' -> c = c'.
Proof.
  intros HF c c' Hc Hc' El.
  assert (P : forall x, x ∈ cs -> Cli.parseColor (Cli.label x) = Value x).
  { intros x Hx. apply list_elem_of_lookup_1 in Hx as [i Hi].
    destruct (Forall2_lookup_r _ _ _ _ _ HF Hi) as (a & _ & Ha).
    by apply (parseColor_label a). }
  pose proof (P c Hc) as E. pose proof (P c' Hc') as E'.
  rewrite El in E. congruence.
Qed.

(** X23: the backgrounds that [main] hands to the analysis.  Without
    a value for [--bg] they are white and black, in this order;
    otherwise they are the values of [--bg] in order, each read by
    [parseColor].  The list is never empty, two of its colours with the
    same label are the same colour, and without [--segBg] the
    segmentation background is the first of them.  One invalid value
    makes [main] throw the error that names it. *)
Theorem main_backgrounds (argv : list string) :
  match Cli.mainBackgrounds argv with
  | Value bgs =>
      bgs <> [] /\
      (Cli.getArgs argv "--bg" = [] ->
       bgs = [Cli.mkColor "white" (Some 255, Some 255, Some 255);
              Cli.mkColor "black" (Some 0, Some 0, Some 0)]) /\
      (Cli.getArgs argv "--bg" <> [] ->
       Forall2 (fun a c => Cli.parseColor a = Value c) (Cli.getArgs argv "--bg") bgs) /\
      (forall c c', c ∈ bgs -> c' ∈ bgs -> Cli.label c = Cli.label c' -> c = c') /\
      (Cli.getArg argv "--segBg" None = None ->
       exists c, head bgs = Some c /\ Cli.mainSegBg argv bgs = Value c)
  | Error message =>
      exists a, a ∈ Cli.getArgs argv "--bg" /\ message = "Invalid color: " +:+ a
  end.
Proof.
  unfold Cli.mainBackgrounds. cbv zeta.
  destruct (Cli.getArgs argv "--bg") as [|a l] eqn:E.
  - change (len (@nil string) >? 0) with false. cbv iota.
    change (Cli.parseColors ["white"; "black"])
      with (Value [Cli.mkColor "white" (Some 255, Some 255, Some 255);
                   Cli.mkColor "black" (Some 0, Some 0, Some 0)]).
    split; [done|]. split; [done|]. split; [done|]. split.
    + apply (parsed_labels_determine ["white"; "black"]).
      repeat constructor.
    + intros Hs. eexists. split; [reflexivity|]. unfold Cli.mainSegBg. by rewrite Hs.
  - assert (Hl : (len (a :: l) >? 0) = true).
    { unfold len. cbn [length]. apply Z.gtb_lt. lia. }
    rewrite Hl. pose proof (parseColors_spec (a :: l)) as P.
    destruct (Cli.parseColors (a :: l)) as [bgs|m].
    + inversion P as [|a0 c0 l0 cs0 Hc Hcs]; subst.
      split; [done|]. split; [done|]. split; [done|]. split.
      * by apply (parsed_labels_determine (a :: l)).
      * intros Hs. exists c0. split; [done|]. unfold Cli.mainSegBg. by rewrite Hs.
    + destruct P as (a' & Hin & Ha'). exists a'. split; [done|].
      pose proof (parseColor_result a') as R. rewrite Ha' in R. exact R.
Qed.

Lemma code_eq (c : ascii) (n : Z) : (code c =? n) = true -> c = charOf n.
Proof. intros H%Z.eqb_eq. by rewrite <- (charOf_code c), H. Qed.

Lemma readQuoted_doubled (s rest : string) :
  fieldEnd rest ->
  readQuoted (Cli.doubleQuotes s +:+ String Cli.quote rest) = (s, rest).
Proof.
  intros Hr. induction s as [|c s IH].
  - cbn [Cli.doubleQuotes]. rewrite append_empty_l. cbn [readQuoted].
    change (code Cli.quote =? 34) with true. cbv iota.
    destruct Hr as [-> | [r ->]]; [done|].
    change (code (charOf 44) =? 34) with false. done.
  - cbn [Cli.doubleQuotes]. destruct (code c =? 34) eqn:Ec.
    + rewrite !append_String. cbn [readQuoted].
      change (code Cli.quote =? 34) with true. cbv iota. rewrite IH.
      by rewrite (code_eq c 34 Ec).
    + rewrite append_String. cbn [readQuoted]. rewrite Ec, IH. done.
Qed.

Lemma readPlain_field (s rest : string) :
  Cli.needsQuoting s = false -> fieldEnd rest ->
  readPlain (s +:+ rest) = (s, rest).
Proof.
  intros Hs Hr. induction s as [|c s IH].
  - rewrite append_empty_l. destruct Hr as [-> | [r ->]]; [done|].
    cbn [readPlain]. change (code (charOf 44) =? 44) with true. done.
  - cbn [Cli.needsQuoting] in Hs. rewrite !orb_false_iff in Hs.
    destruct Hs as [[[_ Hc] _] Hs]. rewrite append_String. cbn [readPlain].
    rewrite Hc, IH by done. done.
Qed.

Lemma readField_escape (s rest : string) :
  fieldEnd rest ->
  readField (Cli.csvEscape (Cli.CString s) +:+ rest) = (s, rest).
Proof.
  intros Hr. unfold Cli.csvEscape. cbn [Cli.cellText].
  destruct (Cli.needsQuoting s) eqn:Hs.
  - rewrite append_String, append_assoc, append_String, append_empty_l.
    cbn [readField]. change (code Cli.quote =? 34) with true. cbv iota.
    by apply readQuoted_doubled.
  - destruct s as [|c s].
    + rewrite append_empty_l. destruct Hr as [-> | [r ->]]; [done|].
      cbn [readField]. change (code (charOf 44) =? 34) with false. cbv iota.
      cbn [readPlain]. change (code (charOf 44) =? 44) with true. done.
    + pose proof Hs as Hs'. cbn [Cli.needsQuoting] in Hs'.
      rewrite !orb_false_iff in Hs'. destruct Hs' as [[[Hq _] _] _].
      rewrite append_String. cbn [readField]. rewrite Hq.
      rewrite <- append_String. by apply readPlain_field.
Qed.

Lemma readFields_csvLine (row : list string) :
  readFields (length row) (Cli.csvLine (map Cli.CString row)) = row.
Proof.
  unfold Cli.csvLine. induction row as [|s row IH]; [done|].
  destruct row as [|s2 row].
  - cbn [map Cli.joinComma length readFields].
    rewrite <- (append_empty_r (Cli.csvEscape (Cli.CString s))).
    rewrite readField_escape by (by left). done.
  - change (Cli.joinComma (map Cli.csvEscape (map Cli.CString (s :: s2 :: row))))
      with (Cli.csvEscape (Cli.CString s) +:+
            String (charOf 44)
              (Cli.joinComma (map Cli.csvEscape (map Cli.CString (s2 :: row))))).
    change (length (s :: s2 :: row)) with (S (length (s2 :: row))).
    cbn [readFields]. rewrite readField_escape by (right; eauto).
    by rewrite IH.
Qed.

(** X24: two rows of as many cells that are written as the same line
    of the report hold the same cells: quoting the cells that hold a
    double quote, a comma or a line feed, and doubling their double
    quotes, loses nothing. *)
Theorem csvLine_is_unambiguous (row row' : list string) :
  length row = length row' ->
  Cli.csvLine (map Cli.CString row) = Cli.csvLine (map Cli.CString row') ->
  row = row'.
Proof.
  intros Hl He. rewrite <- (readFields_csvLine row), <- (readFields_csvLine row').
  by rewrite Hl, He.
Qed.

(** X24 at a row whose first cell holds a comma. *)
Lemma csvLine_is_unambiguous_witness :
  Cli.csvLine (map Cli.CString ["a,b"; "c"])
    = String Cli.quote ("a,b" +:+ String Cli.quote ",c") /\
  ["a,b"; "c"] = ["a,b"; "c"].
Proof.
  split; [reflexivity|].
  apply (csvLine_is_unambiguous ["a,b"; "c"] ["a,b"; "c"]); reflexivity.
Defined.

(** ** The page: canvas size *)

Lemma Math_round_IZR (k : Z) : Math_round (IZR k) = k.
Proof. unfold Math_round. apply Zfloor_eq. lra. Qed.

Lemma Math_round_le (x : R) (M : Z) : (x < IZR M + 0.5)%R -> Math_round x <= M.
Proof.
  intros Hx. unfold Math_round.
  pose proof (Zfloor_bound (x + 0.5)) as [Hlo _].
  assert (H : (IZR (Zfloor (x + 0.5)) < IZR (M + 1))%R).
  { rewrite plus_IZR. lra. }
  apply lt_IZR in H. lia.
Qed.

Lemma Math_round_ge (x : R) (M : Z) : (IZR M - 0.5 <= x)%R -> M <= Math_round x.
Proof. intros Hx. unfold Math_round. apply Zfloor_lub. lra. Qed.

Lemma isZero_pos (x : R) : (0 < x)%R -> Page.isZero x = false.
Proof. intros Hx. unfold Page.isZero. destruct (Req_dec_T x 0); [lra | done]. Qed.

Section Rounding.
Local Open Scope R_scope.

(** What is assumed of the rounding: a result between [2^-64] and
    [2^64] is off by at most its [2^-53]th part, and an integer up to
    [2^53] is returned as it is.  Rounding to the nearest double has
    both properties; so has exact arithmetic. *)
Variable rnd : R -> R.
Hypothesis rnd_error : forall x,
  / 18446744073709551616 <= Rabs x <= 18446744073709551616 ->
  Rabs (rnd x - x) <= Rabs x / 9007199254740992.
Hypothesis rnd_integer : forall k : Z,
  (Z.abs k <= 9007199254740992)%Z -> rnd (IZR k) = IZR k.

Lemma rnd_near (x X : R) :
  / 18446744073709551616 <= x <= X -> X <= 18446744073709551616 ->
  x - X / 9007199254740992 <= rnd x <= x + X / 9007199254740992.
Proof.
  intros [Hlo Hhi] HX.
  assert (Hpos : 0 < x).
  { assert (0 < / 18446744073709551616) by (apply Rinv_0_lt_compat; lra). lra. }
  pose proof (rnd_error x) as H. rewrite (Rabs_pos_eq x) in H by lra.
  specialize (H ltac:(lra)).
  pose proof (Rle_abs (rnd x - x)) as A1.
  pose proof (Rle_abs (- (rnd x - x))) as A2. rewrite Rabs_Ropp in A2.
  assert (x / 9007199254740992 <= X / 9007199254740992).
  { unfold Rdiv. apply Rmult_le_compat_r; [|lra].
    left. apply Rinv_0_lt_compat. lra. }
  lra.
Qed.

(** The rounded product [w * scale] for a side [w] of an image that is
    scaled down to the limit [M]. *)
Lemma scaled_side (w d : R) (M : Z) :
  (1 <= M <= 2147483648)%Z -> IZR M < d -> d <= 2147483648 -> 1 <= w <= d ->
  let scale := rnd (rnd (IZR M / d) * 1) in
  rnd (w * scale) < IZR M + 0.5 /\
  (w = d -> IZR M - 0.5 <= rnd (w * scale)).
Proof.
  intros [HM1 HM2] HMd Hd [Hw1 Hwd]. apply IZR_le in HM1, HM2. cbv zeta.
  set (q := IZR M / d).
  assert (Hd0 : 0 < d) by lra.
  assert (Hq1 : / 2147483648 <= q).
  { unfold q. apply Rdiv_le_lower; [lra|].
    assert (/ 2147483648 * d <= 1).
    { apply (Rmult_le_reg_l 2147483648); [lra|].
      rewrite <- Rmult_assoc, Rinv_r by lra. lra. }
    lra. }
  assert (Hq2 : q <= 1) by (unfold q; apply Rdiv_le_upper; lra).
  assert (Hqd : q * d = IZR M) by (unfold q; field; lra).
  pose proof (rnd_near q 1 ltac:(lra) ltac:(lra)) as Hb.
  set (b := rnd q) in *. rewrite Rmult_1_r.
  pose proof (rnd_near b 2 ltac:(lra) ltac:(lra)) as Hs.
  set (s := rnd b) in *.
  assert (Hsq : q - 3 / 9007199254740992 <= s <= q + 3 / 9007199254740992) by lra.
  assert (Hws : w * q - 2147483648 * (3 / 9007199254740992) <= w * s
                <= w * q + 2147483648 * (3 / 9007199254740992)).
  { assert (Hw0 : 0 <= w) by lra. assert (Hw2 : w <= 2147483648) by lra.
    assert (w * (3 / 9007199254740992) <= 2147483648 * (3 / 9007199254740992)).
    { apply Rmult_le_compat_r; lra. }
    assert (w * (q - 3 / 9007199254740992) <= w * s)
      by (apply Rmult_le_compat_l; lra).
    assert (w * s <= w * (q + 3 / 9007199254740992))
      by (apply Rmult_le_compat_l; lra).
    lra. }
  assert (Hwq : w * q <= IZR M).
  { rewrite <- Hqd, (Rmult_comm q d). apply Rmult_le_compat_r; lra. }
  assert (Hwq1 : / 2147483648 <= w * q).
  { assert (1 * q <= w * q) by (apply Rmult_le_compat_r; lra). lra. }
  assert (Hs1 : / 4294967296 <= s) by lra.
  assert (Hws1 : / 4294967296 <= w * s).
  { assert (1 * s <= w * s) by (apply Rmult_le_compat_r; lra). lra. }
  pose proof (rnd_near (w * s) 4294967296 ltac:(lra) ltac:(lra)) as Hr.
  split; [lra|]. intros ->. rewrite (Rmult_comm d q), Hqd in Hws. lra.
Qed.

End Rounding.

(** X25: for an image whose sides are between 1 and [2^31], a
    whole-number limit between 1 and [2^31] and no extra scale,
    [fitToMaxSize] gives a canvas of at least one pixel each way.  An
    image larger than the limit is scaled down so that neither side
    exceeds the limit and the larger side is the limit exactly.  An
    image of whole-number size within the limit keeps its size, at
    scale 1.  This holds however the division and the multiplications
    are rounded, as long as a result between [2^-64] and [2^64] is off
    by at most its [2^-53]th part and whole numbers up to [2^53] are
    exact, as in double precision. *)
Theorem fitToMaxSize_bounds (rnd : R -> R) (width height : R) (M : Z) :
  (forall x, (/ 18446744073709551616 <= Rabs x <= 18446744073709551616)%R ->
     (Rabs (rnd x - x) <= Rabs x / 9007199254740992)%R) ->
  (forall k : Z, Z.abs k <= 9007199254740992 -> rnd (IZR k) = IZR k) ->
  (1 <= width <= 2147483648)%R -> (1 <= height <= 2147483648)%R ->
  1 <= M <= 2147483648 ->
  let f := Page.fitToMaxSize rnd width height (IZR M) 1 in
  (1 <= Page.fit_width f)%R /\ (1 <= Page.fit_height f)%R /\
  ((IZR M < Rmax width height)%R ->
   (Page.fit_width f <= IZR M)%R /\ (Page.fit_height f <= IZR M)%R /\
   Rmax (Page.fit_width f) (Page.fit_height f) = IZR M) /\
  ((Rmax width height <= IZR M)%R ->
   Page.fit_scale f = 1%R /\
   forall W H : Z, width = IZR W -> height = IZR H ->
     Page.fit_width f = width /\ Page.fit_height f = height).
Proof.
  intros Herr Hint Hw Hh HM. cbv zeta. unfold Page.fitToMaxSize.
  rewrite (isZero_pos width), (isZero_pos height) by lra. cbn [orb]. cbv zeta.
  cbn [Page.fit_width Page.fit_height Page.fit_scale].
  split; [apply IZR_le; lia|]. split; [apply IZR_le; lia|].
  split.
  - intros Hbig. rewrite (proj2 (Rltb_true _ _) Hbig).
    remember (Rmax width height) as d eqn:Ed.
    assert (Hwd : (width <= d)%R) by (rewrite Ed; apply Rmax_l).
    assert (Hhd : (height <= d)%R) by (rewrite Ed; apply Rmax_r).
    assert (Hd : (d <= 2147483648)%R).
    { rewrite Ed. apply Rmax_lub; lra. }
    destruct (scaled_side rnd Herr width d M HM Hbig Hd ltac:(lra)) as [Uw Lw].
    destruct (scaled_side rnd Herr height d M HM Hbig Hd ltac:(lra)) as [Uh Lh].
    cbv zeta in Uw, Lw, Uh, Lh.
    pose proof (Math_round_le _ M Uw) as Rw. pose proof (Math_round_le _ M Uh) as Rh.
    split; [apply IZR_le; lia|]. split; [apply IZR_le; lia|].
    assert (Hcase : d = height \/ d = width).
    { rewrite Ed. unfold Rmax. destruct (Rle_dec width height); [by left | by right]. }
    destruct Hcase as [Ec|Ec].
    + pose proof (Math_round_ge _ M (Lh (eq_sym Ec))) as Gh.
      rewrite Rmax_right by (apply IZR_le; lia). f_equal. lia.
    + pose proof (Math_round_ge _ M (Lw (eq_sym Ec))) as Gw.
      rewrite Rmax_left by (apply IZR_le; lia). f_equal. lia.
  - intros Hsmall. rewrite (proj2 (Rltb_false _ _) Hsmall).
    assert (E1 : rnd (1 * 1)%R = 1%R).
    { replace (1 * 1)%R with (IZR 1) by lra. apply Hint. lia. }
    rewrite E1. split; [done|]. intros W H -> ->.
    assert (HW : 1 <= W <= 2147483648) by (split; apply le_IZR; lra).
    assert (HH : 1 <= H <= 2147483648) by (split; apply le_IZR; lra).
    replace (IZR W * 1)%R with (IZR W) by lra.
    replace (IZR H * 1)%R with (IZR H) by lra.
    rewrite !Hint by lia. rewrite !Math_round_IZR.
    split; f_equal; lia.
Qed.

(** X25 at an image of 2000 by 1000 pixels and the limit 1024, with
    exact arithmetic. *)
Lemma fitToMaxSize_bounds_witness :
  (1 <= 2000 <= 2147483648)%R /\ (1 <= 1000 <= 2147483648)%R /\
  1 <= 1024 <= 2147483648 /\
  (IZR 1024 < Rmax 2000 1000)%R /\
  Rmax (Page.fit_width (Page.fitToMaxSize (fun x => x) 2000 1000 (IZR 1024) 1))
       (Page.fit_height (Page.fitToMaxSize (fun x => x) 2000 1000 (IZR 1024) 1))
    = IZR 1024.
Proof.
  assert (H1 : (1 <= 2000 <= 2147483648)%R) by lra.
  assert (H2 : (1 <= 1000 <= 2147483648)%R) by lra.
  assert (H3 : 1 <= 1024 <= 2147483648) by lia.
  assert (H4 : (IZR 1024 < Rmax 2000 1000)%R).
  { rewrite Rmax_left by lra. lra. }
  assert (Herr : forall x : R,
            (/ 18446744073709551616 <= Rabs x <= 18446744073709551616)%R ->
            (Rabs (x - x) <= Rabs x / 9007199254740992)%R).
  { intros x Hx. replace (x - x)%R with 0%R by lra. rewrite Rabs_R0.
    assert (0 < / 18446744073709551616)%R by (apply Rinv_0_lt_compat; lra).
    apply Rdiv_le_lower; lra. }
  assert (Hint : forall k : Z, Z.abs k <= 9007199254740992 -> IZR k = IZR k) by done.
  split; [exact H1|]. split; [exact H2|]. split; [exact H3|]. split; [exact H4|].
  destruct (fitToMaxSize_bounds (fun x => x) 2000 1000 1024 Herr Hint H1 H2 H3)
    as (_ & _ & Hbig & _).
  exact (proj2 (proj2 (Hbig H4))).
Defined.


Lemma zget_replicate_zero (n : nat) (i : Z) :
  0 <= i < Z.of_nat n -> zget (replicate n 0) i = Some 0.
Proof.
  intros Hi. unfold zget. destruct (i <? 0) eqn:E; [lia|].
  apply lookup_replicate_2. lia.
Qed.

Lemma pixelBytes_painted (data : list Z) (i : Z) :
  0 <= i -> i * 4 + 3 < Z.of_nat (length data) ->
  pixelBytes (zset (zset (zset (zset data (i * 4) 242) (i * 4 + 1) 80) (i * 4 + 2) 60)
                (i * 4 + 3) 180) i
    = (Some 242, Some 80, Some 60, Some 180).
Proof.
  intros Hi Hl. unfold pixelBytes.
  rewrite (zget_zset_ne _ (i * 4 + 3) (i * 4)) by lia.
  rewrite (zget_zset_ne _ (i * 4 + 2) (i * 4)) by lia.
  rewrite (zget_zset_ne _ (i * 4 + 1) (i * 4)) by lia.
  rewrite zget_zset_eq by lia.
  rewrite (zget_zset_ne _ (i * 4 + 3) (i * 4 + 1)) by lia.
  rewrite (zget_zset_ne _ (i * 4 + 2) (i * 4 + 1)) by lia.
  rewrite zget_zset_eq by (rewrite length_zset; lia).
  rewrite (zget_zset_ne _ (i * 4 + 3) (i * 4 + 2)) by lia.
  rewrite zget_zset_eq by (rewrite !length_zset; lia).
  rewrite zget_zset_eq by (rewrite !length_zset; lia).
  done.
Qed.

Lemma pixelBytes_other (data : list Z) (i j : Z) (a b c d : Z) :
  i <> j ->
  pixelBytes (zset (zset (zset (zset data (i * 4) a) (i * 4 + 1) b) (i * 4 + 2) c)
                (i * 4 + 3) d) j
    = pixelBytes data j.
Proof.
  intros Hij. unfold pixelBytes. by rewrite !zget_zset_ne by lia.
Qed.

(** X26: given a mask and a canvas of positive size, [renderOverlay]
    puts on the overlay a buffer of four bytes for each pixel of the
    canvas in which the pixels whose mask cell is set are the colour
    242, 80, 60 at alpha 180 and all others are transparent black; cells
    of the mask beyond the canvas are ignored and pixels beyond the mask
    stay transparent. *)
Theorem renderOverlay_paints_mask (mask : list bool) (width height : Z) :
  0 < width -> 0 < height ->
  exists data,
    Page.renderOverlay (Some mask) width height = Some data /\
    length data = Z.to_nat (width * height * 4) /\
    forall i, 0 <= i < width * height ->
      pixelBytes data i =
        if truthy (zget mask i) then (Some 242, Some 80, Some 60, Some 180)
        else (Some 0, Some 0, Some 0, Some 0).
Proof.
  intros _ _. eexists. split; [reflexivity|].
  set (N := width * height).
  cut (let data := for_upto (len mask) (fun i data =>
              if negb (truthy (zget mask i)) then data
              else
                let off := i * 4 in
                zset (zset (zset (zset data off 242) (off + 1) 80) (off + 2) 60)
                     (off + 3) 180)
              (replicate (Z.to_nat (N * 4)) 0) in
       length data = Z.to_nat (N * 4) /\
       forall i, 0 <= i < N ->
         pixelBytes data i =
           if (i <? len mask) && truthy (zget mask i)
           then (Some 242, Some 80, Some 60, Some 180)
           else (Some 0, Some 0, Some 0, Some 0)).
  { cbv zeta. intros [Hl Hp]. split; [exact Hl|]. intros i Hi. rewrite (Hp i Hi).
    destruct (Z.ltb_spec i (len mask)) as [_|Hge]; [done|].
    assert (E : zget mask i = None).
    { unfold zget. destruct (i <? 0); [done|]. apply lookup_ge_None. unfold len in Hge. lia. }
    by rewrite E. }
  cbv zeta.
  apply (for_upto_ind (fun k data =>
           length data = Z.to_nat (N * 4) /\
           forall i, 0 <= i < N ->
             pixelBytes data i =
               if (i <? k) && truthy (zget mask i)
               then (Some 242, Some 80, Some 60, Some 180)
               else (Some 0, Some 0, Some 0, Some 0))).
  - unfold len. lia.
  - split; [apply length_replicate|]. intros i Hi.
    destruct (Z.ltb_spec i 0) as [?|_]; [lia|]. cbn [andb].
    unfold pixelBytes. by rewrite !zget_replicate_zero by lia.
  - intros k data Hk [Hl Hp]. destruct (truthy (zget mask k)) eqn:Ek; cbn [negb].
    + cbv zeta. split; [by rewrite !length_zset|]. intros i Hi.
      destruct (Z.eq_dec i k) as [->|Hne].
      * rewrite Ek. destruct (Z.ltb_spec k (k + 1)) as [_|?]; [|lia]. cbn [andb].
        apply pixelBytes_painted; lia.
      * rewrite pixelBytes_other by lia. rewrite (Hp i Hi).
        destruct (Z.ltb_spec i k), (Z.ltb_spec i (k + 1)); try lia; done.
    + split; [exact Hl|]. intros i Hi. rewrite (Hp i Hi).
      destruct (Z.eq_dec i k) as [->|Hne].
      * rewrite Ek, !andb_false_r. done.
      * destruct (Z.ltb_spec i k), (Z.ltb_spec i (k + 1)); try lia; done.
Qed.

(** X26 at a canvas of two pixels by one and a mask of three cells. *)
Lemma renderOverlay_paints_mask_witness :
  0 < 2 /\ 0 < 1 /\
  Page.renderOverlay (Some [false; true; true]) 2 1
    = Some [0; 0; 0; 0; 242; 80; 60; 180] /\
  exists data,
    Page.renderOverlay (Some [false; true; true]) 2 1 = Some data /\
    length data = Z.to_nat (2 * 1 * 4) /\
    forall i, 0 <= i < 2 * 1 ->
      pixelBytes data i =
        if truthy (zget [false; true; true] i) then (Some 242, Some 80, Some 60, Some 180)
        else (Some 0, Some 0, Some 0, Some 0).
Proof.
  assert (H1 : 0 < 2) by lia. assert (H2 : 0 < 1) by lia.
  split; [exact H1|]. split; [exact H2|]. split; [reflexivity|].
  exact (renderOverlay_paints_mask [false; true; true] 2 1 H1 H2).
Defined.

(** ** Contrast of transparent and of opaque pixels *)

Lemma composite_transparent (r g b : Z) (bg : rgb) :
  composite r g b 0 bg = mkRgb (red bg) (green bg) (blue bg).
Proof.
  unfold composite. replace (IZR 0 / 255)%R with 0%R by lra.
  assert (H : forall v w : Z, Math_round (0 * IZR v + (1 - 0) * IZR w) = w).
  { intros v w. unfold Math_round. apply Zfloor_eq. lra. }
  by rewrite !H.
Qed.

(** X27: a fully transparent pixel has the contrast ratio 1
    against every background, whatever its colour bytes are, so it is
    below every threshold above 1 wherever it is sampled.  For opaque
    pixels the ratio is symmetric: the pixel against the background
    colour gives what the background colour against the pixel gives. *)
Theorem contrast_transparent_and_symmetric (r g b r' g' b' : Z) (bg : rgb) :
  is_byte (red bg) -> is_byte (green bg) -> is_byte (blue bg) ->
  contrastRatioPixelVsBg r g b 0 bg = 1%R /\
  contrastRatioPixelVsBg r g b 255 (mkRgb r' g' b') =
    contrastRatioPixelVsBg r' g' b' 255 (mkRgb r g b).
Proof.
  intros Hr Hg Hb. split.
  - unfold contrastRatioPixelVsBg. rewrite composite_transparent. cbv zeta.
    cbn [red green blue].
    pose proof (relLuminance_range _ _ _ Hr Hg Hb) as HL.
    rewrite Rmax_left, Rmin_left by lra. field. lra.
  - unfold contrastRatioPixelVsBg. rewrite !composite_opaque. cbv zeta.
    cbn [red green blue]. by rewrite Rmax_comm, Rmin_comm.
Qed.

(** X27 at a transparent red pixel over white, and at black
    and white. *)
Lemma contrast_transparent_and_symmetric_witness :
  is_byte (red white) /\ is_byte (green white) /\ is_byte (blue white) /\
  contrastRatioPixelVsBg 255 0 0 0 white = 1%R /\
  contrastRatioPixelVsBg 255 0 0 255 (mkRgb 0 0 0) =
    contrastRatioPixelVsBg 0 0 0 255 (mkRgb 255 0 0).
Proof.
  assert (B : forall v, (0 <=? v)%Z && (v <=? 255)%Z = true -> is_byte v).
  { intros v Hv. apply andb_true_iff in Hv as [H1 H2]. unfold is_byte. lia. }
  repeat (split; [apply B; reflexivity|]).
  apply (contrast_transparent_and_symmetric 255 0 0 0 0 0 white); apply B; reflexivity.
Defined.
